(** * Dominator analysis of a control flow graph (libyul/backends/evm/Dominator.h)

    A shallow embedding of the class template [Dominator<Vertex, ForEachSuccessor>]:
    the Lengauer-Tarjan computation of immediate dominators run by the
    constructor, the dominator-tree builder and the two queries.

    Conventions of the embedding:
    - [size_t] values are binary naturals [N]; the sentinel
      [std::numeric_limits<size_t>::max()] is [SIZE_MAX];
    - a [std::vector] is a list indexed by [N]; an access outside the vector
      (undefined behaviour in C++) stops the computation with [OutOfBounds];
    - [std::map::operator[]] inserts the value-initialised element when the key
      is missing, and the embedding does the same;
    - [std::set<size_t>] is a strictly increasing list, iterated in that order;
    - [solAssert] failing stops the computation with [AssertionFailed];
    - recursion and [while] loops are driven by a fuel argument, and running
      out of it is the distinguished outcome [OutOfFuel]. *)

From stdpp Require Import gmap list strings.
From Stdlib Require Import NArith Lia Sorted.

Local Open Scope N_scope.

(** ** Outcomes and the state-and-error monad *)

Inductive vec_name : Set :=
| v_vertices | v_semi | v_parent | v_ancestor | v_label
| v_predecessors | v_bucket | v_idom | v_immediateDominators.

Inductive error : Set :=
| OutOfBounds (a : vec_name) (i : N)
| AssertionFailed
| OutOfFuel.

Inductive result (St A : Type) : Type :=
| Ok (a : A) (s : St)
| Err (e : error).
Arguments Ok {St A} a s.
Arguments Err {St A} e.

Definition M (St A : Type) : Type := St → result St A.

Definition ret {St A} (a : A) : M St A := λ s, Ok a s.

Definition bind {St A B} (m : M St A) (f : A → M St B) : M St B :=
  λ s, match m s with
       | Ok a s' => f a s'
       | Err e => Err e
       end.

Definition fail {St A} (e : error) : M St A := λ _, Err e.

Definition get {St} : M St St := λ s, Ok s s.

Definition modify {St} (f : St → St) : M St unit := λ s, Ok tt (f s).

Definition solAssert {St} (b : bool) : M St unit :=
  if b then ret tt else fail AssertionFailed.

Declare Scope lt_scope.
Delimit Scope lt_scope with lt.
Notation "x ← m ; k" := (bind m (λ x, k))
  (at level 20, m at level 100, k at level 200, only parsing) : lt_scope.
Notation "m ;; k" := (bind m (λ _, k))
  (at level 100, k at level 200, only parsing, right associativity) : lt_scope.
Local Open Scope lt_scope.

Fixpoint for_each {St A} (l : list A) (f : A → M St unit) : M St unit :=
  match l with
  | [] => ret tt
  | x :: l' => f x;; for_each l' f
  end.

(** ** Vectors, sets of indices *)

Definition SIZE_MAX : N := 18446744073709551615.

Definition vec_get {A} (l : list A) (i : N) : option A := l !! N.to_nat i.

Definition vec_set {A} (l : list A) (i : N) (x : A) : list A :=
  <[N.to_nat i := x]> l.

Definition vec_size {A} (l : list A) : N := N.of_nat (length l).

Definition vec_new {A} (n : N) (x : A) : list A := replicate (N.to_nat n) x.

(** [std::set<size_t>::insert]: the set is kept strictly increasing. *)
Fixpoint set_insert (x : N) (l : list N) : list N :=
  match l with
  | [] => [x]
  | y :: l' =>
      if x <? y then x :: y :: l'
      else if x =? y then y :: l'
      else y :: set_insert x l'
  end.

(** [vec[i]] as an rvalue. *)
Definition read {St A} (a : vec_name) (proj : St → list A) (i : N) : M St A :=
  λ s, match vec_get (proj s) i with
       | Some x => Ok x s
       | None => Err (OutOfBounds a i)
       end.

(** [vec[i] = x]. *)
Definition write {St A} (a : vec_name) (proj : St → list A)
    (upd : list A → St → St) (i : N) (x : A) : M St unit :=
  λ s, if i <? vec_size (proj s)
       then Ok tt (upd (vec_set (proj s) i x) s)
       else Err (OutOfBounds a i).

Section dominator.
Context {Vertex : Type} `{Countable Vertex}.
(** [ForEachSuccessor{}(v, callback)] calls [callback] on the elements of
    [ForEachSuccessor v], in order. *)
Variable ForEachSuccessor : Vertex → list Vertex.
(** The value-initialised [Vertex] that fills [m_vertices(_numVertices)]. *)
Variable Vertex_default : Vertex.

(** The data members of the class. *)
Record Dominator : Type := mkDominator {
  m_vertices : list Vertex;
  m_vertexIndices : gmap Vertex N;
  m_immediateDominators : list N;
  m_dominatorTree : gmap N (list N)
}.

(** The object under construction together with the local variables of
    [lengauerTarjanDominator]. *)
Record LTState : Type := mkLT {
  this : Dominator;
  semi : list N;
  parent : list N;
  ancestor : list N;
  label : list N;
  visited : gset Vertex;
  predecessors : list (list N);
  bucket : list (list N);
  idom : list N;
  dfIdx : N
}.

Definition set_m_vertices (x : list Vertex) (d : Dominator) : Dominator :=
  mkDominator x (m_vertexIndices d) (m_immediateDominators d) (m_dominatorTree d).
Definition set_m_vertexIndices (x : gmap Vertex N) (d : Dominator) : Dominator :=
  mkDominator (m_vertices d) x (m_immediateDominators d) (m_dominatorTree d).
Definition set_m_immediateDominators (x : list N) (d : Dominator) : Dominator :=
  mkDominator (m_vertices d) (m_vertexIndices d) x (m_dominatorTree d).
Definition set_m_dominatorTree (x : gmap N (list N)) (d : Dominator) : Dominator :=
  mkDominator (m_vertices d) (m_vertexIndices d) (m_immediateDominators d) x.

Definition set_this (x : Dominator) (s : LTState) : LTState :=
  mkLT x (semi s) (parent s) (ancestor s) (label s) (visited s)
       (predecessors s) (bucket s) (idom s) (dfIdx s).
Definition set_semi (x : list N) (s : LTState) : LTState :=
  mkLT (this s) x (parent s) (ancestor s) (label s) (visited s)
       (predecessors s) (bucket s) (idom s) (dfIdx s).
Definition set_parent (x : list N) (s : LTState) : LTState :=
  mkLT (this s) (semi s) x (ancestor s) (label s) (visited s)
       (predecessors s) (bucket s) (idom s) (dfIdx s).
Definition set_ancestor (x : list N) (s : LTState) : LTState :=
  mkLT (this s) (semi s) (parent s) x (label s) (visited s)
       (predecessors s) (bucket s) (idom s) (dfIdx s).
Definition set_label (x : list N) (s : LTState) : LTState :=
  mkLT (this s) (semi s) (parent s) (ancestor s) x (visited s)
       (predecessors s) (bucket s) (idom s) (dfIdx s).
Definition set_visited (x : gset Vertex) (s : LTState) : LTState :=
  mkLT (this s) (semi s) (parent s) (ancestor s) (label s) x
       (predecessors s) (bucket s) (idom s) (dfIdx s).
Definition set_predecessors (x : list (list N)) (s : LTState) : LTState :=
  mkLT (this s) (semi s) (parent s) (ancestor s) (label s) (visited s)
       x (bucket s) (idom s) (dfIdx s).
Definition set_bucket (x : list (list N)) (s : LTState) : LTState :=
  mkLT (this s) (semi s) (parent s) (ancestor s) (label s) (visited s)
       (predecessors s) x (idom s) (dfIdx s).
Definition set_idom (x : list N) (s : LTState) : LTState :=
  mkLT (this s) (semi s) (parent s) (ancestor s) (label s) (visited s)
       (predecessors s) (bucket s) x (dfIdx s).
Definition set_dfIdx (x : N) (s : LTState) : LTState :=
  mkLT (this s) (semi s) (parent s) (ancestor s) (label s) (visited s)
       (predecessors s) (bucket s) (idom s) x.

Definition set_lt_vertices (x : list Vertex) (s : LTState) : LTState :=
  set_this (set_m_vertices x (this s)) s.
Definition set_lt_vertexIndices (x : gmap Vertex N) (s : LTState) : LTState :=
  set_this (set_m_vertexIndices x (this s)) s.

(** [m_vertexIndices[v]] as an rvalue: [std::map::operator[]] inserts
    [v ↦ 0] when [v] is not a key. *)
Definition index_of {St} (proj : St → gmap Vertex N)
    (upd : gmap Vertex N → St → St) (v : Vertex) : M St N :=
  λ s, match proj s !! v with
       | Some i => Ok i s
       | None => Ok 0 (upd (<[v := 0]> (proj s)) s)
       end.

Definition lt_index_of : Vertex → M LTState N :=
  index_of (λ s, m_vertexIndices (this s)) set_lt_vertexIndices.

(** *** compressPath (lines 131-147) *)
Fixpoint compressPath (fuel : nat) (_v : N) : M LTState unit :=
  match fuel with
  | O => fail OutOfFuel
  | S fuel' =>
      av ← read v_ancestor ancestor _v;
      solAssert (negb (av =? SIZE_MAX));;
      u ← read v_ancestor ancestor _v;
      au ← read v_ancestor ancestor u;
      if negb (au =? SIZE_MAX) then
        compressPath fuel' u;;
        lu ← read v_label label u;
        slu ← read v_semi semi lu;
        lv ← read v_label label _v;
        slv ← read v_semi semi lv;
        (if slu <? slv then
           lu' ← read v_label label u;
           write v_label label set_label _v lu'
         else ret tt);;
        au' ← read v_ancestor ancestor u;
        write v_ancestor ancestor set_ancestor _v au'
      else ret tt
  end.

(** *** The lambdas [link], [eval] and [toIdx] (lines 168-185) *)
Definition link (_parent _w : N) : M LTState unit :=
  write v_ancestor ancestor set_ancestor _w _parent.

Definition eval (_v : N) : M LTState N :=
  av ← read v_ancestor ancestor _v;
  if negb (av =? SIZE_MAX) then
    s ← get;
    compressPath (length (ancestor s)) _v;;
    read v_label label _v
  else ret _v.

Definition toIdx (v : Vertex) : M LTState N := lt_index_of v.

(** *** Step 1: the depth-first search (lines 199-217) *)
Definition dfs_callback (dfs : Vertex → M LTState unit) (_v w : Vertex)
    : M LTState unit :=
  s ← get;
  x ← read v_semi semi (dfIdx s);
  (if x =? SIZE_MAX then
     iv ← lt_index_of _v;
     s ← get;
     write v_parent parent set_parent (dfIdx s) iv;;
     dfs w
   else ret tt);;
  iw ← lt_index_of w;
  iv ← lt_index_of _v;
  pw ← read v_predecessors predecessors iw;
  write v_predecessors predecessors set_predecessors iw (set_insert iv pw).

Definition dfs_enter (_v : Vertex) : M LTState unit :=
  modify (λ s, set_visited ({[_v]} ∪ visited s) s);;
  s ← get;
  write v_vertices (λ s, m_vertices (this s)) set_lt_vertices (dfIdx s) _v;;
  modify (λ s, set_lt_vertexIndices (<[_v := dfIdx s]> (m_vertexIndices (this s))) s);;
  write v_semi semi set_semi (dfIdx s) (dfIdx s);;
  write v_label label set_label (dfIdx s) (dfIdx s);;
  modify (λ s, set_dfIdx (dfIdx s + 1) s).

Fixpoint dfs (fuel : nat) (_v : Vertex) : M LTState unit :=
  match fuel with
  | O => fail OutOfFuel
  | S fuel' =>
      s ← get;
      if decide (_v ∈ visited s) then ret tt
      else
        dfs_enter _v;;
        for_each (ForEachSuccessor _v) (dfs_callback (dfs fuel') _v)
  end.

(** *** Steps 3 and 2 for one vertex [w] (lines 229-246) *)
Definition bucket_step (w v : N) : M LTState unit :=
  u ← eval v;
  su ← read v_semi semi u;
  sv ← read v_semi semi v;
  write v_idom idom set_idom v (if su <? sv then u else w).

Definition semi_step (w v : N) : M LTState unit :=
  u ← eval v;
  su ← read v_semi semi u;
  sw ← read v_semi semi w;
  if su <? sw then
    su' ← read v_semi semi u;
    write v_semi semi set_semi w su'
  else ret tt.

Definition bucket_push (w : N) : M LTState unit :=
  sw ← read v_semi semi w;
  b ← read v_bucket bucket sw;
  write v_bucket bucket set_bucket sw (b ++ [w]).

Definition process (w : N) : M LTState unit :=
  b ← read v_bucket bucket w;
  for_each b (bucket_step w);;
  p ← read v_predecessors predecessors w;
  for_each p (semi_step w);;
  bucket_push w;;
  pw ← read v_parent parent w;
  link pw w.

Definition reverse_pass_body (vtx : Vertex) : M LTState unit :=
  w ← toIdx vtx;
  process w.

(** *** Step 4 (lines 250-253) *)
Definition finalize_step (vtx : Vertex) : M LTState unit :=
  w ← toIdx vtx;
  iw ← read v_idom idom w;
  sw ← read v_semi semi w;
  if negb (iw =? sw) then
    iw' ← read v_idom idom w;
    iiw ← read v_idom idom iw';
    write v_idom idom set_idom w iiw
  else ret tt.

(** *** lengauerTarjanDominator (lines 149-256) *)
Definition lt_locals (d : Dominator) (numVertices : N) : LTState :=
  {| this := d;
     semi := vec_new numVertices SIZE_MAX;
     parent := vec_new numVertices SIZE_MAX;
     ancestor := vec_new numVertices SIZE_MAX;
     label := vec_new numVertices 0;
     visited := ∅;
     predecessors := vec_new numVertices [];
     bucket := vec_new numVertices [];
     idom := vec_new numVertices SIZE_MAX;
     dfIdx := 0 |}.

Definition dfs_phase (_entry : Vertex) (numVertices : N) : M LTState unit :=
  dfs (S (N.to_nat numVertices)) _entry.

Definition reverse_pass : M LTState unit :=
  s ← get;
  for_each (rev (m_vertices (this s))) reverse_pass_body.

Definition finalize : M LTState unit :=
  write v_idom idom set_idom 0 0;;
  s ← get;
  for_each (drop 1 (m_vertices (this s))) finalize_step.

(** The body of [lengauerTarjanDominator] after the allocation of its
    local vectors, up to, and not including, [return idom]. *)
Definition lt_body (_entry : Vertex) (numVertices : N) : M LTState unit :=
  dfs_phase _entry numVertices;;
  reverse_pass;;
  finalize.

(** The state in which [lengauerTarjanDominator] returns. *)
Definition lt_run (d : Dominator) (_entry : Vertex) (numVertices : N)
    : result LTState unit :=
  (solAssert (0 <? numVertices);; lt_body _entry numVertices)
    (lt_locals d numVertices).

Definition lengauerTarjanDominator (_entry : Vertex) (numVertices : N)
    : M Dominator (list N) :=
  λ d, match lt_run d _entry numVertices with
       | Ok _ s => Ok (idom s) (this s)
       | Err e => Err e
       end.

(** *** buildDominatorTree (lines 119-127) *)
Definition tree_append (idomIdx : N) : M Dominator unit :=
  modify (λ d,
    set_m_dominatorTree
      (<[idomIdx := default [] (m_dominatorTree d !! idomIdx) ++ [idomIdx]]>
         (m_dominatorTree d)) d).

Definition buildDominatorTree : M Dominator unit :=
  d ← get;
  solAssert (negb (bool_decide (m_vertices d = [])));;
  solAssert (negb (bool_decide (m_immediateDominators d = [])));;
  for_each (drop 1 (m_immediateDominators d)) tree_append.

(** *** The constructor (lines 47-52) *)

(** The object when [lengauerTarjanDominator] is called from the member
    initialiser list: [m_vertices(_numVertices)] holds [_numVertices]
    value-initialised vertices and [m_vertexIndices] is empty; the two
    members declared after them are not yet initialised (empty here). *)
Definition Dominator_init (_numVertices : N) : Dominator :=
  mkDominator (vec_new _numVertices Vertex_default) ∅ [] ∅.

Definition Dominator_ctor (_entry : Vertex) (_numVertices : N)
    : result Dominator unit :=
  (r ← lengauerTarjanDominator _entry _numVertices;
   modify (set_m_immediateDominators r);;
   buildDominatorTree)
    (Dominator_init _numVertices).

(** *** dominates (lines 78-97) *)
Definition dom_index_of : Vertex → M Dominator N :=
  index_of m_vertexIndices set_m_vertexIndices.

Fixpoint dominates_loop (fuel : nat) (aIdx idomIdx : N) : M Dominator bool :=
  match fuel with
  | O => fail OutOfFuel
  | S fuel' =>
      if negb (idomIdx =? 0) then
        if idomIdx =? aIdx then ret true
        else
          next ← read v_immediateDominators m_immediateDominators idomIdx;
          dominates_loop fuel' aIdx next
      else
        solAssert (idomIdx =? 0);;
        ret (aIdx =? 0)
  end.

Definition dominates (_a _b : Vertex) : M Dominator bool :=
  aIdx ← dom_index_of _a;
  bIdx ← dom_index_of _b;
  if aIdx =? bIdx then ret true
  else
    idomIdx ← read v_immediateDominators m_immediateDominators bIdx;
    d ← get;
    dominates_loop (S (length (m_immediateDominators d))) aIdx idomIdx.

(** *** dominatorsOf (lines 101-117) *)
Fixpoint dominatorsOf_loop (fuel : nat) (dominators : list Vertex) (idomIdx : N)
    : M Dominator (list Vertex) :=
  match fuel with
  | O => fail OutOfFuel
  | S fuel' =>
      if negb (idomIdx =? 0) then
        x ← read v_vertices m_vertices idomIdx;
        next ← read v_immediateDominators m_immediateDominators idomIdx;
        dominatorsOf_loop fuel' (dominators ++ [x]) next
      else ret dominators
  end.

Definition dominatorsOf (_v : Vertex) : M Dominator (list Vertex) :=
  d ← get;
  solAssert (negb (bool_decide (m_vertices d = [])));;
  x ← read v_vertices m_vertices 0;
  i ← dom_index_of _v;
  idomIdx ← read v_immediateDominators m_immediateDominators i;
  if idomIdx =? 0 then ret [x]
  else
    d ← get;
    dominatorsOf_loop (S (length (m_immediateDominators d))) [x] idomIdx.

End dominator.

Arguments Dominator Vertex {_ _}.
Arguments LTState Vertex {_ _}.

(** ** Example graphs *)

Fixpoint succs (edges : list (string * list string)) (v : string) : list string :=
  match edges with
  | [] => []
  | (x, l) :: edges' => if String.eqb x v then l else succs edges' v
  end.

(** entry -> B *)
Definition chain2 : string → list string :=
  succs [("entry", ["B"]); ("B", [])].

(** entry -> B -> C -> D *)
Definition chain4 : string → list string :=
  succs [("entry", ["B"]); ("B", ["C"]); ("C", ["D"]); ("D", [])].

(** entry -> B -> entry *)
Definition cycle2 : string → list string :=
  succs [("entry", ["B"]); ("B", ["entry"])].

(** entry -> {B, C}, B -> D, C -> D *)
Definition diamond : string → list string :=
  succs [("entry", ["B"; "C"]); ("B", ["D"]); ("C", ["D"]); ("D", [])].

(** The structure the constructor builds for the four-vertex chain (the
    arbitrary alternative is never taken, see [chain4_dominator_built]). *)
Definition chain4_dominator : Dominator string :=
  match Dominator_ctor chain4 "" "entry" 4 with
  | Ok _ d => d
  | Err _ => Dominator_init "" 0
  end.

(** ** Weakest preconditions *)

(** [wp E m Q s]: run from [s], [m] returns a value and a state satisfying [Q],
    or stops with an error satisfying [E]. *)
Definition wp {St A} (E : error → Prop) (m : M St A) (Q : A → St → Prop) (s : St) : Prop :=
  match m s with
  | Ok a s' => Q a s'
  | Err e => E e
  end.

Definition is_oob (e : error) : Prop :=
  match e with
  | OutOfBounds _ _ => True
  | _ => False
  end.

Definition not_assertion (e : error) : Prop := e ≠ AssertionFailed.

Definition any_error (e : error) : Prop := True.

(** ** The depth-first spanning tree *)

(** [tree_anc par a i]: following [par] upwards from [i], through strictly
    decreasing indices, reaches [a] (in zero or more steps). *)
Inductive tree_anc (par : list N) (a : N) : N → Prop :=
| tree_anc_refl : tree_anc par a a
| tree_anc_step i p :
    vec_get par i = Some p → p < i → tree_anc par a p → tree_anc par a i.

(** [par] numbers a tree in preorder below [c]: the parent of [i] is [i - 1]
    or one of its ancestors. *)
Definition preorder (par : list N) (c : N) : Prop :=
  ∀ i, 0 < i < c →
    ∃ p, vec_get par i = Some p ∧ p < i ∧ tree_anc par p (i - 1).

Section invariants.
Context {Vertex : Type} `{Countable Vertex}.
Implicit Types s : LTState Vertex.

(** Index [i] has its spanning-tree parent among its predecessors. *)
Definition pred_ok s (i : N) : Prop :=
  ∃ p l, vec_get (parent s) i = Some p ∧
         vec_get (predecessors s) i = Some l ∧ p ∈ l.

(** Every recorded edge [p -> i] joins two discovered indices, and goes
    down the spanning tree when it goes forward. *)
Definition preds_ok s : Prop :=
  ∀ i l p, vec_get (predecessors s) i = Some l → p ∈ l →
    i < dfIdx s ∧ p < dfIdx s ∧ (p < i → tree_anc (parent s) p i).

(** The discovered prefix of [m_vertices] and [m_vertexIndices] are inverse
    to each other. *)
Definition index_ok s : Prop :=
  ∀ v i, m_vertexIndices (this s) !! v = Some i ↔
         i < dfIdx s ∧ vec_get (m_vertices (this s)) i = Some v.

(** The invariant of the depth-first search (step 1). *)
Record dfs_inv (n : N) s : Prop := {
  di_dfIdx : dfIdx s ≤ n;
  di_size_vertices : vec_size (m_vertices (this s)) = n;
  di_size_semi : vec_size (semi s) = n;
  di_size_parent : vec_size (parent s) = n;
  di_size_label : vec_size (label s) = n;
  di_size_predecessors : vec_size (predecessors s) = n;
  di_semi : ∀ i, i < n →
    vec_get (semi s) i = Some (if i <? dfIdx s then i else SIZE_MAX);
  di_label : ∀ i, i < dfIdx s → vec_get (label s) i = Some i;
  di_ancestor : ancestor s = vec_new n SIZE_MAX;
  di_bucket : bucket s = vec_new n [];
  di_idom : idom s = vec_new n SIZE_MAX;
  di_index : index_ok s;
  di_visited : ∀ v, v ∈ visited s ↔ is_Some (m_vertexIndices (this s) !! v);
  di_parent0 : ∀ p, vec_get (parent s) 0 = Some p → p = SIZE_MAX;
  di_parent : preorder (parent s) (dfIdx s);
  di_preds : preds_ok s
}.

(** What a call of [dfs] entered with [dfIdx = c] keeps of the state. *)
Record dfs_ext (c : N) s s' : Prop := {
  de_dfIdx : dfIdx s ≤ dfIdx s';
  de_parent : ∀ i, i ≤ c → vec_get (parent s') i = vec_get (parent s) i;
  de_vertices : ∀ i, i < c →
    vec_get (m_vertices (this s')) i = vec_get (m_vertices (this s)) i;
  de_preds : ∀ i l, vec_get (predecessors s) i = Some l →
    ∃ l', vec_get (predecessors s') i = Some l' ∧ l ⊆ l'
}.

(** The slot the next discovered vertex will take already holds its parent. *)
Definition entry_ok s : Prop :=
  dfIdx s = 0 ∨
  ∃ p, vec_get (parent s) (dfIdx s) = Some p ∧ p < dfIdx s ∧
       tree_anc (parent s) p (dfIdx s - 1).

(** What [dfs v] guarantees when it returns. *)
Record dfs_post (n : N) (v : Vertex) s s' : Prop := {
  dp_inv : dfs_inv n s';
  dp_ext : dfs_ext (dfIdx s) s s';
  dp_pred : ∀ i, dfIdx s < i < dfIdx s' → pred_ok s' i;
  dp_old : v ∈ visited s → s' = s;
  dp_new : v ∉ visited s →
    m_vertexIndices (this s') !! v = Some (dfIdx s) ∧
    dfIdx s < dfIdx s' ∧
    tree_anc (parent s') (dfIdx s) (dfIdx s' - 1)
}.

(** The invariant of the loop over the successors of [v], whose index is [c0]. *)
Record dfs_loop_inv (n : N) (v : Vertex) (c0 : N) s0 s : Prop := {
  dl_inv : dfs_inv n s;
  dl_ext : dfs_ext c0 s0 s;
  dl_index : m_vertexIndices (this s) !! v = Some c0;
  dl_lt : c0 < dfIdx s;
  dl_anc : tree_anc (parent s) c0 (dfIdx s - 1);
  dl_pred : ∀ i, c0 < i < dfIdx s → pred_ok s i
}.

(** The value [x] stored for index [i] is [i] or a proper tree ancestor. *)
Definition anc_val (par : list N) (i x : N) : Prop :=
  x ≤ i ∧ tree_anc par x i.

Definition idom_val (par : list N) (i x : N) : Prop :=
  x ≤ i ∧ tree_anc par x i ∧ (i ≠ 0 → x < i).

(** The invariant of steps 2, 3 and 4. *)
Record lt_inv (n : N) s : Prop := {
  li_dfIdx : 0 < dfIdx s ≤ n;
  li_size_vertices : vec_size (m_vertices (this s)) = n;
  li_size_semi : vec_size (semi s) = n;
  li_size_parent : vec_size (parent s) = n;
  li_size_ancestor : vec_size (ancestor s) = n;
  li_size_label : vec_size (label s) = n;
  li_size_predecessors : vec_size (predecessors s) = n;
  li_size_bucket : vec_size (bucket s) = n;
  li_size_idom : vec_size (idom s) = n;
  li_index : ∀ i, i < dfIdx s →
    ∃ v, vec_get (m_vertices (this s)) i = Some v ∧
         m_vertexIndices (this s) !! v = Some i;
  li_index_bound : ∀ v i, m_vertexIndices (this s) !! v = Some i → i < dfIdx s;
  li_parent0 : vec_get (parent s) 0 = Some SIZE_MAX;
  li_parent : preorder (parent s) (dfIdx s);
  li_preds : preds_ok s;
  li_pred_parent : ∀ i, 0 < i < dfIdx s → pred_ok s i;
  li_semi : ∀ i, i < dfIdx s →
    ∃ x, vec_get (semi s) i = Some x ∧ anc_val (parent s) i x;
  li_ancestor : ∀ i, i < dfIdx s →
    ∃ x, vec_get (ancestor s) i = Some x ∧
         (x = SIZE_MAX ∨ (x < i ∧ tree_anc (parent s) x i));
  li_label : ∀ i, i < dfIdx s →
    ∃ x, vec_get (label s) i = Some x ∧ anc_val (parent s) i x;
  li_bucket : ∀ j l v, vec_get (bucket s) j = Some l → v ∈ l →
    v < dfIdx s ∧ idom_val (parent s) v j;
  li_idom : ∀ i, i < dfIdx s →
    ∃ x, vec_get (idom s) i = Some x ∧
         (x = SIZE_MAX ∨ idom_val (parent s) i x)
}.

(** Index [v] has received an immediate dominator. *)
Definition idom_set s (v : N) : Prop :=
  ∃ x, vec_get (idom s) v = Some x ∧ idom_val (parent s) v x.

(** [semi[i] <= i] for every discovered index. *)
Definition semi_le s : Prop :=
  ∀ i x, i < dfIdx s → vec_get (semi s) i = Some x → x ≤ i.
End invariants.

Section forest_defs.
Context {Vertex : Type} `{Countable Vertex}.
Implicit Types s : LTState Vertex.

(** Path compression touches [ancestor] and [label] only. *)
Record forest_frame s s' : Prop := {
  ff_this : this s' = this s;
  ff_semi : semi s' = semi s;
  ff_parent : parent s' = parent s;
  ff_visited : visited s' = visited s;
  ff_predecessors : predecessors s' = predecessors s;
  ff_bucket : bucket s' = bucket s;
  ff_idom : idom s' = idom s;
  ff_dfIdx : dfIdx s' = dfIdx s
}.
End forest_defs.

Section solver_defs.
Context {Vertex : Type} `{Countable Vertex}.
Implicit Types s : LTState Vertex.

(** What steps 2, 3 and 4 keep of the state: the spanning tree, the edges
    and the numbering are fixed, buckets only grow, and an index that has
    an immediate dominator keeps having one. *)
Record solver_frame s s' : Prop := {
  sf_parent : parent s' = parent s;
  sf_predecessors : predecessors s' = predecessors s;
  sf_dfIdx : dfIdx s' = dfIdx s;
  sf_vertices : m_vertices (this s') = m_vertices (this s);
  sf_index : ∀ v i, m_vertexIndices (this s) !! v = Some i →
    m_vertexIndices (this s') !! v = Some i;
  sf_idom : ∀ v, idom_set s v → idom_set s' v;
  sf_bucket : ∀ j l, vec_get (bucket s) j = Some l →
    ∃ l', vec_get (bucket s') j = Some l' ∧ l ⊆ l'
}.

(** The reverse pass has handled the indices from [w] up: each of them has
    an immediate dominator or waits in the bucket of a smaller index. *)
Definition sweep (w : N) s : Prop :=
  ∀ v, w ≤ v < dfIdx s → v ≠ 0 →
    idom_set s v ∨
    ∃ j l, j < w ∧ vec_get (bucket s) j = Some l ∧ v ∈ l.
End solver_defs.

(** ** The finished structure and its queries *)

Section query_defs.
Context {Vertex : Type} `{Countable Vertex}.
Implicit Types d : Dominator Vertex.

(** [v] is one of the vertices numbered by the depth-first search. *)
Definition indexed d (v : Vertex) : Prop :=
  match m_vertexIndices d !! v with
  | Some i => vec_get (m_vertices d) i = Some v
  | None => False
  end.

(** The indices the walks of [dominates] and [dominatorsOf] go through
    from index [i]: [idom[i]], [idom[idom[i]]], ... up to, and not
    including, index 0. *)
Fixpoint idom_chain (idoms : list N) (fuel : nat) (i : N) : list N :=
  match fuel with
  | O => []
  | S fuel' =>
      match vec_get idoms i with
      | Some j => if j =? 0 then [] else j :: idom_chain idoms fuel' j
      | None => []
      end
  end.

Definition dominators_idx d (i : N) : list N :=
  idom_chain (m_immediateDominators d) (length (m_immediateDominators d)) i.

(** Number of immediate-dominator steps from index [i] to the entry. *)
Definition dom_depth d (i : N) : nat :=
  if i =? 0 then O else S (length (dominators_idx d i)).

(** What a finished structure satisfies; [c] is the number of vertices the
    search has numbered. *)
Record dom_inv (_entry : Vertex) (c : N) d : Prop := {
  dv_count : 0 < c ≤ vec_size (m_vertices d);
  dv_size : vec_size (m_immediateDominators d) = vec_size (m_vertices d);
  dv_index : ∀ i, i < c →
    ∃ v, vec_get (m_vertices d) i = Some v ∧ m_vertexIndices d !! v = Some i;
  dv_index_bound : ∀ v i, m_vertexIndices d !! v = Some i → i < c;
  dv_entry : vec_get (m_vertices d) 0 = Some _entry;
  dv_idom : ∀ i, i < c →
    ∃ x, vec_get (m_immediateDominators d) i = Some x ∧ x ≤ i ∧ (i ≠ 0 → x < i)
}.
End query_defs.

Section query_spec_defs.
Context {Vertex : Type} `{Countable Vertex}.
Implicit Types d : Dominator Vertex.

(** The result of [dominates] in the words of its description: true when
    the vertices are equal; otherwise true when the index of [a] is met on
    the walk from [b] towards the entry; otherwise true exactly when [a]
    is the entry vertex. *)
Definition dominates_spec d (a b : Vertex) : bool :=
  if decide (a = b) then true
  else
    match m_vertexIndices d !! a, m_vertexIndices d !! b with
    | Some aIdx, Some bIdx =>
        if decide (aIdx ∈ dominators_idx d bIdx) then true
        else bool_decide (vec_get (m_vertices d) 0 = Some a)
    | _, _ => false
    end.
End query_spec_defs.

Section claim_defs.
Context {Vertex : Type} `{Countable Vertex}.
Implicit Types d : Dominator Vertex.

(** The order "from the entry to the immediate dominator": [r] starts with
    the entry, depth strictly increases along [r], [r] ends with the vertex
    whose index is [idom[v]], and [v] is not in [r]. *)
Definition entry_to_idom_order d (v : Vertex) (r : list Vertex) : Prop :=
  head r = vec_get (m_vertices d) 0 ∧
  (∃ l, Forall2 (λ x i, m_vertexIndices d !! x = Some i) r l ∧
        StronglySorted (λ i j, (dom_depth d i < dom_depth d j)%nat) l) ∧
  (∃ i x, m_vertexIndices d !! v = Some i ∧
          vec_get (m_immediateDominators d) i = Some x ∧
          last r = vec_get (m_vertices d) x) ∧
  v ∉ r.
End claim_defs.

(** ** The operations of the computation *)

Section op_defs.
Context {Vertex : Type} `{Countable Vertex}.
Variable ForEachSuccessor : Vertex → list Vertex.

(** The operations the computation is made of, from the single steps of
    the loops to the whole body of [lengauerTarjanDominator]. *)
Inductive lt_op : Type :=
| op_dfs_enter (v : Vertex)
| op_dfs_callback (fuel : nat) (v w : Vertex)
| op_dfs (fuel : nat) (v : Vertex)
| op_compressPath (fuel : nat) (v : N)
| op_eval (v : N)
| op_link (p w : N)
| op_toIdx (v : Vertex)
| op_bucket_step (w v : N)
| op_semi_step (w v : N)
| op_bucket_push (w : N)
| op_process (w : N)
| op_reverse_pass_body (vtx : Vertex)
| op_reverse_pass
| op_finalize_step (vtx : Vertex)
| op_finalize
| op_lt_body (_entry : Vertex) (numVertices : N).

Definition run_op (o : lt_op) : M (LTState Vertex) unit :=
  match o with
  | op_dfs_enter v => dfs_enter v
  | op_dfs_callback fuel v w => dfs_callback (dfs ForEachSuccessor fuel) v w
  | op_dfs fuel v => dfs ForEachSuccessor fuel v
  | op_compressPath fuel v => compressPath fuel v
  | op_eval v => (_ ← eval v; ret tt)%lt
  | op_link p w => link p w
  | op_toIdx v => (_ ← toIdx v; ret tt)%lt
  | op_bucket_step w v => bucket_step w v
  | op_semi_step w v => semi_step w v
  | op_bucket_push w => bucket_push w
  | op_process w => process w
  | op_reverse_pass_body vtx => reverse_pass_body vtx
  | op_reverse_pass => reverse_pass
  | op_finalize_step vtx => finalize_step vtx
  | op_finalize => finalize
  | op_lt_body _entry numVertices => lt_body ForEachSuccessor _entry numVertices
  end.
End op_defs.

(** ** Step 2 for one vertex *)

Section semi_defs.
Context {Vertex : Type} `{Countable Vertex}.
Variable ForEachSuccessor : Vertex → list Vertex.
Implicit Types s : LTState Vertex.

(** The slots of [m_vertices] the search has not filled hold the
    value-initialised vertex. *)
Definition stale_ok (dflt : Vertex) s : Prop :=
  ∀ i v, dfIdx s ≤ i → vec_get (m_vertices (this s)) i = Some v → v = dflt.

(** [semi[i]] is not below every predecessor of [i]. *)
Definition pred_below s (i : N) : Prop :=
  ∃ l p x, vec_get (predecessors s) i = Some l ∧ p ∈ l ∧
           vec_get (semi s) i = Some x ∧ p ≤ x.

(** The state while the reverse pass goes through the unfilled slots of
    [m_vertices], all of which give the same index [k]: only [k] has been
    processed. *)
Record early (n k : N) s : Prop := {
  ea_inv : lt_inv n s;
  ea_other : ∀ i, i < dfIdx s → i ≠ k →
    vec_get (ancestor s) i = Some SIZE_MAX ∧ vec_get (semi s) i = Some i;
  ea_label : ∀ i, i < dfIdx s → vec_get (label s) i = Some i;
  ea_pred : ∀ i, 0 < i < dfIdx s → pred_below s i
}.

(** [semi_min_run w ps s cs s']: step 2 for [w], run over the predecessors
    [ps] from state [s], ends in [s'], and [cs] lists, for each [p] of [ps] in
    order, the value [semi[eval(p)]] the loop computes when it reaches [p]. *)
Inductive semi_min_run (w : N) : list N → LTState Vertex → list N → LTState Vertex → Prop :=
| semi_min_nil s : semi_min_run w [] s [] s
| semi_min_cons p ps s u s1 c s2 cs s3 :
    eval p s = Ok u s1 →
    vec_get (semi s1) u = Some c →
    semi_step w p s = Ok tt s2 →
    semi_min_run w ps s2 cs s3 →
    semi_min_run w (p :: ps) s (c :: cs) s3.

(** One iteration of the reverse pass up to step 2: [toIdx], step 3, and the
    read of [predecessors[w]]. *)
Definition iteration_until_step2 (vtx : Vertex) : M (LTState Vertex) (N * list N) :=
  w ← toIdx vtx;
  b ← read v_bucket bucket w;
  for_each b (bucket_step w);;
  p ← read v_predecessors predecessors w;
  ret (w, p).

(** The reverse pass up to step 2 of the iteration for [m_vertices[w]]: the
    iterations for the slots after [w], then the start of that iteration
    (see [reverse_pass_split]). *)
Definition reverse_pass_until (w : N) : M (LTState Vertex) (N * list N) :=
  s ← get;
  for_each (rev (drop (S (N.to_nat w)) (m_vertices (this s)))) reverse_pass_body;;
  match vec_get (m_vertices (this s)) w with
  | Some vtx => iteration_until_step2 vtx
  | None => fail (OutOfBounds v_vertices w)
  end.

(** The state of [lengauerTarjanDominator] when step 1 is done. *)
Definition lt_run_dfs (d : Dominator Vertex) (_entry : Vertex) (numVertices : N)
    : result (LTState Vertex) unit :=
  (solAssert (0 <? numVertices);;
   dfs_phase ForEachSuccessor _entry numVertices) (lt_locals d numVertices).

(** The rest of the iteration after step 2. *)
Definition process_tail (w : N) : M (LTState Vertex) unit :=
  bucket_push w;;
  pw ← read v_parent parent w;
  link pw w.
End semi_defs.

(** ** The graph and what the search finds of it *)

Section graph_defs.
Context {Vertex : Type} `{Countable Vertex}.
Variable ForEachSuccessor : Vertex → list Vertex.
Implicit Types s : LTState Vertex.

(** [w] is a successor of [u]. *)
Definition edge (u w : Vertex) : Prop := w ∈ ForEachSuccessor u.

(** [v] can be reached from [_entry] along successor edges. *)
Definition reachable (_entry v : Vertex) : Prop := rtc edge _entry v.

(** The edge [u -> w] has been recorded in [predecessors]. *)
Definition recorded s (u w : Vertex) : Prop :=
  ∃ iu iw l, m_vertexIndices (this s) !! u = Some iu ∧
             m_vertexIndices (this s) !! w = Some iw ∧
             vec_get (predecessors s) iw = Some l ∧ iu ∈ l.

(** Every visited vertex outside [S] (the vertices whose successors are
    still being visited) has all its edges recorded. *)
Definition closed_except (S : gset Vertex) s : Prop :=
  ∀ u w, u ∈ visited s → u ∉ S → edge u w → recorded s u w.

(** What the search knows about the graph. *)
Record dfs_more (_entry : Vertex) s : Prop := {
  dm_count : N.of_nat (size (visited s)) = dfIdx s;
  dm_reach : ∀ v, v ∈ visited s → reachable _entry v;
  dm_edge : ∀ i l p, vec_get (predecessors s) i = Some l → p ∈ l →
    ∃ u w, m_vertexIndices (this s) !! u = Some p ∧
           m_vertexIndices (this s) !! w = Some i ∧ edge u w;
  dm_sorted : ∀ i l, vec_get (predecessors s) i = Some l → StronglySorted N.lt l
}.

(** What the search never undoes. *)
Record dfs_keep s s' : Prop := {
  dk_visited : visited s ⊆ visited s';
  dk_index : ∀ u i, m_vertexIndices (this s) !! u = Some i →
    m_vertexIndices (this s') !! u = Some i;
  dk_preds : ∀ i l, vec_get (predecessors s) i = Some l →
    ∃ l', vec_get (predecessors s') i = Some l' ∧ l ⊆ l'
}.

(** The one way the search can stop: the callback reads [semi[numVertices]],
    when [numVertices] vertices reachable from the entry have been numbered. *)
Definition semi_overrun (_entry : Vertex) (n : N) (e : error) : Prop :=
  e = OutOfBounds v_semi n ∧
  ∃ V : gset Vertex, N.of_nat (size V) = n ∧ ∀ v, v ∈ V → reachable _entry v.
End graph_defs.

(** ** What the solver leaves untouched *)

Section keep_defs.
Context {Vertex : Type} `{Countable Vertex}.
Variable dflt : Vertex.
Implicit Types s : LTState Vertex.

(** What steps 2, 3 and 4 leave of the object and of the slots past the
    numbered ones: [toIdx] may add the key [dflt], with index 0, to
    [m_vertexIndices], and nothing else changes. *)
Record solver_keep s s' : Prop := {
  sk_vertices : m_vertices (this s') = m_vertices (this s);
  sk_idoms : m_immediateDominators (this s') = m_immediateDominators (this s);
  sk_tree : m_dominatorTree (this s') = m_dominatorTree (this s);
  sk_index :
    m_vertexIndices (this s') = m_vertexIndices (this s) ∨
    (m_vertexIndices (this s) !! dflt = None ∧ dflt ∈ m_vertices (this s) ∧
     m_vertexIndices (this s') = <[dflt := 0]> (m_vertexIndices (this s)));
  sk_visited : visited s' = visited s;
  sk_dfIdx : dfIdx s' = dfIdx s;
  sk_idom_tail : ∀ i, dfIdx s ≤ i → vec_get (idom s') i = vec_get (idom s) i
}.

(** Every element of [m_vertices] is a key of [m_vertexIndices] or the
    value-initialised vertex. *)
Definition keys_ok s : Prop :=
  ∀ vtx, vtx ∈ m_vertices (this s) →
    is_Some (m_vertexIndices (this s) !! vtx) ∨ vtx = dflt.
(** The part of the state only the search and [toIdx] change. *)
Definition core_same s s' : Prop :=
  this s' = this s ∧ visited s' = visited s ∧ dfIdx s' = dfIdx s.
End keep_defs.

(** ** The result of the computation *)

Section result_defs.
Context {Vertex : Type} `{Countable Vertex}.
Variable ForEachSuccessor : Vertex → list Vertex.
Variable dflt _entry : Vertex.
Variable n : N.
Implicit Types s : LTState Vertex.

(** The members [lengauerTarjanDominator] does not touch. *)
Definition rest_empty s : Prop :=
  m_immediateDominators (this s) = [] ∧ m_dominatorTree (this s) = ∅.

(** The state in which [lengauerTarjanDominator] returns. *)
Record lt_result s : Prop := {
  lr_inv : lt_inv n s;
  lr_idom : ∀ v, v < dfIdx s → idom_set s v;
  lr_entry : vec_get (m_vertices (this s)) 0 = Some _entry;
  lr_count : N.of_nat (size (visited s)) = dfIdx s;
  lr_reach : ∀ v, v ∈ visited s ↔ reachable ForEachSuccessor _entry v;
  lr_visited : ∀ v, v ∈ visited s ↔
    (∃ i, i < dfIdx s ∧ vec_get (m_vertices (this s)) i = Some v);
  lr_stale : stale_ok dflt s;
  lr_keys : ∀ v i, m_vertexIndices (this s) !! v = Some i →
    (i < dfIdx s ∧ vec_get (m_vertices (this s)) i = Some v) ∨
    (v = dflt ∧ i = 0 ∧ (dflt ∉ visited s) ∧ dfIdx s < n);
  lr_all_keys : ∀ v, v ∈ m_vertices (this s) →
    is_Some (m_vertexIndices (this s) !! v);
  lr_idom_tail : ∀ i, dfIdx s ≤ i → i < n → vec_get (idom s) i = Some SIZE_MAX;
  lr_edges : ∀ p i u w,
    p < dfIdx s → i < dfIdx s →
    vec_get (m_vertices (this s)) p = Some u →
    vec_get (m_vertices (this s)) i = Some w →
    (edge ForEachSuccessor u w ↔
     (∃ l, vec_get (predecessors s) i = Some l ∧ p ∈ l));
  lr_sorted : ∀ i l, vec_get (predecessors s) i = Some l → StronglySorted N.lt l;
  lr_rest : rest_empty s
}.
End result_defs.

(** Number of occurrences of [k] in [l]. *)
Definition occurrences (k : N) (l : list N) : nat :=
  length (filter (λ x, x = k) l).

Section built_defs.
Context {Vertex : Type} `{Countable Vertex}.
Variable ForEachSuccessor : Vertex → list Vertex.
Variable dflt _entry : Vertex.
Variable n : N.
Implicit Types d : Dominator Vertex.

(** The structure the constructor leaves; [c] is the number of vertices
    reachable from the entry. *)
Record constructed (c : N) d : Prop := {
  bt_count : 0 < c ≤ n;
  bt_size_vertices : vec_size (m_vertices d) = n;
  bt_size_idoms : vec_size (m_immediateDominators d) = n;
  bt_entry : vec_get (m_vertices d) 0 = Some _entry;
  bt_reach : ∀ v, reachable ForEachSuccessor _entry v ↔
    (∃ i, i < c ∧ vec_get (m_vertices d) i = Some v);
  bt_reach_count : ∃ V : gset Vertex,
    (∀ v, v ∈ V ↔ reachable ForEachSuccessor _entry v) ∧ N.of_nat (size V) = c;
  bt_index : ∀ i v, i < c → vec_get (m_vertices d) i = Some v →
    m_vertexIndices d !! v = Some i;
  bt_keys : ∀ v i, m_vertexIndices d !! v = Some i →
    (i < c ∧ vec_get (m_vertices d) i = Some v) ∨
    (v = dflt ∧ i = 0 ∧ ¬ reachable ForEachSuccessor _entry dflt ∧ c < n);
  bt_all_keys : ∀ v, v ∈ m_vertices d → is_Some (m_vertexIndices d !! v);
  bt_stale : ∀ i, c ≤ i → i < n →
    vec_get (m_vertices d) i = Some dflt ∧
    vec_get (m_immediateDominators d) i = Some SIZE_MAX;
  bt_idom : ∀ i, i < c →
    ∃ x, vec_get (m_immediateDominators d) i = Some x ∧ x ≤ i ∧ (i ≠ 0 → x < i);
  bt_tree : ∀ k, m_dominatorTree d !! k =
    if decide (k ∈ drop 1 (m_immediateDominators d))
    then Some (replicate (occurrences k (drop 1 (m_immediateDominators d))) k)
    else None
}.
End built_defs.

(** ** The order [dominates] decides *)

Section order_defs.
Context {Vertex : Type} `{Countable Vertex}.
Implicit Types d : Dominator Vertex.

(** Index [x] is [y], the entry, or on the chain of immediate dominators
    of [y]. *)
Definition dom_le d (x y : N) : Prop :=
  x = y ∨ x = 0 ∨ x ∈ dominators_idx d y.
End order_defs.

Section key_defs.
Context {Vertex : Type} `{Countable Vertex}.
Implicit Types d : Dominator Vertex.

(** The structure after [m_vertexIndices[v]] has been evaluated for a [v]
    that was not a key. *)
Definition with_key (v : Vertex) d : Dominator Vertex :=
  set_m_vertexIndices (<[v := 0]> (m_vertexIndices d)) d.
End key_defs.

(** ** Dominators in a numbered flowgraph *)

Section flowgraph_defs.
Variable E : N → N → Prop.

(** [ipath P x z]: a walk of at least one edge from [x] to [z] all of whose
    vertices after [x] satisfy [P]. *)
Inductive ipath (P : N → Prop) (x : N) : N → Prop :=
| ipath_edge z : E x z → P z → ipath P x z
| ipath_step y z : ipath P x y → E y z → P z → ipath P x z.

(** [x] is a candidate for the semidominator of [w]: there is a walk from
    [x] to [w] whose vertices strictly between have numbers above [w]. *)
Definition scand (w x : N) : Prop :=
  E x w ∨ ∃ y, ipath (λ t, w < t) x y ∧ E y w.

(** [x] is the semidominator of [w]. *)
Definition is_sdom (w x : N) : Prop :=
  scand w x ∧ ∀ v, scand w v → x ≤ v.

(** [a] strictly dominates [w], index 0 being the entry: [a] is not [w],
    and a walk from index 0 to [w] that does not go through [a] after its
    start can only exist when [a] is index 0 itself. *)
Definition sdom_g (a w : N) : Prop :=
  a ≠ w ∧ w ≠ 0 ∧ (ipath (λ t, t ≠ a) 0 w → a = 0).

(** [a] dominates [w]. *)
Definition dom_g (a w : N) : Prop := a = w ∨ sdom_g a w.

(** [x] is the immediate dominator of [w]: it strictly dominates [w] and
    every strict dominator of [w] dominates it. *)
Definition is_idom (w x : N) : Prop :=
  sdom_g x w ∧ ∀ a, sdom_g a w → dom_g a x.
End flowgraph_defs.

(** ** The link-eval forest *)

Section forest_inv_defs.
Context {Vertex : Type} `{Countable Vertex}.
Implicit Types s : LTState Vertex.

(** The entries of the local vectors, 0 (or the empty bucket) outside them. *)
Definition semi_at s (t : N) : N := default 0 (vec_get (semi s) t).
Definition ancestor_at s (t : N) : N := default 0 (vec_get (ancestor s) t).
Definition label_at s (t : N) : N := default 0 (vec_get (label s) t).
Definition idom_at s (t : N) : N := default 0 (vec_get (idom s) t).
Definition bucket_at s (t : N) : list N := default [] (vec_get (bucket s) t).

(** The spanning tree and the number of vertices the search has numbered. *)
Variable par : list N.
Variable c : N.

(** [v] has been linked, all indices from [k] up (index 0 apart) having been
    linked: [ancestor[v]] is a proper tree ancestor [a] of [v], the tree path
    from [a] (excluded) to [v] has linked vertices only, and [label[v]] has
    the least [semi] on it. *)
Record linked_ok (k : N) s (v : N) : Prop := {
  lk_lt : ancestor_at s v < v;
  lk_anc : tree_anc par (ancestor_at s v) v;
  lk_linked : ∀ t, ancestor_at s v < t → tree_anc par t v → k ≤ t;
  lk_label_lt : ancestor_at s v < label_at s v;
  lk_label_anc : tree_anc par (label_at s v) v;
  lk_min : ∀ t, ancestor_at s v < t → tree_anc par t v →
    semi_at s (label_at s v) ≤ semi_at s t
}.

(** The forest when the indices from [k] up have been linked: the others,
    and index 0, are roots and their own labels. *)
Record forest (k : N) s : Prop := {
  fo_root : ∀ v, v < c → v < k ∨ v = 0 →
    ancestor_at s v = SIZE_MAX ∧ label_at s v = v;
  fo_linked : ∀ v, v < c → k ≤ v → v ≠ 0 → linked_ok k s v
}.

(** What [eval(v)] returns: [v] when [v] is a root, else a linked ancestor
    of [v] whose [semi] is least among the linked ancestors of [v]. *)
Definition eval_res (k : N) s (v u : N) : Prop :=
  (v < k ∨ v = 0 → u = v) ∧
  (k ≤ v → v ≠ 0 →
   k ≤ u ∧ u ≠ 0 ∧ tree_anc par u v ∧
   ∀ t, k ≤ t → t ≠ 0 → tree_anc par t v → semi_at s u ≤ semi_at s t).
End forest_inv_defs.

(** ** The invariant of the reverse pass *)

(** [p] is one of the recorded predecessors of [i]. *)
Definition arc (preds : list (list N)) (p i : N) : Prop :=
  ∃ l, vec_get preds i = Some l ∧ p ∈ l.

Section solving_defs.
Context {Vertex : Type} `{Countable Vertex}.
Implicit Types s : LTState Vertex.
Variable par : list N.
Variable c : N.
Variable preds : list (list N).

(** [y] is [v], or reaches [v] along vertices numbered above [w]. *)
Definition via (v w y : N) : Prop :=
  y = v ∨ ipath (arc preds) (λ t, w < t) y v.

(** What step 3 leaves in [idom[v]]: [semi[v]], when no vertex of the tree
    path from [semi[v]] (excluded) to [v] has a smaller [semi]; else a
    vertex of that path of least [semi]. *)
Definition decided s (v x : N) : Prop :=
  (x = semi_at s v ∧
   ∀ t, semi_at s v < t → tree_anc par t v → semi_at s v ≤ semi_at s t) ∨
  (semi_at s v < x ∧ tree_anc par x v ∧ semi_at s x < semi_at s v ∧
   ∀ t, semi_at s v < t → tree_anc par t v → semi_at s x ≤ semi_at s t).

(** The state of the reverse pass when the indices from [k] up have been
    processed. *)
Record solving (k : N) s : Prop := {
  so_parent : parent s = par;
  so_preds : predecessors s = preds;
  so_forest : forest par c k s;
  so_semi_root : ∀ v, v < c → v < k ∨ v = 0 → semi_at s v = v;
  so_semi : ∀ v, v < c → k ≤ v → v ≠ 0 → is_sdom (arc preds) v (semi_at s v);
  so_bucket : ∀ j v, v ∈ bucket_at s j →
    (v = 0 ∧ j = 0) ∨ (k ≤ v ∧ v ≠ 0 ∧ v < c ∧ semi_at s v = j);
  so_pending : ∀ v, v < c → k ≤ v → v ≠ 0 → v ∈ bucket_at s (semi_at s v);
  so_decided : ∀ v, v < c → k ≤ v → v ≠ 0 → k ≤ semi_at s v →
    decided s v (idom_at s v)
}.

(** The state of step 4 when the indices below [j] have their final value. *)
Record finishing (j : N) s : Prop := {
  fi_semi0 : semi_at s 0 = 0;
  fi_semi : ∀ v, v < c → v ≠ 0 → is_sdom (arc preds) v (semi_at s v);
  fi_idom0 : idom_at s 0 = 0;
  fi_done : ∀ v, v ≠ 0 → v < j → v < c → is_idom (arc preds) v (idom_at s v);
  fi_todo : ∀ v, j ≤ v → v < c → v ≠ 0 → decided s v (idom_at s v)
}.
End solving_defs.

Section pass_defs.
Context {Vertex : Type} `{Countable Vertex}.
Implicit Types s : LTState Vertex.
Variable c : N.

(** The local vectors are the same in both states. *)
Record locals_same s s' : Prop := {
  ls_semi : semi s' = semi s;
  ls_parent : parent s' = parent s;
  ls_ancestor : ancestor s' = ancestor s;
  ls_label : label s' = label s;
  ls_predecessors : predecessors s' = predecessors s;
  ls_bucket : bucket s' = bucket s;
  ls_idom : idom s' = idom s
}.

(** The first [c] slots of [m_vertices] hold the numbered vertices, and
    [toIdx] gives 0 for what the other slots hold. *)
Record indices_ok s : Prop := {
  io_numbered : ∀ i, i < c →
    ∃ v, vec_get (m_vertices (this s)) i = Some v ∧
         m_vertexIndices (this s) !! v = Some i;
  io_stale : ∀ i vtx, c ≤ i → vec_get (m_vertices (this s)) i = Some vtx →
    default 0 (m_vertexIndices (this s) !! vtx) = 0
}.
End pass_defs.

Section pass_from_defs.
Context {Vertex : Type} `{Countable Vertex}.

(** The iterations of the reverse pass for the slots of [m_vertices] from
    [k] up: the reverse pass stopped before the iteration for slot [k - 1]. *)
Definition reverse_pass_from (k : nat) : M (LTState Vertex) unit :=
  s ← get;
  for_each (rev (drop k (m_vertices (this s)))) reverse_pass_body.
End pass_from_defs.

(** ** Dominance in the graph *)

Section dominance_defs.
Context {Vertex : Type} `{Countable Vertex}.
Variable ForEachSuccessor : Vertex → list Vertex.
Variable _entry : Vertex.

(** [walk x l]: [l] lists, in order, the vertices after [x] of a walk
    along successor edges that starts at [x]. *)
Fixpoint walk (x : Vertex) (l : list Vertex) : Prop :=
  match l with
  | [] => True
  | y :: l' => edge ForEachSuccessor x y ∧ walk y l'
  end.

(** [a] is on every walk from the entry to [v]. *)
Definition dominates_in_graph (a v : Vertex) : Prop :=
  ∀ l, walk _entry l → last (_entry :: l) = Some v → a ∈ _entry :: l.

Definition strictly_dominates (a v : Vertex) : Prop :=
  a ≠ v ∧ dominates_in_graph a v.

(** [x] is the immediate dominator of [v]: it strictly dominates [v], and
    every strict dominator of [v] dominates [x]. *)
Definition immediate_dominator (x v : Vertex) : Prop :=
  strictly_dominates x v ∧ ∀ a, strictly_dominates a v → dominates_in_graph a x.
End dominance_defs.

(** ** States of an example run *)

(** The vertices of the diamond. *)
Definition diamond_vertices : gset string :=
  list_to_set ["entry"; "B"; "C"; "D"].

(** The structure built for the diamond with one spare slot. *)
Definition diamond_dominator : Dominator string :=
  match Dominator_ctor diamond "" "entry" 5 with
  | Ok _ d => d
  | Err _ => Dominator_init "" 0
  end.

(** The state in which [lengauerTarjanDominator] returns on the four-vertex chain. *)
Definition chain4_state : LTState string :=
  match lt_run chain4 (Dominator_init "" 4) "entry" 4 with
  | Ok _ s => s
  | Err _ => lt_locals (Dominator_init "" 0) 0
  end.

(** A structure with three slots and no tree yet. *)
Definition three_slots : Dominator string :=
  mkDominator ["a"; "b"; "c"] ∅ [0; 0; 1] ∅.

(** The state in which [lengauerTarjanDominator] returns on the diamond
    with one spare slot. *)
Definition diamond_state : LTState string :=
  match lt_run diamond (Dominator_init "" 5) "entry" 5 with
  | Ok _ s => s
  | Err _ => lt_locals (Dominator_init "" 0) 0
  end.

(** The state of the run on the four-vertex chain with one spare slot when
    step 1 is done. *)
Definition chain4_searched : LTState string :=
  match lt_run_dfs chain4 (Dominator_init "" 5) "entry" 5 with
  | Ok _ s => s
  | Err _ => lt_locals (Dominator_init "" 0) 0
  end.

(** The state of that run before the last iteration of the reverse pass:
    B, C and D have been linked, no path has been compressed. *)
Definition chain4_linked : LTState string :=
  match reverse_pass_from 1 chain4_searched with
  | Ok _ s => s
  | Err _ => chain4_searched
  end.

(** entry -> x -> C, where the middle vertex x is the value-initialised
    (empty) string *)
Definition chain3_default : string → list string :=
  succs [("entry", [""]); ("", ["C"]); ("C", [])].

(** The structure built for [chain3_default] with one spare slot. *)
Definition chain3_default_dominator : Dominator string :=
  match Dominator_ctor chain3_default "" "entry" 4 with
  | Ok _ d => d
  | Err _ => Dominator_init "" 0
  end.


(** * Properties *)

(** ** Rules of the weakest precondition *)

Section wp_rules.
Context {St : Type} (E : error → Prop).
Implicit Types s : St.

Lemma wp_ret {A} (a : A) (Q : A → St → Prop) s : Q a s → wp E (ret a) Q s.
Proof. done. Qed.

Lemma wp_bind {A B} (m : M St A) (f : A → M St B) (Q : B → St → Prop) s :
  wp E m (λ a, wp E (f a) Q) s → wp E (bind m f) Q s.
Proof. unfold wp, bind. by destruct (m s). Qed.

Lemma wp_mono {A} (m : M St A) (Q Q' : A → St → Prop) s :
  wp E m Q s → (∀ a s', Q a s' → Q' a s') → wp E m Q' s.
Proof. unfold wp. destruct (m s); auto. Qed.

Lemma wp_fail {A} e (Q : A → St → Prop) s : E e → wp E (fail e) Q s.
Proof. done. Qed.

Lemma wp_get (Q : St → St → Prop) s : Q s s → wp E get Q s.
Proof. done. Qed.

Lemma wp_modify (f : St → St) (Q : unit → St → Prop) s :
  Q tt (f s) → wp E (modify f) Q s.
Proof. done. Qed.

Lemma wp_solAssert (b : bool) (Q : unit → St → Prop) s :
  (b = true → Q tt s) → (b = false → E AssertionFailed) →
  wp E (solAssert b) Q s.
Proof. destruct b; unfold wp; simpl; auto. Qed.

Lemma wp_read {A} a (proj : St → list A) i (Q : A → St → Prop) s :
  (∀ x, vec_get (proj s) i = Some x → Q x s) →
  (vec_get (proj s) i = None → E (OutOfBounds a i)) →
  wp E (read a proj i) Q s.
Proof. unfold wp, read. destruct (vec_get (proj s) i); auto. Qed.

Lemma wp_write {A} a (proj : St → list A) upd i x (Q : unit → St → Prop) s :
  (i < vec_size (proj s) → Q tt (upd (vec_set (proj s) i x) s)) →
  (vec_size (proj s) ≤ i → E (OutOfBounds a i)) →
  wp E (write a proj upd i x) Q s.
Proof.
  unfold wp, write. intros Hin Hout.
  destruct (N.ltb_spec i (vec_size (proj s))); auto.
Qed.

Lemma wp_for_each {A} (I : St → Prop) (l : list A) (f : A → M St unit) s :
  I s →
  (∀ x s', x ∈ l → I s' → wp E (f x) (λ _, I) s') →
  wp E (for_each l f) (λ _, I) s.
Proof.
  revert s. induction l as [|x l IH]; intros s HI Hf; simpl.
  - by apply wp_ret.
  - apply wp_bind. eapply wp_mono.
    + apply Hf; [left | done].
    + intros [] s' HI'. apply IH; [done |].
      intros y s'' Hy. apply Hf. by right.
Qed.

Lemma wp_ok {A} (m : M St A) (Q : A → St → Prop) s a s' :
  wp E m Q s → m s = Ok a s' → Q a s'.
Proof. unfold wp. intros Hwp Heq. by rewrite Heq in Hwp. Qed.

Lemma wp_err {A} (m : M St A) (Q : A → St → Prop) s e :
  wp E m Q s → m s = Err e → E e.
Proof. unfold wp. intros Hwp Heq. by rewrite Heq in Hwp. Qed.
End wp_rules.

Section loops.
Context {St : Type} (E : error → Prop).

Lemma wp_for_each_acc_gen {A} (I : list A → St → Prop) (f : A → M St unit)
    (rest done : list A) (s : St) :
  I done s →
  (∀ done' x s', x ∈ rest → I done' s' → wp E (f x) (λ _, I (done' ++ [x])) s') →
  wp E (for_each rest f) (λ _, I (done ++ rest)) s.
Proof.
  revert done s. induction rest as [|x rest IH]; intros done s HI Hf; simpl.
  - apply wp_ret. by rewrite app_nil_r.
  - apply wp_bind. eapply wp_mono.
    + apply Hf; [by left | exact HI].
    + intros [] s' HI'. cbv beta.
      replace (done ++ x :: rest) with ((done ++ [x]) ++ rest)
        by (by rewrite <- app_assoc).
      apply IH; [done |]. intros done' y s'' Hy. apply Hf. by right.
Qed.

Lemma wp_for_each_acc {A} (I : list A → St → Prop) (f : A → M St unit)
    (l : list A) (s : St) :
  I [] s →
  (∀ done x s', x ∈ l → I done s' → wp E (f x) (λ _, I (done ++ [x])) s') →
  wp E (for_each l f) (λ _, I l) s.
Proof. intros HI Hf. by apply (wp_for_each_acc_gen I f l []). Qed.

Lemma wp_for_each_app {A} (f : A → M St unit) (l1 l2 : list A)
    (Q : unit → St → Prop) (s : St) :
  wp E (for_each l1 f) (λ _, wp E (for_each l2 f) Q) s →
  wp E (for_each (l1 ++ l2) f) Q s.
Proof.
  revert s. induction l1 as [|x l1 IH]; intros s; simpl.
  - done.
  - intros Hwp. apply wp_bind. unfold wp in Hwp at 1. unfold bind in Hwp.
    unfold wp at 1. destruct (f x s) as [[] s' | e]; [| done].
    by apply IH.
Qed.
Lemma wp_conj {A} (m : M St A) (Q1 Q2 : A → St → Prop) (s : St) :
  wp E m Q1 s → wp any_error m Q2 s → wp E m (λ a s', Q1 a s' ∧ Q2 a s') s.
Proof. unfold wp. destruct (m s); auto. Qed.
End loops.


(** ** Laws of the monad *)

Lemma wp_conj2 {St A} (E1 E2 : error → Prop) (m : M St A) (Q1 Q2 : A → St → Prop) (st : St) :
  wp E1 m Q1 st → wp E2 m Q2 st → wp E2 m (λ a s', Q1 a s' ∧ Q2 a s') st.
Proof. unfold wp. destruct (m st); auto. Qed.

Section monad_laws.
Lemma for_each_app_eq {St A} (f : A → M St unit) (l1 l2 : list A) (st : St) :
  for_each (l1 ++ l2) f st = (for_each l1 f;; for_each l2 f) st.
Proof.
  revert st. induction l1 as [|x l1 IH]; intros st; simpl; [done |].
  unfold bind. destruct (f x st) as [[] st' | e]; [| done]. apply IH.
Qed.

Lemma bind_assoc {St A B C} (m : M St A) (f : A → M St B) (g : B → M St C) (st : St) :
  bind (bind m f) g st = bind m (λ x, bind (f x) g) st.
Proof. unfold bind. by destruct (m st). Qed.

Lemma bind_ext {St A B} (m : M St A) (f g : A → M St B) (st : St) :
  (∀ a st', f a st' = g a st') → bind m f st = bind m g st.
Proof. intros Hfg. unfold bind. by destruct (m st). Qed.

Lemma bind_get_eq {St B} (f : St → M St B) (st : St) : bind get f st = f st st.
Proof. done. Qed.

End monad_laws.

Ltac wp_step :=
  lazymatch goal with
  | |- wp _ (bind _ _) _ _ => apply wp_bind
  | |- wp _ (ret _) _ _ => apply wp_ret
  | |- wp _ get _ _ => apply wp_get
  | |- wp _ (modify _) _ _ => apply wp_modify
  | |- wp _ (fail _) _ _ => apply wp_fail
  | |- wp _ (read _ _ _) _ _ => apply wp_read; [intros ? ? | by intros]
  | |- wp _ (write _ _ _ _ _) _ _ => apply wp_write; [intros ? | by intros]
  end; cbv beta.

Ltac wp_steps := repeat wp_step.
Ltac wp_any :=
  repeat (lazymatch goal with
  | |- wp _ (bind _ _) _ _ => apply wp_bind
  | |- wp _ (ret _) _ _ => apply wp_ret
  | |- wp _ get _ _ => apply wp_get
  | |- wp _ (modify _) _ _ => apply wp_modify
  | |- wp _ (fail _) _ _ => by apply wp_fail
  | |- wp _ (read _ _ _) _ _ => apply wp_read; [intros ? ? | by intros]
  | |- wp _ (write _ _ _ _ _) _ _ => apply wp_write; [intros ? | by intros]
  | |- wp _ (solAssert _) _ _ => apply wp_solAssert; [intros ? | by intros]
  | |- wp _ (if ?b then _ else _) _ _ => destruct b eqn:?
  end; cbv beta).

Ltac wp_bind_read x Hx :=
  apply wp_bind, wp_read; [intros x Hx | by intros]; cbv beta.
Ltac wp_bind_write H :=
  apply wp_bind, wp_write; [intros H | by intros]; cbv beta.
Ltac wp_last_write H :=
  apply wp_write; [intros H | by intros]; cbv beta.


(** ** Vectors *)

Section vectors.
Context {A : Type}.
Implicit Types l : list A.

Lemma vec_size_set l i x : vec_size (vec_set l i x) = vec_size l.
Proof. unfold vec_size, vec_set. by rewrite length_insert. Qed.

Lemma vec_size_new (k : N) (x : A) : vec_size (vec_new k x) = k.
Proof. unfold vec_size, vec_new. rewrite length_replicate. lia. Qed.

Lemma vec_get_lt l i x : vec_get l i = Some x → i < vec_size l.
Proof.
  unfold vec_get, vec_size. intros Hx%lookup_lt_Some. lia.
Qed.

Lemma vec_get_is_Some l i : i < vec_size l → ∃ x, vec_get l i = Some x.
Proof.
  unfold vec_get, vec_size. intros Hi.
  apply lookup_lt_is_Some. lia.
Qed.

Lemma vec_get_None l i : vec_get l i = None → vec_size l ≤ i.
Proof.
  unfold vec_get, vec_size. intros Hx%lookup_ge_None. lia.
Qed.

Lemma vec_get_set_eq l i x :
  i < vec_size l → vec_get (vec_set l i x) i = Some x.
Proof.
  unfold vec_get, vec_set, vec_size. intros Hi.
  apply list_lookup_insert_eq. lia.
Qed.

Lemma vec_get_set_ne l i j x :
  i ≠ j → vec_get (vec_set l i x) j = vec_get l j.
Proof.
  unfold vec_get, vec_set. intros Hij.
  apply list_lookup_insert_ne. lia.
Qed.

Lemma vec_get_new (k i : N) (x : A) :
  i < k → vec_get (vec_new k x) i = Some x.
Proof.
  unfold vec_get, vec_new. intros Hi.
  apply lookup_replicate_2. lia.
Qed.

Lemma vec_get_new_inv (k i : N) (x y : A) :
  vec_get (vec_new k x) i = Some y → y = x ∧ i < k.
Proof.
  unfold vec_get, vec_new. intros [-> Hi]%lookup_replicate. split; [done | lia].
Qed.
End vectors.

(** Steps whose access is shown to be inside the vector. *)
Ltac lt_sizes Hinv :=
  pose proof (li_dfIdx _ _ Hinv);
  pose proof (li_size_vertices _ _ Hinv);
  pose proof (li_size_semi _ _ Hinv);
  pose proof (li_size_parent _ _ Hinv);
  pose proof (li_size_ancestor _ _ Hinv);
  pose proof (li_size_label _ _ Hinv);
  pose proof (li_size_predecessors _ _ Hinv);
  pose proof (li_size_bucket _ _ Hinv);
  pose proof (li_size_idom _ _ Hinv).

Ltac in_bounds Hinv :=
  let Hn := fresh "Hn" in
  intros Hn; exfalso; try apply vec_get_None in Hn;
  lt_sizes Hinv; simpl in *; lia.

Ltac sf_bind_read Hinv x Hx :=
  apply wp_bind, wp_read; [intros x Hx | in_bounds Hinv]; cbv beta.
Ltac sf_last_read Hinv x Hx :=
  apply wp_read; [intros x Hx | in_bounds Hinv]; cbv beta.
Ltac sf_bind_write Hinv H :=
  apply wp_bind, wp_write; [intros H | in_bounds Hinv]; cbv beta.
Ltac sf_last_write Hinv H :=
  apply wp_write; [intros H | in_bounds Hinv]; cbv beta.

Ltac dfs_sizes Hinv :=
  pose proof (di_dfIdx _ _ Hinv);
  pose proof (di_size_vertices _ _ Hinv);
  pose proof (di_size_semi _ _ Hinv);
  pose proof (di_size_parent _ _ Hinv);
  pose proof (di_size_label _ _ Hinv);
  pose proof (di_size_predecessors _ _ Hinv).

Ltac dfs_in_bounds Hinv :=
  let Hn := fresh "Hn" in
  intros Hn; exfalso; try apply vec_get_None in Hn;
  dfs_sizes Hinv; simpl in *; rewrite ?vec_size_set in *; lia.

Lemma set_insert_elem (x y : N) (l : list N) :
  x ∈ set_insert y l ↔ x = y ∨ x ∈ l.
Proof.
  induction l as [|z l IH]; simpl.
  - rewrite list_elem_of_singleton. split; [auto | by intros [? | ?%elem_of_nil]].
  - destruct (N.ltb_spec y z); [by rewrite elem_of_cons |].
    destruct (N.eqb_spec y z) as [-> |].
    + rewrite elem_of_cons. tauto.
    + rewrite !elem_of_cons, IH. tauto.
Qed.

Lemma set_insert_sorted (x : N) (l : list N) :
  StronglySorted N.lt l → StronglySorted N.lt (set_insert x l).
Proof.
  induction 1 as [|y l Hl IH Hall]; simpl.
  - repeat constructor.
  - destruct (N.ltb_spec x y) as [Hlt | Hge].
    + constructor; [by constructor |]. constructor; [done |].
      eapply Forall_impl; [exact Hall |]. intros z Hz. simpl in Hz. lia.
    + destruct (N.eqb_spec x y) as [-> | Hne]; [by constructor |].
      constructor; [done |]. apply Forall_forall. intros z Hz.
      apply set_insert_elem in Hz as [-> | Hz]; [lia |].
      by eapply Forall_forall in Hall.
Qed.

(** ** The spanning tree *)

Lemma tree_anc_le par a i : tree_anc par a i → a ≤ i.
Proof. induction 1; lia. Qed.

Lemma tree_anc_trans par a b c :
  tree_anc par a b → tree_anc par b c → tree_anc par a c.
Proof.
  intros Hab Hbc. induction Hbc; [done |].
  eapply tree_anc_step; eauto.
Qed.

Lemma tree_anc_ext par par' a i :
  (∀ j, j ≤ i → vec_get par' j = vec_get par j) →
  tree_anc par a i → tree_anc par' a i.
Proof.
  intros Hext Hanc. induction Hanc as [|i p Hp Hlt Hanc IH].
  - constructor.
  - eapply tree_anc_step; [by rewrite Hext | done |].
    apply IH. intros j Hj. apply Hext. lia.
Qed.

Lemma tree_anc_parent par a i p :
  tree_anc par a i → a < i → vec_get par i = Some p → tree_anc par a p.
Proof.
  intros Hanc Hlt Hp. destruct Hanc as [|i q Hq _ Hanc]; [lia |].
  by assert (q = p) as -> by congruence.
Qed.

(** The descendants of [a] are numbered consecutively. *)
Lemma tree_anc_interval par c a v w :
  preorder par c → v < c → tree_anc par a v → a ≤ w ≤ v → tree_anc par a w.
Proof.
  intros Hpre. revert a w.
  induction v as [|v IH] using N.peano_ind; intros a w Hv Hanc Hw.
  - by assert (w = 0) as -> by lia.
  - destruct (decide (w = N.succ v)) as [-> | Hne]; [done |].
    destruct (Hpre (N.succ v)) as (p & Hp & Hlt & Hprev); [lia |].
    replace (N.succ v - 1) with v in Hprev by lia.
    apply IH; [lia | | lia].
    eapply tree_anc_trans; [| exact Hprev].
    eapply tree_anc_parent; [exact Hanc | lia | done].
Qed.

(** ** Step 1: the depth-first search *)

Section dfs_proofs.
Context {Vertex : Type} `{Countable Vertex}.
Variable ForEachSuccessor : Vertex → list Vertex.
Variable n : N.
Implicit Types s : LTState Vertex.

Lemma lt_index_of_present E (v : Vertex) i s (Q : N → LTState Vertex → Prop) :
  m_vertexIndices (this s) !! v = Some i → Q i s → wp E (lt_index_of v) Q s.
Proof.
  intros Hi HQ. unfold wp, lt_index_of, index_of. by rewrite Hi.
Qed.

Lemma dfs_ext_refl c s : dfs_ext c s s.
Proof. split; eauto. Qed.

Lemma dfs_ext_trans c c' s s' s'' :
  c ≤ c' → dfs_ext c s s' → dfs_ext c' s' s'' → dfs_ext c s s''.
Proof.
  intros Hc [H1 H2 H3 H4] [H1' H2' H3' H4']. split.
  - lia.
  - intros i Hi. rewrite H2' by lia. by apply H2.
  - intros i Hi. rewrite H3' by lia. by apply H3.
  - intros i l Hl. destruct (H4 i l Hl) as (l' & Hl' & Hsub).
    destruct (H4' i l' Hl') as (l'' & Hl'' & Hsub').
    exists l''. split; [done |]. set_solver.
Qed.

Lemma dfs_enter_spec (v : Vertex) s :
  dfs_inv n s → v ∉ visited s → entry_ok s →
  wp is_oob (dfs_enter v)
    (λ _ s', dfs_inv n s' ∧ dfs_ext (dfIdx s) s s' ∧
             dfIdx s' = dfIdx s + 1 ∧
             m_vertexIndices (this s') !! v = Some (dfIdx s) ∧
             parent s' = parent s ∧ predecessors s' = predecessors s) s.
Proof.
  intros Hinv Hv Hentry. unfold dfs_enter. wp_steps. simpl in *.
  destruct Hinv as [Hd_dfIdx Hd_size_vertices Hd_size_semi Hd_size_parent Hd_size_label Hd_size_predecessors Hd_semi Hd_label Hd_ancestor Hd_bucket Hd_idom Hd_index Hd_visited Hd_parent0 Hd_parent Hd_preds].
  assert (dfIdx s < n) as Hc by lia.
  split_and!.
  - split; simpl; rewrite ?vec_size_set; try done.
    + lia.
    + intros i Hi. destruct (decide (i = dfIdx s)) as [-> | Hne].
      * rewrite vec_get_set_eq by done.
        by destruct (N.ltb_spec (dfIdx s) (dfIdx s + 1)); [| lia].
      * rewrite vec_get_set_ne by done. rewrite Hd_semi by done.
        destruct (N.ltb_spec i (dfIdx s)), (N.ltb_spec i (dfIdx s + 1));
          done || lia.
    + intros i Hi. destruct (decide (i = dfIdx s)) as [-> | Hne].
      * by rewrite vec_get_set_eq.
      * rewrite vec_get_set_ne by done. apply Hd_label. lia.
    + intros u i. unfold index_ok in Hd_index. simpl.
      destruct (decide (u = v)) as [-> | Hne].
      * rewrite lookup_insert_eq. split.
        -- intros [= <-]. split; [lia |]. by rewrite vec_get_set_eq.
        -- intros [Hi Hu]. destruct (decide (i = dfIdx s)) as [-> | Hne]; [done |].
           rewrite vec_get_set_ne in Hu by done.
           destruct Hv. apply Hd_visited. exists i. apply Hd_index.
           split; [lia | done].
      * rewrite lookup_insert_ne by done. rewrite Hd_index.
        destruct (decide (i = dfIdx s)) as [-> | Hne'].
        -- rewrite vec_get_set_eq by done. split; [lia |].
           intros [_ [= ?]]. done.
        -- rewrite vec_get_set_ne by done.
           split; intros [? ?]; (split; [lia | done]).
    + intros u. rewrite elem_of_union, elem_of_singleton, Hd_visited.
      destruct (decide (u = v)) as [-> | Hne].
      * rewrite lookup_insert_eq. split; [eauto | by left].
      * rewrite lookup_insert_ne by done. split; [by intros [? | ?] | by right].
    + intros i Hi. destruct (decide (i = dfIdx s)) as [-> | Hne].
      * destruct Hentry as [Hz | Hp]; [lia | done].
      * apply Hd_parent. lia.
    + intros i l p Hl Hp. simpl in *.
      destruct (Hd_preds i l p Hl Hp) as (? & ? & ?).
      split_and!; [lia | lia | done].
  - split; simpl; try done.
    + lia.
    + intros i Hi. by rewrite vec_get_set_ne by lia.
    + eauto.
  - done.
  - simpl. by rewrite lookup_insert_eq.
  - done.
  - done.
Qed.

Lemma dfs_ext_weaken c c' s s' : c ≤ c' → dfs_ext c' s s' → dfs_ext c s s'.
Proof.
  intros Hc [H1 H2 H3 H4]. split; [done | | | done].
  - intros i Hi. apply H2. lia.
  - intros i Hi. apply H3. lia.
Qed.

Lemma pred_ok_ext c s s' i :
  dfs_ext c s s' → i ≤ c → pred_ok s i → pred_ok s' i.
Proof.
  intros [_ Hpar _ Hpreds] Hi (p & l & Hp & Hl & Hin).
  destruct (Hpreds i l Hl) as (l' & Hl' & Hsub).
  exists p, l'. rewrite Hpar by done. split_and!; [done | done | set_solver].
Qed.

Lemma dfs_inv_set_parent s p :
  dfs_inv n s → 0 < dfIdx s →
  dfs_inv n (set_parent (vec_set (parent s) (dfIdx s) p) s).
Proof.
  intros [Hd_dfIdx Hd_size_vertices Hd_size_semi Hd_size_parent Hd_size_label Hd_size_predecessors Hd_semi Hd_label Hd_ancestor Hd_bucket Hd_idom Hd_index Hd_visited Hd_parent0 Hd_parent Hd_preds] Hpos. split; simpl; rewrite ?vec_size_set; try done.
  - intros q. rewrite vec_get_set_ne by lia. apply Hd_parent0.
  - intros i Hi. destruct (Hd_parent i Hi) as (q & Hq & Hlt & Hanc).
    exists q. rewrite vec_get_set_ne by lia. split_and!; [done | done |].
    eapply tree_anc_ext; [| exact Hanc].
    intros j Hj. apply vec_get_set_ne. lia.
  - intros i l q Hl Hq. simpl in *.
    destruct (Hd_preds i l q Hl Hq) as (Hi & Hq' & Hanc).
    split_and!; [done | done |]. intros Hlt.
    eapply tree_anc_ext; [| by apply Hanc].
    intros j Hj. apply vec_get_set_ne. lia.
Qed.

Lemma dfs_inv_add_pred s iw c0 pw :
  dfs_inv n s → iw < dfIdx s → c0 < dfIdx s →
  (c0 < iw → tree_anc (parent s) c0 iw) →
  vec_get (predecessors s) iw = Some pw →
  dfs_inv n (set_predecessors (vec_set (predecessors s) iw (set_insert c0 pw)) s).
Proof.
  intros [Hd_dfIdx Hd_size_vertices Hd_size_semi Hd_size_parent Hd_size_label Hd_size_predecessors Hd_semi Hd_label Hd_ancestor Hd_bucket Hd_idom Hd_index Hd_visited Hd_parent0 Hd_parent Hd_preds] Hiw Hc0 Hanc Hpw. split; simpl; rewrite ?vec_size_set; try done.
  intros i l q Hl Hq. simpl in *.
  destruct (decide (i = iw)) as [-> | Hne].
  - rewrite vec_get_set_eq in Hl by (by eapply vec_get_lt).
    injection Hl as <-. apply set_insert_elem in Hq as [-> | Hq]; [done |].
    by eapply Hd_preds.
  - rewrite vec_get_set_ne in Hl by done. by eapply Hd_preds.
Qed.

Lemma dfs_callback_spec (dfs_rec : Vertex → M (LTState Vertex) unit)
    (v w : Vertex) c0 s0 s :
  (∀ s', dfs_inv n s' → entry_ok s' → c0 < dfIdx s' →
         wp is_oob (dfs_rec w) (λ _, dfs_post n w s') s') →
  dfs_loop_inv n v c0 s0 s →
  wp is_oob (dfs_callback dfs_rec v w) (λ _, dfs_loop_inv n v c0 s0) s.
Proof.
  intros Hrec [Hinv Hext Hidx Hlt Hanc Hpred]. unfold dfs_callback.
  wp_steps. rename x into x, H0 into Hx.
  assert (dfIdx s < n) as Hc.
  { apply vec_get_lt in Hx. by rewrite (di_size_semi _ _ Hinv) in Hx. }
  rewrite (di_semi _ _ Hinv) in Hx by done.
  destruct (N.ltb_spec (dfIdx s) (dfIdx s)); [lia |].
  injection Hx as <-. rewrite N.eqb_refl.
  wp_steps. apply lt_index_of_present with (i := c0); [done |].
  wp_steps. rename H1 into Hsz.
  set (sa := set_parent (vec_set (parent s) (dfIdx s) c0) s).
  assert (dfs_inv n sa) as Hinva by (apply dfs_inv_set_parent; [done | lia]).
  assert (dfs_ext (dfIdx s - 1) s sa) as Hexta.
  { split; simpl; [lia | | done | eauto]. intros i Hi. apply vec_get_set_ne. lia. }
  assert (tree_anc (parent sa) c0 (dfIdx s - 1)) as Hanca.
  { eapply tree_anc_ext; [| exact Hanc]. intros j Hj. apply vec_get_set_ne. lia. }
  eapply wp_mono.
  { apply Hrec; [done | | simpl; lia].
    right. exists c0. simpl. rewrite vec_get_set_eq by done. done. }
  intros [] sb [Hinvb Hextb Hpredb Hold Hnew]. simpl in Hextb, Hpredb.
  assert (dfs_ext c0 s0 sb) as Hext0.
  { eapply dfs_ext_trans; [| exact Hext |]; [reflexivity |].
    eapply dfs_ext_trans; [| eapply dfs_ext_weaken; [| exact Hexta] | exact Hextb].
    all: lia. }
  assert (c0 < dfIdx sb) as Hltb by (pose proof (de_dfIdx _ _ _ Hextb); simpl in *; lia).
  assert (m_vertexIndices (this sb) !! v = Some c0) as Hidxb.
  { apply (di_index _ _ Hinvb). split; [done |].
    rewrite (de_vertices _ _ _ Hextb) by done. simpl.
    by apply (di_index _ _ Hinv). }
  assert (tree_anc (parent sb) c0 (dfIdx sb - 1) ∧
          ∃ iw, m_vertexIndices (this sb) !! w = Some iw ∧ iw < dfIdx sb ∧
            ∀ i, c0 < i < dfIdx sb →
              pred_ok sb i ∨ (i = iw ∧ vec_get (parent sb) i = Some c0))
    as (Hancb & iw & Hiw & Hiwlt & Hpredb').
  { destruct (decide (w ∈ visited sa)) as [Hw | Hw].
    - rewrite (Hold Hw) in *. split; [done |].
      apply (di_visited _ _ Hinva) in Hw as [iw Hiw].
      exists iw. split_and!; [done | by apply (di_index _ _ Hinva) in Hiw as [? _] |].
      intros i Hi. left. simpl in Hi.
      eapply pred_ok_ext; [exact Hexta | lia | apply Hpred; lia].
    - destruct (Hnew Hw) as (Hiw & Hlt' & Hanc'). simpl in Hiw, Hlt', Hanc'.
      assert (vec_get (parent sb) (dfIdx s) = Some c0) as Hpar.
      { rewrite (de_parent _ _ _ Hextb) by done. simpl.
        by rewrite vec_get_set_eq. }
      split.
      + eapply tree_anc_trans; [| exact Hanc'].
        eapply tree_anc_step; [exact Hpar | done | constructor].
      + exists (dfIdx s). split_and!; [done | done |].
        intros i Hi. destruct (decide (i = dfIdx s)) as [-> | Hne]; [by right |].
        left. destruct (decide (i < dfIdx s)).
        * eapply pred_ok_ext; [exact Hextb | lia |].
          eapply pred_ok_ext; [exact Hexta | lia | apply Hpred; lia].
        * apply Hpredb. lia. }
  wp_steps. apply lt_index_of_present with (i := iw); [done |].
  wp_steps. apply lt_index_of_present with (i := c0); [done |].
  wp_steps. rename x into pw, H1 into Hpw.
  assert (c0 < iw → tree_anc (parent sb) c0 iw) as Hanciw.
  { intros Hlt'. eapply tree_anc_interval;
      [apply (di_parent _ _ Hinvb) | | exact Hancb | lia]. lia. }
  split.
  - by apply dfs_inv_add_pred.
  - eapply dfs_ext_trans; [| exact Hext0 |]; [reflexivity |].
    split; simpl; [lia | done | done |].
    intros i l Hl. destruct (decide (i = iw)) as [-> | Hne].
    + rewrite vec_get_set_eq by done. eexists. split; [done |].
      assert (l = pw) as -> by congruence.
      intros q Hq. apply set_insert_elem. by right.
    + rewrite vec_get_set_ne by done. eauto.
  - done.
  - done.
  - done.
  - simpl. intros i Hi.
    destruct (Hpredb' i Hi) as [(p & l & Hp & Hl & Hin) | [-> Hp]].
    + destruct (decide (i = iw)) as [-> | Hne].
      * exists p, (set_insert c0 pw). simpl. rewrite vec_get_set_eq by done.
        split_and!; [done | done |].
        assert (l = pw) as -> by congruence.
        apply set_insert_elem. by right.
      * exists p, l. simpl. by rewrite vec_get_set_ne.
    + exists c0, (set_insert c0 pw). simpl. rewrite vec_get_set_eq by done.
      split_and!; [done | done |]. apply set_insert_elem. by left.
Qed.

Lemma dfs_spec fuel (v : Vertex) s :
  dfs_inv n s → entry_ok s →
  (N.to_nat n - N.to_nat (dfIdx s) < fuel)%nat →
  wp is_oob (dfs ForEachSuccessor fuel v) (λ _, dfs_post n v s) s.
Proof.
  revert v s. induction fuel as [|fuel IH]; intros v s Hinv Hentry Hfuel; [lia |].
  simpl. wp_steps. destruct (decide (v ∈ visited s)) as [Hv | Hv].
  - wp_steps. split; [done | apply dfs_ext_refl | intros; lia | done | done].
  - wp_steps. eapply wp_mono; [by apply dfs_enter_spec |].
    intros [] s1 (Hinv1 & Hext1 & Hc1 & Hidx1 & Hpar1 & Hpreds1).
    eapply wp_mono.
    + apply wp_for_each with (I := dfs_loop_inv n v (dfIdx s) s).
      * split; [done | done | done | lia | | intros; lia].
        rewrite Hc1. replace (dfIdx s + 1 - 1) with (dfIdx s) by lia. constructor.
      * intros w s' _ Hloop. apply dfs_callback_spec; [| done].
        intros s'' Hinv'' Hentry'' Hlt''. apply IH; [done | done |].
        pose proof (di_dfIdx _ _ Hinv''). lia.
    + intros [] s' [Hinv' Hext' Hidx' Hlt' Hanc' Hpred'].
      split; done.
Qed.

Lemma lt_locals_dfs_inv (d : Dominator Vertex) :
  vec_size (m_vertices d) = n → m_vertexIndices d = ∅ →
  dfs_inv n (lt_locals d n).
Proof.
  intros Hsz Hidx. split; simpl; rewrite ?vec_size_new; try done.
  - lia.
  - intros i Hi. rewrite vec_get_new by done.
    by destruct (N.ltb_spec i 0); [lia |].
  - intros i Hi. lia.
  - intros v i. simpl. rewrite Hidx, lookup_empty. split; [done | lia].
  - intros v. rewrite Hidx, lookup_empty. split; [set_solver | by intros [? ?]].
  - intros p [-> _]%vec_get_new_inv. done.
  - intros i Hi. lia.
  - intros i l p [-> _]%vec_get_new_inv Hp. by apply elem_of_nil in Hp.
Qed.
End dfs_proofs.

(** ** Steps 2, 3 and 4: the invariant of the solver *)

Section solver_proofs.
Context {Vertex : Type} `{Countable Vertex}.
Variable n : N.
Implicit Types s : LTState Vertex.

Lemma solver_frame_refl s : solver_frame s s.
Proof. split; eauto. Qed.

Lemma solver_frame_trans s s' s'' :
  solver_frame s s' → solver_frame s' s'' → solver_frame s s''.
Proof.
  intros [H1 H2 H3 H4 Hi H5 H6] [H1' H2' H3' H4' Hi' H5' H6']. split.
  - congruence.
  - congruence.
  - congruence.
  - congruence.
  - eauto.
  - eauto.
  - intros j l Hl. destruct (H6 j l Hl) as (l' & Hl' & Hsub).
    destruct (H6' j l' Hl') as (l'' & Hl'' & Hsub').
    exists l''. split; [done | set_solver].
Qed.

Lemma lt_inv_set_label s v x :
  lt_inv n s → v < dfIdx s → anc_val (parent s) v x →
  lt_inv n (set_label (vec_set (label s) v x) s).
Proof.
  intros [Hc Hsv Hss Hsp Hsa Hsl Hspr Hsb Hsi Hidx Hidxb Hp0 Hpar Hpreds Hpp
            Hsemi Hanc Hlabel Hbucket Hidom] Hv Hx.
  split; simpl; rewrite ?vec_size_set; try done.
  intros i Hi. destruct (decide (i = v)) as [-> | Hne].
  - exists x. by rewrite vec_get_set_eq by lia.
  - rewrite vec_get_set_ne by done. by apply Hlabel.
Qed.

Lemma lt_inv_set_ancestor s v x :
  lt_inv n s → v < dfIdx s →
  x = SIZE_MAX ∨ (x < v ∧ tree_anc (parent s) x v) →
  lt_inv n (set_ancestor (vec_set (ancestor s) v x) s).
Proof.
  intros [Hc Hsv Hss Hsp Hsa Hsl Hspr Hsb Hsi Hidx Hidxb Hp0 Hpar Hpreds Hpp
            Hsemi Hanc Hlabel Hbucket Hidom] Hv Hx.
  split; simpl; rewrite ?vec_size_set; try done.
  intros i Hi. destruct (decide (i = v)) as [-> | Hne].
  - exists x. by rewrite vec_get_set_eq by lia.
  - rewrite vec_get_set_ne by done. by apply Hanc.
Qed.

Lemma lt_inv_set_semi s v x :
  lt_inv n s → v < dfIdx s → anc_val (parent s) v x →
  lt_inv n (set_semi (vec_set (semi s) v x) s).
Proof.
  intros [Hc Hsv Hss Hsp Hsa Hsl Hspr Hsb Hsi Hidx Hidxb Hp0 Hpar Hpreds Hpp
            Hsemi Hanc Hlabel Hbucket Hidom] Hv Hx.
  split; simpl; rewrite ?vec_size_set; try done.
  intros i Hi. destruct (decide (i = v)) as [-> | Hne].
  - exists x. by rewrite vec_get_set_eq by lia.
  - rewrite vec_get_set_ne by done. by apply Hsemi.
Qed.

Lemma lt_inv_set_idom s v x :
  lt_inv n s → v < dfIdx s → idom_val (parent s) v x →
  lt_inv n (set_idom (vec_set (idom s) v x) s).
Proof.
  intros [Hc Hsv Hss Hsp Hsa Hsl Hspr Hsb Hsi Hidx Hidxb Hp0 Hpar Hpreds Hpp
            Hsemi Hanc Hlabel Hbucket Hidom] Hv Hx.
  split; simpl; rewrite ?vec_size_set; try done.
  intros i Hi. destruct (decide (i = v)) as [-> | Hne].
  - exists x. rewrite vec_get_set_eq by lia. auto.
  - rewrite vec_get_set_ne by done. by apply Hidom.
Qed.

Lemma lt_inv_push_bucket s j l w :
  lt_inv n s → w < dfIdx s → idom_val (parent s) w j →
  vec_get (bucket s) j = Some l →
  lt_inv n (set_bucket (vec_set (bucket s) j (l ++ [w])) s).
Proof.
  intros [Hc Hsv Hss Hsp Hsa Hsl Hspr Hsb Hsi Hidx Hidxb Hp0 Hpar Hpreds Hpp
            Hsemi Hanc Hlabel Hbucket Hidom] Hw Hj Hl.
  split; simpl; rewrite ?vec_size_set; try done.
  intros j' l' v Hl' Hv. simpl in *. destruct (decide (j' = j)) as [-> | Hne].
  - rewrite vec_get_set_eq in Hl' by (by eapply vec_get_lt).
    injection Hl' as <-. apply elem_of_app in Hv as [Hv | Hv]; [by eapply Hbucket |].
    apply list_elem_of_singleton in Hv as ->. done.
  - rewrite vec_get_set_ne in Hl' by done. by eapply Hbucket.
Qed.

Lemma lt_inv_insert_index s (v : Vertex) :
  lt_inv n s → m_vertexIndices (this s) !! v = None →
  lt_inv n (set_lt_vertexIndices (<[v := 0]> (m_vertexIndices (this s))) s).
Proof.
  intros [Hc Hsv Hss Hsp Hsa Hsl Hspr Hsb Hsi Hidx Hidxb Hp0 Hpar Hpreds Hpp
            Hsemi Hanc Hlabel Hbucket Hidom] Hv.
  split; simpl; try done.
  - intros i Hi. destruct (Hidx i Hi) as (u & Hu & Hui). exists u.
    split; [done |]. rewrite lookup_insert_ne; [done |]. congruence.
  - intros u i. destruct (decide (v = u)) as [-> | Hne].
    + rewrite lookup_insert_eq. intros [= <-]. lia.
    + rewrite lookup_insert_ne by done. apply Hidxb.
Qed.
End solver_proofs.

Section forest_proofs.
Context {Vertex : Type} `{Countable Vertex}.
Variable n : N.
Implicit Types s : LTState Vertex.

Lemma forest_frame_refl s : forest_frame s s.
Proof. by split. Qed.

Lemma forest_frame_trans s s' s'' :
  forest_frame s s' → forest_frame s' s'' → forest_frame s s''.
Proof. intros [] []. split; congruence. Qed.

Lemma forest_frame_solver s s' : forest_frame s s' → solver_frame s s'.
Proof.
  intros [Ht Hs Hp Hv Hpr Hb Hi Hd].
  split; [done | done | done | by rewrite Ht | by rewrite Ht | |].
  - unfold idom_set. by rewrite Hi, Hp.
  - rewrite Hb. eauto.
Qed.

Lemma compressPath_safe E fuel v s :
  lt_inv n s → v < dfIdx s →
  (∀ a, vec_get (ancestor s) v = Some a → a ≠ SIZE_MAX) →
  (N.to_nat v < fuel)%nat →
  wp E (compressPath fuel v) (λ _ s', lt_inv n s' ∧ forest_frame s s') s.
Proof.
  revert v s. induction fuel as [|fuel IH]; intros v s Hinv Hv Hlinked Hfuel; [lia |].
  simpl. sf_bind_read Hinv av Hav.
  apply wp_bind, wp_solAssert; [intros _ | intros Hb]; cbv beta.
  2:{ apply negb_false_iff, N.eqb_eq in Hb. by destruct (Hlinked av). }
  sf_bind_read Hinv u Hu. assert (u = av) as -> by congruence. clear Hu.
  destruct (li_ancestor _ _ Hinv v Hv) as (av' & Hav' & Hanc).
  assert (av' = av) as -> by congruence. clear Hav'.
  destruct Hanc as [-> | [Hlt Hanc]]; [by destruct (Hlinked SIZE_MAX) |].
  sf_bind_read Hinv au Hau.
  destruct (negb (au =? SIZE_MAX)) eqn:Hb; [| by apply wp_ret; split; [| apply forest_frame_refl]].
  apply negb_true_iff, N.eqb_neq in Hb.
  apply wp_bind. eapply wp_mono.
  { apply IH; [done | lia | | lia]. intros a Ha. congruence. }
  intros [] s1 [Hinv1 Hff1]. cbv beta.
  pose proof (ff_parent _ _ Hff1) as Hpar1.
  pose proof (ff_dfIdx _ _ Hff1) as Hdf1.
  destruct (li_label _ _ Hinv1 av) as (lu & Hlu & Hlule & Hluanc); [lia |].
  destruct (li_label _ _ Hinv1 v) as (lv & Hlv & Hlvle & Hlvanc); [lia |].
  sf_bind_read Hinv1 lu' Hlu'. assert (lu' = lu) as -> by congruence. clear Hlu'.
  sf_bind_read Hinv1 slu Hslu.
  sf_bind_read Hinv1 lv' Hlv'. assert (lv' = lv) as -> by congruence. clear Hlv'.
  sf_bind_read Hinv1 slv Hslv.
  apply wp_bind with (Q := λ _ s', lt_inv n s' ∧ forest_frame s s').
  apply wp_mono with (Q := λ _ s2, lt_inv n s2 ∧ forest_frame s s2).
  - destruct (slu <? slv); [| by apply wp_ret].
    sf_bind_read Hinv1 lu' Hlu'. assert (lu' = lu) as -> by congruence.
    sf_last_write Hinv1 Hsz.
    split.
    + apply lt_inv_set_label; [done | lia |].
      split; [lia |].
      rewrite Hpar1. eapply tree_anc_trans; [| exact Hanc]. by rewrite <- Hpar1.
    + eapply forest_frame_trans; [exact Hff1 |]. by split.
  - intros [] s2 [Hinv2 Hff2]. cbv beta.
    pose proof (ff_parent _ _ Hff2) as Hpar2.
    pose proof (ff_dfIdx _ _ Hff2) as Hdf2.
    sf_bind_read Hinv2 au' Hau'. sf_last_write Hinv2 Hsz. split.
    + apply lt_inv_set_ancestor; [done | lia |].
      destruct (li_ancestor _ _ Hinv2 av) as (x & Hx & Hx'); [lia |].
      assert (x = au') as -> by congruence.
      destruct Hx' as [-> | [Hlt' Hanc']]; [by left | right].
      split; [lia |]. rewrite Hpar2 in *. by eapply tree_anc_trans.
    + eapply forest_frame_trans; [exact Hff2 |]. by split.
Qed.

Lemma compressPath_spec fuel v s :
  lt_inv n s → v < dfIdx s →
  (∀ a, vec_get (ancestor s) v = Some a → a ≠ SIZE_MAX) →
  (N.to_nat v < fuel)%nat →
  wp is_oob (compressPath fuel v) (λ _ s', lt_inv n s' ∧ forest_frame s s') s.
Proof. apply (compressPath_safe is_oob). Qed.

Lemma eval_safe E v s :
  lt_inv n s → v < dfIdx s →
  wp E (eval v)
    (λ u s', lt_inv n s' ∧ forest_frame s s' ∧ anc_val (parent s) v u) s.
Proof.
  intros Hinv Hv. unfold eval. sf_bind_read Hinv av Hav.
  destruct (negb (av =? SIZE_MAX)) eqn:Hb.
  - apply negb_true_iff, N.eqb_neq in Hb.
    apply wp_bind, wp_get. apply wp_bind. eapply wp_mono.
    + apply compressPath_safe; [done | done | intros a Ha; congruence |].
      pose proof (li_size_ancestor _ _ Hinv) as Hsz. unfold vec_size in Hsz.
      pose proof (li_dfIdx _ _ Hinv). lia.
    + intros [] s' [Hinv' Hff]. cbv beta.
      pose proof (ff_dfIdx _ _ Hff) as Hdf.
      sf_last_read Hinv' u Hu.
      split_and!; [done | done |].
      destruct (li_label _ _ Hinv' v) as (x & Hx & Hx').
      { by rewrite (ff_dfIdx _ _ Hff). }
      assert (x = u) as -> by congruence.
      by rewrite <- (ff_parent _ _ Hff).
  - apply wp_ret. split_and!; [done | apply forest_frame_refl |].
    split; [lia | constructor].
Qed.

Lemma eval_spec v s :
  lt_inv n s → v < dfIdx s →
  wp is_oob (eval v)
    (λ u s', lt_inv n s' ∧ forest_frame s s' ∧ anc_val (parent s) v u) s.
Proof. apply (eval_safe is_oob). Qed.
End forest_proofs.

Section step_proofs.
Context {Vertex : Type} `{Countable Vertex}.
Variable n : N.
Implicit Types s : LTState Vertex.

Lemma idom_set_write s v x v' :
  v < vec_size (idom s) → idom_val (parent s) v x →
  idom_set s v' ∨ v' = v →
  idom_set (set_idom (vec_set (idom s) v x) s) v'.
Proof.
  intros Hv Hx Hv'. unfold idom_set. simpl.
  destruct (decide (v' = v)) as [-> | Hne].
  - exists x. by rewrite vec_get_set_eq.
  - rewrite vec_get_set_ne by done. by destruct Hv'.
Qed.

Lemma bucket_step_safe E w v s :
  lt_inv n s → v < dfIdx s → idom_val (parent s) v w →
  wp E (bucket_step w v)
    (λ _ s', lt_inv n s' ∧ solver_frame s s' ∧ idom_set s' v ∧
             bucket s' = bucket s) s.
Proof.
  intros Hinv Hv Hw. unfold bucket_step.
  apply wp_bind. eapply wp_mono; [by apply eval_safe |].
  intros u s1 (Hinv1 & Hff & Hu). cbv beta.
  pose proof (ff_parent _ _ Hff) as Hpar1.
  pose proof (ff_dfIdx _ _ Hff) as Hdf1.
  pose proof Hu as [Hule _].
  sf_bind_read Hinv1 su Hsu. sf_bind_read Hinv1 sv Hsv. sf_last_write Hinv1 Hsz.
  assert (idom_val (parent s1) v (if su <? sv then u else w)) as Hval.
  { rewrite Hpar1. destruct (N.ltb_spec su sv) as [Hlt | _]; [| done].
    destruct Hu as [Hle Hanc]. split_and!; [done | done |].
    intros _. destruct (decide (u = v)) as [-> | Hne]; [| lia].
    assert (su = sv) by congruence. lia. }
  split_and!.
  - apply lt_inv_set_idom; [done | lia | done].
  - eapply solver_frame_trans; [by apply forest_frame_solver |].
    split; simpl; eauto. intros v' Hv'. apply idom_set_write; auto.
  - apply idom_set_write; auto.
  - simpl. apply (ff_bucket _ _ Hff).
Qed.

Lemma bucket_step_spec w v s :
  lt_inv n s → v < dfIdx s → idom_val (parent s) v w →
  wp is_oob (bucket_step w v)
    (λ _ s', lt_inv n s' ∧ solver_frame s s' ∧ idom_set s' v ∧
             bucket s' = bucket s) s.
Proof. apply (bucket_step_safe is_oob). Qed.

Lemma semi_step_safe E w v s :
  lt_inv n s → w < dfIdx s → v < dfIdx s →
  (v < w → tree_anc (parent s) v w) →
  wp E (semi_step w v)
    (λ _ s', lt_inv n s' ∧ solver_frame s s' ∧ idom s' = idom s ∧
             bucket s' = bucket s ∧
             ∀ x, vec_get (semi s) w = Some x →
                  ∃ x', vec_get (semi s') w = Some x' ∧ x' ≤ x ∧ x' ≤ v) s.
Proof.
  intros Hinv Hw Hv Hedge. unfold semi_step.
  apply wp_bind. eapply wp_mono; [by apply eval_safe |].
  intros u s1 (Hinv1 & Hff & Hule & Huanc). cbv beta.
  pose proof (ff_parent _ _ Hff) as Hpar1.
  pose proof (ff_dfIdx _ _ Hff) as Hdf1.
  pose proof (ff_semi _ _ Hff) as Hsemi1.
  sf_bind_read Hinv1 su Hsu. sf_bind_read Hinv1 sw Hsw.
  destruct (li_semi _ _ Hinv1 u) as (su' & Hsu' & Hsule & Hsuanc); [lia |].
  assert (su' = su) as -> by congruence. clear Hsu'.
  destruct (li_semi _ _ Hinv1 w) as (sw' & Hsw' & Hswle & Hswanc); [lia |].
  assert (sw' = sw) as -> by congruence. clear Hsw'.
  destruct (N.ltb_spec su sw) as [Hlt | Hge].
  - sf_bind_read Hinv1 su' Hsu'. assert (su' = su) as -> by congruence.
    sf_last_write Hinv1 Hsz. split_and!.
    + apply lt_inv_set_semi; [done | lia |]. split; [lia |].
      rewrite Hpar1 in *.
      assert (tree_anc (parent s) su v) as Hsuv by (by eapply tree_anc_trans).
      destruct (N.lt_trichotomy v w) as [Hvw | [-> | Hvw]].
      * eapply tree_anc_trans; [exact Hsuv | by apply Hedge].
      * done.
      * eapply tree_anc_interval; [apply (li_parent _ _ Hinv) | | exact Hsuv | lia].
        lia.
    + eapply solver_frame_trans; [by apply forest_frame_solver |].
      split; simpl; eauto.
    + simpl. apply (ff_idom _ _ Hff).
    + simpl. apply (ff_bucket _ _ Hff).
    + intros x Hx. simpl. rewrite vec_get_set_eq by done.
      exists su. split; [done |]. rewrite <- Hsemi1 in Hx.
      assert (x = sw) as -> by congruence. lia.
  - apply wp_ret. split_and!.
    + done.
    + by apply forest_frame_solver.
    + apply (ff_idom _ _ Hff).
    + apply (ff_bucket _ _ Hff).
    + intros x Hx. rewrite <- Hsemi1 in Hx. exists x. split; [done |].
      assert (x = sw) as -> by congruence. lia.
Qed.

Lemma semi_step_spec w v s :
  lt_inv n s → w < dfIdx s → v < dfIdx s →
  (v < w → tree_anc (parent s) v w) →
  wp is_oob (semi_step w v)
    (λ _ s', lt_inv n s' ∧ solver_frame s s' ∧ idom s' = idom s ∧
             bucket s' = bucket s ∧
             ∀ x, vec_get (semi s) w = Some x →
                  ∃ x', vec_get (semi s') w = Some x' ∧ x' ≤ x ∧ x' ≤ v) s.
Proof. apply (semi_step_safe is_oob). Qed.

Lemma bucket_push_safe E w s :
  lt_inv n s → w < dfIdx s →
  (w ≠ 0 → ∃ x, vec_get (semi s) w = Some x ∧ x < w) →
  wp E (bucket_push w)
    (λ _ s', lt_inv n s' ∧ solver_frame s s' ∧
             (w ≠ 0 → ∃ j l, j < w ∧ vec_get (bucket s') j = Some l ∧ w ∈ l)) s.
Proof.
  intros Hinv Hw Hsemi. unfold bucket_push.
  destruct (li_semi _ _ Hinv w Hw) as (sw & Hsw & Hle & Hanc).
  sf_bind_read Hinv sw' Hsw'. assert (sw' = sw) as -> by congruence. clear Hsw'.
  sf_bind_read Hinv b Hb. sf_last_write Hinv Hsz.
  assert (w ≠ 0 → sw < w) as Hlt.
  { intros Hne. destruct (Hsemi Hne) as (x & Hx & Hlt).
    by assert (x = sw) as -> by congruence. }
  split_and!.
  - by apply lt_inv_push_bucket.
  - split; simpl; eauto. intros j l Hl.
    destruct (decide (j = sw)) as [-> | Hne].
    + rewrite vec_get_set_eq by done. eexists. split; [done |].
      assert (l = b) as -> by congruence.
      intros q Hq. apply elem_of_app. by left.
    + rewrite vec_get_set_ne by done. eauto.
  - intros Hne. exists sw, (b ++ [w]). simpl.
    rewrite vec_get_set_eq by done. split_and!; [auto | done |].
    apply elem_of_app. right. by apply list_elem_of_singleton.
Qed.

Lemma bucket_push_spec w s :
  lt_inv n s → w < dfIdx s →
  (w ≠ 0 → ∃ x, vec_get (semi s) w = Some x ∧ x < w) →
  wp is_oob (bucket_push w)
    (λ _ s', lt_inv n s' ∧ solver_frame s s' ∧
             (w ≠ 0 → ∃ j l, j < w ∧ vec_get (bucket s') j = Some l ∧ w ∈ l)) s.
Proof. apply (bucket_push_safe is_oob). Qed.

Lemma link_safe E w s :
  lt_inv n s → w < dfIdx s →
  wp E (pw ← read v_parent parent w; link pw w)%lt
    (λ _ s', lt_inv n s' ∧ solver_frame s s' ∧ bucket s' = bucket s) s.
Proof.
  intros Hinv Hw. sf_bind_read Hinv pw Hpw. unfold link. sf_last_write Hinv Hsz.
  split_and!; [| by split; simpl; eauto | done].
  apply lt_inv_set_ancestor; [done | done |].
  destruct (decide (w = 0)) as [-> | Hne].
  - left. pose proof (li_parent0 _ _ Hinv). congruence.
  - right. destruct (li_parent _ _ Hinv w) as (p & Hp & Hlt & _); [lia |].
    assert (p = pw) as -> by congruence. split; [done |].
    eapply tree_anc_step; [done | done | constructor].
Qed.

Lemma link_spec w s :
  lt_inv n s → w < dfIdx s →
  wp is_oob (pw ← read v_parent parent w; link pw w)%lt
    (λ _ s', lt_inv n s' ∧ solver_frame s s' ∧ bucket s' = bucket s) s.
Proof. apply (link_safe is_oob). Qed.
End step_proofs.

Section process_proofs.
Context {Vertex : Type} `{Countable Vertex}.
Variable n : N.
Implicit Types s : LTState Vertex.

Lemma process_safe E w s :
  lt_inv n s → w < dfIdx s →
  wp E (process w)
    (λ _ s', lt_inv n s' ∧ solver_frame s s' ∧
             (∀ l v, vec_get (bucket s) w = Some l → v ∈ l → idom_set s' v) ∧
             (w ≠ 0 → ∃ j l, j < w ∧ vec_get (bucket s') j = Some l ∧ w ∈ l)) s.
Proof.
  intros Hinv Hw. unfold process. sf_bind_read Hinv b Hb.
  apply wp_bind. eapply wp_mono.
  { apply wp_for_each_acc with
      (I := λ done s1, lt_inv n s1 ∧ solver_frame s s1 ∧ bucket s1 = bucket s ∧
                       ∀ v, v ∈ done → idom_set s1 v).
    - split_and!; [done | apply solver_frame_refl | done |].
      intros v Hv. by apply elem_of_nil in Hv.
    - intros done v s1 Hv (Hinv1 & Hsf1 & Hb1 & Hdone).
      destruct (li_bucket _ _ Hinv w b v Hb Hv) as [Hvc Hval].
      eapply wp_mono.
      + apply bucket_step_safe; [done | by rewrite (sf_dfIdx _ _ Hsf1) |].
        by rewrite (sf_parent _ _ Hsf1).
      + intros [] s2 (Hinv2 & Hsf2 & Hset & Hb2). split_and!.
        * done.
        * by eapply solver_frame_trans.
        * congruence.
        * intros v' [Hv' | ->%list_elem_of_singleton]%elem_of_app; [| done].
          apply (sf_idom _ _ Hsf2). by apply Hdone. }
  intros [] s1 (Hinv1 & Hsf1 & Hb1 & Hset1). cbv beta.
  pose proof (sf_dfIdx _ _ Hsf1) as Hdf1.
  sf_bind_read Hinv1 p Hp. rewrite (sf_predecessors _ _ Hsf1) in Hp.
  apply wp_bind. eapply wp_mono.
  { apply wp_for_each_acc with
      (I := λ done s2, lt_inv n s2 ∧ solver_frame s s2 ∧ bucket s2 = bucket s ∧
                       (∀ v, v ∈ b → idom_set s2 v) ∧
                       ∀ v, v ∈ done → ∃ x, vec_get (semi s2) w = Some x ∧ x ≤ v).
    - split_and!; [done | done | done | done |].
      intros v Hv. by apply elem_of_nil in Hv.
    - intros done v s2 Hv (Hinv2 & Hsf2 & Hb2 & Hset2 & Hdone).
      destruct (li_preds _ _ Hinv w p v Hp Hv) as (_ & Hvc & Hedge).
      eapply wp_mono.
      + apply semi_step_safe; rewrite ?(sf_dfIdx _ _ Hsf2), ?(sf_parent _ _ Hsf2);
          done.
      + intros [] s3 (Hinv3 & Hsf3 & Hi3 & Hb3 & Hsemi3). split_and!.
        * done.
        * by eapply solver_frame_trans.
        * congruence.
        * intros v' Hv'. apply (sf_idom _ _ Hsf3). by apply Hset2.
        * destruct (li_semi _ _ Hinv2 w) as (x & Hx & _).
          { by rewrite (sf_dfIdx _ _ Hsf2). }
          destruct (Hsemi3 x Hx) as (x' & Hx' & Hle & Hlev).
          intros v' [Hv' | ->%list_elem_of_singleton]%elem_of_app.
          -- destruct (Hdone v' Hv') as (y & Hy & Hyle).
             assert (y = x) as -> by congruence.
             exists x'. split; [done | lia].
          -- by exists x'. }
  intros [] s2 (Hinv2 & Hsf2 & Hb2 & Hset2 & Hsemi2). cbv beta.
  apply wp_bind. eapply wp_mono.
  { apply bucket_push_safe; [done | by rewrite (sf_dfIdx _ _ Hsf2) |].
    intros Hne. destruct (li_pred_parent _ _ Hinv w) as (pp & l & Hpp & Hl & Hin);
      [lia |].
    assert (l = p) as -> by congruence.
    destruct (Hsemi2 pp Hin) as (x & Hx & Hle).
    destruct (li_parent _ _ Hinv w) as (pp' & Hpp' & Hlt & _); [lia |].
    assert (pp' = pp) as -> by congruence.
    exists x. split; [done | lia]. }
  intros [] s3 (Hinv3 & Hsf3 & Hpush). cbv beta.
  eapply wp_mono.
  { apply link_safe; [done |].
    by rewrite (sf_dfIdx _ _ Hsf3), (sf_dfIdx _ _ Hsf2). }
  intros [] s4 (Hinv4 & Hsf4 & Hb4). split_and!.
  - done.
  - eapply solver_frame_trans; [exact Hsf2 |].
    by eapply solver_frame_trans.
  - intros l v Hl Hv. assert (l = b) as -> by congruence.
    apply (sf_idom _ _ Hsf4), (sf_idom _ _ Hsf3). by apply Hset2.
  - intros Hne. rewrite Hb4. by apply Hpush.
Qed.

Lemma process_spec w s :
  lt_inv n s → w < dfIdx s →
  wp is_oob (process w)
    (λ _ s', lt_inv n s' ∧ solver_frame s s' ∧
             (∀ l v, vec_get (bucket s) w = Some l → v ∈ l → idom_set s' v) ∧
             (w ≠ 0 → ∃ j l, j < w ∧ vec_get (bucket s') j = Some l ∧ w ∈ l)) s.
Proof. apply (process_safe is_oob). Qed.
End process_proofs.

Section pass_proofs.
Context {Vertex : Type} `{Countable Vertex}.
Variable ForEachSuccessor : Vertex → list Vertex.
Variable n : N.
Implicit Types s : LTState Vertex.

Lemma toIdx_safe E (vtx : Vertex) s :
  lt_inv n s →
  wp E (toIdx vtx)
    (λ w s', lt_inv n s' ∧ solver_frame s s' ∧ w < dfIdx s ∧
             semi s' = semi s ∧ bucket s' = bucket s ∧ idom s' = idom s ∧
             ancestor s' = ancestor s ∧ label s' = label s ∧
             ∀ i, m_vertexIndices (this s) !! vtx = Some i → w = i ∧ s' = s) s.
Proof.
  intros Hinv. unfold wp, toIdx, lt_index_of, index_of.
  destruct (m_vertexIndices (this s) !! vtx) as [i |] eqn:Hi.
  - split_and!; try done.
    + apply solver_frame_refl.
    + by eapply li_index_bound.
    + by intros ? [= <-].
  - split_and!; try done.
    + by apply lt_inv_insert_index.
    + split; simpl; eauto. intros v i Hv.
      rewrite lookup_insert_ne; [done |]. congruence.
    + apply (li_dfIdx _ _ Hinv).
Qed.

Lemma toIdx_spec (vtx : Vertex) s :
  lt_inv n s →
  wp is_oob (toIdx vtx)
    (λ w s', lt_inv n s' ∧ solver_frame s s' ∧ w < dfIdx s ∧
             semi s' = semi s ∧ bucket s' = bucket s ∧ idom s' = idom s ∧
             ancestor s' = ancestor s ∧ label s' = label s ∧
             ∀ i, m_vertexIndices (this s) !! vtx = Some i → w = i ∧ s' = s) s.
Proof. apply (toIdx_safe is_oob). Qed.

Lemma reverse_pass_body_safe E (vtx : Vertex) s :
  lt_inv n s →
  wp E (reverse_pass_body vtx) (λ _ s', lt_inv n s' ∧ solver_frame s s') s.
Proof.
  intros Hinv. unfold reverse_pass_body.
  apply wp_bind. eapply wp_mono; [by apply toIdx_safe |].
  intros w s1 (Hinv1 & Hsf1 & Hw & _). cbv beta.
  eapply wp_mono.
  - apply process_safe; [done | by rewrite (sf_dfIdx _ _ Hsf1)].
  - intros [] s2 (Hinv2 & Hsf2 & _). split; [done |].
    by eapply solver_frame_trans.
Qed.

Lemma reverse_pass_body_spec (vtx : Vertex) s :
  lt_inv n s →
  wp is_oob (reverse_pass_body vtx) (λ _ s', lt_inv n s' ∧ solver_frame s s') s.
Proof. apply (reverse_pass_body_safe is_oob). Qed.

Lemma sweep_step w s s' :
  solver_frame s s' →
  sweep (w + 1) s →
  (∀ l v, vec_get (bucket s) w = Some l → v ∈ l → idom_set s' v) →
  (w ≠ 0 → ∃ j l, j < w ∧ vec_get (bucket s') j = Some l ∧ w ∈ l) →
  sweep w s'.
Proof.
  intros Hsf Hsweep Hb Hpush v Hv Hne.
  rewrite (sf_dfIdx _ _ Hsf) in Hv.
  destruct (decide (v = w)) as [-> | Hvw]; [right; auto |].
  destruct (Hsweep v) as [Hset | (j & l & Hj & Hl & Hin)]; [lia | done | |].
  - left. by apply (sf_idom _ _ Hsf).
  - destruct (decide (j = w)) as [-> | Hjw].
    + left. by eapply Hb.
    + right. destruct (sf_bucket _ _ Hsf j l Hl) as (l' & Hl' & Hsub).
      exists j, l'. split_and!; [lia | done | by apply Hsub].
Qed.

Lemma reverse_sweep_safe E (k : nat) s :
  lt_inv n s → N.of_nat k ≤ dfIdx s → sweep (N.of_nat k) s →
  wp E (for_each (rev (take k (m_vertices (this s)))) reverse_pass_body)
    (λ _ s', lt_inv n s' ∧ solver_frame s s' ∧ sweep 0 s') s.
Proof.
  revert s. induction k as [|k IH]; intros s Hinv Hk Hsweep.
  - rewrite take_0. simpl. apply wp_ret.
    split_and!; [done | apply solver_frame_refl | done].
  - destruct (li_index _ _ Hinv (N.of_nat k)) as (vtx & Hvtx & Hidx); [lia |].
    unfold vec_get in Hvtx. rewrite Nat2N.id in Hvtx.
    rewrite (take_S_r _ _ _ Hvtx), rev_unit. simpl.
    apply wp_bind. unfold reverse_pass_body at 1.
    apply wp_bind. eapply wp_mono; [by apply toIdx_safe |].
    intros w s1 (_ & _ & _ & _ & _ & _ & _ & _ & Hsame). cbv beta.
    destruct (Hsame _ Hidx) as [-> ->]. clear Hsame.
    eapply wp_mono; [apply process_safe; [done | lia] |].
    intros [] s2 (Hinv2 & Hsf2 & Hb2 & Hpush2). cbv beta.
    rewrite <- (sf_vertices _ _ Hsf2). eapply wp_mono.
    + apply IH; [done | rewrite (sf_dfIdx _ _ Hsf2); lia |].
      eapply sweep_step; [done | | done | done].
      by replace (N.of_nat k + 1) with (N.of_nat (S k)) by lia.
    + intros [] s3 (Hinv3 & Hsf3 & Hsweep3). split_and!; [done | | done].
      by eapply solver_frame_trans.
Qed.

Lemma reverse_sweep_spec (k : nat) s :
  lt_inv n s → N.of_nat k ≤ dfIdx s → sweep (N.of_nat k) s →
  wp is_oob (for_each (rev (take k (m_vertices (this s)))) reverse_pass_body)
    (λ _ s', lt_inv n s' ∧ solver_frame s s' ∧ sweep 0 s') s.
Proof. apply (reverse_sweep_safe is_oob). Qed.

Lemma reverse_pass_safe E s :
  lt_inv n s →
  wp E reverse_pass
    (λ _ s', lt_inv n s' ∧ solver_frame s s' ∧ sweep 0 s') s.
Proof.
  intros Hinv. unfold reverse_pass. apply wp_bind, wp_get.
  rewrite <- (take_drop (N.to_nat (dfIdx s)) (m_vertices (this s))).
  rewrite rev_app_distr. apply wp_for_each_app.
  eapply wp_mono.
  - apply wp_for_each with (I := λ s1, lt_inv n s1 ∧ solver_frame s s1).
    + split; [done | apply solver_frame_refl].
    + intros vtx s1 _ [Hinv1 Hsf1]. eapply wp_mono.
      * by apply reverse_pass_body_safe.
      * intros [] s2 [Hinv2 Hsf2]. split; [done |].
        by eapply solver_frame_trans.
  - intros [] s1 [Hinv1 Hsf1]. cbv beta.
    rewrite <- (sf_vertices _ _ Hsf1), <- (sf_dfIdx _ _ Hsf1).
    eapply wp_mono.
    + apply reverse_sweep_safe; [done | lia |].
      intros v Hv. lia.
    + intros [] s2 (Hinv2 & Hsf2 & Hsweep2). split_and!; [done | | done].
      by eapply solver_frame_trans.
Qed.

Lemma reverse_pass_spec s :
  lt_inv n s →
  wp is_oob reverse_pass
    (λ _ s', lt_inv n s' ∧ solver_frame s s' ∧ sweep 0 s') s.
Proof. apply (reverse_pass_safe is_oob). Qed.

Lemma finalize_step_safe E (vtx : Vertex) s :
  lt_inv n s → (∀ v, v < dfIdx s → idom_set s v) →
  wp E (finalize_step vtx) (λ _ s', lt_inv n s' ∧ solver_frame s s') s.
Proof.
  intros Hinv Hall. unfold finalize_step.
  apply wp_bind. eapply wp_mono; [by apply toIdx_safe |].
  intros w s1 (Hinv1 & Hsf1 & Hw & _ & _ & Hidom1 & _). cbv beta.
  pose proof (sf_dfIdx _ _ Hsf1) as Hdf1.
  pose proof (sf_parent _ _ Hsf1) as Hpar1.
  destruct (sf_idom _ _ Hsf1 w (Hall w Hw)) as (iw & Hiw & Hle & Hanc & Hlt).
  sf_bind_read Hinv1 iw' Hiw'. assert (iw' = iw) as -> by congruence. clear Hiw'.
  sf_bind_read Hinv1 sw Hsw.
  destruct (negb (iw =? sw)); [| by apply wp_ret].
  sf_bind_read Hinv1 iw' Hiw'. assert (iw' = iw) as -> by congruence.
  sf_bind_read Hinv1 iiw Hiiw. sf_last_write Hinv1 Hsz.
  destruct (sf_idom _ _ Hsf1 iw (Hall iw ltac:(lia))) as (y & Hy & Hle' & Hanc' & Hlt').
  assert (y = iiw) as -> by congruence.
  assert (idom_val (parent s1) w iiw) as Hval.
  { split_and!; [lia | by eapply tree_anc_trans |]. intros Hne. specialize (Hlt Hne). lia. }
  split.
  - apply lt_inv_set_idom; [done | lia | done].
  - eapply solver_frame_trans; [exact Hsf1 |].
    split; simpl; eauto. intros v' Hv'. apply idom_set_write; auto.
Qed.

Lemma finalize_step_spec (vtx : Vertex) s :
  lt_inv n s → (∀ v, v < dfIdx s → idom_set s v) →
  wp is_oob (finalize_step vtx) (λ _ s', lt_inv n s' ∧ solver_frame s s') s.
Proof. apply (finalize_step_safe is_oob). Qed.

Lemma finalize_safe E s :
  lt_inv n s → sweep 0 s →
  wp E finalize
    (λ _ s', lt_inv n s' ∧ solver_frame s s' ∧
             ∀ v, v < dfIdx s' → idom_set s' v) s.
Proof.
  intros Hinv Hsweep. unfold finalize. sf_bind_write Hinv Hsz.
  set (s1 := set_idom (vec_set (idom s) 0 0) s).
  assert (idom_val (parent s) 0 0) as Hval0.
  { split_and!; [lia | constructor | done]. }
  assert (lt_inv n s1) as Hinv1.
  { apply lt_inv_set_idom; [done | apply (li_dfIdx _ _ Hinv) | done]. }
  assert (solver_frame s s1) as Hsf1.
  { split; simpl; eauto. intros v' Hv'. apply idom_set_write; auto. }
  assert (∀ v, v < dfIdx s1 → idom_set s1 v) as Hall1.
  { intros v Hv. destruct (decide (v = 0)) as [-> | Hne].
    - apply idom_set_write; auto.
    - destruct (Hsweep v) as [Hset | (j & _ & Hj & _)]; [simpl in Hv; lia | done | | lia].
      by apply (sf_idom _ _ Hsf1). }
  apply wp_bind, wp_get. eapply wp_mono.
  - apply wp_for_each with
      (I := λ s2, lt_inv n s2 ∧ solver_frame s1 s2).
    + split; [done | apply solver_frame_refl].
    + intros vtx s2 _ (Hinv2 & Hsf2). eapply wp_mono.
      * apply finalize_step_safe; [done |]. intros v Hv.
        apply (sf_idom _ _ Hsf2), Hall1. by rewrite <- (sf_dfIdx _ _ Hsf2).
      * intros [] s3 [Hinv3 Hsf3]. split; [done |].
        by eapply solver_frame_trans.
  - intros [] s2 (Hinv2 & Hsf2). split_and!; [done | by eapply solver_frame_trans |].
    intros v Hv. apply (sf_idom _ _ Hsf2), Hall1. by rewrite <- (sf_dfIdx _ _ Hsf2).
Qed.

Lemma finalize_spec s :
  lt_inv n s → sweep 0 s →
  wp is_oob finalize
    (λ _ s', lt_inv n s' ∧ solver_frame s s' ∧
             ∀ v, v < dfIdx s' → idom_set s' v) s.
Proof. apply (finalize_safe is_oob). Qed.

Lemma dfs_phase_spec (_entry : Vertex) (d : Dominator Vertex) :
  0 < n → vec_size (m_vertices d) = n → m_vertexIndices d = ∅ →
  wp is_oob (dfs_phase ForEachSuccessor _entry n)
    (λ _ s, lt_inv n s ∧ dfs_inv n s ∧
            vec_get (m_vertices (this s)) 0 = Some _entry ∧
            m_vertexIndices (this s) !! _entry = Some 0) (lt_locals d n).
Proof.
  intros Hn Hsz Hidx. unfold dfs_phase. eapply wp_mono.
  - apply dfs_spec; [by apply lt_locals_dfs_inv | by left | simpl; lia].
  - intros [] s [Hinv Hext Hpred _ Hnew]. simpl in *.
    destruct Hnew as (Hentry & Hpos & _); [set_solver |].
    split_and!; [| done | by apply (di_index _ _ Hinv) in Hentry as [_ ?] | done].
    destruct Hinv as [Hd_dfIdx Hd_size_vertices Hd_size_semi Hd_size_parent
      Hd_size_label Hd_size_predecessors Hd_semi Hd_label Hd_ancestor
      Hd_bucket Hd_idom Hd_index Hd_visited Hd_parent0 Hd_parent Hd_preds].
    split; try done.
    + by rewrite Hd_ancestor, vec_size_new.
    + by rewrite Hd_bucket, vec_size_new.
    + by rewrite Hd_idom, vec_size_new.
    + intros i Hi.
      destruct (vec_get_is_Some (m_vertices (this s)) i) as [v Hv]; [lia |].
      exists v. split; [done |]. by apply Hd_index.
    + intros v i Hv. by apply Hd_index in Hv as [? _].
    + destruct (vec_get_is_Some (parent s) 0) as [p Hp]; [lia |].
      by rewrite Hp, (Hd_parent0 p Hp).
    + intros i Hi. rewrite Hd_semi by lia.
      destruct (N.ltb_spec i (dfIdx s)); [| lia].
      exists i. split; [done |]. split; [lia | constructor].
    + intros i Hi. exists SIZE_MAX. rewrite Hd_ancestor, vec_get_new by lia. auto.
    + intros i Hi. exists i. rewrite Hd_label by done.
      split; [done |]. split; [lia | constructor].
    + intros j l v. rewrite Hd_bucket. intros [-> _]%vec_get_new_inv Hv.
      by apply elem_of_nil in Hv.
    + intros i Hi. exists SIZE_MAX. rewrite Hd_idom, vec_get_new by lia. auto.
Qed.

Lemma lt_body_spec (_entry : Vertex) (d : Dominator Vertex) :
  0 < n → vec_size (m_vertices d) = n → m_vertexIndices d = ∅ →
  wp is_oob (lt_body ForEachSuccessor _entry n)
    (λ _ s, lt_inv n s ∧ (∀ v, v < dfIdx s → idom_set s v) ∧
            vec_get (m_vertices (this s)) 0 = Some _entry ∧
            m_vertexIndices (this s) !! _entry = Some 0) (lt_locals d n).
Proof.
  intros Hn Hsz Hidx. unfold lt_body.
  apply wp_bind. eapply wp_mono; [by apply dfs_phase_spec |].
  intros [] s1 (Hinv1 & _ & Hentry1 & Hidx1). cbv beta.
  apply wp_bind. eapply wp_mono; [by apply reverse_pass_spec |].
  intros [] s2 (Hinv2 & Hsf2 & Hsweep2). cbv beta.
  eapply wp_mono; [by apply finalize_spec |].
  intros [] s3 (Hinv3 & Hsf3 & Hall3). split_and!; [done | done | |].
  - by rewrite (sf_vertices _ _ Hsf3), (sf_vertices _ _ Hsf2).
  - by apply (sf_index _ _ Hsf3), (sf_index _ _ Hsf2).
Qed.
End pass_proofs.

(** ** The invariant [semi[i] <= i] *)

Section semi_le_proofs.
Context {Vertex : Type} `{Countable Vertex}.
Variable ForEachSuccessor : Vertex → list Vertex.
Implicit Types s : LTState Vertex.

Lemma keeps_semi_le s s' :
  semi s' = semi s ∧ dfIdx s' = dfIdx s → semi_le s → semi_le s'.
Proof. unfold semi_le. intros [-> ->]. done. Qed.

Lemma compressPath_keeps_semi fuel v s :
  wp any_error (compressPath fuel v)
    (λ _ s', semi s' = semi s ∧ dfIdx s' = dfIdx s) s.
Proof.
  revert v s. induction fuel as [|fuel IH]; intros v s; simpl; [done |].
  wp_any; try done.
  all: eapply wp_mono; [apply IH |]; intros [] s' [Hs Hd]; cbv beta.
  all: wp_any; simpl; by rewrite ?Hs, ?Hd.
Qed.

Lemma eval_keeps_semi v s :
  wp any_error (eval v) (λ _ s', semi s' = semi s ∧ dfIdx s' = dfIdx s) s.
Proof.
  unfold eval. wp_any; try done.
  eapply wp_mono; [apply compressPath_keeps_semi |].
  intros [] s' [Hs Hd]. cbv beta. wp_any. done.
Qed.

Lemma toIdx_keeps_semi (v : Vertex) s :
  wp any_error (toIdx v) (λ _ s', semi s' = semi s ∧ dfIdx s' = dfIdx s) s.
Proof.
  unfold wp, toIdx, lt_index_of, index_of.
  by destruct (m_vertexIndices (this s) !! v).
Qed.

Lemma semi_step_semi_le w v s :
  semi_le s → wp any_error (semi_step w v) (λ _, semi_le) s.
Proof.
  intros Hle. unfold semi_step. apply wp_bind.
  eapply wp_mono; [apply eval_keeps_semi |].
  intros u s1 Hkeep. cbv beta.
  pose proof (keeps_semi_le _ _ Hkeep Hle) as Hle1.
  apply wp_bind, wp_read; [| done]. intros su Hsu.
  apply wp_bind, wp_read; [| done]. intros sw Hsw.
  destruct (N.ltb_spec su sw) as [Hlt | _]; [| by apply wp_ret].
  apply wp_bind, wp_read; [| done]. intros su' Hsu'.
  apply wp_write; [| done]. intros Hsz.
  assert (su' = su) as -> by congruence.
  intros i x Hi Hx. simpl in Hi, Hx.
  destruct (decide (i = w)) as [-> | Hne].
  - rewrite vec_get_set_eq in Hx by done. injection Hx as <-.
    specialize (Hle1 w sw Hi Hsw). lia.
  - rewrite vec_get_set_ne in Hx by done. by apply Hle1.
Qed.

Lemma dfs_enter_semi_le (v : Vertex) s :
  semi_le s → wp any_error (dfs_enter v) (λ _, semi_le) s.
Proof.
  intros Hle. unfold dfs_enter. wp_any.
  intros i x Hi Hx. simpl in Hi, Hx.
  destruct (decide (i = dfIdx s)) as [-> | Hne].
  - rewrite vec_get_set_eq in Hx by done. injection Hx as <-. lia.
  - rewrite vec_get_set_ne in Hx by done. apply Hle; [lia | done].
Qed.

(** The moment an index is assigned: [semi[i] = i]. *)
Lemma dfs_enter_assigns (v : Vertex) s s' :
  dfs_enter v s = Ok tt s' →
  dfIdx s' = dfIdx s + 1 ∧ vec_get (semi s') (dfIdx s) = Some (dfIdx s).
Proof.
  intros Hrun.
  assert (wp any_error (dfs_enter v)
            (λ _ s', dfIdx s' = dfIdx s + 1 ∧
                     vec_get (semi s') (dfIdx s) = Some (dfIdx s)) s) as Hwp.
  { unfold dfs_enter. wp_any. simpl. split; [done |]. by rewrite vec_get_set_eq. }
  exact (wp_ok _ _ _ _ _ _ Hwp Hrun).
Qed.

Lemma semi_le_for_each {A} (l : list A) (f : A → M (LTState Vertex) unit) s :
  (∀ x s', semi_le s' → wp any_error (f x) (λ _, semi_le) s') →
  semi_le s → wp any_error (for_each l f) (λ _, semi_le) s.
Proof.
  intros Hf Hle. apply wp_for_each with (I := semi_le); [done |].
  intros x s' _. apply Hf.
Qed.

Lemma dfs_callback_semi_le (rec : Vertex → M (LTState Vertex) unit) (v w : Vertex) s :
  (∀ s', semi_le s' → wp any_error (rec w) (λ _, semi_le) s') →
  semi_le s → wp any_error (dfs_callback rec v w) (λ _, semi_le) s.
Proof.
  intros Hrec Hle. unfold dfs_callback.
  assert (∀ u s', semi_le s' →
    wp any_error (lt_index_of u) (λ _, semi_le) s') as Hidx.
  { intros u s' Hle'. eapply wp_mono; [apply (toIdx_keeps_semi u) |].
    intros ? s'' Hkeep. by apply (keeps_semi_le _ _ Hkeep). }
  assert (∀ s', semi_le s' →
    wp any_error
      (iw ← lt_index_of w; iv ← lt_index_of v;
       pw ← read v_predecessors predecessors iw;
       write v_predecessors predecessors set_predecessors iw (set_insert iv pw))%lt
      (λ _, semi_le) s') as Htail.
  { intros s' Hle'. apply wp_bind. eapply wp_mono; [by apply Hidx |].
    intros iw s1 Hle1. cbv beta. apply wp_bind.
    eapply wp_mono; [by apply Hidx |].
    intros iv s2 Hle2. cbv beta. wp_any. done. }
  apply wp_bind, wp_get. apply wp_bind, wp_read; [| done]. intros x Hx.
  apply wp_bind. destruct (x =? SIZE_MAX).
  - apply wp_bind. eapply wp_mono; [by apply Hidx |].
    intros iv s1 Hle1. cbv beta. apply wp_bind, wp_get.
    apply wp_bind, wp_write; [| done]. intros Hsz.
    eapply wp_mono; [by apply Hrec |]. intros [] s2 Hle2. by apply Htail.
  - apply wp_ret. by apply Htail.
Qed.

Lemma dfs_semi_le fuel (v : Vertex) s :
  semi_le s → wp any_error (dfs ForEachSuccessor fuel v) (λ _, semi_le) s.
Proof.
  revert v s. induction fuel as [|fuel IH]; intros v s Hle; simpl; [done |].
  apply wp_bind, wp_get. destruct (decide (v ∈ visited s)); [by apply wp_ret |].
  apply wp_bind. eapply wp_mono; [by apply dfs_enter_semi_le |].
  intros [] s1 Hle1. cbv beta. apply semi_le_for_each; [| done].
  intros w s2 Hle2. apply dfs_callback_semi_le; [| done]. intros s3. apply IH.
Qed.

Lemma bucket_step_keeps_semi w v s :
  wp any_error (bucket_step w v) (λ _ s', semi s' = semi s ∧ dfIdx s' = dfIdx s) s.
Proof.
  unfold bucket_step. apply wp_bind.
  eapply wp_mono; [apply eval_keeps_semi |].
  intros u s1 Hkeep. cbv beta. wp_any. done.
Qed.

Lemma process_semi_le w s :
  semi_le s → wp any_error (process w) (λ _, semi_le) s.
Proof.
  intros Hle. unfold process.
  apply wp_bind, wp_read; [| done]. intros b Hb.
  apply wp_bind. eapply wp_mono.
  { apply semi_le_for_each; [| done]. intros v s' Hle'.
    eapply wp_mono; [apply bucket_step_keeps_semi |].
    intros ? s'' Hkeep. by apply (keeps_semi_le _ _ Hkeep). }
  intros [] s1 Hle1. cbv beta.
  apply wp_bind, wp_read; [| done]. intros p Hp.
  apply wp_bind. eapply wp_mono.
  { apply semi_le_for_each; [| done]. intros v s'.
    apply semi_step_semi_le. }
  intros [] s2 Hle2. cbv beta. unfold bucket_push, link. wp_any. done.
Qed.

Lemma reverse_pass_body_semi_le (vtx : Vertex) s :
  semi_le s → wp any_error (reverse_pass_body vtx) (λ _, semi_le) s.
Proof.
  intros Hle. unfold reverse_pass_body. apply wp_bind.
  eapply wp_mono; [apply toIdx_keeps_semi |].
  intros w s1 Hkeep. cbv beta. apply process_semi_le.
  by apply (keeps_semi_le _ _ Hkeep).
Qed.

Lemma finalize_step_semi_le (vtx : Vertex) s :
  semi_le s → wp any_error (finalize_step vtx) (λ _, semi_le) s.
Proof.
  intros Hle. unfold finalize_step. apply wp_bind.
  eapply wp_mono; [apply toIdx_keeps_semi |].
  intros w s1 Hkeep. cbv beta.
  pose proof (keeps_semi_le _ _ Hkeep Hle). wp_any; done.
Qed.

Lemma run_op_semi_le (o : lt_op) s :
  semi_le s → wp any_error (run_op ForEachSuccessor o) (λ _, semi_le) s.
Proof.
  intros Hle. destruct o; simpl.
  - by apply dfs_enter_semi_le.
  - apply dfs_callback_semi_le; [| done]. intros s'. apply dfs_semi_le.
  - by apply dfs_semi_le.
  - eapply wp_mono; [apply compressPath_keeps_semi |].
    intros ? s' Hkeep. by apply (keeps_semi_le _ _ Hkeep).
  - apply wp_bind. eapply wp_mono; [apply eval_keeps_semi |].
    intros ? s' Hkeep. apply wp_ret. by apply (keeps_semi_le _ _ Hkeep).
  - unfold link. wp_any. done.
  - apply wp_bind. eapply wp_mono; [apply toIdx_keeps_semi |].
    intros ? s' Hkeep. apply wp_ret. by apply (keeps_semi_le _ _ Hkeep).
  - eapply wp_mono; [apply bucket_step_keeps_semi |].
    intros ? s' Hkeep. by apply (keeps_semi_le _ _ Hkeep).
  - by apply semi_step_semi_le.
  - unfold bucket_push. wp_any. done.
  - by apply process_semi_le.
  - by apply reverse_pass_body_semi_le.
  - unfold reverse_pass. apply wp_bind, wp_get.
    apply semi_le_for_each; [| done]. intros vtx s'.
    apply reverse_pass_body_semi_le.
  - by apply finalize_step_semi_le.
  - unfold finalize. apply wp_bind, wp_write; [| done]. intros Hsz.
    apply wp_bind, wp_get. apply semi_le_for_each; [| done].
    intros vtx s'. apply finalize_step_semi_le.
  - unfold lt_body, dfs_phase. apply wp_bind.
    eapply wp_mono; [by apply dfs_semi_le |]. intros [] s1 Hle1. cbv beta.
    apply wp_bind. unfold reverse_pass. apply wp_bind, wp_get.
    eapply wp_mono.
    { apply semi_le_for_each; [| done]. intros vtx s'.
      apply reverse_pass_body_semi_le. }
    intros [] s2 Hle2. cbv beta.
    unfold finalize. apply wp_bind, wp_write; [| done]. intros Hsz.
    apply wp_bind, wp_get. apply semi_le_for_each; [| done].
    intros vtx s'. apply finalize_step_semi_le.
Qed.

(** C7: [semi[i] <= i] for every discovered index [i], at every step: it
    holds before the search starts; the step that assigns index [i] stores
    [semi[i] = i]; every operation of the computation, from a single loop
    step to the whole body, run from any state where it holds, ends in a
    state where it holds; and so it holds in the state in which
    [lengauerTarjanDominator] returns. *)
Theorem semi_le_every_step (Vertex_default _entry : Vertex) (n : N) :
  semi_le (lt_locals (Dominator_init Vertex_default n) n) ∧
  (∀ v s s', dfs_enter v s = Ok tt s' →
     dfIdx s' = dfIdx s + 1 ∧ vec_get (semi s') (dfIdx s) = Some (dfIdx s)) ∧
  (∀ o s s', semi_le s → run_op ForEachSuccessor o s = Ok tt s' → semi_le s') ∧
  (∀ s, lt_run ForEachSuccessor (Dominator_init Vertex_default n) _entry n
          = Ok tt s → semi_le s).
Proof.
  assert (semi_le (lt_locals (Dominator_init Vertex_default n) n)) as Hinit.
  { intros i x Hi. simpl in Hi. lia. }
  split_and!.
  - done.
  - apply dfs_enter_assigns.
  - intros o s s' Hle Hrun.
    exact (wp_ok _ _ _ _ _ _ (run_op_semi_le o s Hle) Hrun).
  - intros s Hrun. unfold lt_run, bind, solAssert in Hrun.
    destruct (0 <? n); [| done]. simpl in Hrun.
    exact (wp_ok _ _ _ _ _ _ (run_op_semi_le (op_lt_body _entry n) _ Hinit) Hrun).
Qed.
End semi_le_proofs.

(** ** The constructor *)

Section ctor_proofs.
Context {Vertex : Type} `{Countable Vertex}.
Variable ForEachSuccessor : Vertex → list Vertex.
Variable Vertex_default : Vertex.
Implicit Types d : Dominator Vertex.

Lemma for_each_tree_append (l : list N) d :
  ∃ t, for_each l tree_append d = Ok tt (set_m_dominatorTree t d).
Proof.
  revert d. induction l as [|x l IH]; intros d; simpl.
  - exists (m_dominatorTree d). by destruct d.
  - unfold bind, tree_append at 1, modify.
    destruct (IH (set_m_dominatorTree
      (<[x:=default [] (m_dominatorTree d !! x) ++ [x]]> (m_dominatorTree d)) d))
      as [t Ht].
    exists t. by rewrite Ht.
Qed.

Lemma Dominator_init_spec (n : N) :
  vec_size (m_vertices (Dominator_init Vertex_default n)) = n ∧
  m_vertexIndices (Dominator_init Vertex_default n) = ∅.
Proof. split; [apply vec_size_new | done]. Qed.

Lemma lt_run_spec (_entry : Vertex) (n : N) d :
  vec_size (m_vertices d) = n → m_vertexIndices d = ∅ →
  match lt_run ForEachSuccessor d _entry n with
  | Ok _ s =>
      0 < n ∧ lt_inv n s ∧ (∀ v, v < dfIdx s → idom_set s v) ∧
      vec_get (m_vertices (this s)) 0 = Some _entry ∧
      m_vertexIndices (this s) !! _entry = Some 0
  | Err e => if decide (n = 0) then e = AssertionFailed else is_oob e
  end.
Proof.
  intros Hsz Hidx. unfold lt_run, bind, solAssert.
  destruct (N.ltb_spec 0 n) as [Hn | Hn]; simpl.
  - pose proof (lt_body_spec ForEachSuccessor n _entry d Hn Hsz Hidx) as Hwp.
    unfold wp in Hwp.
    destruct (lt_body ForEachSuccessor _entry n (lt_locals d n)) as [[] s | e].
    + by split.
    + destruct (decide (n = 0)); [lia | done].
  - destruct (decide (n = 0)); [done | lia].
Qed.

Lemma Dominator_ctor_spec (_entry : Vertex) (n : N) :
  match Dominator_ctor ForEachSuccessor Vertex_default _entry n with
  | Ok _ d =>
      ∃ s, lt_run ForEachSuccessor (Dominator_init Vertex_default n) _entry n
             = Ok tt s ∧
           m_vertices d = m_vertices (this s) ∧
           m_vertexIndices d = m_vertexIndices (this s) ∧
           m_immediateDominators d = idom s
  | Err e => if decide (n = 0) then e = AssertionFailed else is_oob e
  end.
Proof.
  unfold Dominator_ctor, bind, lengauerTarjanDominator.
  pose proof (lt_run_spec _entry n (Dominator_init Vertex_default n)
                (vec_size_new _ _) eq_refl) as Hrun.
  destruct (lt_run _ _ _ _) as [[] s | e]; [| done].
  destruct Hrun as (Hn & Hinv & _).
  unfold modify, buildDominatorTree, bind, get, solAssert. simpl.
  pose proof (li_size_vertices _ _ Hinv) as Hsv.
  pose proof (li_size_idom _ _ Hinv) as Hsi.
  destruct (m_vertices (this s)) as [|v0 vs] eqn:Hvs.
  { unfold vec_size in Hsv. simpl in Hsv. lia. }
  destruct (idom s) as [|i0 ids] eqn:His.
  { unfold vec_size in Hsi. simpl in Hsi. lia. }
  do 2 (case_bool_decide; [done |]). simpl. rewrite drop_0.
  destruct (for_each_tree_append ids
    (set_m_immediateDominators (i0 :: ids) (this s))) as [t Ht].
  rewrite Ht. exists s. simpl. by rewrite Hvs.
Qed.
End ctor_proofs.

Section built.
Context {Vertex : Type} `{Countable Vertex}.
Variable ForEachSuccessor : Vertex → list Vertex.
Variable Vertex_default : Vertex.
Implicit Types d : Dominator Vertex.

Lemma Dominator_ctor_inv (_entry : Vertex) (n : N) d :
  Dominator_ctor ForEachSuccessor Vertex_default _entry n = Ok tt d →
  ∃ s, lt_run ForEachSuccessor (Dominator_init Vertex_default n) _entry n
         = Ok tt s ∧
       m_immediateDominators d = idom s ∧
       dom_inv _entry (dfIdx s) d.
Proof.
  intros Hctor.
  pose proof (Dominator_ctor_spec ForEachSuccessor Vertex_default _entry n) as Hspec.
  rewrite Hctor in Hspec. destruct Hspec as (s & Hrun & Hv & Hi & Hd).
  exists s. split_and!; [done | done |].
  destruct (Dominator_init_spec Vertex_default n) as [Hsz0 Hidx0].
  pose proof (lt_run_spec ForEachSuccessor _entry n
                (Dominator_init Vertex_default n) Hsz0 Hidx0) as Hlt.
  rewrite Hrun in Hlt. destruct Hlt as (Hn & Hinv & Hall & Hentry & _).
  split; rewrite ?Hv, ?Hi, ?Hd.
  - rewrite (li_size_vertices _ _ Hinv). apply (li_dfIdx _ _ Hinv).
  - by rewrite (li_size_vertices _ _ Hinv), (li_size_idom _ _ Hinv).
  - apply (li_index _ _ Hinv).
  - apply (li_index_bound _ _ Hinv).
  - done.
  - intros i Hi'. destruct (Hall i Hi') as (x & Hx & Hle & _ & Hlt).
    by exists x.
Qed.
End built.

(** ** Step 2 computes a minimum over the predecessors *)

Section stale_proofs.
Context {Vertex : Type} `{Countable Vertex}.
Variable ForEachSuccessor : Vertex → list Vertex.
Variable dflt : Vertex.
Implicit Types s : LTState Vertex.

Lemma dfs_enter_stale (v : Vertex) s :
  stale_ok dflt s → wp any_error (dfs_enter v) (λ _, stale_ok dflt) s.
Proof.
  intros Hst. unfold dfs_enter. wp_any.
  intros i u Hi Hu. simpl in Hi, Hu.
  rewrite vec_get_set_ne in Hu by lia. apply (Hst i); [lia | done].
Qed.

Lemma lt_index_of_stale (v : Vertex) s :
  stale_ok dflt s → wp any_error (lt_index_of v) (λ _, stale_ok dflt) s.
Proof.
  intros Hst. unfold wp, lt_index_of, index_of.
  by destruct (m_vertexIndices (this s) !! v).
Qed.

Lemma dfs_callback_stale (rec : Vertex → M (LTState Vertex) unit) (v w : Vertex) s :
  (∀ s', stale_ok dflt s' → wp any_error (rec w) (λ _, stale_ok dflt) s') →
  stale_ok dflt s → wp any_error (dfs_callback rec v w) (λ _, stale_ok dflt) s.
Proof.
  intros Hrec Hst. unfold dfs_callback.
  assert (∀ s', stale_ok dflt s' →
    wp any_error
      (iw ← lt_index_of w; iv ← lt_index_of v;
       pw ← read v_predecessors predecessors iw;
       write v_predecessors predecessors set_predecessors iw (set_insert iv pw))
      (λ _, stale_ok dflt) s') as Htail.
  { intros s' Hst'. apply wp_bind. eapply wp_mono; [by apply lt_index_of_stale |].
    intros iw s1 Hst1. cbv beta. apply wp_bind.
    eapply wp_mono; [by apply lt_index_of_stale |].
    intros iv s2 Hst2. cbv beta. wp_any. done. }
  apply wp_bind, wp_get. apply wp_bind, wp_read; [| done]. intros x Hx.
  apply wp_bind. destruct (x =? SIZE_MAX).
  - apply wp_bind. eapply wp_mono; [by apply lt_index_of_stale |].
    intros iv s1 Hst1. cbv beta. apply wp_bind, wp_get.
    apply wp_bind, wp_write; [| done]. intros Hsz.
    eapply wp_mono; [by apply Hrec |]. intros [] s2 Hst2. by apply Htail.
  - apply wp_ret. by apply Htail.
Qed.

Lemma dfs_stale fuel (v : Vertex) s :
  stale_ok dflt s → wp any_error (dfs ForEachSuccessor fuel v) (λ _, stale_ok dflt) s.
Proof.
  revert v s. induction fuel as [|fuel IH]; intros v s Hst; simpl; [done |].
  apply wp_bind, wp_get. destruct (decide (v ∈ visited s)); [by apply wp_ret |].
  apply wp_bind. eapply wp_mono; [by apply dfs_enter_stale |].
  intros [] s1 Hst1. cbv beta.
  apply wp_for_each with (I := stale_ok dflt); [done |].
  intros w s2 _ Hst2. apply dfs_callback_stale; [| done]. intros s3. apply IH.
Qed.

Lemma lt_locals_stale (n : N) :
  stale_ok dflt (lt_locals (Dominator_init dflt n) n).
Proof. intros i v _ Hv. simpl in Hv. by apply vec_get_new_inv in Hv as [-> _]. Qed.
End stale_proofs.

Section early_proofs.
Context {Vertex : Type} `{Countable Vertex}.
Variable n k : N.
Implicit Types s : LTState Vertex.

Lemma early_after_dfs s :
  lt_inv n s → dfs_inv n s → early n k s.
Proof.
  intros Hinv Hdfs. split; [done | | |].
  - intros i Hi _. split.
    + rewrite (di_ancestor _ _ Hdfs). apply vec_get_new.
      pose proof (di_dfIdx _ _ Hdfs). lia.
    + rewrite (di_semi _ _ Hdfs) by (pose proof (di_dfIdx _ _ Hdfs); lia).
      by destruct (N.ltb_spec i (dfIdx s)); [| lia].
  - apply (di_label _ _ Hdfs).
  - intros i Hi. destruct (li_pred_parent _ _ Hinv i Hi) as (p & l & Hp & Hl & Hin).
    destruct (li_parent _ _ Hinv i Hi) as (p' & Hp' & Hlt & _).
    assert (p' = p) as -> by congruence.
    exists l, p, i. split_and!; [done | done | | lia].
    rewrite (di_semi _ _ Hdfs) by (pose proof (di_dfIdx _ _ Hdfs); lia).
    by destruct (N.ltb_spec i (dfIdx s)); [| lia].
Qed.

Lemma eval_early v s :
  early n k s → v < dfIdx s → eval v s = Ok v s.
Proof.
  intros [Hinv Hother Hlabel _] Hv. unfold eval, bind, read.
  destruct (li_ancestor _ _ Hinv v Hv) as (a & Ha & Hanc). rewrite Ha.
  destruct (N.eqb_spec a SIZE_MAX) as [-> | Hne]; [done |]. simpl.
  destruct Hanc as [-> | [Hlt _]]; [done |].
  destruct (decide (v = k)) as [-> | Hvk].
  2:{ destruct (Hother v Hv Hvk) as [Ha' _]. congruence. }
  pose proof (li_size_ancestor _ _ Hinv) as Hsz. unfold vec_size in Hsz.
  pose proof (li_dfIdx _ _ Hinv) as Hc.
  destruct (length (ancestor s)) as [|f] eqn:Hlen; [lia |].
  unfold get. cbn [compressPath]. unfold bind, read, solAssert. rewrite Ha.
  destruct (N.eqb_spec a SIZE_MAX) as [? | _]; [done |]. simpl. rewrite Ha.
  destruct (Hother a) as [Haa _]; [lia | lia |]. rewrite Haa. simpl.
  by rewrite (Hlabel k Hv).
Qed.

Lemma bucket_step_early w v s s' :
  early n k s → v < dfIdx s → idom_val (parent s) v w →
  bucket_step w v s = Ok tt s' → early n k s'.
Proof.
  intros Hearly Hv Hw Hrun.
  pose proof (wp_ok _ _ _ _ _ _
    (bucket_step_spec n w v s (ea_inv _ _ _ Hearly) Hv Hw) Hrun)
    as (Hinv' & _).
  unfold bucket_step, bind in Hrun. rewrite (eval_early v s Hearly Hv) in Hrun.
  unfold read, write in Hrun. simpl in Hrun.
  destruct (vec_get (semi s) v) as [sv |] eqn:Hsv; [| done]. simpl in Hrun.
  rewrite Hsv in Hrun. simpl in Hrun.
  destruct (v <? vec_size (idom s)); [| done].
  injection Hrun as <-. destruct Hearly as [_ Hother Hlabel Hpred].
  split; done.
Qed.

Lemma semi_step_early v l s s' :
  early n k s → k < dfIdx s →
  vec_get (predecessors s) k = Some l → v ∈ l →
  semi_step k v s = Ok tt s' → early n k s'.
Proof.
  intros Hearly Hk Hl Hv Hrun.
  pose proof (ea_inv _ _ _ Hearly) as Hinv.
  destruct (li_preds _ _ Hinv k l v Hl Hv) as (_ & Hvc & Hedge).
  pose proof (wp_ok _ _ _ _ _ _
    (semi_step_spec n k v s Hinv Hk Hvc Hedge) Hrun) as (Hinv' & _).
  unfold semi_step, bind in Hrun. rewrite (eval_early v s Hearly Hvc) in Hrun.
  unfold read, write in Hrun. simpl in Hrun.
  destruct (vec_get (semi s) v) as [sv |] eqn:Hsv; [| done]. simpl in Hrun.
  destruct (vec_get (semi s) k) as [sk |] eqn:Hsk; [| done]. simpl in Hrun.
  destruct (N.ltb_spec sv sk) as [Hlt | _]; [| by injection Hrun as <-].
  simpl in Hrun. rewrite ?Hsv in Hrun. simpl in Hrun.
  destruct (N.ltb_spec k (vec_size (semi s))) as [Hsz | _]; [| done].
  injection Hrun as <-.
  assert (v ≠ k) as Hvk by (intros ->; assert (sv = sk) by congruence; lia).
  destruct Hearly as [_ Hother Hlabel Hpred].
  destruct (Hother v Hvc Hvk) as [_ Hsv']. assert (sv = v) as -> by congruence.
  split; [done | | done |].
  - intros i Hi Hik. simpl. rewrite vec_get_set_ne by done. by apply Hother.
  - intros i Hi. simpl in Hi. destruct (decide (i = k)) as [-> | Hik].
    + exists l, v, v. simpl. rewrite vec_get_set_eq by done.
      split_and!; [done | done | done | lia].
    + destruct (Hpred i Hi) as (l' & p & x & Hl' & Hp & Hx & Hle).
      exists l', p, x. simpl. by rewrite vec_get_set_ne.
Qed.

Lemma process_tail_frame s s' :
  process_tail k s = Ok tt s' →
  semi s' = semi s ∧ label s' = label s ∧ predecessors s' = predecessors s ∧
  dfIdx s' = dfIdx s ∧ parent s' = parent s ∧
  ∀ i, i ≠ k → vec_get (ancestor s') i = vec_get (ancestor s) i.
Proof.
  intros Hrun.
  unfold process_tail, bucket_push, link, bind, read, write in Hrun.
  destruct (vec_get (semi s) k) as [sk |]; [| done]. simpl in Hrun.
  destruct (vec_get (bucket s) sk) as [b |]; [| done]. simpl in Hrun.
  destruct (sk <? vec_size (bucket s)); [| done].
  simpl in Hrun.
  destruct (vec_get (parent s) k) as [pk |]; [| done]. simpl in Hrun.
  destruct (k <? vec_size (ancestor s)); [| done].
  injection Hrun as <-. simpl. split_and!; try done.
  intros i Hi. by rewrite vec_get_set_ne.
Qed.

Lemma for_each_early {A} (f : A → M (LTState Vertex) unit) (l : list A) s s' :
  (∀ x s1 s2, x ∈ l → early n k s1 → dfIdx s1 = dfIdx s →
     parent s1 = parent s → predecessors s1 = predecessors s →
     f x s1 = Ok tt s2 →
     early n k s2 ∧ dfIdx s2 = dfIdx s ∧ parent s2 = parent s ∧
     predecessors s2 = predecessors s) →
  early n k s → for_each l f s = Ok tt s' →
  early n k s' ∧ dfIdx s' = dfIdx s ∧ parent s' = parent s ∧
  predecessors s' = predecessors s.
Proof.
  intros Hf Hearly Hrun.
  assert (∀ s1, early n k s1 → dfIdx s1 = dfIdx s → parent s1 = parent s →
            predecessors s1 = predecessors s →
            for_each l f s1 = Ok tt s' →
            early n k s' ∧ dfIdx s' = dfIdx s ∧ parent s' = parent s ∧
            predecessors s' = predecessors s) as Hgen.
  { clear Hrun Hearly. induction l as [|x l IH]; intros s1 Hearly Hd Hp Hpr Hrun.
    - injection Hrun as <-. done.
    - simpl in Hrun. unfold bind in Hrun.
      destruct (f x s1) as [[] s2 |] eqn:Hx; [| done].
      destruct (Hf x s1 s2 ltac:(by left) Hearly Hd Hp Hpr Hx) as (? & ? & ? & ?).
      apply (IH ltac:(intros; eapply Hf; [by right | done ..]) s2); done. }
  by apply (Hgen s).
Qed.

Lemma process_unfold (w : N) :
  process w =
  ((b ← read v_bucket bucket w; for_each b (bucket_step w);;
    p ← read v_predecessors predecessors w; for_each p (semi_step w);;
    process_tail w) : M (LTState Vertex) unit).
Proof. done. Qed.

Lemma process_early s s' :
  early n k s → k < dfIdx s → process k s = Ok tt s' → early n k s'.
Proof.
  intros Hearly Hk Hrun.
  pose proof (ea_inv _ _ _ Hearly) as Hinv.
  pose proof (wp_ok _ _ _ _ _ _ (process_spec n k s Hinv Hk) Hrun) as (Hinv' & _).
  rewrite process_unfold in Hrun.
  unfold bind at 1, read at 1 in Hrun.
  destruct (vec_get (bucket s) k) as [b |] eqn:Hb; [| done].
  unfold bind at 1 in Hrun.
  destruct (for_each b (bucket_step k) s) as [[] s1 |] eqn:Hloop1; [| done].
  destruct (for_each_early (bucket_step k) b s s1) as (Hearly1 & Hd1 & Hp1 & Hpr1);
    [| done | done |].
  { intros v sa sb Hv Hea Hda Hpa Hpra Hstep.
    destruct (li_bucket _ _ Hinv k b v Hb Hv) as [Hvc Hval].
    pose proof (wp_ok _ _ _ _ _ _
      (bucket_step_spec n k v sa (ea_inv _ _ _ Hea) ltac:(by rewrite Hda)
         ltac:(by rewrite Hpa)) Hstep) as (_ & Hsf & _).
    split_and!.
    - eapply bucket_step_early; [done | by rewrite Hda | by rewrite Hpa | done].
    - by rewrite (sf_dfIdx _ _ Hsf).
    - by rewrite (sf_parent _ _ Hsf).
    - by rewrite (sf_predecessors _ _ Hsf). }
  unfold bind at 1, read at 1 in Hrun.
  destruct (vec_get (predecessors s1) k) as [p |] eqn:Hp; [| done].
  unfold bind at 1 in Hrun.
  destruct (for_each p (semi_step k) s1) as [[] s2 |] eqn:Hloop2; [| done].
  destruct (for_each_early (semi_step k) p s1 s2) as (Hearly2 & Hd2 & Hp2 & Hpr2);
    [| done | done |].
  { intros v sa sb Hv Hea Hda Hpa Hpra Hstep.
    pose proof (ea_inv _ _ _ Hea) as Hinva.
    destruct (li_preds _ _ Hinva k p v ltac:(by rewrite Hpra) Hv) as (_ & Hvc & Hedge).
    pose proof (wp_ok _ _ _ _ _ _
      (semi_step_spec n k v sa Hinva ltac:(rewrite Hda; lia) Hvc Hedge) Hstep)
      as (_ & Hsf & _).
    split_and!.
    - eapply (semi_step_early v p sa); [done | rewrite Hda; lia | by rewrite Hpra | done | done].
    - by rewrite (sf_dfIdx _ _ Hsf).
    - by rewrite (sf_parent _ _ Hsf).
    - by rewrite (sf_predecessors _ _ Hsf). }
  destruct (process_tail_frame s2 s' Hrun) as (Hs & Hl & Hpr & Hd & Hpa & Ha).
  destruct Hearly2 as [_ Hother Hlabel Hpred]. split; [done | | |].
  - intros i Hi Hik. rewrite Ha, Hs by done. apply Hother; [| done]. by rewrite <- Hd.
  - intros i Hi. rewrite Hl. apply Hlabel. by rewrite <- Hd.
  - intros i Hi. unfold pred_below. rewrite Hpr, Hs. apply Hpred. by rewrite <- Hd.
Qed.
End early_proofs.

Section split_proofs.
Context {Vertex : Type} `{Countable Vertex}.
Implicit Types s : LTState Vertex.

Lemma reverse_pass_body_split (vtx : Vertex) s :
  reverse_pass_body vtx s =
  (r ← iteration_until_step2 vtx;
   for_each r.2 (semi_step r.1);; process_tail r.1) s.
Proof.
  unfold reverse_pass_body, iteration_until_step2.
  rewrite bind_assoc. apply bind_ext. intros w s1.
  rewrite process_unfold, !bind_assoc. apply bind_ext. intros b s2.
  rewrite !bind_assoc. apply bind_ext. intros [] s3.
  rewrite !bind_assoc. apply bind_ext. intros p s4. done.
Qed.

(** The reverse pass is [reverse_pass_until w], then step 2 and the rest of
    the iteration for [m_vertices[w]], then the iterations for the slots
    before [w]. *)
Lemma reverse_pass_split (w : N) (vtx : Vertex) s :
  vec_get (m_vertices (this s)) w = Some vtx →
  reverse_pass s =
  (r ← reverse_pass_until w;
   for_each r.2 (semi_step r.1);; process_tail r.1;;
   for_each (rev (take (N.to_nat w) (m_vertices (this s)))) reverse_pass_body) s.
Proof.
  intros Hvtx. unfold reverse_pass, reverse_pass_until.
  rewrite bind_assoc, !bind_get_eq. cbv beta. rewrite Hvtx.
  unfold vec_get in Hvtx.
  rewrite <- (take_drop (N.to_nat w) (m_vertices (this s))) at 1.
  rewrite (drop_S _ _ _ Hvtx), rev_app_distr. simpl.
  rewrite <- app_assoc, for_each_app_eq, bind_assoc.
  apply bind_ext. intros [] s1. simpl.
  unfold bind at 1. rewrite reverse_pass_body_split. unfold bind.
  destruct (iteration_until_step2 vtx s1) as [r s2 | e]; [| done].
  destruct (for_each r.2 (semi_step r.1) s2) as [[] s3 | e]; [| done].
  by destruct (process_tail r.1 s3) as [[] s4 | e].
Qed.
End split_proofs.

Section until_proofs.
Context {Vertex : Type} `{Countable Vertex}.
Variable ForEachSuccessor : Vertex → list Vertex.
Variable dflt : Vertex.
Variable n : N.
Implicit Types s : LTState Vertex.

Lemma early_insert_index k (v : Vertex) s :
  early n k s → m_vertexIndices (this s) !! v = None →
  early n k (set_lt_vertexIndices (<[v := 0]> (m_vertexIndices (this s))) s).
Proof.
  intros [Hinv Hother Hlabel Hpred] Hv. split; [| done | done | done].
  by apply lt_inv_insert_index.
Qed.

Lemma process_early_wp k s :
  early n k s → k < dfIdx s →
  wp is_oob (process k) (λ _ s', early n k s' ∧ solver_frame s s') s.
Proof.
  intros Hearly Hk.
  pose proof (process_spec n k s (ea_inv _ _ _ Hearly) Hk) as Hspec.
  unfold wp in *. destruct (process k s) as [[] s' |] eqn:Hrun; [| done].
  destruct Hspec as (_ & Hsf & _). split; [| done].
  by eapply process_early.
Qed.

Lemma stale_phase k (l : list Vertex) s :
  (∀ v, v ∈ l → v = dflt) → early n k s →
  m_vertexIndices (this s) !! dflt = Some k ∨
    (m_vertexIndices (this s) !! dflt = None ∧ k = 0) →
  wp is_oob (for_each l reverse_pass_body)
    (λ _ s', early n k s' ∧ solver_frame s s') s.
Proof.
  intros Hl Hearly Hidx. eapply wp_mono.
  - apply wp_for_each with
      (I := λ s', early n k s' ∧ solver_frame s s' ∧
                  (m_vertexIndices (this s') !! dflt = Some k ∨
                   (m_vertexIndices (this s') !! dflt = None ∧ k = 0))).
    + split_and!; [done | apply solver_frame_refl | done].
    + intros v s1 Hv (Hearly1 & Hsf1 & Hidx1). rewrite (Hl v Hv).
      pose proof (ea_inv _ _ _ Hearly1) as Hinv1.
      unfold reverse_pass_body. apply wp_bind.
      unfold wp at 1, toIdx, lt_index_of, index_of.
      destruct Hidx1 as [Hk | [Hnone ->]].
      * rewrite Hk. pose proof (li_index_bound _ _ Hinv1 _ _ Hk) as Hkc.
        eapply wp_mono; [by apply process_early_wp |].
        intros [] s2 [Hearly2 Hsf2]. split_and!; [done | by eapply solver_frame_trans |].
        left. by apply (sf_index _ _ Hsf2).
      * rewrite Hnone.
        set (s1' := set_lt_vertexIndices (<[dflt:=0]> (m_vertexIndices (this s1))) s1).
        assert (solver_frame s1 s1') as Hsf1'.
        { split; simpl; eauto. intros u i Hu.
          rewrite lookup_insert_ne; [done |]. congruence. }
        eapply wp_mono.
        { apply process_early_wp; [by apply early_insert_index |].
          simpl. apply (li_dfIdx _ _ Hinv1). }
        intros [] s2 [Hearly2 Hsf2]. split_and!; [done | |].
        -- eapply solver_frame_trans; [exact Hsf1 |]. by eapply solver_frame_trans.
        -- left. apply (sf_index _ _ Hsf2). simpl. apply lookup_insert_eq.
  - intros [] s' (? & ? & _). done.
Qed.

Lemma semi_step_semi_other w v s :
  wp any_error (semi_step w v)
    (λ _ s', dfIdx s' = dfIdx s ∧
             ∀ i, i ≠ w → vec_get (semi s') i = vec_get (semi s) i) s.
Proof.
  unfold semi_step. apply wp_bind.
  eapply wp_mono; [apply eval_keeps_semi |].
  intros u s1 [Hs Hd]. cbv beta. wp_any; simpl; rewrite ?Hs, ?Hd; try done.
  split; [done |]. intros i Hi. by rewrite vec_get_set_ne.
Qed.

Lemma process_semi_other w s :
  wp any_error (process w)
    (λ _ s', dfIdx s' = dfIdx s ∧
             ∀ i, i ≠ w → vec_get (semi s') i = vec_get (semi s) i) s.
Proof.
  unfold process.
  apply wp_bind, wp_read; [| done]. intros b Hb.
  apply wp_bind. eapply wp_mono.
  { apply wp_for_each with
      (I := λ s', semi s' = semi s ∧ dfIdx s' = dfIdx s); [done |].
    intros v s' _ [Hs Hd]. eapply wp_mono; [apply bucket_step_keeps_semi |].
    intros ? s'' [Hs' Hd']. split; congruence. }
  intros [] s1 [Hs1 Hd1]. cbv beta.
  apply wp_bind, wp_read; [| done]. intros p Hp.
  apply wp_bind. eapply wp_mono.
  { apply wp_for_each with
      (I := λ s', dfIdx s' = dfIdx s ∧
                  ∀ i, i ≠ w → vec_get (semi s') i = vec_get (semi s) i).
    - split; [done |]. intros i _. by rewrite Hs1.
    - intros v s' _ [Hd Hs]. eapply wp_mono; [apply semi_step_semi_other |].
      intros ? s'' [Hd' Hs']. split; [congruence |].
      intros i Hi. rewrite Hs' by done. by apply Hs. }
  intros [] s2 [Hd2 Hs2]. cbv beta. unfold bucket_push, link. wp_any. done.
Qed.

Lemma pred_below_frame s s' i :
  predecessors s' = predecessors s →
  vec_get (semi s') i = vec_get (semi s) i →
  pred_below s i → pred_below s' i.
Proof. unfold pred_below. by intros -> ->. Qed.

Lemma until_sweep (w j : nat) s :
  lt_inv n s → N.of_nat (S w + j) ≤ dfIdx s →
  (∀ i, 0 < i < N.of_nat (S w + j) → pred_below s i) →
  wp is_oob
    (for_each (rev (take j (drop (S w) (m_vertices (this s))))) reverse_pass_body)
    (λ _ s', lt_inv n s' ∧ solver_frame s s' ∧
             ∀ i, 0 < i < N.of_nat (S w) → pred_below s' i) s.
Proof.
  revert s. induction j as [|j IH]; intros s Hinv Hj Hpred.
  - rewrite take_0. simpl. apply wp_ret.
    split_and!; [done | apply solver_frame_refl |].
    intros i Hi. apply Hpred. lia.
  - destruct (li_index _ _ Hinv (N.of_nat (S w + j))) as (vtx & Hvtx & Hidx); [lia |].
    unfold vec_get in Hvtx. rewrite Nat2N.id in Hvtx.
    assert (drop (S w) (m_vertices (this s)) !! j = Some vtx) as Hj'.
    { by rewrite lookup_drop. }
    rewrite (take_S_r _ _ _ Hj'), rev_unit. simpl.
    apply wp_bind. unfold reverse_pass_body at 1.
    apply wp_bind. eapply wp_mono; [by apply toIdx_spec |].
    intros w' s1 (_ & _ & _ & _ & _ & _ & _ & _ & Hsame). cbv beta.
    destruct (Hsame _ Hidx) as [-> ->]. clear Hsame.
    eapply wp_mono.
    { apply wp_conj; [apply (process_spec n); [done | lia] | apply process_semi_other]. }
    intros [] s2 [(Hinv2 & Hsf2 & _) [Hd2 Hs2]]. cbv beta.
    rewrite <- (sf_vertices _ _ Hsf2). eapply wp_mono.
    + apply IH; [done | rewrite (sf_dfIdx _ _ Hsf2); lia |].
      intros i Hi. eapply pred_below_frame;
        [apply (sf_predecessors _ _ Hsf2) | apply Hs2; lia | apply Hpred; lia].
    + intros [] s3 (Hinv3 & Hsf3 & Hpred3). split_and!; [done | | done].
      by eapply solver_frame_trans.
Qed.
End until_proofs.

Section semi_min_proofs.
Context {Vertex : Type} `{Countable Vertex}.
Variable ForEachSuccessor : Vertex → list Vertex.
Variable dflt : Vertex.
Variable n : N.
Implicit Types s : LTState Vertex.

Lemma reverse_pass_until_spec (w : N) s :
  lt_inv n s → dfs_inv n s → stale_ok dflt s → w < dfIdx s →
  wp is_oob (reverse_pass_until w)
    (λ r s1, r.1 = w ∧ lt_inv n s1 ∧ solver_frame s s1 ∧
             vec_get (predecessors s1) w = Some r.2 ∧
             (0 < w → pred_below s1 w)) s.
Proof.
  intros Hinv Hdfs Hstale Hw. unfold reverse_pass_until.
  apply wp_bind, wp_get.
  destruct (li_index _ _ Hinv w Hw) as (vtx & Hvtx & Hidx0). rewrite Hvtx.
  apply wp_bind.
  set (k := default 0 (m_vertexIndices (this s) !! dflt)).
  pose proof (early_after_dfs n k s Hinv Hdfs) as Hearly.
  pose proof (li_dfIdx _ _ Hinv) as Hc.
  pose proof (li_size_vertices _ _ Hinv) as Hsz. unfold vec_size in Hsz.
  set (wn := N.to_nat w). set (cn := N.to_nat (dfIdx s)).
  rewrite <- (take_drop (cn - S wn) (drop (S wn) (m_vertices (this s)))).
  rewrite drop_drop, rev_app_distr.
  replace (S wn + (cn - S wn))%nat with cn by lia.
  apply wp_for_each_app. eapply wp_mono.
  { apply (stale_phase dflt n k); [| done |].
    - intros v Hv. apply list_elem_of_In, in_rev, list_elem_of_In in Hv.
      apply list_elem_of_lookup in Hv as [i Hi]. rewrite lookup_drop in Hi.
      apply (Hstale (N.of_nat (cn + i))); [lia |].
      unfold vec_get. by rewrite Nat2N.id.
    - subst k. destruct (m_vertexIndices (this s) !! dflt); [by left | by right]. }
  intros [] s1 [Hearly1 Hsf1]. cbv beta.
  pose proof (ea_inv _ _ _ Hearly1) as Hinv1.
  rewrite <- (sf_vertices _ _ Hsf1).
  eapply wp_mono.
  { apply (until_sweep n wn (cn - S wn)); [done | |].
    - rewrite (sf_dfIdx _ _ Hsf1). lia.
    - intros i Hi. apply (ea_pred _ _ _ Hearly1). rewrite (sf_dfIdx _ _ Hsf1). lia. }
  intros [] s2 (Hinv2 & Hsf2 & Hpred2). cbv beta.
  assert (solver_frame s s2) as Hsf02 by (by eapply solver_frame_trans).
  pose proof (sf_dfIdx _ _ Hsf02) as Hd2.
  pose proof (sf_index _ _ Hsf02 _ _ Hidx0) as Hidx.
  unfold iteration_until_step2.
  apply wp_bind. eapply wp_mono; [by apply toIdx_spec |].
  intros w' s3 (_ & _ & _ & _ & _ & _ & _ & _ & Hsame). cbv beta.
  destruct (Hsame _ Hidx) as [-> ->]. clear Hsame.
  apply wp_bind, wp_read; [| by intros]. intros b Hb.
  apply wp_bind. eapply wp_mono.
  { apply wp_for_each with
      (I := λ s3, lt_inv n s3 ∧ solver_frame s2 s3 ∧ semi s3 = semi s2).
    - split_and!; [done | apply solver_frame_refl | done].
    - intros v s3 Hv (Hinv3 & Hsf3 & Hs3).
      destruct (li_bucket _ _ Hinv2 w b v Hb Hv) as [Hvc Hval].
      eapply wp_mono.
      + apply wp_conj; [| apply bucket_step_keeps_semi].
        apply (bucket_step_spec n);
          [done | by rewrite (sf_dfIdx _ _ Hsf3) | by rewrite (sf_parent _ _ Hsf3)].
      + intros [] s4 [(Hinv4 & Hsf4 & _) [Hs4 _]].
        split_and!; [done | by eapply solver_frame_trans | congruence]. }
  intros [] s3 (Hinv3 & Hsf3 & Hs3). cbv beta.
  apply wp_bind, wp_read; [| by intros]. intros p Hp.
  apply wp_ret. simpl. split_and!; [done | done | by eapply solver_frame_trans | done |].
  intros Hw0. eapply pred_below_frame;
    [apply (sf_predecessors _ _ Hsf3) | by rewrite Hs3 |].
  apply Hpred2. subst wn. lia.
Qed.

Lemma semi_step_inv (w p : N) s s2 :
  lt_inv n s → w < dfIdx s → p < dfIdx s →
  (p < w → tree_anc (parent s) p w) →
  semi_step w p s = Ok tt s2 →
  lt_inv n s2 ∧ solver_frame s s2 ∧
  ∃ u s1 c x0,
    eval p s = Ok u s1 ∧ vec_get (semi s1) u = Some c ∧ c ≤ p ∧
    vec_get (semi s) w = Some x0 ∧
    vec_get (semi s2) w = Some (N.min x0 c).
Proof.
  intros Hinv Hw Hp Hedge Hrun.
  pose proof (wp_ok _ _ _ _ _ _ (semi_step_spec n w p s Hinv Hw Hp Hedge) Hrun)
    as (Hinv2 & Hsf2 & _).
  split_and!; [done | done |].
  pose proof (eval_spec n p s Hinv Hp) as Heval.
  unfold semi_step, bind in Hrun. unfold wp in Heval.
  destruct (eval p s) as [u s1 |] eqn:Hev; [| done].
  destruct Heval as (Hinv1 & Hff & Hule & Huanc).
  unfold read, write in Hrun. simpl in Hrun.
  destruct (vec_get (semi s1) u) as [c |] eqn:Hc; [| done]. simpl in Hrun.
  destruct (vec_get (semi s1) w) as [x0 |] eqn:Hx0; [| done]. simpl in Hrun.
  destruct (li_semi _ _ Hinv1 u) as (c' & Hc' & Hcle & _).
  { rewrite (ff_dfIdx _ _ Hff). lia. }
  assert (c' = c) as -> by congruence.
  exists u, s1, c, x0. rewrite <- (ff_semi _ _ Hff).
  split_and!; [done | done | lia | done |].
  destruct (N.ltb_spec c x0) as [Hlt | Hge].
  - simpl in Hrun. rewrite Hc in Hrun. simpl in Hrun.
    destruct (N.ltb_spec w (vec_size (semi s1))) as [Hsz | _]; [| done].
    injection Hrun as <-. simpl. rewrite vec_get_set_eq by done.
    f_equal. lia.
  - injection Hrun as <-. rewrite Hx0. f_equal. lia.
Qed.

Lemma semi_loop_run (w : N) (ps : list N) s s' :
  lt_inv n s → w < dfIdx s →
  (∀ p, p ∈ ps → p < dfIdx s ∧ (p < w → tree_anc (parent s) p w)) →
  for_each ps (semi_step w) s = Ok tt s' →
  ∃ cs x0 x,
    semi_min_run w ps s cs s' ∧ Forall2 (λ p c, c ≤ p) ps cs ∧
    vec_get (semi s) w = Some x0 ∧ vec_get (semi s') w = Some x ∧
    x ≤ x0 ∧ Forall (λ c, x ≤ c) cs ∧ (x = x0 ∨ x ∈ cs).
Proof.
  revert s. induction ps as [|p ps IH]; intros s Hinv Hw Hps Hrun.
  - injection Hrun as <-.
    destruct (li_semi _ _ Hinv w Hw) as (x & Hx & _).
    exists [], x, x.
    split_and!; [constructor | constructor | done | done | lia | constructor | by left].
  - simpl in Hrun. unfold bind in Hrun.
    destruct (semi_step w p s) as [[] s2 |] eqn:Hstep; [| done].
    destruct (Hps p ltac:(by left)) as [Hpc Hedge].
    destruct (semi_step_inv w p s s2 Hinv Hw Hpc Hedge Hstep)
      as (Hinv2 & Hsf2 & u & s1 & c & x0 & Hev & Hc & Hcp & Hx0 & Hx2).
    destruct (IH s2) as (cs & x0' & x & Hmin & Hle & Hx0' & Hx & Hxle & Hall & Hin);
      [done | by rewrite (sf_dfIdx _ _ Hsf2) | | done |].
    { intros q Hq. rewrite (sf_dfIdx _ _ Hsf2), (sf_parent _ _ Hsf2).
      apply Hps. by right. }
    assert (x0' = N.min x0 c) as -> by congruence.
    exists (c :: cs), x0, x. split_and!.
    + by eapply semi_min_cons.
    + by constructor.
    + done.
    + done.
    + lia.
    + constructor; [lia | done].
    + destruct Hin as [-> | Hin]; [| right; by right].
      destruct (N.min_spec x0 c) as [[_ ->] | [_ ->]]; [by left | right; by left].
Qed.

(** Step 2 of the iteration for a vertex numbered [w > 0], cut out of the
    reverse pass as in [reverse_pass_split]: it leaves in [semi[w]] the
    minimum of the values [semi[eval(p)]] computed for the predecessors [p]
    of [w], and the rest of the iteration does not change it. *)
Lemma semi_step2_is_min (_entry : Vertex) (w w' : N)
    (p : list N) (s0 s1 s2 : LTState Vertex) :
  lt_run_dfs ForEachSuccessor (Dominator_init dflt n) _entry n = Ok tt s0 →
  0 < w < dfIdx s0 →
  reverse_pass_until w s0 = Ok (w', p) s1 →
  for_each p (semi_step w') s1 = Ok tt s2 →
  w' = w ∧ vec_get (predecessors s1) w = Some p ∧
  ∃ cs x,
    semi_min_run w p s1 cs s2 ∧
    vec_get (semi s2) w = Some x ∧ x ∈ cs ∧ Forall (λ c, x ≤ c) cs ∧
    ∀ s3, process_tail w s2 = Ok tt s3 → vec_get (semi s3) w = Some x.
Proof.
  intros Hdfs Hw Huntil Hloop.
  assert (lt_inv n s0 ∧ dfs_inv n s0 ∧ stale_ok dflt s0) as (Hinv0 & Hdfs0 & Hstale0).
  { unfold lt_run_dfs, bind, solAssert in Hdfs.
    destruct (N.ltb_spec 0 n) as [Hn | _]; [| done]. simpl in Hdfs.
    destruct (Dominator_init_spec dflt n) as [Hsz Hidx].
    pose proof (wp_ok _ _ _ _ _ _
      (dfs_phase_spec ForEachSuccessor n _entry _ Hn Hsz Hidx) Hdfs)
      as (? & ? & _).
    pose proof (wp_ok _ _ _ _ _ _
      (dfs_stale ForEachSuccessor dflt _ _entry _ (lt_locals_stale dflt n)) Hdfs).
    done. }
  destruct (wp_ok _ _ _ _ _ _
    (reverse_pass_until_spec w s0 Hinv0 Hdfs0 Hstale0 ltac:(lia)) Huntil)
    as (Hw' & Hinv1 & Hsf1 & Hp & Hpred). simpl in Hw', Hp. subst w'.
  split_and!; [done | done |].
  pose proof (sf_dfIdx _ _ Hsf1) as Hd1.
  destruct (semi_loop_run w p s1 s2 Hinv1 ltac:(lia)) as
    (cs & x0 & x & Hmin & Hle & Hx0 & Hx & Hxle & Hall & Hin); [| done |].
  { intros q Hq. destruct (li_preds _ _ Hinv1 w p q Hp Hq) as (_ & ? & ?). done. }
  exists cs, x. split_and!; [done | done | | done |].
  - destruct Hin as [-> | Hin]; [| done].
    destruct (Hpred ltac:(lia)) as (l & q & y & Hl & Hq & Hy & Hqy).
    assert (l = p) as -> by congruence. assert (y = x0) as -> by congruence.
    apply list_elem_of_lookup in Hq as [i Hi].
    destruct (Forall2_lookup_l _ _ _ _ _ Hle Hi) as (c & Hc & Hcq).
    pose proof (list_elem_of_lookup_2 _ _ _ Hc) as Hcin.
    pose proof (proj1 (Forall_forall _ _) Hall c Hcin) as Hxc.
    simpl in Hxc. assert (c = x0) as -> by lia. done.
  - intros s3 Htail.
    destruct (process_tail_frame w s2 s3 Htail) as (Hs & _). by rewrite Hs.
Qed.

(** The iterations for the slots below [k] leave [semi] as it is from [k] up. *)
Lemma reverse_sweep_semi_above (k : nat) s :
  lt_inv n s → N.of_nat k ≤ dfIdx s →
  wp any_error (for_each (rev (take k (m_vertices (this s)))) reverse_pass_body)
    (λ _ s', ∀ i, N.of_nat k ≤ i → vec_get (semi s') i = vec_get (semi s) i) s.
Proof.
  revert s. induction k as [|k IH]; intros s Hinv Hk.
  - rewrite take_0. simpl. by apply wp_ret.
  - destruct (li_index _ _ Hinv (N.of_nat k)) as (vtx & Hvtx & Hidx); [lia |].
    unfold vec_get in Hvtx. rewrite Nat2N.id in Hvtx.
    rewrite (take_S_r _ _ _ Hvtx), rev_unit. simpl.
    apply wp_bind. unfold reverse_pass_body at 1.
    apply wp_bind. eapply wp_mono; [by apply (toIdx_safe n any_error) |].
    intros w s1 (_ & _ & _ & _ & _ & _ & _ & _ & Hsame). cbv beta.
    destruct (Hsame _ Hidx) as [-> ->]. clear Hsame.
    eapply wp_mono.
    { apply (wp_conj2 any_error);
        [apply (process_safe n any_error); [done | lia] | apply process_semi_other]. }
    intros [] s2 [(Hinv2 & Hsf2 & _) [Hd2 Hs2]]. cbv beta.
    rewrite <- (sf_vertices _ _ Hsf2). eapply wp_mono.
    + apply IH; [done | rewrite (sf_dfIdx _ _ Hsf2); lia].
    + intros [] s3 Hs3 i Hi. cbv beta in Hs3.
      rewrite Hs3 by lia. apply Hs2. lia.
Qed.

Lemma finalize_keeps_semi s :
  wp any_error finalize (λ _ s', semi s' = semi s) s.
Proof.
  unfold finalize. wp_bind_write Hsz. apply wp_bind, wp_get.
  apply wp_for_each with (I := λ s1 : LTState Vertex, semi s1 = semi s); [done |].
  intros vtx s1 _ Hs1. unfold finalize_step.
  apply wp_bind. eapply wp_mono; [apply toIdx_keeps_semi |].
  intros w s2 [Hs2 _]. cbv beta. wp_any; simpl; congruence.
Qed.

(** C5: let [lengauerTarjanDominator] return and let [w > 0] be the number
    of a vertex. The run is step 1, the reverse pass and step 4, and the
    reverse pass is: the iterations for the slots after [w], the iteration
    for [m_vertices[w]], the iterations for the slots before [w]. In the
    iteration for [m_vertices[w]], [toIdx] gives [w], and when [process(w)]
    is over [semi[w]] is the minimum of the values [semi[eval(p)]] that
    step 2 computes for the predecessors [p] of [w], in the order it visits
    them (there is at least one): the value [semi[w]] had before never stays
    as a strictly smaller minimum, and what follows step 2 in the iteration
    leaves [semi] as it is. That minimum is still in [semi[w]] when
    [lengauerTarjanDominator] returns. *)
Theorem semi_is_min_over_predecessors (_entry : Vertex) (w : N)
    (s_end : LTState Vertex) :
  lt_run ForEachSuccessor (Dominator_init dflt n) _entry n = Ok tt s_end →
  0 < w < dfIdx s_end →
  ∃ s0 s_swept vtx sa sb b s1 p cs s2 s3 x,
    dfs_phase ForEachSuccessor _entry n (lt_locals (Dominator_init dflt n) n)
      = Ok tt s0 ∧
    reverse_pass s0 = Ok tt s_swept ∧
    finalize s_swept = Ok tt s_end ∧
    vec_get (m_vertices (this s0)) w = Some vtx ∧
    for_each (rev (drop (S (N.to_nat w)) (m_vertices (this s0))))
      reverse_pass_body s0 = Ok tt sa ∧
    reverse_pass_body vtx sa = Ok tt s3 ∧
    for_each (rev (take (N.to_nat w) (m_vertices (this s0))))
      reverse_pass_body s3 = Ok tt s_swept ∧
    toIdx vtx sa = Ok w sb ∧
    process w sb = Ok tt s3 ∧
    vec_get (bucket sb) w = Some b ∧
    for_each b (bucket_step w) sb = Ok tt s1 ∧
    vec_get (predecessors s1) w = Some p ∧
    semi_min_run w p s1 cs s2 ∧
    semi s3 = semi s2 ∧
    vec_get (semi s3) w = Some x ∧ x ∈ cs ∧ Forall (λ c, x ≤ c) cs ∧
    vec_get (semi s_end) w = Some x.
Proof.
  intros Hrun Hw.
  unfold lt_run, bind, solAssert in Hrun.
  destruct (N.ltb_spec 0 n) as [Hn | _]; [| done]. simpl in Hrun.
  unfold lt_body, bind in Hrun.
  destruct (dfs_phase ForEachSuccessor _entry n _) as [[] s0 |] eqn:Hdfs; [| done].
  destruct (reverse_pass s0) as [[] s_swept |] eqn:Hrev; [| done].
  destruct (Dominator_init_spec dflt n) as [Hsz Hidx].
  pose proof (wp_ok _ _ _ _ _ _
    (dfs_phase_spec ForEachSuccessor n _entry _ Hn Hsz Hidx) Hdfs)
    as (Hinv0 & _).
  pose proof (wp_ok _ _ _ _ _ _ (reverse_pass_spec n s0 Hinv0) Hrev)
    as (Hinv1 & Hsf1 & Hsweep1).
  pose proof (wp_ok _ _ _ _ _ _ (finalize_spec n s_swept Hinv1 Hsweep1) Hrun)
    as (_ & Hsf2 & _).
  pose proof (wp_ok _ _ _ _ _ _ (finalize_keeps_semi s_swept) Hrun) as Hsemi2.
  assert (0 < w < dfIdx s0) as Hw0.
  { rewrite <- (sf_dfIdx _ _ Hsf1), <- (sf_dfIdx _ _ Hsf2). done. }
  destruct (li_index _ _ Hinv0 w ltac:(lia)) as (vtx & Hvtx & _).
  pose proof Hrev as Hsplit.
  rewrite (reverse_pass_split w vtx s0 Hvtx) in Hsplit. unfold bind in Hsplit.
  destruct (reverse_pass_until w s0) as [[w' p] s1 |] eqn:Huntil; [| done].
  simpl in Hsplit.
  destruct (for_each p (semi_step w') s1) as [[] s2 |] eqn:Hloop; [| done].
  destruct (process_tail w' s2) as [[] s3 |] eqn:Htail; [| done].
  assert (lt_run_dfs ForEachSuccessor (Dominator_init dflt n) _entry n = Ok tt s0)
    as Hdfs'.
  { unfold lt_run_dfs, bind, solAssert.
    destruct (N.ltb_spec 0 n) as [_ | ?]; [| lia]. simpl. exact Hdfs. }
  destruct (semi_step2_is_min _entry w w' p
              s0 s1 s2 Hdfs' Hw0 Huntil Hloop)
    as (-> & Hp & cs & x & Hmin & Hx & Hin & Hall & Hkeep).
  unfold reverse_pass_until, bind, get in Huntil.
  destruct (for_each _ reverse_pass_body s0) as [[] sa |] eqn:Hbefore; [| done].
  rewrite Hvtx in Huntil. unfold iteration_until_step2, bind in Huntil.
  destruct (toIdx vtx sa) as [w'' sb |] eqn:Hidx'; [| done].
  unfold read at 1 in Huntil.
  destruct (vec_get (bucket sb) w'') as [b |] eqn:Hb; [| done].
  destruct (for_each b (bucket_step w'') sb) as [[] s1' |] eqn:Hloop1; [| done].
  unfold read, ret in Huntil.
  destruct (vec_get (predecessors s1') w'') as [p' |] eqn:Hp'; [| done].
  injection Huntil as -> -> ->.
  assert (process w sb = Ok tt s3) as Hprocess.
  { rewrite process_unfold. unfold bind, read. by rewrite Hb, Hloop1, Hp', Hloop. }
  assert (reverse_pass_body vtx sa = Ok tt s3) as Hbody.
  { unfold reverse_pass_body, bind. by rewrite Hidx'. }
  assert (lt_inv n sa ∧ solver_frame s0 sa) as [Hinva Hsfa].
  { apply (wp_ok is_oob _ (λ _ s, lt_inv n s ∧ solver_frame s0 s) _ _ _)
      with (2 := Hbefore).
    apply wp_for_each with (I := λ s, lt_inv n s ∧ solver_frame s0 s).
    - split; [done | apply solver_frame_refl].
    - intros v s _ [Hinv Hsf]. eapply wp_mono; [by apply reverse_pass_body_spec |].
      intros [] s' [Hinv' Hsf']. split; [done | by eapply solver_frame_trans]. }
  pose proof (wp_ok _ _ _ _ _ _ (reverse_pass_body_spec n vtx sa Hinva) Hbody)
    as [Hinv3 Hsf3].
  assert (solver_frame s0 s3) as Hsf03 by (by eapply solver_frame_trans).
  assert (∀ i, w ≤ i → vec_get (semi s_swept) i = vec_get (semi s3) i) as Hlater.
  { pose proof Hsplit as Hrest. rewrite <- (sf_vertices _ _ Hsf03) in Hrest.
    pose proof (wp_ok _ _ _ _ _ _
      (reverse_sweep_semi_above (N.to_nat w) s3 Hinv3
         ltac:(rewrite (sf_dfIdx _ _ Hsf03); lia)) Hrest) as Hsame.
    intros i Hi. apply Hsame. lia. }
  pose proof (Hkeep s3 Htail) as Hx3.
  exists s0, s_swept, vtx, sa, sb, b, s1, p, cs, s2, s3, x.
  split_and!; try done.
  - destruct (process_tail_frame w s2 s3 Htail) as (Hs & _). done.
  - rewrite Hsemi2, Hlater by lia. done.
Qed.
End semi_min_proofs.

(** ** The dominator tree *)

Section tree_proofs.
Context {Vertex : Type} `{Countable Vertex}.
Implicit Types d : Dominator Vertex.

Lemma for_each_tree_append_children (l : list N) d d' :
  (∀ k c x, m_dominatorTree d !! k = Some c → x ∈ c → x = k) →
  for_each l tree_append d = Ok tt d' →
  ∀ k c x, m_dominatorTree d' !! k = Some c → x ∈ c → x = k.
Proof.
  revert d. induction l as [|i l IH]; intros d Hd Hrun.
  - by injection Hrun as <-.
  - simpl in Hrun. unfold bind, tree_append at 1, modify in Hrun.
    eapply IH; [| exact Hrun]. simpl. intros k c x Hc Hx.
    destruct (decide (i = k)) as [-> | Hne].
    + rewrite lookup_insert_eq in Hc. injection Hc as <-.
      apply elem_of_app in Hx as [Hx | Hx%list_elem_of_singleton]; [| done].
      destruct (m_dominatorTree d !! k) as [c |] eqn:Hk; simpl in Hx.
      * by eapply Hd.
      * by apply elem_of_nil in Hx.
    + rewrite lookup_insert_ne in Hc by done. by eapply Hd.
Qed.

(** Whatever the immediate dominators are, [buildDominatorTree] started with
    an empty tree lists under every key nothing but the key itself. *)
Lemma buildDominatorTree_children_are_keys d d' :
  m_dominatorTree d = ∅ →
  buildDominatorTree d = Ok tt d' →
  ∀ k c x, m_dominatorTree d' !! k = Some c → x ∈ c → x = k.
Proof.
  intros Hempty Hrun. unfold buildDominatorTree, bind, get, solAssert in Hrun.
  destruct (negb (bool_decide (m_vertices d = []))); [| done]. simpl in Hrun.
  destruct (negb (bool_decide (m_immediateDominators d = []))); [| done].
  simpl in Hrun. eapply for_each_tree_append_children; [| done].
  intros k c x. by rewrite Hempty, lookup_empty.
Qed.
End tree_proofs.

(** ** The chain of immediate dominators *)

Section chain_proofs.
Context {Vertex : Type} `{Countable Vertex}.
Variable _entry : Vertex.
Variable c : N.
Implicit Types d : Dominator Vertex.

Lemma idom_chain_fuel d f1 f2 i :
  dom_inv _entry c d → i < c →
  (N.to_nat i ≤ f1)%nat → (N.to_nat i ≤ f2)%nat →
  idom_chain (m_immediateDominators d) f1 i =
  idom_chain (m_immediateDominators d) f2 i.
Proof.
  intros Hinv. revert f2 i. induction f1 as [|f1 IH]; intros f2 i Hi Hf1 Hf2.
  - assert (i = 0) as -> by lia.
    destruct (dv_idom _ _ _ Hinv 0 Hi) as (x & Hx & Hle & _).
    assert (x = 0) as -> by lia.
    destruct f2; simpl; [done |]. by rewrite Hx.
  - destruct (dv_idom _ _ _ Hinv i Hi) as (x & Hx & Hle & Hlt).
    destruct f2 as [|f2]; simpl; rewrite Hx.
    + assert (i = 0) as -> by lia. by assert (x = 0) as -> by lia.
    + destruct (N.eqb_spec x 0) as [-> | Hne]; [done |].
      assert (i ≠ 0) as Hi0 by lia. specialize (Hlt Hi0).
      f_equal. apply IH; lia.
Qed.

Lemma idom_chain_S (l : list N) f i :
  idom_chain l (S f) i =
  match vec_get l i with
  | Some j => if j =? 0 then [] else j :: idom_chain l f j
  | None => []
  end.
Proof. done. Qed.

Lemma dominators_idx_unfold d i :
  dom_inv _entry c d → i < c →
  dominators_idx d i =
  match vec_get (m_immediateDominators d) i with
  | Some j => if j =? 0 then [] else j :: dominators_idx d j
  | None => []
  end.
Proof.
  intros Hinv Hi. unfold dominators_idx.
  pose proof (dv_count _ _ _ Hinv) as Hc.
  pose proof (dv_size _ _ _ Hinv) as Hsz. unfold vec_size in Hc, Hsz.
  destruct (dv_idom _ _ _ Hinv i Hi) as (x & Hx & Hle & Hlt).
  rewrite Hx.
  destruct (length (m_immediateDominators d)) as [|f] eqn:Hlen; [lia |].
  rewrite (idom_chain_S _ f i), Hx.
  destruct (N.eqb_spec x 0) as [-> | Hne]; [done |].
  f_equal. apply (idom_chain_fuel d); [done | lia | |]; lia.
Qed.

Lemma dominators_idx_bound d i j :
  dom_inv _entry c d → i < c → j ∈ dominators_idx d i → 0 < j < i.
Proof.
  intros Hinv. revert j. induction i as [i IH] using (well_founded_induction N.lt_wf_0); intros j Hi Hj.
  rewrite dominators_idx_unfold in Hj by done.
  destruct (dv_idom _ _ _ Hinv i Hi) as (x & Hx & Hle & Hlt).
  rewrite Hx in Hj. destruct (N.eqb_spec x 0) as [Hx0 | Hne].
  { by apply elem_of_nil in Hj. }
  assert (x < i) as Hxi by (apply Hlt; lia).
  apply elem_of_cons in Hj as [-> | Hj]; [lia |].
  specialize (IH x Hxi j ltac:(lia) Hj). lia.
Qed.

Lemma dom_depth_step d i j :
  dom_inv _entry c d → i < c → i ≠ 0 →
  vec_get (m_immediateDominators d) i = Some j →
  dom_depth d i = S (dom_depth d j).
Proof.
  intros Hinv Hi Hne Hj. unfold dom_depth.
  destruct (N.eqb_spec i 0) as [? | _]; [done |].
  rewrite (dominators_idx_unfold d i) by done. rewrite Hj.
  by destruct (N.eqb_spec j 0).
Qed.

(** Along the chain every element is the immediate dominator of the one
    before it, so the depth goes down by one at each step. *)
Lemma dominators_idx_depth d i :
  dom_inv _entry c d → i < c →
  Forall (λ j, (dom_depth d j < dom_depth d i)%nat) (dominators_idx d i) ∧
  StronglySorted (λ j k, (dom_depth d k < dom_depth d j)%nat) (dominators_idx d i).
Proof.
  intros Hinv. induction i as [i IH] using (well_founded_induction N.lt_wf_0); intros Hi.
  rewrite dominators_idx_unfold by done.
  destruct (dv_idom _ _ _ Hinv i Hi) as (x & Hx & Hle & Hlt).
  rewrite Hx. destruct (N.eqb_spec x 0) as [Hx0 | Hne].
  { split; constructor. }
  assert (i ≠ 0) as Hi0 by lia. specialize (Hlt Hi0).
  destruct (IH x Hlt ltac:(lia)) as [Hall Hsorted].
  pose proof (dom_depth_step d i x Hinv Hi Hi0 Hx) as Hstep.
  split.
  - constructor; [lia |]. eapply Forall_impl; [exact Hall |].
    intros j Hj. simpl in Hj. lia.
  - by constructor.
Qed.
End chain_proofs.

(** ** The queries on a finished structure *)

Section query_proofs.
Context {Vertex : Type} `{Countable Vertex}.
Variable _entry : Vertex.
Variable c : N.
Implicit Types d : Dominator Vertex.

Lemma dom_index_of_present E (v : Vertex) i d (Q : N → Dominator Vertex → Prop) :
  m_vertexIndices d !! v = Some i → Q i d → wp E (dom_index_of v) Q d.
Proof.
  intros Hi HQ. unfold wp, dom_index_of, index_of. by rewrite Hi.
Qed.

Lemma indexed_inv d v :
  indexed d v →
  ∃ i, m_vertexIndices d !! v = Some i ∧ vec_get (m_vertices d) i = Some v.
Proof.
  unfold indexed. destruct (m_vertexIndices d !! v) as [i |]; [eauto | done].
Qed.

Lemma dominates_loop_spec d aIdx fuel f b :
  dom_inv _entry c d → b < c →
  (N.to_nat b ≤ f)%nat → (N.to_nat b < fuel)%nat →
  wp (λ _, False)
    (x ← read v_immediateDominators m_immediateDominators b;
     dominates_loop fuel aIdx x)%lt
    (λ r d', d' = d ∧
       r = bool_decide (aIdx ∈ idom_chain (m_immediateDominators d) f b)
           || (aIdx =? 0)) d.
Proof.
  intros Hinv. revert fuel b. induction f as [|f IH]; intros fuel b Hb Hf Hfuel.
  - assert (b = 0) as -> by lia.
    destruct (dv_idom _ _ _ Hinv 0 Hb) as (x & Hx & Hle & _).
    assert (x = 0) as -> by lia.
    apply wp_bind, wp_read; [| congruence]. intros y Hy.
    assert (y = 0) as -> by congruence.
    destruct fuel as [|fuel]; [lia |]. cbn [dominates_loop idom_chain].
    rewrite N.eqb_refl. cbn [negb].
    apply wp_bind, wp_solAssert; [intros _ | done]. apply wp_ret.
    split; [done |]. by rewrite bool_decide_eq_false_2 by apply not_elem_of_nil.
  - destruct (dv_idom _ _ _ Hinv b Hb) as (x & Hx & Hle & Hlt).
    apply wp_bind, wp_read; [| congruence]. intros y Hy.
    assert (y = x) as -> by congruence. clear Hy.
    destruct fuel as [|fuel]; [lia |]. cbn [dominates_loop idom_chain]. rewrite Hx.
    destruct (N.eqb_spec x 0) as [-> | Hne]; cbn [negb].
    { apply wp_bind, wp_solAssert; [intros _ | done]. apply wp_ret.
      split; [done |]. by rewrite bool_decide_eq_false_2 by apply not_elem_of_nil. }
    assert (b ≠ 0) as Hb0 by lia. specialize (Hlt Hb0).
    destruct (N.eqb_spec x aIdx) as [-> | Hne'].
    { apply wp_ret. split; [done |].
      rewrite bool_decide_eq_true_2; [done | by left]. }
    eapply wp_mono; [apply IH; lia |].
    intros r d' [-> ->]. split; [done |]. f_equal.
    apply bool_decide_ext. rewrite elem_of_cons.
    split; [tauto | intros [? | ?]; [congruence | done]].
Qed.

(** [dominates] on a finished structure computes [dominates_spec] and
    returns the structure as it was. *)
Lemma dominates_correct d (a b : Vertex) :
  dom_inv _entry c d → indexed d a → indexed d b →
  dominates a b d = Ok (dominates_spec d a b) d.
Proof.
  intros Hinv (ai & Hai & Hva)%indexed_inv (bi & Hbi & Hvb)%indexed_inv.
  pose proof (dv_index_bound _ _ _ Hinv _ _ Hai) as Haic.
  pose proof (dv_index_bound _ _ _ Hinv _ _ Hbi) as Hbic.
  pose proof (dv_count _ _ _ Hinv) as Hc.
  pose proof (dv_size _ _ _ Hinv) as Hsz. unfold vec_size in Hc, Hsz.
  assert (wp (λ _, False) (dominates a b)
            (λ r d', d' = d ∧ r = dominates_spec d a b) d) as Hwp.
  { unfold dominates, dominates_spec. rewrite Hai, Hbi.
    apply wp_bind, dom_index_of_present with (i := ai); [done |].
    apply wp_bind, dom_index_of_present with (i := bi); [done |].
    destruct (N.eqb_spec ai bi) as [-> | Hne].
    { apply wp_ret. split; [done |].
      assert (a = b) as -> by congruence. by destruct (decide (b = b)). }
    destruct (decide (a = b)) as [-> | Hab]; [congruence |].
    apply wp_bind, wp_read; [| intros Hnone; apply vec_get_None in Hnone;
      unfold vec_size in Hnone; lia].
    intros x Hx. apply wp_bind, wp_get.
    pose proof (dominates_loop_spec d ai
      (S (length (m_immediateDominators d)))
      (length (m_immediateDominators d)) bi Hinv Hbic ltac:(lia) ltac:(lia)) as Hloop.
    unfold wp in Hloop at 1. unfold bind, read in Hloop. rewrite Hx in Hloop.
    unfold wp. destruct (dominates_loop _ _ _ _) as [r d' | e]; [| done].
    destruct Hloop as [-> ->]. split; [done |].
    unfold dominators_idx.
    destruct (decide (ai ∈ _)) as [Hin | Hnin].
    - by rewrite bool_decide_eq_true_2.
    - rewrite bool_decide_eq_false_2 by done. simpl.
      destruct (dv_index _ _ _ Hinv 0) as (v0 & Hv0 & Hi0); [lia |].
      destruct (N.eqb_spec ai 0) as [-> | Hne0].
      + rewrite bool_decide_eq_true_2; [done | congruence].
      + rewrite bool_decide_eq_false_2; [done |].
        intros Ha0. assert (v0 = a) as -> by congruence. congruence. }
  unfold wp in Hwp. destruct (dominates a b d) as [r d' | e]; [| done].
  by destruct Hwp as [-> ->].
Qed.

Lemma dominatorsOf_loop_spec d fuel f acc b :
  dom_inv _entry c d → b < c →
  (N.to_nat b ≤ f)%nat → (N.to_nat b < fuel)%nat →
  wp (λ _, False)
    (x ← read v_immediateDominators m_immediateDominators b;
     dominatorsOf_loop fuel acc x)%lt
    (λ r d', d' = d ∧ ∃ l,
       r = acc ++ l ∧
       Forall2 (λ v i, vec_get (m_vertices d) i = Some v) l
         (idom_chain (m_immediateDominators d) f b)) d.
Proof.
  intros Hinv. revert fuel acc b.
  induction f as [|f IH]; intros fuel acc b Hb Hf Hfuel.
  - assert (b = 0) as -> by lia.
    destruct (dv_idom _ _ _ Hinv 0 Hb) as (x & Hx & Hle & _).
    assert (x = 0) as -> by lia.
    apply wp_bind, wp_read; [| congruence]. intros y Hy.
    assert (y = 0) as -> by congruence.
    destruct fuel as [|fuel]; [lia |]. cbn [dominatorsOf_loop idom_chain].
    rewrite N.eqb_refl. cbn [negb]. apply wp_ret.
    split; [done |]. exists []. by rewrite app_nil_r.
  - destruct (dv_idom _ _ _ Hinv b Hb) as (x & Hx & Hle & Hlt).
    apply wp_bind, wp_read; [| congruence]. intros y Hy.
    assert (y = x) as -> by congruence. clear Hy.
    destruct fuel as [|fuel]; [lia |]. cbn [dominatorsOf_loop idom_chain].
    rewrite Hx. destruct (N.eqb_spec x 0) as [-> | Hne]; cbn [negb].
    { apply wp_ret. split; [done |]. exists []. by rewrite app_nil_r. }
    assert (b ≠ 0) as Hb0 by lia. specialize (Hlt Hb0).
    destruct (dv_index _ _ _ Hinv x) as (vx & Hvx & _); [lia |].
    apply wp_bind, wp_read; [| congruence]. intros vx' Hvx'.
    assert (vx' = vx) as -> by congruence. clear Hvx'.
    eapply wp_mono; [apply IH; lia |].
    intros r d' (-> & l & -> & Hl). split; [done |].
    exists (vx :: l). split; [by rewrite <- app_assoc | by constructor].
Qed.

(** [dominatorsOf v] returns the entry followed by the vertices at the
    indices of the chain of [v], and the structure as it was. *)
Lemma dominatorsOf_correct d (v : Vertex) i :
  dom_inv _entry c d → m_vertexIndices d !! v = Some i →
  ∃ l, dominatorsOf v d = Ok (_entry :: l) d ∧
       Forall2 (λ v j, vec_get (m_vertices d) j = Some v) l (dominators_idx d i).
Proof.
  intros Hinv Hi.
  pose proof (dv_index_bound _ _ _ Hinv _ _ Hi) as Hic.
  pose proof (dv_count _ _ _ Hinv) as Hc.
  pose proof (dv_size _ _ _ Hinv) as Hsz. unfold vec_size in Hc, Hsz.
  pose proof (dv_entry _ _ _ Hinv) as Hentry.
  assert (wp (λ _, False) (dominatorsOf v)
            (λ r d', d' = d ∧ ∃ l, r = _entry :: l ∧
               Forall2 (λ v j, vec_get (m_vertices d) j = Some v) l
                 (dominators_idx d i)) d) as Hwp.
  { unfold dominatorsOf. apply wp_bind, wp_get.
    apply wp_bind, wp_solAssert; [intros _ |].
    2:{ intros Hb. apply negb_false_iff, bool_decide_eq_true in Hb.
        rewrite Hb in Hc. simpl in Hc. lia. }
    apply wp_bind, wp_read; [| congruence]. intros x Hx.
    assert (x = _entry) as -> by congruence.
    apply wp_bind, dom_index_of_present with (i := i); [done |].
    pose proof (dominatorsOf_loop_spec d
      (S (length (m_immediateDominators d)))
      (length (m_immediateDominators d)) [_entry] i Hinv Hic
      ltac:(lia) ltac:(lia)) as Hloop.
    unfold wp in Hloop at 1. unfold bind, read in Hloop.
    apply wp_bind, wp_read; [| intros Hnone; apply vec_get_None in Hnone;
      unfold vec_size in Hnone; lia].
    intros y Hy. rewrite Hy in Hloop.
    destruct (N.eqb_spec y 0) as [-> | Hne].
    - apply wp_ret. split; [done |]. exists []. split; [done |].
      rewrite (dominators_idx_unfold _entry c) by done. rewrite Hy. simpl.
      constructor.
    - apply wp_bind, wp_get. unfold wp.
      destruct (dominatorsOf_loop _ _ _ _) as [r d' | e]; [| done].
      destruct Hloop as (-> & l & -> & Hl). split; [done |]. by exists l. }
  unfold wp in Hwp. destruct (dominatorsOf v d) as [r d' | e]; [| done].
  destruct Hwp as (-> & l & -> & Hl). by exists l.
Qed.
End query_proofs.

(** ** The queries do not modify the structure *)

Section query_frame.
Context {Vertex : Type} `{Countable Vertex}.
Implicit Types d : Dominator Vertex.

Lemma dom_index_of_frame (v : Vertex) d (Q : N → Dominator Vertex → Prop) E :
  (∀ i, m_vertexIndices d !! v = Some i → Q i d) →
  is_Some (m_vertexIndices d !! v) →
  wp E (dom_index_of v) Q d.
Proof.
  intros HQ [i Hi]. unfold wp, dom_index_of, index_of. rewrite Hi. auto.
Qed.

Lemma dominates_loop_frame fuel aIdx idomIdx d :
  wp any_error (dominates_loop fuel aIdx idomIdx) (λ _ d', d' = d) d.
Proof.
  revert idomIdx. induction fuel as [|fuel IH]; intros idomIdx; simpl.
  - by apply wp_fail.
  - destruct (idomIdx =? 0); simpl; [by wp_steps |].
    destruct (idomIdx =? aIdx); wp_steps; auto.
Qed.

Lemma dominatorsOf_loop_frame fuel acc idomIdx d :
  wp any_error (dominatorsOf_loop fuel acc idomIdx) (λ _ d', d' = d) d.
Proof.
  revert acc idomIdx. induction fuel as [|fuel IH]; intros acc idomIdx; simpl.
  - by apply wp_fail.
  - destruct (idomIdx =? 0); simpl; wp_steps; auto.
Qed.

Lemma dominates_frame (a b : Vertex) d :
  is_Some (m_vertexIndices d !! a) → is_Some (m_vertexIndices d !! b) →
  wp any_error (dominates a b) (λ _ d', d' = d) d.
Proof.
  intros Ha Hb. unfold dominates.
  wp_step. apply dom_index_of_frame; [intros aIdx _ | done].
  wp_step. apply dom_index_of_frame; [intros bIdx _ | done].
  destruct (aIdx =? bIdx); wp_steps; [done |]. apply dominates_loop_frame.
Qed.

Lemma dominatorsOf_frame (v : Vertex) d :
  is_Some (m_vertexIndices d !! v) →
  wp any_error (dominatorsOf v) (λ _ d', d' = d) d.
Proof.
  intros Hv. unfold dominatorsOf. wp_steps.
  apply wp_solAssert; [intros _ | done]. wp_steps.
  apply dom_index_of_frame; [intros i _ | done]. wp_steps.
  destruct (_ =? 0); wp_steps; [done |]. apply dominatorsOf_loop_frame.
Qed.

(** C9: for vertices that are keys of the vertex-to-index mapping, a call of
    [dominates] or of [dominatorsOf] that returns leaves the whole structure
    (vertex list, index mapping, immediate dominators, dominator tree)
    exactly as it was. *)
Theorem queries_leave_structure_unchanged (a b : Vertex) d :
  is_Some (m_vertexIndices d !! a) →
  is_Some (m_vertexIndices d !! b) →
  (∀ r d', dominates a b d = Ok r d' → d' = d) ∧
  (∀ r d', dominatorsOf a d = Ok r d' → d' = d).
Proof.
  intros Ha Hb. split; intros r d' Hrun.
  - exact (wp_ok _ _ _ _ _ _ (dominates_frame a b d Ha Hb) Hrun).
  - exact (wp_ok _ _ _ _ _ _ (dominatorsOf_frame a d Ha) Hrun).
Qed.
End query_frame.

(** ** The claims about the constructor and the queries *)

Section claims.
Context {Vertex : Type} `{Countable Vertex}.
Variable ForEachSuccessor : Vertex → list Vertex.
Variable Vertex_default : Vertex.
Implicit Types d : Dominator Vertex.

(** C10: the construction fails by assertion exactly when the vertex count
    is zero, and so does the call of [lengauerTarjanDominator] it makes:
    the check [numVertices > 0] fails for 0 and no assertion fails for a
    positive count. *)
Theorem assertion_fails_iff_zero (_entry : Vertex) (n : N) :
  (Dominator_ctor ForEachSuccessor Vertex_default _entry n = Err AssertionFailed
     ↔ n = 0) ∧
  (lengauerTarjanDominator ForEachSuccessor _entry n (Dominator_init Vertex_default n)
     = Err AssertionFailed ↔ n = 0).
Proof.
  destruct (Dominator_init_spec Vertex_default n) as [Hsz Hidx].
  pose proof (lt_run_spec ForEachSuccessor _entry n _ Hsz Hidx) as Hrun.
  pose proof (Dominator_ctor_spec ForEachSuccessor Vertex_default _entry n) as Hctor.
  split.
  - destruct (Dominator_ctor _ _ _ _) as [[] d | e].
    + destruct Hctor as (s & Hs & _). rewrite Hs in Hrun.
      split; [done | lia].
    + destruct (decide (n = 0)) as [-> | Hne]; [by subst |].
      split; [by intros [= ->] | done].
  - unfold lengauerTarjanDominator.
    destruct (lt_run _ _ _ _) as [[] s | e].
    + split; [done | lia].
    + destruct (decide (n = 0)) as [-> | Hne]; [by subst |].
      split; [by intros [= ->] | done].
Qed.

(** C6: in the array [lengauerTarjanDominator] returns, [idom[0] = 0], and
    for every discovered index [i] other than 0, [idom[i]] is smaller than
    [i] and is an ancestor of [i] in the depth-first spanning tree. *)
Theorem idom_proper_ancestor (_entry : Vertex) (n : N) (s : LTState Vertex) :
  lt_run ForEachSuccessor (Dominator_init Vertex_default n) _entry n = Ok tt s →
  lengauerTarjanDominator ForEachSuccessor _entry n (Dominator_init Vertex_default n)
    = Ok (idom s) (this s) ∧
  vec_get (idom s) 0 = Some 0 ∧
  ∀ i, 0 < i < dfIdx s →
    ∃ x, vec_get (idom s) i = Some x ∧ x < i ∧ tree_anc (parent s) x i.
Proof.
  intros Hrun.
  destruct (Dominator_init_spec Vertex_default n) as [Hsz Hidx].
  pose proof (lt_run_spec ForEachSuccessor _entry n _ Hsz Hidx) as Hspec.
  rewrite Hrun in Hspec. destruct Hspec as (Hn & Hinv & Hall & _).
  split_and!.
  - unfold lengauerTarjanDominator. by rewrite Hrun.
  - destruct (Hall 0) as (x & Hx & Hle & _); [apply (li_dfIdx _ _ Hinv) |].
    by assert (x = 0) as -> by lia.
  - intros i Hi. destruct (Hall i) as (x & Hx & Hle & Hanc & Hlt); [lia |].
    exists x. split_and!; [done | apply Hlt; lia | done].
Qed.

(** C3: on a constructed structure and for vertices numbered by the search,
    [dominates a b] returns, without changing the structure, true when
    [a = b]; otherwise true when the index of [a] lies on the chain of
    immediate dominators walked from [b] towards the entry; otherwise true
    exactly when [a] is the entry vertex. *)
Theorem dominates_walks_idom_chain (_entry : Vertex) (n : N) d (a b : Vertex) :
  Dominator_ctor ForEachSuccessor Vertex_default _entry n = Ok tt d →
  indexed d a → indexed d b →
  dominates a b d = Ok (dominates_spec d a b) d ∧
  vec_get (m_vertices d) 0 = Some _entry.
Proof.
  intros Hctor Ha Hb.
  destruct (Dominator_ctor_inv _ _ _ _ _ Hctor) as (s & _ & _ & Hinv).
  split; [by eapply dominates_correct | apply (dv_entry _ _ _ Hinv)].
Qed.

(** C2, as the code has it: on a constructed structure and for a vertex [v]
    numbered by the search, [dominatorsOf v] returns the entry followed by
    the vertices at the indices [idom[v]], [idom[idom[v]]], ... (the index 0
    excluded): each element after the second is the immediate dominator of
    the one before it, so depth strictly decreases along them; and [v]
    itself is in the result only when [v] is the entry. *)
Theorem dominatorsOf_entry_then_idom_upwards (_entry : Vertex) (n : N) d
    (v : Vertex) (i : N) :
  Dominator_ctor ForEachSuccessor Vertex_default _entry n = Ok tt d →
  m_vertexIndices d !! v = Some i →
  ∃ l, dominatorsOf v d = Ok (_entry :: l) d ∧
       Forall2 (λ x j, vec_get (m_vertices d) j = Some x) l (dominators_idx d i) ∧
       dominators_idx d i =
         match vec_get (m_immediateDominators d) i with
         | Some x => if x =? 0 then [] else x :: dominators_idx d x
         | None => []
         end ∧
       StronglySorted (λ j k, (dom_depth d k < dom_depth d j)%nat)
         (dominators_idx d i) ∧
       (v ≠ _entry → v ∉ _entry :: l).
Proof.
  intros Hctor Hi.
  destruct (Dominator_ctor_inv _ _ _ _ _ Hctor) as (s & _ & _ & Hinv).
  pose proof (dv_index_bound _ _ _ Hinv _ _ Hi) as Hic.
  destruct (dominatorsOf_correct _ _ d v i Hinv Hi) as (l & Hrun & Hl).
  exists l. split_and!.
  - done.
  - done.
  - by eapply dominators_idx_unfold.
  - by eapply dominators_idx_depth.
  - intros Hne [Heq | Hin]%elem_of_cons; [done |].
    apply list_elem_of_lookup in Hin as [k Hk].
    destruct (Forall2_lookup_l _ _ _ _ _ Hl Hk) as (j & Hj & Hvj).
    apply list_elem_of_lookup_2 in Hj.
    pose proof (dominators_idx_bound _ _ d i j Hinv Hic Hj) as Hbound.
    destruct (dv_index _ _ _ Hinv j) as (u & Hu & Huj); [lia |].
    assert (u = v) as -> by congruence. assert (j = i) by congruence. lia.
Qed.
End claims.

(** ** The example graphs *)

(** C1 (evaluation at the failing input): for the two-vertex chain the
    constructor returns [idom = [0; 0]] and a dominator tree whose only entry
    is the key 0 with the child list [[0]]: index 1, whose immediate dominator
    is 0, is not a child of 0, and 0 is listed as its own child. *)
Theorem chain2_tree_lists_the_dominator_itself :
  ∃ d, Dominator_ctor chain2 "" "entry" 2 = Ok tt d ∧
       m_immediateDominators d = [0; 0] ∧
       m_dominatorTree d = {[ 0 := [0] ]}.
Proof.
  eexists. split; [vm_compute; reflexivity |].
  split; vm_compute; reflexivity.
Qed.

(** C4 (evaluation at the failing input): on the diamond with the exact
    vertex count 4, the callback for the edge C -> D runs when all four
    vertices are numbered and reads [semi[4]] of a vector of size 4. *)
Theorem diamond_exact_count_reads_past_semi :
  Dominator_ctor diamond "" "entry" 4 = Err (OutOfBounds v_semi 4).
Proof. vm_compute. reflexivity. Qed.

(** With one spare slot the diamond gives the values the claim lists. *)
Lemma diamond_spare_slot :
  ∃ d, Dominator_ctor diamond "" "entry" 5 = Ok tt d ∧
       m_vertices d = ["entry"; "B"; "D"; "C"; ""] ∧
       m_immediateDominators d = [0; 0; 0; 0; SIZE_MAX] ∧
       dominates "B" "D" d = Ok false d ∧
       dominates "C" "D" d = Ok false d ∧
       dominates "entry" "D" d = Ok true d.
Proof.
  eexists. split; [vm_compute; reflexivity |].
  repeat split; vm_compute; reflexivity.
Qed.

(** C8 (evaluation at the failing input): on the two-vertex cycle with
    [numVertices = 2], the number of reachable vertices, the callback for the
    edge B -> entry reads [semi[2]]. *)
Theorem cycle2_callback_reads_past_semi :
  lt_run cycle2 (Dominator_init "" 2) "entry" 2 = Err (OutOfBounds v_semi 2).
Proof. vm_compute. reflexivity. Qed.

Lemma chain4_dominator_built :
  Dominator_ctor chain4 "" "entry" 4 = Ok tt chain4_dominator.
Proof. vm_compute. reflexivity. Qed.

(** C2 (counterexample): on the four-vertex chain, [dominatorsOf "D"] is
    [entry; C; B], which does not end with C, the immediate dominator of D;
    and [dominatorsOf "entry"] is [entry], which contains the queried
    vertex. *)
Lemma chain4_dominatorsOf_not_entry_to_idom :
  dominatorsOf "D" chain4_dominator = Ok ["entry"; "C"; "B"] chain4_dominator ∧
  ¬ entry_to_idom_order chain4_dominator "D" ["entry"; "C"; "B"] ∧
  dominatorsOf "entry" chain4_dominator = Ok ["entry"] chain4_dominator ∧
  ¬ entry_to_idom_order chain4_dominator "entry" ["entry"].
Proof.
  split_and!.
  - vm_compute. reflexivity.
  - intros (_ & _ & (i & x & Hi & Hx & Hlast) & _).
    vm_compute in Hi. injection Hi as <-.
    vm_compute in Hx. injection Hx as <-.
    vm_compute in Hlast. discriminate.
  - vm_compute. reflexivity.
  - intros (_ & _ & _ & Hnotin). apply Hnotin. by left.
Qed.

Lemma idom_proper_ancestor_witness :
  ∃ s, lt_run chain4 (Dominator_init "" 4) "entry" 4 = Ok tt s ∧
       vec_get (idom s) 0 = Some 0 ∧
       ∀ i, 0 < i < dfIdx s →
         ∃ x, vec_get (idom s) i = Some x ∧ x < i ∧ tree_anc (parent s) x i.
Proof.
  eexists. split; [vm_compute; reflexivity |].
  apply (idom_proper_ancestor chain4 "" "entry" 4). vm_compute. reflexivity.
Defined.

Lemma dominates_walks_idom_chain_witness :
  dominates "B" "D" chain4_dominator
    = Ok (dominates_spec chain4_dominator "B" "D") chain4_dominator ∧
  vec_get (m_vertices chain4_dominator) 0 = Some "entry".
Proof.
  apply (dominates_walks_idom_chain chain4 "" "entry" 4);
    vm_compute; reflexivity.
Defined.

Lemma dominatorsOf_entry_then_idom_upwards_witness :
  ∃ l, dominatorsOf "D" chain4_dominator = Ok ("entry" :: l) chain4_dominator ∧
       Forall2 (λ x j, vec_get (m_vertices chain4_dominator) j = Some x) l
         (dominators_idx chain4_dominator 3) ∧
       dominators_idx chain4_dominator 3 =
         match vec_get (m_immediateDominators chain4_dominator) 3 with
         | Some x => if x =? 0 then [] else x :: dominators_idx chain4_dominator x
         | None => []
         end ∧
       StronglySorted
         (λ j k, (dom_depth chain4_dominator k < dom_depth chain4_dominator j)%nat)
         (dominators_idx chain4_dominator 3) ∧
       ("D" ≠ "entry" → "D" ∉ "entry" :: l).
Proof.
  apply (dominatorsOf_entry_then_idom_upwards chain4 "" "entry" 4);
    vm_compute; reflexivity.
Defined.

Lemma queries_leave_structure_unchanged_witness :
  (∀ r d', dominates "B" "D" chain4_dominator = Ok r d' → d' = chain4_dominator) ∧
  (∀ r d', dominatorsOf "B" chain4_dominator = Ok r d' → d' = chain4_dominator).
Proof.
  apply queries_leave_structure_unchanged; vm_compute; eexists; reflexivity.
Defined.

Lemma semi_le_every_step_witness :
  ∃ s', run_op chain4 (op_lt_body "entry" 4)
          (lt_locals (Dominator_init "" 4) 4) = Ok tt s' ∧
        semi_le s'.
Proof.
  eexists. split; [vm_compute; reflexivity |].
  destruct (semi_le_every_step chain4 "" "entry" 4) as (Hinit & _ & Hstep & _).
  apply (Hstep (op_lt_body "entry" 4) _ _ Hinit). vm_compute. reflexivity.
Defined.

Lemma semi_is_min_over_predecessors_witness :
  ∃ s0 s_swept vtx sa sb b s1 p cs s2 s3 x,
    dfs_phase diamond "entry" 5 (lt_locals (Dominator_init "" 5) 5) = Ok tt s0 ∧
    reverse_pass s0 = Ok tt s_swept ∧
    finalize s_swept = Ok tt diamond_state ∧
    vec_get (m_vertices (this s0)) 2 = Some vtx ∧
    for_each (rev (drop (S (N.to_nat 2)) (m_vertices (this s0))))
      reverse_pass_body s0 = Ok tt sa ∧
    reverse_pass_body vtx sa = Ok tt s3 ∧
    for_each (rev (take (N.to_nat 2) (m_vertices (this s0))))
      reverse_pass_body s3 = Ok tt s_swept ∧
    toIdx vtx sa = Ok 2 sb ∧
    process 2 sb = Ok tt s3 ∧
    vec_get (bucket sb) 2 = Some b ∧
    for_each b (bucket_step 2) sb = Ok tt s1 ∧
    vec_get (predecessors s1) 2 = Some p ∧
    semi_min_run 2 p s1 cs s2 ∧
    semi s3 = semi s2 ∧
    vec_get (semi s3) 2 = Some x ∧ x ∈ cs ∧ Forall (λ c, x ≤ c) cs ∧
    vec_get (semi diamond_state) 2 = Some x.
Proof.
  apply (semi_is_min_over_predecessors diamond "" 5 "entry" 2 diamond_state).
  - vm_compute. reflexivity.
  - vm_compute. split; reflexivity.
Defined.

(** * Further properties *)

(** ** What the search finds *)

Section dfs_more_proofs.
Context {Vertex : Type} `{Countable Vertex}.
Variable ForEachSuccessor : Vertex → list Vertex.
Variable _entry : Vertex.
Variable n : N.
Implicit Types s : LTState Vertex.

Lemma dfs_keep_refl s : dfs_keep s s.
Proof. split; eauto. Qed.

Lemma dfs_keep_trans s s' s'' : dfs_keep s s' → dfs_keep s' s'' → dfs_keep s s''.
Proof.
  intros [H1 H2 H3] [H1' H2' H3']. split.
  - set_solver.
  - eauto.
  - intros i l Hl. destruct (H3 i l Hl) as (l' & Hl' & Hsub).
    destruct (H3' i l' Hl') as (l'' & Hl'' & Hsub').
    exists l''. split; [done |]. set_solver.
Qed.

Lemma recorded_keep s s' u w : dfs_keep s s' → recorded s u w → recorded s' u w.
Proof.
  intros [_ Hidx Hpreds] (iu & iw & l & Hu & Hw & Hl & Hin).
  destruct (Hpreds iw l Hl) as (l' & Hl' & Hsub).
  exists iu, iw, l'. split_and!; [by apply Hidx | by apply Hidx | done | by apply Hsub].
Qed.

Lemma closed_except_keep S s s' :
  dfs_keep s s' → visited s' = visited s →
  closed_except ForEachSuccessor S s → closed_except ForEachSuccessor S s'.
Proof.
  intros Hkeep Hvis Hclosed u w Hu HS Hedge. rewrite Hvis in Hu.
  eapply recorded_keep; [done |]. by apply Hclosed.
Qed.

Lemma dfs_enter_more E (v : Vertex) s :
  dfs_inv n s → dfs_more ForEachSuccessor _entry s →
  v ∉ visited s → reachable ForEachSuccessor _entry v → dfIdx s < n →
  wp E (dfs_enter v)
    (λ _ s', dfs_more ForEachSuccessor _entry s' ∧ dfs_keep s s' ∧
             visited s' = {[v]} ∪ visited s) s.
Proof.
  intros Hinv [Hcount Hreach Hedge Hsorted] Hv Hrv Hc. unfold dfs_enter.
  apply wp_bind, wp_modify. apply wp_bind, wp_get.
  apply wp_bind, wp_write; [intros _ | dfs_in_bounds Hinv]; cbv beta.
  apply wp_bind, wp_modify.
  apply wp_bind, wp_write; [intros _ | dfs_in_bounds Hinv]; cbv beta.
  apply wp_bind, wp_write; [intros _ | dfs_in_bounds Hinv]; cbv beta.
  apply wp_modify. simpl.
  assert (∀ u i, m_vertexIndices (this s) !! u = Some i →
                 <[v := dfIdx s]> (m_vertexIndices (this s)) !! u = Some i) as Hidx.
  { intros u i Hu. rewrite lookup_insert_ne; [done |]. intros <-.
    apply Hv, (di_visited _ _ Hinv). eauto. }
  split_and!; [split; simpl | split; simpl | done].
  - rewrite size_union by set_solver. rewrite size_singleton. lia.
  - intros u [->%elem_of_singleton | Hu]%elem_of_union; auto.
  - intros i l p Hl Hp. destruct (Hedge i l p Hl Hp) as (u & w & Hu & Hw & Huw).
    exists u, w. split_and!; auto.
  - done.
  - set_solver.
  - done.
  - eauto.
Qed.

Lemma dfs_callback_more (dfs_rec : Vertex → M (LTState Vertex) unit)
    (S' : gset Vertex) (v w : Vertex) c0 s0 s :
  edge ForEachSuccessor v w → reachable ForEachSuccessor _entry w →
  (∀ s', dfs_inv n s' → entry_ok s' → c0 < dfIdx s' →
         wp is_oob (dfs_rec w) (λ _, dfs_post n w s') s') →
  (∀ s', dfs_inv n s' → entry_ok s' → c0 < dfIdx s' → dfIdx s' < n →
         dfs_more ForEachSuccessor _entry s' →
         closed_except ForEachSuccessor S' s' →
         wp (semi_overrun ForEachSuccessor _entry n) (dfs_rec w)
           (λ _ s'', dfs_more ForEachSuccessor _entry s'' ∧ dfs_keep s' s'' ∧
                     closed_except ForEachSuccessor S' s'' ∧ w ∈ visited s'') s') →
  dfs_loop_inv n v c0 s0 s → dfs_more ForEachSuccessor _entry s →
  closed_except ForEachSuccessor S' s →
  wp (semi_overrun ForEachSuccessor _entry n) (dfs_callback dfs_rec v w)
    (λ _ s', dfs_more ForEachSuccessor _entry s' ∧ dfs_keep s s' ∧
             closed_except ForEachSuccessor S' s' ∧
             recorded s' v w) s.
Proof.
  intros Hvw Hrw Hold Hnew [Hinv Hext Hidx Hlt Hanc Hpred] Hmore Hclosed.
  unfold dfs_callback. apply wp_bind, wp_get. apply wp_bind, wp_read.
  2:{ intros Hn%vec_get_None. dfs_sizes Hinv. split.
      - f_equal. lia.
      - exists (visited s). split; [| apply (dm_reach _ _ _ Hmore)].
        rewrite (dm_count _ _ _ Hmore). lia. }
  intros x Hx. cbv beta.
  assert (dfIdx s < n) as Hc.
  { apply vec_get_lt in Hx. by rewrite (di_size_semi _ _ Hinv) in Hx. }
  rewrite (di_semi _ _ Hinv) in Hx by done.
  destruct (N.ltb_spec (dfIdx s) (dfIdx s)); [lia |].
  injection Hx as <-. rewrite N.eqb_refl.
  apply wp_bind. apply wp_bind. apply lt_index_of_present with (i := c0); [done |].
  apply wp_bind, wp_get.
  apply wp_bind, wp_write; [intros Hsz | dfs_in_bounds Hinv]; cbv beta.
  set (sa := set_parent (vec_set (parent s) (dfIdx s) c0) s).
  assert (dfs_inv n sa) as Hinva by (apply dfs_inv_set_parent; [done | lia]).
  assert (dfs_keep s sa) as Hkeepa by (by split; simpl; eauto).
  eapply wp_mono.
  { apply (wp_conj2 is_oob).
    - apply Hold; [done | | simpl; lia].
      right. exists c0. simpl. rewrite vec_get_set_eq by done.
      split_and!; [done | done |].
      eapply tree_anc_ext; [| exact Hanc]. intros j Hj. apply vec_get_set_ne. lia.
    - apply Hnew; [done | | simpl; lia | done | | ].
      + right. exists c0. simpl. rewrite vec_get_set_eq by done.
        split_and!; [done | done |].
        eapply tree_anc_ext; [| exact Hanc]. intros j Hj. apply vec_get_set_ne. lia.
      + destruct Hmore as [Hm1 Hm2 Hm3 Hm4]. by split.
      + eapply closed_except_keep; [exact Hkeepa | done | done]. }
  intros [] sb ([Hinvb Hextb Hpredb Hold' Hnew'] & Hmoreb & Hkeepb & Hclosedb & Hwb).
  cbv beta.
  apply (di_visited _ _ Hinvb) in Hwb as [iw Hiw].
  assert (m_vertexIndices (this sb) !! v = Some c0) as Hidxb.
  { by apply (dk_index _ _ Hkeepb), (dk_index _ _ Hkeepa). }
  assert (iw < dfIdx sb) as Hiwlt by (by apply (di_index _ _ Hinvb) in Hiw as [? _]).
  apply wp_bind. apply lt_index_of_present with (i := iw); [done |].
  apply wp_bind. apply lt_index_of_present with (i := c0); [done |].
  apply wp_bind, wp_read; [intros pw Hpw | dfs_in_bounds Hinvb]; cbv beta.
  apply wp_write; [intros Hsz' | dfs_in_bounds Hinvb].
  set (s' := set_predecessors (vec_set (predecessors sb) iw (set_insert c0 pw)) sb).
  assert (dfs_keep sb s') as Hkeep'.
  { split; simpl; [done | done |]. intros i l Hl.
    destruct (decide (i = iw)) as [-> | Hne].
    - rewrite vec_get_set_eq by done. eexists. split; [done |].
      assert (l = pw) as -> by congruence.
      intros q Hq. apply set_insert_elem. by right.
    - rewrite vec_get_set_ne by done. eauto. }
  split_and!.
  - destruct Hmoreb as [Hm1 Hm2 Hm3 Hm4]. split; simpl; [done | done | |].
    + intros i l p Hl Hp. destruct (decide (i = iw)) as [-> | Hne].
      * rewrite vec_get_set_eq in Hl by done. injection Hl as <-.
        apply set_insert_elem in Hp as [-> | Hp]; [by exists v, w |].
        by eapply Hm3.
      * rewrite vec_get_set_ne in Hl by done. by eapply Hm3.
    + intros i l Hl. destruct (decide (i = iw)) as [-> | Hne].
      * rewrite vec_get_set_eq in Hl by done. injection Hl as <-.
        apply set_insert_sorted. by eapply Hm4.
      * rewrite vec_get_set_ne in Hl by done. by eapply Hm4.
  - eapply dfs_keep_trans; [exact Hkeepa |]. by eapply dfs_keep_trans.
  - eapply closed_except_keep; [exact Hkeep' | done | done].
  - exists c0, iw, (set_insert c0 pw). simpl.
    rewrite vec_get_set_eq by done. split_and!; [done | done | done |].
    apply set_insert_elem. by left.
Qed.

Lemma dfs_more_spec fuel (S : gset Vertex) (v : Vertex) s :
  dfs_inv n s → entry_ok s →
  (N.to_nat n - N.to_nat (dfIdx s) < fuel)%nat →
  dfIdx s < n →
  dfs_more ForEachSuccessor _entry s →
  closed_except ForEachSuccessor S s →
  reachable ForEachSuccessor _entry v →
  wp (semi_overrun ForEachSuccessor _entry n) (dfs ForEachSuccessor fuel v)
    (λ _ s', dfs_more ForEachSuccessor _entry s' ∧ dfs_keep s s' ∧
             closed_except ForEachSuccessor S s' ∧ v ∈ visited s') s.
Proof.
  revert S v s. induction fuel as [|fuel IH];
    intros S v s Hinv Hentry Hfuel Hc Hmore Hclosed Hrv; [lia |].
  simpl. apply wp_bind, wp_get. destruct (decide (v ∈ visited s)) as [Hv | Hv].
  - apply wp_ret. split_and!; [done | apply dfs_keep_refl | done | done].
  - apply wp_bind. eapply wp_mono.
    { apply (wp_conj2 is_oob); [by apply dfs_enter_spec | by apply dfs_enter_more]. }
    intros [] s1 ((Hinv1 & Hext1 & Hc1 & Hidx1 & Hpar1 & Hpreds1) & Hmore1 & Hkeep1 & Hvis1).
    cbv beta. eapply wp_mono.
    + apply wp_for_each_acc with
        (I := λ done s', dfs_loop_inv n v (dfIdx s) s s' ∧
                dfs_more ForEachSuccessor _entry s' ∧ dfs_keep s1 s' ∧
                closed_except ForEachSuccessor (S ∪ {[v]}) s' ∧
                ∀ w, w ∈ done → recorded s' v w).
      * split_and!.
        -- split; [done | done | done | lia | | intros; lia].
           rewrite Hc1. replace (dfIdx s + 1 - 1) with (dfIdx s) by lia. constructor.
        -- done.
        -- apply dfs_keep_refl.
        -- intros u w Hu HS Huw. eapply recorded_keep; [exact Hkeep1 |].
           rewrite Hvis1 in Hu.
           apply elem_of_union in Hu as [Hu%elem_of_singleton | Hu].
           { subst u. exfalso. apply HS, elem_of_union. right.
             by apply elem_of_singleton. }
           apply Hclosed; [done | | done].
           intros HS'. apply HS, elem_of_union. by left.
        -- intros w Hw. by apply elem_of_nil in Hw.
      * intros done w s' Hw (Hloop & Hmore' & Hkeep' & Hclosed' & Hdone).
        assert (reachable ForEachSuccessor _entry w) as Hrw.
        { eapply rtc_r; [exact Hrv | exact Hw]. }
        eapply wp_mono.
        { apply (wp_conj2 is_oob).
          - apply dfs_callback_spec; [| exact Hloop].
            intros s'' Hinv'' Hentry'' Hlt''. apply dfs_spec; [done | done |].
            pose proof (di_dfIdx _ _ Hinv''). lia.
          - eapply dfs_callback_more; [exact Hw | exact Hrw | | | exact Hloop | done | done].
            + intros s'' Hinv'' Hentry'' Hlt''. apply dfs_spec; [done | done |].
              pose proof (di_dfIdx _ _ Hinv''). lia.
            + intros s'' Hinv'' Hentry'' Hlt'' Hc'' Hmore'' Hclosed''.
              apply IH; try done. lia. }
        intros [] s'' (Hloop'' & Hmore'' & Hkeep'' & Hclosed'' & Hrec'').
        split_and!; [done | done | by eapply dfs_keep_trans | done |].
        intros w' [Hw' | ->%list_elem_of_singleton]%elem_of_app; [| done].
        eapply recorded_keep; [exact Hkeep'' |]. by apply Hdone.
    + intros [] s' (Hloop & Hmore' & Hkeep' & Hclosed' & Hdone). split_and!.
      * done.
      * by eapply dfs_keep_trans.
      * intros u w Hu HS Huw. destruct (decide (u = v)) as [-> | Hne].
        -- by apply Hdone.
        -- apply Hclosed'; [done | | done].
           intros [HS' | ->%elem_of_singleton]%elem_of_union; done.
      * apply (dk_visited _ _ Hkeep'). rewrite Hvis1.
        apply elem_of_union. left. by apply elem_of_singleton.
Qed.
End dfs_more_proofs.

(** ** What the solver keeps *)

Section keep_proofs.
Context {Vertex : Type} `{Countable Vertex}.
Variable dflt : Vertex.
Variable n : N.
Implicit Types s : LTState Vertex.

Lemma solver_keep_refl s : solver_keep dflt s s.
Proof. split; auto. Qed.

Lemma solver_keep_trans s s' s'' :
  solver_keep dflt s s' → solver_keep dflt s' s'' → solver_keep dflt s s''.
Proof.
  intros [H1 H2 H3 H4 H5 H6 H7] [H1' H2' H3' H4' H5' H6' H7']. split.
  - congruence.
  - congruence.
  - congruence.
  - destruct H4 as [H4 | (Hn & Hin & H4)], H4' as [H4' | (Hn' & Hin' & H4')].
    + left. congruence.
    + right. rewrite <- H4, <- H1. done.
    + right. split_and!; [done | done | congruence].
    + rewrite H4, lookup_insert_eq in Hn'. done.
  - congruence.
  - congruence.
  - intros i Hi. rewrite H7' by lia. by apply H7.
Qed.

Lemma compressPath_frame fuel v s :
  wp any_error (compressPath fuel v) (λ _ s', forest_frame s s') s.
Proof.
  revert v s. induction fuel as [|fuel IH]; intros v s; simpl; [done |].
  wp_any; try apply forest_frame_refl.
  all: eapply wp_mono; [apply IH |]; intros [] s' Hff; cbv beta.
  all: wp_any; (eapply forest_frame_trans; [exact Hff |]); by split.
Qed.

Lemma eval_frame v s :
  wp any_error (eval v) (λ _ s', forest_frame s s') s.
Proof.
  unfold eval. wp_any; try apply forest_frame_refl.
  eapply wp_mono; [apply compressPath_frame |].
  intros [] s' Hff. cbv beta. wp_any. done.
Qed.

Lemma core_same_forest s s' : forest_frame s s' → core_same s s'.
Proof. intros [Ht _ _ Hv _ _ _ Hd]. done. Qed.

Lemma bucket_step_frame w v s :
  wp any_error (bucket_step w v)
    (λ _ s', core_same s s' ∧
             ∀ i, i ≠ v → vec_get (idom s') i = vec_get (idom s) i) s.
Proof.
  unfold bucket_step. apply wp_bind. eapply wp_mono; [apply eval_frame |].
  intros u s1 Hff. cbv beta.
  destruct (core_same_forest _ _ Hff) as (Ht & Hv & Hd).
  wp_any. unfold core_same. simpl. split; [done |].
  intros i Hi. rewrite vec_get_set_ne by done. by rewrite (ff_idom _ _ Hff).
Qed.

Lemma semi_step_frame w v s :
  wp any_error (semi_step w v) (λ _ s', core_same s s' ∧ idom s' = idom s) s.
Proof.
  unfold semi_step. apply wp_bind. eapply wp_mono; [apply eval_frame |].
  intros u s1 Hff. cbv beta.
  destruct (core_same_forest _ _ Hff) as (Ht & Hv & Hd).
  wp_any; unfold core_same; simpl; (split; [done | apply (ff_idom _ _ Hff)]).
Qed.

Lemma process_frame w s :
  wp any_error (process w)
    (λ _ s', core_same s s' ∧
       ∀ i, (∀ b, vec_get (bucket s) w = Some b → i ∉ b) →
            vec_get (idom s') i = vec_get (idom s) i) s.
Proof.
  unfold process. apply wp_bind, wp_read; [| done]. intros b Hb. cbv beta.
  apply wp_bind. eapply wp_mono.
  { apply wp_for_each with
      (I := λ s1, core_same s s1 ∧
                  ∀ i, i ∉ b → vec_get (idom s1) i = vec_get (idom s) i).
    - done.
    - intros v s1 Hv [(Ht & Hvis & Hd) Hi]. eapply wp_mono; [apply bucket_step_frame |].
      intros [] s2 [(Ht2 & Hvis2 & Hd2) Hi2]. split; [unfold core_same; split_and!; congruence |].
      intros i Hin. rewrite Hi2; [by apply Hi |]. intros ->. done. }
  intros [] s1 [(Ht & Hvis & Hd) Hi]. cbv beta.
  apply wp_bind, wp_read; [| done]. intros p Hp. cbv beta.
  apply wp_bind. eapply wp_mono.
  { apply wp_for_each with
      (I := λ s2, core_same s1 s2 ∧ idom s2 = idom s1).
    - done.
    - intros v s2 Hv [(Ht2 & Hvis2 & Hd2) Hi2]. eapply wp_mono; [apply semi_step_frame |].
      intros [] s3 [(Ht3 & Hvis3 & Hd3) Hi3].
      unfold core_same; split_and!; congruence. }
  intros [] s2 [(Ht2 & Hvis2 & Hd2) Hi2]. cbv beta.
  unfold bucket_push, link. wp_any. unfold core_same. simpl.
  split; [split_and!; congruence |].
  intros i Hin. rewrite Hi2. apply Hi. by apply Hin.
Qed.

Lemma toIdx_keep (vtx : Vertex) s :
  vtx ∈ m_vertices (this s) →
  is_Some (m_vertexIndices (this s) !! vtx) ∨ vtx = dflt →
  wp any_error (toIdx vtx)
    (λ _ s', solver_keep dflt s s' ∧ bucket s' = bucket s) s.
Proof.
  intros Hin Hvtx. unfold wp, toIdx, lt_index_of, index_of.
  destruct (m_vertexIndices (this s) !! vtx) as [i |] eqn:Hi.
  - split; [apply solver_keep_refl | done].
  - destruct Hvtx as [[? ?] | ->]; [done |].
    split; [| done]. split; simpl; auto.
Qed.

Lemma core_same_keep s s' :
  core_same s s' →
  (∀ i, dfIdx s ≤ i → vec_get (idom s') i = vec_get (idom s) i) →
  solver_keep dflt s s'.
Proof. intros (Ht & Hv & Hd) Hi. split; rewrite ?Ht; auto. Qed.

Lemma reverse_pass_body_keep (vtx : Vertex) s :
  lt_inv n s → vtx ∈ m_vertices (this s) →
  is_Some (m_vertexIndices (this s) !! vtx) ∨ vtx = dflt →
  wp any_error (reverse_pass_body vtx) (λ _ s', solver_keep dflt s s') s.
Proof.
  intros Hinv Hin Hvtx. unfold reverse_pass_body. apply wp_bind.
  eapply wp_mono.
  { apply (wp_conj2 any_error); [by apply (toIdx_safe n any_error) | by apply toIdx_keep]. }
  intros w s1 ((Hinv1 & Hsf1 & Hw & _) & Hkeep1 & Hb1). cbv beta.
  eapply wp_mono; [apply process_frame |].
  intros [] s2 [Hcore Hi]. eapply solver_keep_trans; [exact Hkeep1 |].
  apply core_same_keep; [done |]. intros i Hge. apply Hi.
  intros b Hb Hib. destruct (li_bucket _ _ Hinv1 w b i Hb Hib) as [Hlt _]. lia.
Qed.

Lemma finalize_step_keep (vtx : Vertex) s :
  lt_inv n s → vtx ∈ m_vertices (this s) →
  is_Some (m_vertexIndices (this s) !! vtx) ∨ vtx = dflt →
  wp any_error (finalize_step vtx) (λ _ s', solver_keep dflt s s') s.
Proof.
  intros Hinv Hin Hvtx. unfold finalize_step. apply wp_bind.
  eapply wp_mono.
  { apply (wp_conj2 any_error); [by apply (toIdx_safe n any_error) | by apply toIdx_keep]. }
  intros w s1 ((Hinv1 & Hsf1 & Hw & _) & Hkeep1 & Hb1). cbv beta.
  pose proof (sk_dfIdx _ _ _ Hkeep1) as Hd1.
  wp_any; (eapply solver_keep_trans; [exact Hkeep1 |]);
    [| apply solver_keep_refl].
  apply core_same_keep; [done |]. simpl. intros i Hi.
  apply vec_get_set_ne. lia.
Qed.

Lemma keys_ok_frame s s' :
  solver_frame s s' → keys_ok dflt s → keys_ok dflt s'.
Proof.
  intros Hsf Hkeys vtx Hvtx. rewrite (sf_vertices _ _ Hsf) in Hvtx.
  destruct (Hkeys vtx Hvtx) as [[i Hi] | ->]; [left | by right].
  exists i. by apply (sf_index _ _ Hsf).
Qed.

Lemma keys_ok_for_each (f : Vertex → M (LTState Vertex) unit) (l : list Vertex) s :
  (∀ vtx s1, lt_inv n s1 → vtx ∈ m_vertices (this s1) →
     is_Some (m_vertexIndices (this s1) !! vtx) ∨ vtx = dflt →
     wp any_error (f vtx) (λ _ s2, lt_inv n s2 ∧ solver_frame s1 s2 ∧
                                   solver_keep dflt s1 s2) s1) →
  lt_inv n s → keys_ok dflt s → l ⊆ m_vertices (this s) →
  wp any_error (for_each l f)
    (λ _ s', lt_inv n s' ∧ solver_frame s s' ∧ solver_keep dflt s s') s.
Proof.
  intros Hf Hinv Hkeys Hl. eapply wp_mono.
  - apply wp_for_each with
      (I := λ s1, lt_inv n s1 ∧ solver_frame s s1 ∧ solver_keep dflt s s1).
    + split_and!; [done | apply solver_frame_refl | apply solver_keep_refl].
    + intros vtx s1 Hvtx (Hinv1 & Hsf1 & Hkeep1). eapply wp_mono.
      * assert (vtx ∈ m_vertices (this s1)) as Hin.
        { rewrite (sf_vertices _ _ Hsf1). by apply Hl. }
        apply Hf; [done | done |]. by apply (keys_ok_frame _ _ Hsf1 Hkeys).
      * intros [] s2 (Hinv2 & Hsf2 & Hkeep2). split_and!; [done | |].
        -- by eapply solver_frame_trans.
        -- by eapply solver_keep_trans.
  - done.
Qed.

Lemma reverse_pass_keep s :
  lt_inv n s → keys_ok dflt s →
  wp any_error reverse_pass (λ _ s', solver_keep dflt s s') s.
Proof.
  intros Hinv Hkeys. unfold reverse_pass. apply wp_bind, wp_get.
  eapply wp_mono.
  - apply keys_ok_for_each; [| done | done |].
    + intros vtx s1 Hinv1 Hin Hvtx. eapply wp_mono.
      * apply (wp_conj2 any_error);
          [by apply (reverse_pass_body_safe n any_error) | by apply reverse_pass_body_keep].
      * intros [] s2 [[? ?] ?]. done.
    + intros vtx Hvtx. apply list_elem_of_In. apply list_elem_of_In in Hvtx.
      by apply in_rev.
  - intros [] s' (_ & _ & Hkeep). done.
Qed.

Lemma finalize_keep s :
  lt_inv n s → keys_ok dflt s → sweep 0 s →
  wp any_error finalize (λ _ s', solver_keep dflt s s') s.
Proof.
  intros Hinv Hkeys Hsweep. unfold finalize.
  apply wp_bind, wp_write; [intros Hsz | done]. cbv beta.
  set (s1 := set_idom (vec_set (idom s) 0 0) s).
  assert (idom_val (parent s) 0 0) as Hval0.
  { split_and!; [lia | constructor | done]. }
  assert (lt_inv n s1) as Hinv1.
  { apply lt_inv_set_idom; [done | apply (li_dfIdx _ _ Hinv) | done]. }
  assert (solver_frame s s1) as Hsf1.
  { split; simpl; eauto. intros v' Hv'. apply idom_set_write; auto. }
  assert (solver_keep dflt s s1) as Hkeep1.
  { split; simpl; auto. intros i Hi. apply vec_get_set_ne.
    pose proof (li_dfIdx _ _ Hinv). lia. }
  assert (∀ v, v < dfIdx s1 → idom_set s1 v) as Hall1.
  { intros v Hv. destruct (decide (v = 0)) as [-> | Hne].
    - apply idom_set_write; auto.
    - destruct (Hsweep v) as [Hset | (j & _ & Hj & _)]; [simpl in Hv; lia | done | | lia].
      by apply (sf_idom _ _ Hsf1). }
  apply wp_bind, wp_get. eapply wp_mono.
  - apply wp_for_each with
      (I := λ s2, lt_inv n s2 ∧ solver_frame s1 s2 ∧ solver_keep dflt s1 s2).
    + split_and!; [done | apply solver_frame_refl | apply solver_keep_refl].
    + intros vtx s2 Hvtx (Hinv2 & Hsf2 & Hkeep2). eapply wp_mono.
      * apply (wp_conj2 any_error).
        -- apply (finalize_step_safe n any_error); [done |]. intros v Hv.
           apply (sf_idom _ _ Hsf2), Hall1.
           by rewrite <- (sf_dfIdx _ _ Hsf2).
        -- assert (vtx ∈ m_vertices (this s2)) as Hin.
           { rewrite (sf_vertices _ _ Hsf2). by apply (subseteq_drop 1). }
           apply finalize_step_keep; [done | done |].
           by apply (keys_ok_frame _ _ Hsf2 (keys_ok_frame _ _ Hsf1 Hkeys)).
      * intros [] s3 [[Hinv3 Hsf3] Hkeep3]. split_and!; [done | |].
        -- by eapply solver_frame_trans.
        -- by eapply solver_keep_trans.
  - intros [] s2 (_ & _ & Hkeep2). by eapply solver_keep_trans.
Qed.
End keep_proofs.

(** ** The state in which the computation returns *)

Section result_proofs.
Context {Vertex : Type} `{Countable Vertex}.
Variable ForEachSuccessor : Vertex → list Vertex.
Variable dflt _entry : Vertex.
Variable n : N.
Implicit Types s : LTState Vertex.

Lemma dfs_preserves (P : LTState Vertex → Prop) :
  (∀ v s, P s → wp any_error (dfs_enter v) (λ _, P) s) →
  (∀ v s, P s → wp any_error (lt_index_of v) (λ _, P) s) →
  (∀ s i x, P s → P (set_parent (vec_set (parent s) i x) s)) →
  (∀ s i x, P s → P (set_predecessors (vec_set (predecessors s) i x) s)) →
  ∀ fuel v s, P s → wp any_error (dfs ForEachSuccessor fuel v) (λ _, P) s.
Proof.
  intros Henter Hidx Hpar Hpred.
  assert (∀ v w s',  P s' →
    wp any_error
      (iw ← lt_index_of w; iv ← lt_index_of v;
       pw ← read v_predecessors predecessors iw;
       write v_predecessors predecessors set_predecessors iw (set_insert iv pw))
      (λ _, P) s') as Htail.
  { intros v w s' HP. apply wp_bind. eapply wp_mono; [by apply Hidx |].
    intros iw s1 HP1. cbv beta. apply wp_bind.
    eapply wp_mono; [by apply Hidx |].
    intros iv s2 HP2. cbv beta. wp_any. by apply Hpred. }
  induction fuel as [|fuel IH]; intros v s HP; simpl; [done |].
  apply wp_bind, wp_get. destruct (decide (v ∈ visited s)); [by apply wp_ret |].
  apply wp_bind. eapply wp_mono; [by apply Henter |].
  intros [] s1 HP1. cbv beta.
  apply wp_for_each with (I := P); [done |].
  intros w s2 _ HP2. unfold dfs_callback.
  apply wp_bind, wp_get. apply wp_bind, wp_read; [| done]. intros x Hx.
  apply wp_bind. destruct (x =? SIZE_MAX).
  - apply wp_bind. eapply wp_mono; [by apply Hidx |].
    intros iv s3 HP3. cbv beta. apply wp_bind, wp_get.
    apply wp_bind, wp_write; [| done]. intros Hsz.
    eapply wp_mono; [apply IH; by apply Hpar |]. intros [] s4 HP4. by apply Htail.
  - apply wp_ret. by apply Htail.
Qed.

Lemma dfs_rest_empty fuel (v : Vertex) s :
  rest_empty s → wp any_error (dfs ForEachSuccessor fuel v) (λ _, rest_empty) s.
Proof.
  apply dfs_preserves.
  - intros u s1 HP. unfold dfs_enter. wp_any. exact HP.
  - intros u s1 HP. unfold wp, lt_index_of, index_of.
    by destruct (m_vertexIndices (this s1) !! u).
  - done.
  - done.
Qed.

Lemma reverse_pass_body_present (vtx : Vertex) s :
  wp any_error (reverse_pass_body vtx)
    (λ _ s', is_Some (m_vertexIndices (this s') !! vtx)) s.
Proof.
  unfold reverse_pass_body. apply wp_bind.
  apply wp_mono with (Q := λ _ s1, is_Some (m_vertexIndices (this s1) !! vtx)).
  - unfold wp, toIdx, lt_index_of, index_of.
    destruct (m_vertexIndices (this s) !! vtx) as [i |] eqn:Hi; [by rewrite Hi |].
    simpl. by rewrite lookup_insert_eq.
  - intros w s1 Hs1. eapply wp_mono; [apply process_frame |].
    intros [] s2 [(Ht & _) _]. by rewrite Ht.
Qed.

Lemma reverse_pass_all_keys s :
  lt_inv n s →
  wp any_error reverse_pass
    (λ _ s', ∀ vtx, vtx ∈ m_vertices (this s) →
                    is_Some (m_vertexIndices (this s') !! vtx)) s.
Proof.
  intros Hinv. unfold reverse_pass. apply wp_bind, wp_get.
  eapply wp_mono.
  - apply wp_for_each_acc with
      (I := λ done s1, lt_inv n s1 ∧
              ∀ vtx, vtx ∈ done → is_Some (m_vertexIndices (this s1) !! vtx)).
    + split; [done |]. intros vtx Hvtx. by apply elem_of_nil in Hvtx.
    + intros done vtx s1 _ [Hinv1 Hdone]. eapply wp_mono.
      * apply (wp_conj2 any_error);
          [by apply (reverse_pass_body_safe n any_error) |
           apply reverse_pass_body_present].
      * intros [] s2 [[Hinv2 Hsf2] Hvtx]. split; [done |].
        intros u [Hu | ->%list_elem_of_singleton]%elem_of_app; [| done].
        destruct (Hdone u Hu) as [i Hi]. exists i. by apply (sf_index _ _ Hsf2).
  - intros [] s' [_ Hall] vtx Hvtx. apply Hall.
    apply list_elem_of_In. apply list_elem_of_In in Hvtx. by apply in_rev in Hvtx.
Qed.

Lemma keys_ok_after_dfs s :
  dfs_inv n s → stale_ok dflt s → keys_ok dflt s.
Proof.
  intros Hinv Hstale vtx Hvtx.
  apply list_elem_of_lookup in Hvtx as [k Hk].
  destruct (decide (N.of_nat k < dfIdx s)) as [Hlt | Hge].
  - left. exists (N.of_nat k). apply (di_index _ _ Hinv). split; [done |].
    unfold vec_get. by rewrite Nat2N.id.
  - right. apply (Hstale (N.of_nat k)); [lia |].
    unfold vec_get. by rewrite Nat2N.id.
Qed.

Lemma reachable_visited s :
  dfs_inv n s → closed_except ForEachSuccessor ∅ s → _entry ∈ visited s →
  ∀ v, reachable ForEachSuccessor _entry v → v ∈ visited s.
Proof.
  intros Hinv Hclosed Hentry v Hv.
  eapply (rtc_ind_r (λ v, v ∈ visited s)); [exact Hentry | | exact Hv].
  intros u w Hu Huw IH. cbv beta in IH.
  - destruct (Hclosed u w IH) as (iu & iw & l & _ & Hw & _); [set_solver | done |].
    apply (di_visited _ _ Hinv). eauto.
Qed.

Lemma dfs_phase_result :
  0 < n →
  wp (semi_overrun ForEachSuccessor _entry n) (dfs_phase ForEachSuccessor _entry n)
    (λ _ s, lt_inv n s ∧ dfs_inv n s ∧
            vec_get (m_vertices (this s)) 0 = Some _entry ∧
            stale_ok dflt s ∧ rest_empty s ∧
            dfs_more ForEachSuccessor _entry s ∧
            closed_except ForEachSuccessor ∅ s ∧ _entry ∈ visited s)
    (lt_locals (Dominator_init dflt n) n).
Proof.
  intros Hn.
  destruct (Dominator_init_spec dflt n) as [Hsz Hidx].
  eapply wp_mono.
  - apply (wp_conj2 is_oob); [by apply (dfs_phase_spec ForEachSuccessor n) |].
    apply (wp_conj2 any_error).
    { unfold dfs_phase. apply dfs_stale, lt_locals_stale. }
    apply (wp_conj2 any_error).
    { unfold dfs_phase. by apply dfs_rest_empty. }
    unfold dfs_phase. apply dfs_more_spec with (S := ∅).
    + by apply lt_locals_dfs_inv.
    + by left.
    + simpl. lia.
    + done.
    + split.
      * change (N.of_nat (size (∅ : gset Vertex)) = 0). by rewrite size_empty.
      * intros v Hv. by apply elem_of_empty in Hv.
      * simpl. intros i l p [-> _]%vec_get_new_inv Hp. by apply elem_of_nil in Hp.
      * simpl. intros i l [-> _]%vec_get_new_inv. constructor.
    + intros u w Hu. by apply elem_of_empty in Hu.
    + apply rtc_refl.
  - intros [] s ((Hinv & Hdinv & Hentry & _) & Hstale & Hrest & Hmore & _ & Hclosed & Hvis).
    done.
Qed.

Lemma lt_body_result :
  0 < n →
  wp (semi_overrun ForEachSuccessor _entry n) (lt_body ForEachSuccessor _entry n)
    (λ _, lt_result ForEachSuccessor dflt _entry n)
    (lt_locals (Dominator_init dflt n) n).
Proof.
  intros Hn. unfold lt_body. apply wp_bind.
  eapply wp_mono; [by apply dfs_phase_result |].
  intros [] s1 (Hinv1 & Hdinv1 & Hentry1 & Hstale1 & Hrest1 & Hmore1 & Hclosed1 & Hvis1).
  cbv beta.
  pose proof (keys_ok_after_dfs _ Hdinv1 Hstale1) as Hkeys1.
  apply wp_bind. eapply wp_mono.
  { apply (wp_conj2 any_error); [| by apply (reverse_pass_safe n)].
    apply (wp_conj2 any_error);
      [by apply (reverse_pass_keep dflt n) | by apply reverse_pass_all_keys]. }
  intros [] s2 ((Hkeep2 & Hall2) & Hinv2 & Hsf2 & Hsweep2). cbv beta.
  pose proof (keys_ok_frame _ _ _ Hsf2 Hkeys1) as Hkeys2.
  eapply wp_mono.
  { apply (wp_conj2 any_error); [| by apply (finalize_safe n)].
    by apply (finalize_keep dflt n). }
  intros [] s3 (Hkeep3 & Hinv3 & Hsf3 & Hall3).
  pose proof (solver_frame_trans _ _ _ Hsf2 Hsf3) as Hsf.
  pose proof (solver_keep_trans _ _ _ _ Hkeep2 Hkeep3) as Hkeep.
  pose proof (sf_vertices _ _ Hsf) as Hvs.
  pose proof (sf_dfIdx _ _ Hsf) as Hdf.
  pose proof (sk_visited _ _ _ Hkeep) as Hvisited.
  assert (∀ v, v ∈ visited s1 ↔
            (∃ i, i < dfIdx s1 ∧ vec_get (m_vertices (this s1)) i = Some v)) as Hvis.
  { intros v. rewrite (di_visited _ _ Hdinv1). split.
    - intros [i Hi]. exists i. by apply (di_index _ _ Hdinv1).
    - intros (i & Hi). exists i. by apply (di_index _ _ Hdinv1). }
  split.
  - done.
  - done.
  - by rewrite Hvs.
  - rewrite Hvisited, Hdf. apply (dm_count _ _ _ Hmore1).
  - intros v. rewrite Hvisited. split; [apply (dm_reach _ _ _ Hmore1) |].
    by apply reachable_visited.
  - intros v. by rewrite Hvisited, Hdf, Hvs.
  - intros i v. rewrite Hdf, Hvs. apply Hstale1.
  - intros v i Hi. rewrite Hdf, Hvs, Hvisited.
    destruct (sk_index _ _ _ Hkeep) as [Heq | (Hnone & Hin & Heq)].
    + left. rewrite Heq in Hi. by apply (di_index _ _ Hdinv1).
    + rewrite Heq in Hi. destruct (decide (v = dflt)) as [-> | Hne].
      * rewrite lookup_insert_eq in Hi. injection Hi as <-. right.
        assert (dflt ∉ visited s1) as Hnv.
        { rewrite (di_visited _ _ Hdinv1), Hnone. by intros [? ?]. }
        split_and!; [done | done | done |].
        apply list_elem_of_lookup in Hin as [k Hk].
        destruct (decide (N.of_nat k < dfIdx s1)) as [Hlt | Hge].
        -- destruct Hnv. apply Hvis. exists (N.of_nat k). split; [done |].
           unfold vec_get. by rewrite Nat2N.id.
        -- apply lookup_lt_Some in Hk.
           pose proof (di_size_vertices _ _ Hdinv1) as Hsz. unfold vec_size in Hsz. lia.
      * rewrite lookup_insert_ne in Hi by done. left.
        by apply (di_index _ _ Hdinv1).
  - intros v Hv. rewrite Hvs in Hv. rewrite <- (sf_vertices _ _ Hsf2) in Hv.
    assert (vtx_in : v ∈ m_vertices (this s1)) by (by rewrite <- (sf_vertices _ _ Hsf2)).
    destruct (Hall2 v vtx_in) as [i Hi]. exists i. by apply (sf_index _ _ Hsf3).
  - intros i Hge Hlt. rewrite Hdf in Hge.
    rewrite (sk_idom_tail _ _ _ Hkeep) by done.
    rewrite (di_idom _ _ Hdinv1). by apply vec_get_new.
  - intros p i u w Hp Hi Hu Hw. rewrite Hdf in Hp, Hi. rewrite Hvs in Hu, Hw.
    rewrite (sf_predecessors _ _ Hsf).
    assert (m_vertexIndices (this s1) !! u = Some p) as Hup
      by (by apply (di_index _ _ Hdinv1)).
    assert (m_vertexIndices (this s1) !! w = Some i) as Hwi
      by (by apply (di_index _ _ Hdinv1)).
    split.
    + intros Huw. destruct (Hclosed1 u w) as (iu & iw & l & Hiu & Hiw & Hl & Hin).
      * apply (di_visited _ _ Hdinv1). eauto.
      * set_solver.
      * done.
      * assert (iu = p) as -> by congruence. assert (iw = i) as -> by congruence.
        eauto.
    + intros (l & Hl & Hin).
      destruct (dm_edge _ _ _ Hmore1 i l p Hl Hin) as (u' & w' & Hu' & Hw' & Huw).
      apply (di_index _ _ Hdinv1) in Hu' as [_ Hu'].
      apply (di_index _ _ Hdinv1) in Hw' as [_ Hw'].
      assert (u' = u) as -> by congruence. assert (w' = w) as -> by congruence.
      done.
  - intros i l. rewrite (sf_predecessors _ _ Hsf). apply (dm_sorted _ _ _ Hmore1).
  - destruct Hrest1 as [Hr1 Hr2]. split.
    + by rewrite (sk_idoms _ _ _ Hkeep).
    + by rewrite (sk_tree _ _ _ Hkeep).
Qed.
End result_proofs.

(** ** The constructed structure *)

Section tree_lookup.
Context {Vertex : Type} `{Countable Vertex}.
Implicit Types d : Dominator Vertex.

Lemma occurrences_cons_eq k l : occurrences k (k :: l) = S (occurrences k l).
Proof. unfold occurrences. by rewrite filter_cons_True. Qed.

Lemma occurrences_cons_ne k x l : x ≠ k → occurrences k (x :: l) = occurrences k l.
Proof. intros Hne. unfold occurrences. by rewrite filter_cons_False. Qed.

Lemma occurrences_not_in k l : k ∉ l → occurrences k l = 0%nat.
Proof.
  intros Hk. unfold occurrences.
  destruct (filter (λ x, x = k) l) as [|y l'] eqn:Hf; [done |].
  assert (y ∈ filter (λ x, x = k) l) as Hy by (rewrite Hf; left).
  apply list_elem_of_filter in Hy as [-> Hy]. done.
Qed.

Lemma for_each_tree_append_lookup (l : list N) d :
  ∃ t, for_each l tree_append d = Ok tt (set_m_dominatorTree t d) ∧
       ∀ k, t !! k =
         if decide (k ∈ l)
         then Some (default [] (m_dominatorTree d !! k) ++ replicate (occurrences k l) k)
         else m_dominatorTree d !! k.
Proof.
  revert d. induction l as [|x l IH]; intros d; simpl.
  - exists (m_dominatorTree d). split; [by destruct d |].
    intros k. destruct (decide (k ∈ [])) as [Hk | _]; [by apply elem_of_nil in Hk | done].
  - unfold bind, tree_append at 1, modify.
    set (d1 := set_m_dominatorTree
      (<[x:=default [] (m_dominatorTree d !! x) ++ [x]]> (m_dominatorTree d)) d).
    destruct (IH d1) as (t & Ht & Hlook). exists t. split; [by rewrite Ht |].
    intros k. rewrite Hlook. simpl.
    destruct (decide (k = x)) as [-> | Hne].
    + rewrite lookup_insert_eq, occurrences_cons_eq. simpl.
      destruct (decide (x ∈ x :: l)) as [_ | Hnin]; [| by destruct Hnin; left].
      destruct (decide (x ∈ l)) as [Hin | Hin].
      * by rewrite <- app_assoc.
      * by rewrite (occurrences_not_in _ _ Hin).
    + rewrite lookup_insert_ne by done.
      rewrite (occurrences_cons_ne _ _ _ (not_eq_sym Hne)).
      destruct (decide (k ∈ l)) as [Hin | Hin],
               (decide (k ∈ x :: l)) as [Hin' | Hin']; try done.
      * destruct Hin'. by right.
      * apply elem_of_cons in Hin' as [? | ?]; done.
Qed.

(** [buildDominatorTree] fails exactly on an empty vertex or
    immediate-dominator vector; otherwise it only fills the tree. *)
Lemma buildDominatorTree_result d :
  m_dominatorTree d = ∅ →
  if bool_decide (m_vertices d = [] ∨ m_immediateDominators d = [])
  then buildDominatorTree d = Err AssertionFailed
  else ∃ t, buildDominatorTree d = Ok tt (set_m_dominatorTree t d) ∧
            ∀ k, t !! k =
              if decide (k ∈ drop 1 (m_immediateDominators d))
              then Some (replicate (occurrences k (drop 1 (m_immediateDominators d))) k)
              else None.
Proof.
  intros Hempty. unfold buildDominatorTree, bind, get, solAssert. simpl.
  destruct (m_vertices d) as [|v0 vs] eqn:Hvs.
  { rewrite bool_decide_eq_true_2 by (by left). done. }
  destruct (m_immediateDominators d) as [|i0 ids] eqn:His.
  { rewrite bool_decide_eq_true_2 by (by right). done. }
  rewrite bool_decide_eq_false_2 by (by intros [? | ?]).
  simpl. rewrite drop_0.
  destruct (for_each_tree_append_lookup ids d) as (t & Ht & Hlook).
  exists t. split; [done |]. intros k. rewrite Hlook, Hempty, lookup_empty. simpl.
  by destruct (decide (k ∈ ids)).
Qed.
End tree_lookup.

Section ctor_result.
Context {Vertex : Type} `{Countable Vertex}.
Variable ForEachSuccessor : Vertex → list Vertex.
Variable dflt _entry : Vertex.
Variable n : N.
Implicit Types d : Dominator Vertex.

Lemma lt_run_result :
  match lt_run ForEachSuccessor (Dominator_init dflt n) _entry n with
  | Ok _ s => 0 < n ∧ lt_result ForEachSuccessor dflt _entry n s
  | Err e => if decide (n = 0) then e = AssertionFailed
             else semi_overrun ForEachSuccessor _entry n e
  end.
Proof.
  unfold lt_run, bind, solAssert.
  destruct (N.ltb_spec 0 n) as [Hn | Hn]; simpl.
  - pose proof (lt_body_result ForEachSuccessor dflt _entry n Hn) as Hwp.
    unfold wp in Hwp.
    destruct (lt_body ForEachSuccessor _entry n _) as [[] s | e].
    + by split.
    + destruct (decide (n = 0)); [lia | done].
  - destruct (decide (n = 0)); [done | lia].
Qed.

Lemma Dominator_ctor_result :
  match Dominator_ctor ForEachSuccessor dflt _entry n with
  | Ok _ d => ∃ c, constructed ForEachSuccessor dflt _entry n c d
  | Err e => if decide (n = 0) then e = AssertionFailed
             else semi_overrun ForEachSuccessor _entry n e
  end.
Proof.
  unfold Dominator_ctor, bind, lengauerTarjanDominator.
  pose proof lt_run_result as Hrun.
  destruct (lt_run _ _ _ _) as [[] s | e]; [| done].
  destruct Hrun as [Hn [Hinv Hidom Hentry Hcount Hreach Hvis Hstale Hkeys Hall
                          Htail Hedges Hsorted [Hr1 Hr2]]].
  unfold modify. simpl.
  set (d1 := set_m_immediateDominators (idom s) (this s)).
  pose proof (buildDominatorTree_result d1 Hr2) as Hbuild.
  pose proof (li_size_vertices _ _ Hinv) as Hsv.
  pose proof (li_size_idom _ _ Hinv) as Hsi.
  pose proof (li_dfIdx _ _ Hinv) as Hc.
  rewrite bool_decide_eq_false_2 in Hbuild.
  2:{ simpl. intros [Hv | Hi].
      - rewrite Hv in Hsv. unfold vec_size in Hsv. simpl in Hsv. lia.
      - rewrite Hi in Hsi. unfold vec_size in Hsi. simpl in Hsi. lia. }
  destruct Hbuild as (t & -> & Ht). exists (dfIdx s). split; simpl.
  - done.
  - done.
  - done.
  - done.
  - intros v. by rewrite <- Hreach, Hvis.
  - exists (visited s). split; done.
  - intros i v Hi Hv. destruct (li_index _ _ Hinv i Hi) as (v' & Hv' & Hidx).
    by assert (v' = v) as -> by congruence.
  - intros v i Hi. destruct (Hkeys v i Hi) as [? | (-> & -> & Hnv & Hlt)]; [by left |].
    right. split_and!; [done | done | | done]. by rewrite <- Hreach.
  - done.
  - intros i Hge Hlt. split; [| by apply Htail].
    destruct (vec_get_is_Some (m_vertices (this s)) i) as [v Hv]; [lia |].
    by rewrite Hv, (Hstale i v Hge Hv).
  - intros i Hi. destruct (Hidom i Hi) as (x & Hx & Hle & _ & Hlt). by exists x.
  - done.
Qed.
End ctor_result.

Section ctor_theorems.
Context {Vertex : Type} `{Countable Vertex}.
Variable ForEachSuccessor : Vertex → list Vertex.
Variable Vertex_default : Vertex.
Implicit Types d : Dominator Vertex.

Lemma reachable_closed (_entry : Vertex) (R : gset Vertex) :
  _entry ∈ R →
  (∀ u w, u ∈ R → w ∈ ForEachSuccessor u → w ∈ R) →
  ∀ v, reachable ForEachSuccessor _entry v → v ∈ R.
Proof.
  intros Hentry Hclosed v Hv.
  eapply (rtc_ind_r (λ v, v ∈ R)); [exact Hentry | | exact Hv].
  intros u w _ Huw Hu. by eapply Hclosed.
Qed.

(** X1: For a positive count the construction can only fail by reading
    [semi[numVertices]] in the successor callback, and only when
    [numVertices] vertices reachable from the entry have been numbered. *)
Theorem ctor_fails_only_by_semi_overrun (_entry : Vertex) (n : N) (e : error) :
  Dominator_ctor ForEachSuccessor Vertex_default _entry n = Err e →
  n ≠ 0 →
  e = OutOfBounds v_semi n ∧
  ∃ V : gset Vertex, N.of_nat (size V) = n ∧
    ∀ v, v ∈ V → reachable ForEachSuccessor _entry v.
Proof.
  intros Hctor Hn.
  pose proof (Dominator_ctor_result ForEachSuccessor Vertex_default _entry n) as Hres.
  rewrite Hctor in Hres. by destruct (decide (n = 0)).
Qed.

(** X2: With a count larger than the number of reachable vertices the
    construction returns. *)
Theorem ctor_succeeds_with_spare_slot (_entry : Vertex) (n : N) (R : gset Vertex) :
  _entry ∈ R →
  (∀ u w, u ∈ R → w ∈ ForEachSuccessor u → w ∈ R) →
  N.of_nat (size R) < n →
  ∃ d, Dominator_ctor ForEachSuccessor Vertex_default _entry n = Ok tt d.
Proof.
  intros Hentry Hclosed Hsize.
  pose proof (Dominator_ctor_result ForEachSuccessor Vertex_default _entry n) as Hres.
  destruct (Dominator_ctor _ _ _ _) as [[] d | e]; [by exists d |].
  destruct (decide (n = 0)) as [-> | Hn]; [lia |].
  destruct Hres as (_ & V & HV & Hreach).
  assert (V ⊆ R) as Hsub.
  { intros v Hv. eapply reachable_closed; eauto. }
  apply subseteq_size in Hsub. lia.
Qed.

(** X3: With a positive count smaller than the number of reachable vertices
    the construction reads [semi[numVertices]]. *)
Theorem ctor_overruns_when_count_too_small (_entry : Vertex) (n : N)
    (V : gset Vertex) :
  (∀ v, v ∈ V → reachable ForEachSuccessor _entry v) →
  0 < n → n < N.of_nat (size V) →
  Dominator_ctor ForEachSuccessor Vertex_default _entry n
    = Err (OutOfBounds v_semi n).
Proof.
  intros HV Hn Hsize.
  pose proof (Dominator_ctor_result ForEachSuccessor Vertex_default _entry n) as Hres.
  destruct (Dominator_ctor _ _ _ _) as [[] d | e].
  - destruct Hres as [c Hb].
    destruct (bt_reach_count _ _ _ _ _ _ Hb) as (V' & HV' & Hc).
    pose proof (bt_count _ _ _ _ _ _ Hb) as Hcn.
    assert (V ⊆ V') as Hsub.
    { intros v Hv. apply HV'. by apply HV. }
    apply subseteq_size in Hsub. lia.
  - destruct (decide (n = 0)) as [-> | _]; [lia |].
    by destruct Hres as [-> _].
Qed.

(** X4: The vertices [dominates] and [dominatorsOf] accept are exactly those
    reachable from the entry. *)
Theorem indexed_iff_reachable (_entry : Vertex) (n : N) d (v : Vertex) :
  Dominator_ctor ForEachSuccessor Vertex_default _entry n = Ok tt d →
  indexed d v ↔ reachable ForEachSuccessor _entry v.
Proof.
  intros Hctor.
  pose proof (Dominator_ctor_result ForEachSuccessor Vertex_default _entry n) as Hres.
  rewrite Hctor in Hres. destruct Hres as [c Hb].
  unfold indexed. split.
  - destruct (m_vertexIndices d !! v) as [i |] eqn:Hi; [| done].
    intros Hv. destruct (bt_keys _ _ _ _ _ _ Hb v i Hi) as [[Hlt _] | (-> & -> & _)].
    + apply (bt_reach _ _ _ _ _ _ Hb). eauto.
    + pose proof (bt_entry _ _ _ _ _ _ Hb) as Hentry.
      assert (Vertex_default = _entry) as -> by congruence. apply rtc_refl.
  - intros (i & Hi & Hv)%(bt_reach _ _ _ _ _ _ Hb).
    by rewrite (bt_index _ _ _ _ _ _ Hb i v Hi Hv).
Qed.

Lemma drop_replicate_tail {A} (l : list A) (k : nat) (x : A) :
  (∀ i y, (k ≤ i)%nat → l !! i = Some y → y = x) →
  drop k l = replicate (length l - k) x.
Proof.
  intros Hx. apply list_eq. intros i. rewrite lookup_drop.
  destruct (decide (k + i < length l)%nat) as [Hlt | Hge].
  - rewrite lookup_replicate_2 by lia.
    destruct (lookup_lt_is_Some_2 l (k + i) Hlt) as [y Hy].
    rewrite Hy. f_equal. apply (Hx (k + i)%nat); [lia | done].
  - rewrite lookup_ge_None_2 by lia. symmetry.
    apply lookup_ge_None_2. rewrite length_replicate. lia.
Qed.

(** X5: The layout of [vertices()] and [immediateDominators()]: both have
    [numVertices] entries; the reachable vertices come first, each once, in
    the order of their numbering and starting with the entry; the remaining
    slots hold the value-initialised vertex and [SIZE_MAX]. *)
Theorem vertices_layout (_entry : Vertex) (n : N) d :
  Dominator_ctor ForEachSuccessor Vertex_default _entry n = Ok tt d →
  ∃ (V : gset Vertex) (vs : list Vertex) (ids : list N),
    (∀ v, v ∈ V ↔ reachable ForEachSuccessor _entry v) ∧
    (size V ≤ N.to_nat n)%nat ∧
    m_vertices d = vs ++ replicate (N.to_nat n - size V) Vertex_default ∧
    m_immediateDominators d = ids ++ replicate (N.to_nat n - size V) SIZE_MAX ∧
    length vs = size V ∧ length ids = size V ∧
    head vs = Some _entry ∧ NoDup vs ∧ (∀ v, v ∈ vs ↔ v ∈ V) ∧
    (∀ i v, vs !! i = Some v → m_vertexIndices d !! v = Some (N.of_nat i)).
Proof.
  intros Hctor.
  pose proof (Dominator_ctor_result ForEachSuccessor Vertex_default _entry n) as Hres.
  rewrite Hctor in Hres. destruct Hres as [c Hb].
  destruct (bt_reach_count _ _ _ _ _ _ Hb) as (V & HV & Hc).
  pose proof (bt_count _ _ _ _ _ _ Hb) as Hcn.
  pose proof (bt_size_vertices _ _ _ _ _ _ Hb) as Hsv.
  pose proof (bt_size_idoms _ _ _ _ _ _ Hb) as Hsi.
  unfold vec_size in Hsv, Hsi.
  exists V, (take (size V) (m_vertices d)), (take (size V) (m_immediateDominators d)).
  assert (∀ i v, take (size V) (m_vertices d) !! i = Some v →
            N.of_nat i < c ∧ vec_get (m_vertices d) (N.of_nat i) = Some v) as Htake.
  { intros i v [Hv Hi]%lookup_take_Some. split; [lia |].
    unfold vec_get. by rewrite Nat2N.id. }
  split_and!.
  - done.
  - lia.
  - rewrite <- (take_drop (size V) (m_vertices d)) at 1. f_equal.
    rewrite (drop_replicate_tail _ _ Vertex_default).
    + f_equal. lia.
    + intros i y Hi Hy.
      destruct (bt_stale _ _ _ _ _ _ Hb (N.of_nat i)) as [Hd _].
      * lia.
      * apply lookup_lt_Some in Hy. lia.
      * unfold vec_get in Hd. rewrite Nat2N.id in Hd. congruence.
  - rewrite <- (take_drop (size V) (m_immediateDominators d)) at 1. f_equal.
    rewrite (drop_replicate_tail _ _ SIZE_MAX).
    + f_equal. lia.
    + intros i y Hi Hy.
      destruct (bt_stale _ _ _ _ _ _ Hb (N.of_nat i)) as [_ Hd].
      * lia.
      * apply lookup_lt_Some in Hy. lia.
      * unfold vec_get in Hd. rewrite Nat2N.id in Hd. congruence.
  - rewrite length_take. lia.
  - rewrite length_take. lia.
  - rewrite head_lookup, lookup_take_lt by lia.
    apply (bt_entry _ _ _ _ _ _ Hb).
  - apply NoDup_alt. intros i j v Hi Hj.
    apply Htake in Hi as [Hi Hvi]. apply Htake in Hj as [Hj Hvj].
    pose proof (bt_index _ _ _ _ _ _ Hb _ _ Hi Hvi).
    pose proof (bt_index _ _ _ _ _ _ Hb _ _ Hj Hvj).
    assert (N.of_nat i = N.of_nat j) by congruence. lia.
  - intros v. rewrite HV, (bt_reach _ _ _ _ _ _ Hb). split.
    + intros [i Hi]%list_elem_of_lookup. apply Htake in Hi. eauto.
    + intros (i & Hi & Hv). apply list_elem_of_lookup. exists (N.to_nat i).
      apply lookup_take_Some. split; [done | lia].
  - intros i v Hi. apply Htake in Hi as [Hi Hv].
    by apply (bt_index _ _ _ _ _ _ Hb).
Qed.

(** X6: The keys of [vertexIndices()]: every reachable vertex, with the
    position it has in [vertices()]; every element of [vertices()], so that
    the value-initialised vertex of an unused slot is a key as well; and no
    other: a key that is not reachable is the value-initialised vertex and
    has index 0. *)
Theorem vertexIndices_keys (_entry : Vertex) (n : N) d :
  Dominator_ctor ForEachSuccessor Vertex_default _entry n = Ok tt d →
  (∀ v, reachable ForEachSuccessor _entry v →
        ∃ i, m_vertexIndices d !! v = Some i ∧ vec_get (m_vertices d) i = Some v) ∧
  (∀ v, v ∈ m_vertices d → is_Some (m_vertexIndices d !! v)) ∧
  (∀ v i, m_vertexIndices d !! v = Some i →
          ¬ reachable ForEachSuccessor _entry v →
          v = Vertex_default ∧ i = 0 ∧ Vertex_default ∈ m_vertices d).
Proof.
  intros Hctor.
  pose proof (Dominator_ctor_result ForEachSuccessor Vertex_default _entry n) as Hres.
  rewrite Hctor in Hres. destruct Hres as [c Hb]. split_and!.
  - intros v (i & Hi & Hv)%(bt_reach _ _ _ _ _ _ Hb). exists i.
    split; [by apply (bt_index _ _ _ _ _ _ Hb) | done].
  - apply (bt_all_keys _ _ _ _ _ _ Hb).
  - intros v i Hi Hnr.
    destruct (bt_keys _ _ _ _ _ _ Hb v i Hi) as [[Hlt Hv] | (-> & -> & _ & Hlt)].
    + destruct Hnr. apply (bt_reach _ _ _ _ _ _ Hb). eauto.
    + split_and!; [done | done |].
      destruct (bt_stale _ _ _ _ _ _ Hb c) as [Hd _]; [lia | done |].
      apply list_elem_of_lookup. by exists (N.to_nat c).
Qed.

(** X7: The dominator tree of a constructed structure: its keys are the values
    of [immediateDominators()] after the first, and the children list of a
    key [k] is as many copies of [k] as [k] occurs among them. *)
Theorem dominatorTree_of_ctor (_entry : Vertex) (n : N) d (k : N) :
  Dominator_ctor ForEachSuccessor Vertex_default _entry n = Ok tt d →
  m_dominatorTree d !! k =
    if decide (k ∈ drop 1 (m_immediateDominators d))
    then Some (replicate (occurrences k (drop 1 (m_immediateDominators d))) k)
    else None.
Proof.
  intros Hctor.
  pose proof (Dominator_ctor_result ForEachSuccessor Vertex_default _entry n) as Hres.
  rewrite Hctor in Hres. destruct Hres as [c Hb].
  apply (bt_tree _ _ _ _ _ _ Hb).
Qed.
End ctor_theorems.

Section search_theorems.
Context {Vertex : Type} `{Countable Vertex}.
Variable ForEachSuccessor : Vertex → list Vertex.
Variable Vertex_default : Vertex.
Implicit Types s : LTState Vertex.

Lemma tree_anc_root par c i : preorder par c → i < c → tree_anc par 0 i.
Proof.
  intros Hpre. induction i as [i IH] using (well_founded_induction N.lt_wf_0).
  intros Hi. destruct (decide (i = 0)) as [-> | Hne]; [constructor |].
  destruct (Hpre i) as (p & Hp & Hlt & _); [lia |].
  eapply tree_anc_step; [exact Hp | done |]. apply IH; lia.
Qed.

(** X14: The search records the graph: for numbered vertices, [predecessors]
    holds exactly the edges, each list strictly increasing, and the
    spanning-tree parent of a vertex is one of its predecessors. *)
Theorem search_records_the_edges (_entry : Vertex) (n : N) s :
  lt_run ForEachSuccessor (Dominator_init Vertex_default n) _entry n = Ok tt s →
  (∀ p i u w, p < dfIdx s → i < dfIdx s →
     vec_get (m_vertices (this s)) p = Some u →
     vec_get (m_vertices (this s)) i = Some w →
     (edge ForEachSuccessor u w ↔
      (∃ l, vec_get (predecessors s) i = Some l ∧ p ∈ l))) ∧
  (∀ i l, vec_get (predecessors s) i = Some l →
     StronglySorted N.lt l ∧ ∀ p, p ∈ l → p < dfIdx s ∧ i < dfIdx s) ∧
  (∀ i, 0 < i < dfIdx s →
     ∃ p l, vec_get (parent s) i = Some p ∧ p < i ∧
            vec_get (predecessors s) i = Some l ∧ p ∈ l).
Proof.
  intros Hrun.
  pose proof (lt_run_result ForEachSuccessor Vertex_default _entry n) as Hres.
  rewrite Hrun in Hres. destruct Hres as [Hn Hr].
  pose proof (lr_inv _ _ _ _ _ Hr) as Hinv. split_and!.
  - apply (lr_edges _ _ _ _ _ Hr).
  - intros i l Hl. split; [by apply (lr_sorted _ _ _ _ _ Hr i) |].
    intros p Hp. destruct (li_preds _ _ Hinv i l p Hl Hp) as (? & ? & _). done.
  - intros i Hi.
    destruct (li_pred_parent _ _ Hinv i Hi) as (p & l & Hp & Hl & Hin).
    destruct (li_parent _ _ Hinv i Hi) as (p' & Hp' & Hlt & _).
    assert (p' = p) as -> by congruence. by exists p, l.
Qed.

(** X15: The numbering is a preorder of the spanning tree rooted at index 0:
    the parent of [i] is [i - 1] or one of its ancestors, the descendants of
    an index are a block of consecutive indices, and an edge towards a
    larger index leads to a descendant. *)
Theorem numbering_is_preorder (_entry : Vertex) (n : N) s :
  lt_run ForEachSuccessor (Dominator_init Vertex_default n) _entry n = Ok tt s →
  vec_get (parent s) 0 = Some SIZE_MAX ∧
  (∀ i, 0 < i < dfIdx s →
     ∃ p, vec_get (parent s) i = Some p ∧ p < i ∧ tree_anc (parent s) p (i - 1)) ∧
  (∀ i, i < dfIdx s → tree_anc (parent s) 0 i) ∧
  (∀ a v w, v < dfIdx s → tree_anc (parent s) a v → a ≤ w ≤ v →
     tree_anc (parent s) a w) ∧
  (∀ i l p, vec_get (predecessors s) i = Some l → p ∈ l → p < i →
     tree_anc (parent s) p i).
Proof.
  intros Hrun.
  pose proof (lt_run_result ForEachSuccessor Vertex_default _entry n) as Hres.
  rewrite Hrun in Hres. destruct Hres as [Hn Hr].
  pose proof (lr_inv _ _ _ _ _ Hr) as Hinv. split_and!.
  - apply (li_parent0 _ _ Hinv).
  - apply (li_parent _ _ Hinv).
  - intros i Hi. eapply tree_anc_root; [apply (li_parent _ _ Hinv) | done].
  - intros a v w Hv Hanc Hw. eapply tree_anc_interval; [apply (li_parent _ _ Hinv) | | |]; done.
  - intros i l p Hl Hp Hlt.
    destruct (li_preds _ _ Hinv i l p Hl Hp) as (_ & _ & Hanc). by apply Hanc.
Qed.
End search_theorems.

Section tree_theorems.
Context {Vertex : Type} `{Countable Vertex}.
Implicit Types d : Dominator Vertex.

(** X8: [buildDominatorTree], run on an empty tree, fails by assertion exactly
    when [m_vertices] or [m_immediateDominators] is empty; otherwise it
    changes the tree only: the keys are the elements of
    [m_immediateDominators] after the first, and the list of a key [k] is
    as many copies of [k] as [k] occurs among them. *)
Theorem buildDominatorTree_fills_tree d :
  m_dominatorTree d = ∅ →
  (buildDominatorTree d = Err AssertionFailed ↔
     m_vertices d = [] ∨ m_immediateDominators d = []) ∧
  (m_vertices d ≠ [] → m_immediateDominators d ≠ [] →
   ∃ t, buildDominatorTree d = Ok tt (set_m_dominatorTree t d) ∧
        ∀ k, t !! k =
          if decide (k ∈ drop 1 (m_immediateDominators d))
          then Some (replicate (occurrences k (drop 1 (m_immediateDominators d))) k)
          else None).
Proof.
  intros Hempty. pose proof (buildDominatorTree_result d Hempty) as Hres.
  case_bool_decide as Hor.
  - split; [done |]. intros Hv Hi. by destruct Hor.
  - destruct Hres as (t & Ht & Hlook). split.
    + rewrite Ht. done.
    + intros _ _. by exists t.
Qed.
End tree_theorems.

(** ** The order of dominance *)

Section order_proofs.
Context {Vertex : Type} `{Countable Vertex}.
Variable _entry : Vertex.
Variable c : N.
Implicit Types d : Dominator Vertex.

Lemma dominators_idx_0 d : dom_inv _entry c d → dominators_idx d 0 = [].
Proof.
  intros Hinv. pose proof (dv_count _ _ _ Hinv) as Hc.
  rewrite (dominators_idx_unfold _entry c) by (done || lia).
  destruct (dv_idom _ _ _ Hinv 0) as (x & Hx & Hle & _); [lia |].
  rewrite Hx. by assert (x = 0) as -> by lia.
Qed.

(** The chain of [j], for [j] on the chain of [i], is the rest of the chain
    of [i] after [j]. *)
Lemma dominators_idx_suffix d i j :
  dom_inv _entry c d → i < c → j ∈ dominators_idx d i →
  ∃ pre, dominators_idx d i = pre ++ j :: dominators_idx d j ∧
         Forall (λ x, j < x) pre.
Proof.
  intros Hinv. revert j.
  induction i as [i IH] using (well_founded_induction N.lt_wf_0); intros j Hi Hj.
  rewrite (dominators_idx_unfold _entry c) in Hj |- * by done.
  destruct (dv_idom _ _ _ Hinv i Hi) as (x & Hx & Hle & Hlt).
  rewrite Hx in Hj |- *. destruct (N.eqb_spec x 0) as [Hx0 | Hne].
  { by apply elem_of_nil in Hj. }
  assert (x < i) as Hxi by (apply Hlt; lia).
  apply elem_of_cons in Hj as [-> | Hj].
  - exists []. split; [done | constructor].
  - destruct (IH x Hxi j ltac:(lia) Hj) as (pre & Hpre & Hall).
    exists (x :: pre). split; [by rewrite Hpre |].
    constructor; [| done].
    pose proof (dominators_idx_bound _entry c d x j Hinv ltac:(lia) Hj). lia.
Qed.

Lemma dominators_idx_trans d x y z :
  dom_inv _entry c d → z < c →
  x ∈ dominators_idx d y → y ∈ dominators_idx d z → x ∈ dominators_idx d z.
Proof.
  intros Hinv Hz Hx Hy.
  destruct (dominators_idx_suffix d z y Hinv Hz Hy) as (pre & -> & _).
  apply elem_of_app. right. by right.
Qed.

Lemma dominators_idx_linear d x y z :
  dom_inv _entry c d → z < c →
  x ∈ dominators_idx d z → y ∈ dominators_idx d z →
  x = y ∨ x ∈ dominators_idx d y ∨ y ∈ dominators_idx d x.
Proof.
  intros Hinv Hz Hx Hy.
  destruct (dominators_idx_suffix d z y Hinv Hz Hy) as (pre & Hpre & Hall).
  destruct (dominators_idx_suffix d z x Hinv Hz Hx) as (pre' & Hpre' & Hall').
  rewrite Hpre in Hx. apply elem_of_app in Hx as [Hx | Hx].
  - rewrite Hpre' in Hy. apply elem_of_app in Hy as [Hy | Hy].
    + rewrite Forall_forall in Hall, Hall'.
      specialize (Hall _ Hx). specialize (Hall' _ Hy). lia.
    + apply elem_of_cons in Hy as [-> | Hy]; auto.
  - apply elem_of_cons in Hx as [-> | Hx]; auto.
Qed.

Lemma dom_le_refl d x : dom_le d x x.
Proof. by left. Qed.

Lemma dom_le_entry d y : dom_le d 0 y.
Proof. right. by left. Qed.

Lemma dom_le_le d x y : dom_inv _entry c d → y < c → dom_le d x y → x ≤ y.
Proof.
  intros Hinv Hy [-> | [-> | Hx]]; [lia | lia |].
  pose proof (dominators_idx_bound _entry c d y x Hinv Hy Hx). lia.
Qed.

Lemma dom_le_trans d x y z :
  dom_inv _entry c d → y < c → z < c →
  dom_le d x y → dom_le d y z → dom_le d x z.
Proof.
  intros Hinv Hy Hz [-> | [-> | Hx]] Hyz; [done | apply dom_le_entry |].
  destruct Hyz as [-> | [-> | Hyz]].
  - right. by right.
  - rewrite dominators_idx_0 in Hx by done. by apply elem_of_nil in Hx.
  - right. right. by eapply dominators_idx_trans.
Qed.

Lemma dom_le_antisym d x y :
  dom_inv _entry c d → x < c → y < c →
  dom_le d x y → dom_le d y x → x = y.
Proof.
  intros Hinv Hx Hy Hxy Hyx.
  pose proof (dom_le_le d x y Hinv Hy Hxy).
  pose proof (dom_le_le d y x Hinv Hx Hyx). lia.
Qed.

Lemma dom_le_linear d x y z :
  dom_inv _entry c d → z < c →
  dom_le d x z → dom_le d y z → dom_le d x y ∨ dom_le d y x.
Proof.
  intros Hinv Hz [-> | [-> | Hx]] [-> | [-> | Hy]];
    try (by left; apply dom_le_entry); try (by right; apply dom_le_entry).
  - left. apply dom_le_refl.
  - right. right. by right.
  - left. right. by right.
  - destruct (dominators_idx_linear d x y z Hinv Hz Hx Hy) as [-> | [? | ?]].
    + left. apply dom_le_refl.
    + left. right. by right.
    + right. right. by right.
Qed.

(** On a finished structure [dominates] decides [dom_le] on the indices. *)
Lemma dominates_spec_dom_le d (a b : Vertex) ia ib :
  dom_inv _entry c d →
  m_vertexIndices d !! a = Some ia → vec_get (m_vertices d) ia = Some a →
  m_vertexIndices d !! b = Some ib → vec_get (m_vertices d) ib = Some b →
  dominates_spec d a b = true ↔ dom_le d ia ib.
Proof.
  intros Hinv Hia Hva Hib Hvb. unfold dominates_spec, dom_le.
  rewrite Hia, Hib.
  pose proof (dv_count _ _ _ Hinv) as Hc.
  destruct (dv_index _ _ _ Hinv 0) as (v0 & Hv0 & Hi0); [lia |].
  destruct (decide (a = b)) as [-> | Hab].
  { split; [| done]. intros _. left. congruence. }
  destruct (decide (ia ∈ dominators_idx d ib)) as [Hin | Hnin].
  { split; [| done]. intros _. right. by right. }
  rewrite bool_decide_eq_true. split.
  - intros Ha. right. left. assert (v0 = a) as -> by congruence. congruence.
  - intros [-> | [-> | ?]]; [congruence | done | done].
Qed.
End order_proofs.

Section query_order.
Context {Vertex : Type} `{Countable Vertex}.
Variable ForEachSuccessor : Vertex → list Vertex.
Variable Vertex_default : Vertex.
Implicit Types d : Dominator Vertex.

Lemma dominates_dom_le (_entry : Vertex) (c : N) d (a b : Vertex) ia ib :
  dom_inv _entry c d →
  m_vertexIndices d !! a = Some ia → vec_get (m_vertices d) ia = Some a →
  m_vertexIndices d !! b = Some ib → vec_get (m_vertices d) ib = Some b →
  dominates a b d = Ok true d ↔ dom_le d ia ib.
Proof.
  intros Hinv Hia Hva Hib Hvb.
  rewrite (dominates_correct _entry c d a b Hinv).
  - rewrite <- (dominates_spec_dom_le _entry c d a b ia ib) by done.
    split; [by intros [= ->] | by intros ->].
  - unfold indexed. by rewrite Hia.
  - unfold indexed. by rewrite Hib.
Qed.

(** X9: On a constructed structure [dominates] is a partial order on the
    indexed vertices. *)
Theorem dominates_partial_order (_entry : Vertex) (n : N) d (a b v : Vertex) :
  Dominator_ctor ForEachSuccessor Vertex_default _entry n = Ok tt d →
  indexed d a → indexed d b → indexed d v →
  dominates a a d = Ok true d ∧
  (dominates a b d = Ok true d → dominates b v d = Ok true d →
   dominates a v d = Ok true d) ∧
  (dominates a b d = Ok true d → dominates b a d = Ok true d → a = b).
Proof.
  intros Hctor (ia & Hia & Hva)%indexed_inv (ib & Hib & Hvb)%indexed_inv
    (iv & Hiv & Hvv)%indexed_inv.
  destruct (Dominator_ctor_inv _ _ _ _ _ Hctor) as (s & _ & _ & Hinv).
  pose proof (dv_index_bound _ _ _ Hinv _ _ Hia) as Hiac.
  pose proof (dv_index_bound _ _ _ Hinv _ _ Hib) as Hibc.
  pose proof (dv_index_bound _ _ _ Hinv _ _ Hiv) as Hivc.
  rewrite !(dominates_dom_le _entry (dfIdx s) d a a ia ia) by done.
  rewrite !(dominates_dom_le _entry (dfIdx s) d a b ia ib) by done.
  rewrite !(dominates_dom_le _entry (dfIdx s) d b v ib iv) by done.
  rewrite !(dominates_dom_le _entry (dfIdx s) d a v ia iv) by done.
  rewrite !(dominates_dom_le _entry (dfIdx s) d b a ib ia) by done.
  split_and!.
  - apply dom_le_refl.
  - by apply (dom_le_trans _entry (dfIdx s)).
  - intros Hab Hba.
    assert (ia = ib) as -> by (by apply (dom_le_antisym _entry (dfIdx s) d)).
    congruence.
Qed.

(** X10: The entry dominates every indexed vertex, the dominators of a vertex
    are totally ordered by [dominates], and a dominator never has a larger
    index than the vertex it dominates. *)
Theorem dominates_tree_order (_entry : Vertex) (n : N) d (a b v : Vertex) ia iv :
  Dominator_ctor ForEachSuccessor Vertex_default _entry n = Ok tt d →
  indexed d a → indexed d b → indexed d v →
  m_vertexIndices d !! a = Some ia → m_vertexIndices d !! v = Some iv →
  dominates _entry v d = Ok true d ∧
  (dominates a v d = Ok true d → dominates b v d = Ok true d →
   dominates a b d = Ok true d ∨ dominates b a d = Ok true d) ∧
  (dominates a v d = Ok true d → ia ≤ iv).
Proof.
  intros Hctor (ia' & Hia & Hva)%indexed_inv (ib & Hib & Hvb)%indexed_inv
    (iv' & Hiv & Hvv)%indexed_inv Hia' Hiv'.
  assert (ia' = ia) as -> by congruence. assert (iv' = iv) as -> by congruence.
  destruct (Dominator_ctor_inv _ _ _ _ _ Hctor) as (s & _ & _ & Hinv).
  pose proof (dv_index_bound _ _ _ Hinv _ _ Hia) as Hiac.
  pose proof (dv_index_bound _ _ _ Hinv _ _ Hib) as Hibc.
  pose proof (dv_index_bound _ _ _ Hinv _ _ Hiv) as Hivc.
  pose proof (dv_count _ _ _ Hinv) as Hc.
  destruct (dv_index _ _ _ Hinv 0) as (v0 & Hv0 & Hi0); [lia |].
  pose proof (dv_entry _ _ _ Hinv) as Hentry.
  assert (v0 = _entry) as -> by congruence.
  rewrite !(dominates_dom_le _entry (dfIdx s) d _entry v 0 iv) by done.
  rewrite !(dominates_dom_le _entry (dfIdx s) d a v ia iv) by done.
  rewrite !(dominates_dom_le _entry (dfIdx s) d b v ib iv) by done.
  rewrite !(dominates_dom_le _entry (dfIdx s) d a b ia ib) by done.
  rewrite !(dominates_dom_le _entry (dfIdx s) d b a ib ia) by done.
  split_and!.
  - apply dom_le_entry.
  - by apply (dom_le_linear _entry (dfIdx s)).
  - by apply (dom_le_le _entry (dfIdx s)).
Qed.

(** X11: [dominatorsOf v] lists, without repetition, exactly the indexed
    vertices other than [v] that [dominates] reports as dominators of
    [v] (and [v] itself when [v] is the entry). *)
Theorem dominatorsOf_agrees_with_dominates (_entry : Vertex) (n : N) d
    (a v : Vertex) :
  Dominator_ctor ForEachSuccessor Vertex_default _entry n = Ok tt d →
  indexed d a → indexed d v →
  ∃ l, dominatorsOf v d = Ok l d ∧ NoDup l ∧
       (dominates a v d = Ok true d ↔ a = v ∨ a ∈ l).
Proof.
  intros Hctor (ia & Hia & Hva)%indexed_inv (iv & Hiv & Hvv)%indexed_inv.
  destruct (Dominator_ctor_inv _ _ _ _ _ Hctor) as (s & _ & _ & Hinv).
  pose proof (dv_index_bound _ _ _ Hinv _ _ Hia) as Hiac.
  pose proof (dv_index_bound _ _ _ Hinv _ _ Hiv) as Hivc.
  pose proof (dv_count _ _ _ Hinv) as Hc.
  destruct (dv_index _ _ _ Hinv 0) as (v0 & Hv0 & Hi0); [lia |].
  pose proof (dv_entry _ _ _ Hinv) as Hentry.
  assert (v0 = _entry) as -> by congruence.
  destruct (dominatorsOf_correct _entry (dfIdx s) d v iv Hinv Hiv) as (l & Hl & Hall).
  exists (_entry :: l). split; [done |].
  assert (∀ x, x ∈ l ↔ ∃ j, j ∈ dominators_idx d iv ∧
                  vec_get (m_vertices d) j = Some x) as Hmem.
  { intros x. split.
    - intros Hx. apply list_elem_of_lookup in Hx as [k Hk].
      destruct (Forall2_lookup_l _ _ _ _ _ Hall Hk) as (j & Hj & Hxj).
      exists j. split; [by eapply list_elem_of_lookup_2 | done].
    - intros (j & Hj & Hxj). apply list_elem_of_lookup in Hj as [k Hk].
      destruct (Forall2_lookup_r _ _ _ _ _ Hall Hk) as (x' & Hx' & Hxj').
      assert (x' = x) as -> by congruence. by eapply list_elem_of_lookup_2. }
  assert (∀ j x, j ∈ dominators_idx d iv → vec_get (m_vertices d) j = Some x →
                 m_vertexIndices d !! x = Some j ∧ 0 < j) as Hidx.
  { intros j x Hj Hx.
    pose proof (dominators_idx_bound _entry _ d iv j Hinv Hivc Hj) as Hb.
    destruct (dv_index _ _ _ Hinv j) as (x' & Hx' & Hxj); [lia |].
    assert (x' = x) as -> by congruence. split; [done | lia]. }
  split.
  - constructor.
    + rewrite Hmem. intros (j & Hj & Hxj). destruct (Hidx j _ Hj Hxj) as [Hj' ?].
      assert (j = 0) by congruence. lia.
    + clear Hmem Hl. revert Hall Hidx.
      generalize (dominators_idx_depth _entry _ d iv Hinv Hivc).
      intros [_ Hsorted]. revert Hsorted.
      generalize (dominators_idx d iv). intros js Hsorted Hall. revert Hsorted.
      induction Hall as [| x j l js Hxj Hall IH]; intros Hsorted Hidx; [constructor |].
      apply StronglySorted_inv in Hsorted as [Hsorted Hlt].
      constructor.
      * intros Hx. apply list_elem_of_lookup in Hx as [k Hk].
        destruct (Forall2_lookup_l _ _ _ _ _ Hall Hk) as (j' & Hj' & Hxj').
        destruct (Hidx j x) as [Hj1 _]; [left | done |].
        destruct (Hidx j' x) as [Hj2 _]; [right; by eapply list_elem_of_lookup_2 | done |].
        assert (j' = j) as -> by congruence.
        rewrite Forall_forall in Hlt.
        specialize (Hlt j (list_elem_of_lookup_2 _ _ _ Hj')). lia.
      * apply IH; [done |]. intros j' x' Hj' Hx'. apply Hidx; [by right | done].
  - rewrite (dominates_dom_le _entry (dfIdx s) d a v ia iv) by done.
    rewrite elem_of_cons, Hmem. split.
    + intros [-> | [-> | Hin]].
      * left. congruence.
      * right. left. congruence.
      * right. right. eauto.
    + intros [-> | [-> | (j & Hj & Hxj)]].
      * left. congruence.
      * right. left. congruence.
      * right. right. destruct (Hidx j a Hj Hxj) as [Hj' _].
        by assert (j = ia) as -> by congruence.
Qed.
End query_order.

(** ** Keys that are not reachable vertices *)

Section key_proofs.
Context {Vertex : Type} `{Countable Vertex}.
Variable ForEachSuccessor : Vertex → list Vertex.
Variable Vertex_default : Vertex.
Implicit Types d : Dominator Vertex.

Lemma dominates_tail (_entry : Vertex) (c : N) d ia ib :
  dom_inv _entry c d → ib < c →
  wp (λ _, False)
    (if ia =? ib then ret true
     else
       idomIdx ← read v_immediateDominators m_immediateDominators ib;
       d ← get;
       dominates_loop (S (length (m_immediateDominators d))) ia idomIdx)
    (λ r d', d' = d ∧
       r = (ia =? ib) || bool_decide (ia ∈ dominators_idx d ib) || (ia =? 0)) d.
Proof.
  intros Hinv Hibc.
  pose proof (dv_count _ _ _ Hinv) as Hc.
  pose proof (dv_size _ _ _ Hinv) as Hsz. unfold vec_size in Hc, Hsz.
  destruct (N.eqb_spec ia ib) as [-> | Hne].
  { by apply wp_ret. }
  apply wp_bind, wp_read; [| intros Hnone; apply vec_get_None in Hnone;
    unfold vec_size in Hnone; lia].
  intros x Hx. apply wp_bind, wp_get.
  pose proof (dominates_loop_spec _entry c d ia
    (S (length (m_immediateDominators d)))
    (length (m_immediateDominators d)) ib Hinv Hibc ltac:(lia) ltac:(lia)) as Hloop.
  unfold wp in Hloop at 1. unfold bind, read in Hloop. rewrite Hx in Hloop.
  unfold wp. destruct (dominates_loop _ _ _ _) as [r d' | e]; [| done].
  by destruct Hloop as [-> ->].
Qed.

Lemma dominates_key (_entry : Vertex) (c : N) d (a b : Vertex) ia ib :
  dom_inv _entry c d →
  m_vertexIndices d !! a = Some ia → m_vertexIndices d !! b = Some ib →
  dominates a b d =
    Ok ((ia =? ib) || bool_decide (ia ∈ dominators_idx d ib) || (ia =? 0)) d.
Proof.
  intros Hinv Hia Hib.
  pose proof (dv_index_bound _ _ _ Hinv _ _ Hib) as Hibc.
  assert (wp (λ _, False) (dominates a b)
            (λ r d', d' = d ∧
               r = (ia =? ib) || bool_decide (ia ∈ dominators_idx d ib) || (ia =? 0)) d)
    as Hwp.
  { unfold dominates.
    apply wp_bind, dom_index_of_present with (i := ia); [done |].
    apply wp_bind, dom_index_of_present with (i := ib); [done |].
    by apply (dominates_tail _entry c). }
  unfold wp in Hwp. destruct (dominates a b d) as [r d' | e]; [| done].
  by destruct Hwp as [-> ->].
Qed.

Lemma dom_inv_with_key (_entry : Vertex) (c : N) d (a : Vertex) :
  dom_inv _entry c d → m_vertexIndices d !! a = None →
  dom_inv _entry c (with_key a d).
Proof.
  intros [Hc Hsz Hidx Hb He Hi] Ha. split; simpl; try done.
  - intros i Hic. destruct (Hidx i Hic) as (v & Hv & Hvi). exists v.
    split; [done |]. rewrite lookup_insert_ne; [done |]. congruence.
  - intros v i. destruct (decide (a = v)) as [-> | Hne].
    + rewrite lookup_insert_eq. intros [= <-]. lia.
    + rewrite lookup_insert_ne by done. apply Hb.
Qed.

Lemma dom_index_of_missing E (v : Vertex) d (Q : N → Dominator Vertex → Prop) :
  m_vertexIndices d !! v = None → Q 0 (with_key v d) → wp E (dom_index_of v) Q d.
Proof.
  intros Hv HQ. unfold wp, dom_index_of, index_of. by rewrite Hv.
Qed.

(** X12: The queries on a vertex that is not a key of [m_vertexIndices]:
    [operator[]] adds the key with index 0, and the vertex is then taken for
    the entry. *)
Theorem queries_on_missing_key (_entry : Vertex) (n : N) d (a b : Vertex) :
  Dominator_ctor ForEachSuccessor Vertex_default _entry n = Ok tt d →
  m_vertexIndices d !! a = None → indexed d b →
  dominates a b d = Ok true (with_key a d) ∧
  dominatorsOf a d = Ok [_entry] (with_key a d).
Proof.
  intros Hctor Ha (ib & Hib & Hvb)%indexed_inv.
  destruct (Dominator_ctor_inv _ _ _ _ _ Hctor) as (s & _ & _ & Hinv).
  pose proof (dom_inv_with_key _ _ _ a Hinv Ha) as Hinv'.
  pose proof (dv_index_bound _ _ _ Hinv _ _ Hib) as Hibc.
  pose proof (dv_count _ _ _ Hinv) as Hc.
  pose proof (dv_entry _ _ _ Hinv) as Hentry.
  assert (m_vertexIndices (with_key a d) !! b = Some ib) as Hib'.
  { simpl. rewrite lookup_insert_ne; [done |]. congruence. }
  split.
  - assert (wp (λ _, False) (dominates a b)
              (λ r d', d' = with_key a d ∧ r = true) d) as Hwp.
    { unfold dominates. apply wp_bind, dom_index_of_missing; [done |].
      apply wp_bind, dom_index_of_present with (i := ib); [done |].
      eapply wp_mono; [by apply (dominates_tail _entry (dfIdx s)) |].
      intros r d' [-> ->]. split; [done |]. apply orb_true_r. }
    unfold wp in Hwp. destruct (dominates a b d) as [r d' | e]; [| done].
    by destruct Hwp as [-> ->].
  - assert (wp (λ _, False) (dominatorsOf a)
              (λ r d', d' = with_key a d ∧ r = [_entry]) d) as Hwp.
    { unfold dominatorsOf. apply wp_bind, wp_get.
      apply wp_bind, wp_solAssert; [intros _ |].
      2:{ intros Hb. apply negb_false_iff, bool_decide_eq_true in Hb.
          rewrite Hb in Hc. unfold vec_size in Hc. simpl in Hc. lia. }
      apply wp_bind, wp_read; [| congruence]. intros x Hx.
      assert (x = _entry) as -> by congruence.
      apply wp_bind, dom_index_of_missing; [done |].
      destruct (dv_idom _ _ _ Hinv' 0) as (y & Hy & Hle & _); [lia |].
      assert (y = 0) as -> by lia.
      apply wp_bind, wp_read; [| congruence]. intros y Hy'.
      assert (y = 0) as -> by congruence. by apply wp_ret. }
    unfold wp in Hwp. destruct (dominatorsOf a d) as [r d' | e]; [| done].
    by destruct Hwp as [-> ->].
Qed.

(** X13: A key that is not reachable from the entry (the value-initialised
    vertex of an unused slot) is taken for the entry by both queries. *)
Theorem unreachable_key_taken_for_entry (_entry : Vertex) (n : N) d
    (a b : Vertex) (i : N) :
  Dominator_ctor ForEachSuccessor Vertex_default _entry n = Ok tt d →
  m_vertexIndices d !! a = Some i →
  ¬ reachable ForEachSuccessor _entry a →
  indexed d b →
  a = Vertex_default ∧ i = 0 ∧
  dominates a b d = Ok true d ∧
  dominatorsOf a d = Ok [_entry] d.
Proof.
  intros Hctor Ha Hnr (ib & Hib & Hvb)%indexed_inv.
  pose proof (Dominator_ctor_result ForEachSuccessor Vertex_default _entry n) as Hres.
  rewrite Hctor in Hres. destruct Hres as [c Hb].
  destruct (bt_keys _ _ _ _ _ _ Hb a i Ha) as [[Hlt Hv] | (-> & -> & _)].
  { destruct Hnr. apply (bt_reach _ _ _ _ _ _ Hb). eauto. }
  destruct (Dominator_ctor_inv _ _ _ _ _ Hctor) as (s & _ & _ & Hinv).
  split_and!; [done | done | |].
  - rewrite (dominates_key _ _ _ _ _ _ _ Hinv Ha Hib). f_equal. apply orb_true_r.
  - destruct (dominatorsOf_correct _ _ _ Vertex_default 0 Hinv Ha) as (l & -> & Hl).
    rewrite (dominators_idx_0 _entry (dfIdx s)) in Hl by done.
    by apply Forall2_nil_inv_r in Hl as ->.
Qed.
End key_proofs.

(** ** The properties on the example graphs *)

Lemma diamond_dominator_built :
  Dominator_ctor diamond "" "entry" 5 = Ok tt diamond_dominator.
Proof. vm_compute. reflexivity. Qed.

Lemma chain4_state_run :
  lt_run chain4 (Dominator_init "" 4) "entry" 4 = Ok tt chain4_state.
Proof. vm_compute. reflexivity. Qed.

Lemma diamond_vertices_closed (u w : string) :
  u ∈ diamond_vertices → w ∈ diamond u → w ∈ diamond_vertices.
Proof.
  intros Hu. revert w.
  apply Forall_forall.
  revert u Hu. apply (bool_decide_unpack (set_Forall _ _)). vm_compute. reflexivity.
Qed.

Lemma diamond_vertices_reachable (v : string) :
  v ∈ diamond_vertices → reachable diamond "entry" v.
Proof.
  intros Hv. unfold diamond_vertices in Hv.
  rewrite elem_of_list_to_set, !elem_of_cons in Hv.
  assert (edge diamond "entry" "B") as HB by (vm_compute; left).
  assert (edge diamond "entry" "C") as HC by (vm_compute; right; left).
  assert (edge diamond "B" "D") as HD by (vm_compute; left).
  destruct Hv as [-> | [-> | [-> | [-> | Hv]]]].
  - apply rtc_refl.
  - by apply rtc_once.
  - by apply rtc_once.
  - eapply rtc_l; [exact HB |]. by apply rtc_once.
  - by apply elem_of_nil in Hv.
Qed.

Lemma ctor_fails_only_by_semi_overrun_witness :
  OutOfBounds v_semi 4 = OutOfBounds v_semi 4 ∧
  ∃ V : gset string, N.of_nat (size V) = 4 ∧
    ∀ v, v ∈ V → reachable diamond "entry" v.
Proof.
  apply (ctor_fails_only_by_semi_overrun diamond "" "entry" 4).
  - vm_compute. reflexivity.
  - discriminate.
Defined.

Lemma ctor_succeeds_with_spare_slot_witness :
  ∃ d, Dominator_ctor diamond "" "entry" 5 = Ok tt d.
Proof.
  apply (ctor_succeeds_with_spare_slot diamond "" "entry" 5 diamond_vertices).
  - apply (bool_decide_unpack _). vm_compute. reflexivity.
  - apply diamond_vertices_closed.
  - vm_compute. reflexivity.
Defined.

Lemma ctor_overruns_when_count_too_small_witness :
  Dominator_ctor diamond "" "entry" 3 = Err (OutOfBounds v_semi 3).
Proof.
  apply (ctor_overruns_when_count_too_small diamond "" "entry" 3 diamond_vertices).
  - apply diamond_vertices_reachable.
  - reflexivity.
  - vm_compute. reflexivity.
Defined.

Lemma diamond_default_unreachable : ¬ reachable diamond "entry" "".
Proof.
  intros Hr.
  assert ("" ∈ diamond_vertices) as Hin.
  { eapply (reachable_closed diamond "entry" diamond_vertices); [| | exact Hr].
    - apply (bool_decide_unpack _). vm_compute. reflexivity.
    - apply diamond_vertices_closed. }
  revert Hin. apply (bool_decide_unpack _). vm_compute. reflexivity.
Qed.

Lemma indexed_iff_reachable_witness :
  indexed chain4_dominator "D" ↔ reachable chain4 "entry" "D".
Proof.
  apply (indexed_iff_reachable chain4 "" "entry" 4). vm_compute. reflexivity.
Defined.

Lemma vertices_layout_witness :
  ∃ (V : gset string) (vs : list string) (ids : list N),
    (∀ v, v ∈ V ↔ reachable diamond "entry" v) ∧
    (size V ≤ N.to_nat 5)%nat ∧
    m_vertices diamond_dominator = vs ++ replicate (N.to_nat 5 - size V) "" ∧
    m_immediateDominators diamond_dominator
      = ids ++ replicate (N.to_nat 5 - size V) SIZE_MAX ∧
    length vs = size V ∧ length ids = size V ∧
    head vs = Some "entry" ∧ NoDup vs ∧ (∀ v, v ∈ vs ↔ v ∈ V) ∧
    (∀ i v, vs !! i = Some v →
            m_vertexIndices diamond_dominator !! v = Some (N.of_nat i)).
Proof.
  apply (vertices_layout diamond "" "entry" 5). vm_compute. reflexivity.
Defined.

Lemma vertexIndices_keys_witness :
  (∀ v, reachable diamond "entry" v →
        ∃ i, m_vertexIndices diamond_dominator !! v = Some i ∧
             vec_get (m_vertices diamond_dominator) i = Some v) ∧
  (∀ v, v ∈ m_vertices diamond_dominator →
        is_Some (m_vertexIndices diamond_dominator !! v)) ∧
  (∀ v i, m_vertexIndices diamond_dominator !! v = Some i →
          ¬ reachable diamond "entry" v →
          v = "" ∧ i = 0 ∧ "" ∈ m_vertices diamond_dominator).
Proof.
  apply (vertexIndices_keys diamond "" "entry" 5). vm_compute. reflexivity.
Defined.

Lemma dominatorTree_of_ctor_witness :
  m_dominatorTree diamond_dominator !! SIZE_MAX =
    if decide (SIZE_MAX ∈ drop 1 (m_immediateDominators diamond_dominator))
    then Some (replicate
                 (occurrences SIZE_MAX (drop 1 (m_immediateDominators diamond_dominator)))
                 SIZE_MAX)
    else None.
Proof.
  apply (dominatorTree_of_ctor diamond "" "entry" 5). vm_compute. reflexivity.
Defined.

Lemma buildDominatorTree_fills_tree_witness :
  (buildDominatorTree three_slots = Err AssertionFailed ↔
     m_vertices three_slots = [] ∨ m_immediateDominators three_slots = []) ∧
  (m_vertices three_slots ≠ [] → m_immediateDominators three_slots ≠ [] →
   ∃ t, buildDominatorTree three_slots = Ok tt (set_m_dominatorTree t three_slots) ∧
        ∀ k, t !! k =
          if decide (k ∈ drop 1 (m_immediateDominators three_slots))
          then Some (replicate
                       (occurrences k (drop 1 (m_immediateDominators three_slots))) k)
          else None).
Proof.
  apply (buildDominatorTree_fills_tree three_slots). reflexivity.
Defined.

Lemma dominates_partial_order_witness :
  dominates "B" "B" chain4_dominator = Ok true chain4_dominator ∧
  (dominates "B" "C" chain4_dominator = Ok true chain4_dominator →
   dominates "C" "D" chain4_dominator = Ok true chain4_dominator →
   dominates "B" "D" chain4_dominator = Ok true chain4_dominator) ∧
  (dominates "B" "C" chain4_dominator = Ok true chain4_dominator →
   dominates "C" "B" chain4_dominator = Ok true chain4_dominator → "B" = "C").
Proof.
  apply (dominates_partial_order chain4 "" "entry" 4); vm_compute; reflexivity.
Defined.

Lemma dominates_tree_order_witness :
  dominates "entry" "D" chain4_dominator = Ok true chain4_dominator ∧
  (dominates "B" "D" chain4_dominator = Ok true chain4_dominator →
   dominates "C" "D" chain4_dominator = Ok true chain4_dominator →
   dominates "B" "C" chain4_dominator = Ok true chain4_dominator ∨
   dominates "C" "B" chain4_dominator = Ok true chain4_dominator) ∧
  (dominates "B" "D" chain4_dominator = Ok true chain4_dominator → 1 ≤ 3).
Proof.
  apply (dominates_tree_order chain4 "" "entry" 4); vm_compute; reflexivity.
Defined.

Lemma dominatorsOf_agrees_with_dominates_witness :
  ∃ l, dominatorsOf "D" chain4_dominator = Ok l chain4_dominator ∧ NoDup l ∧
       (dominates "B" "D" chain4_dominator = Ok true chain4_dominator ↔
        "B" = "D" ∨ "B" ∈ l).
Proof.
  apply (dominatorsOf_agrees_with_dominates chain4 "" "entry" 4);
    vm_compute; reflexivity.
Defined.

Lemma queries_on_missing_key_witness :
  dominates "Z" "D" chain4_dominator = Ok true (with_key "Z" chain4_dominator) ∧
  dominatorsOf "Z" chain4_dominator = Ok ["entry"] (with_key "Z" chain4_dominator).
Proof.
  apply (queries_on_missing_key chain4 "" "entry" 4); vm_compute; reflexivity.
Defined.

Lemma unreachable_key_taken_for_entry_witness :
  "" = "" ∧ 0 = 0 ∧
  dominates "" "D" diamond_dominator = Ok true diamond_dominator ∧
  dominatorsOf "" diamond_dominator = Ok ["entry"] diamond_dominator.
Proof.
  apply (unreachable_key_taken_for_entry diamond "" "entry" 5).
  - vm_compute. reflexivity.
  - vm_compute. reflexivity.
  - apply diamond_default_unreachable.
  - vm_compute. reflexivity.
Defined.

Lemma search_records_the_edges_witness :
  (∀ p i u w, p < dfIdx chain4_state → i < dfIdx chain4_state →
     vec_get (m_vertices (this chain4_state)) p = Some u →
     vec_get (m_vertices (this chain4_state)) i = Some w →
     (edge chain4 u w ↔
      (∃ l, vec_get (predecessors chain4_state) i = Some l ∧ p ∈ l))) ∧
  (∀ i l, vec_get (predecessors chain4_state) i = Some l →
     StronglySorted N.lt l ∧
     ∀ p, p ∈ l → p < dfIdx chain4_state ∧ i < dfIdx chain4_state) ∧
  (∀ i, 0 < i < dfIdx chain4_state →
     ∃ p l, vec_get (parent chain4_state) i = Some p ∧ p < i ∧
            vec_get (predecessors chain4_state) i = Some l ∧ p ∈ l).
Proof.
  apply (search_records_the_edges chain4 "" "entry" 4). vm_compute. reflexivity.
Defined.

Lemma numbering_is_preorder_witness :
  vec_get (parent chain4_state) 0 = Some SIZE_MAX ∧
  (∀ i, 0 < i < dfIdx chain4_state →
     ∃ p, vec_get (parent chain4_state) i = Some p ∧ p < i ∧
          tree_anc (parent chain4_state) p (i - 1)) ∧
  (∀ i, i < dfIdx chain4_state → tree_anc (parent chain4_state) 0 i) ∧
  (∀ a v w, v < dfIdx chain4_state → tree_anc (parent chain4_state) a v →
     a ≤ w ≤ v → tree_anc (parent chain4_state) a w) ∧
  (∀ i l p, vec_get (predecessors chain4_state) i = Some l → p ∈ l → p < i →
     tree_anc (parent chain4_state) p i).
Proof.
  apply (numbering_is_preorder chain4 "" "entry" 4). vm_compute. reflexivity.
Defined.

(** * The immediate dominators *)

(** ** Dominators and semidominators in a numbered flowgraph *)

Section flowgraph.
Variable par : list N.
Variable c : N.
Variable E : N → N → Prop.
Hypothesis Hpre : preorder par c.
Hypothesis HE : ∀ p i, E p i → p < c ∧ i < c ∧ (p < i → tree_anc par p i).
Hypothesis Htree : ∀ i, 0 < i < c → ∃ p, vec_get par i = Some p ∧ E p i.

Lemma ipath_mono (P Q : N → Prop) x z :
  (∀ t, P t → Q t) → ipath E P x z → ipath E Q x z.
Proof.
  intros HPQ. induction 1 as [z Hxz Hz | y z Hxy IH Hyz Hz].
  - apply ipath_edge; auto.
  - eapply ipath_step; eauto.
Qed.

Lemma ipath_app (P : N → Prop) x y z :
  ipath E P x y → ipath E P y z → ipath E P x z.
Proof.
  intros Hxy. induction 1 as [z Hyz Hz | y' z Hyy' IH Hy'z Hz].
  - eapply ipath_step; eauto.
  - eapply ipath_step; eauto.
Qed.

Lemma ipath_end (P : N → Prop) x z : ipath E P x z → P z ∧ z < c.
Proof.
  induction 1 as [z Hxz Hz | y z Hxy IH Hyz Hz].
  - split; [done |]. by destruct (HE _ _ Hxz) as (_ & ? & _).
  - split; [done |]. by destruct (HE _ _ Hyz) as (_ & ? & _).
Qed.

(** Ancestors of a vertex are totally ordered. *)
Lemma tree_anc_comparable a b w :
  w < c → tree_anc par a w → tree_anc par b w → a ≤ b → tree_anc par a b.
Proof.
  intros Hw Ha Hb Hab. pose proof (tree_anc_le _ _ _ Hb).
  by eapply (tree_anc_interval par c a w b).
Qed.

Lemma tree_anc_dec a w : w < c → tree_anc par a w ∨ ¬ tree_anc par a w.
Proof.
  induction w as [w IH] using (well_founded_induction N.lt_wf_0). intros Hw.
  destruct (decide (a = w)) as [-> | Hne]; [left; constructor |].
  destruct (decide (w = 0)) as [-> | Hw0].
  { right. intros Hanc. apply tree_anc_le in Hanc. lia. }
  destruct (Hpre w) as (p & Hp & Hlt & _); [lia |].
  destruct (IH p Hlt ltac:(lia)) as [Hanc | Hnanc].
  - left. eapply tree_anc_step; eauto.
  - right. intros Hanc. apply Hnanc.
    pose proof (tree_anc_le _ _ _ Hanc).
    eapply tree_anc_parent; [exact Hanc | lia | done].
Qed.

(** The tree path from [a] down to a proper descendant [b]. *)
Lemma tree_ipath a b :
  b < c → tree_anc par a b → a ≠ b →
  ipath E (λ t, a < t ∧ tree_anc par a t ∧ tree_anc par t b) a b.
Proof.
  intros Hb Hanc. induction Hanc as [| i p Hp Hlt Hanc IH]; intros Hne; [done |].
  destruct (Htree i) as (p' & Hp' & Hedge); [lia |].
  assert (p' = p) as -> by congruence.
  pose proof (tree_anc_le _ _ _ Hanc) as Hle.
  assert (tree_anc par a i) as Hai by (eapply tree_anc_step; eauto).
  assert (tree_anc par p i) as Hpi by (eapply tree_anc_step; [done | done | constructor]).
  destruct (decide (a = p)) as [-> | Hap].
  - apply ipath_edge; [done |]. split_and!; [lia | done | constructor].
  - eapply ipath_step; [| exact Hedge |].
    + eapply ipath_mono; [| apply IH; [lia | done]].
      intros t (? & ? & ?). split_and!; [done | done |].
      by eapply tree_anc_trans.
    + split_and!; [lia | done | constructor].
Qed.

(** If every later vertex of a walk is at least its start, the end is a
    descendant of the start. *)
Lemma ipath_descendant x z : ipath E (λ t, x ≤ t) x z → tree_anc par x z.
Proof.
  induction 1 as [z Hxz Hz | y z Hxy IH Hyz Hz].
  - destruct (HE _ _ Hxz) as (_ & _ & Hanc).
    destruct (decide (x = z)) as [-> | Hne]; [constructor |]. apply Hanc. lia.
  - destruct (HE _ _ Hyz) as (Hy & _ & Hanc).
    destruct (decide (y < z)) as [Hlt | Hge].
    + eapply tree_anc_trans; [exact IH | by apply Hanc].
    + eapply (tree_anc_interval par c x y z); [done | done | done | lia].
Qed.

(** On a walk above [w], the least vertex after the start is an ancestor
    of the end, and the start is a candidate for its semidominator. *)
Lemma ipath_min w x y :
  ipath E (λ t, w < t) x y →
  ∃ m, w < m ∧ tree_anc par m y ∧ ipath E (λ t, m ≤ t) x y ∧ scand E m x.
Proof.
  induction 1 as [z Hxz Hz | y z Hxy IH Hyz Hz].
  - exists z. split_and!; [done | constructor | | by left].
    apply ipath_edge; [done | lia].
  - destruct IH as (m & Hm & Hmy & Hpath & Hcand).
    destruct (HE _ _ Hyz) as (Hy & _ & Hanc).
    destruct (decide (m ≤ z)) as [Hmz | Hzm].
    + exists m. split_and!; [done | | | done].
      * destruct (decide (y < z)) as [Hlt | Hge].
        -- eapply tree_anc_trans; [exact Hmy | by apply Hanc].
        -- eapply (tree_anc_interval par c m y z); [done | done | done | lia].
      * eapply ipath_step; eauto.
    + exists z. split_and!; [done | constructor | |].
      * eapply ipath_step; [| exact Hyz | lia].
        eapply ipath_mono; [| exact Hpath]. intros t Ht. simpl in *. lia.
      * right. exists y. split; [| done].
        eapply ipath_mono; [| exact Hpath]. intros t Ht. simpl in *. lia.
Qed.

(** A walk from index 0 that avoids [a] either ends below [a] or, from its
    last vertex below [a], stays above [a]. *)
Lemma ipath_split a z :
  0 < a → ipath E (λ t, t ≠ a) 0 z →
  z < a ∨ ∃ x', x' < a ∧ ipath E (λ t, a < t) x' z.
Proof.
  intros Ha. induction 1 as [z Hxz Hz | y z Hxy IH Hyz Hz].
  - destruct (decide (z < a)) as [Hlt | Hge]; [by left | right].
    exists 0. split; [done |]. apply ipath_edge; [done | lia].
  - destruct (decide (z < a)) as [Hlt | Hge]; [by left | right].
    destruct IH as [Hya | (x' & Hx' & Hpath)].
    + exists y. split; [done |]. apply ipath_edge; [done | lia].
    + exists x'. split; [done |]. eapply ipath_step; [exact Hpath | done | lia].
Qed.

(** A walk from index 0 to [w] that avoids a proper ancestor [a] of [w]
    enters the tree path below [a] at a vertex whose semidominator
    candidates include a vertex above (numbered below) [a]. *)
Lemma avoiding_path a w :
  0 < a → w < c → tree_anc par a w → a ≠ w →
  ipath E (λ t, t ≠ a) 0 w →
  ∃ m x', a < m ∧ tree_anc par a m ∧ tree_anc par m w ∧ x' < a ∧ scand E m x'.
Proof.
  intros Ha Hw Hanc Hne Hpath.
  pose proof (tree_anc_le _ _ _ Hanc) as Hle.
  destruct (ipath_split a w Ha Hpath) as [Hlt | (x' & Hx' & Hpath')]; [lia |].
  destruct (ipath_min a x' w Hpath') as (m & Hm & Hmw & _ & Hcand).
  exists m, x'. split_and!; [done | | done | done | done].
  eapply tree_anc_comparable; [exact Hw | done | done | lia].
Qed.

(** *** Dominators and semidominators *)

Lemma ipath_app0 (P : N → Prop) x y z :
  x = y ∨ ipath E P x y → ipath E P y z → ipath E P x z.
Proof. intros [-> | Hxy] Hyz; [done | by eapply ipath_app]. Qed.

Lemma root_path (P : N → Prop) w :
  w < c → (∀ t, 0 < t → tree_anc par t w → P t) →
  0 = w ∨ ipath E P 0 w.
Proof.
  intros Hw HP. destruct (decide (0 = w)) as [? | Hne]; [by left | right].
  eapply ipath_mono; [| apply (tree_ipath 0 w Hw); [| done]].
  - intros t (? & _ & ?). by apply HP.
  - by eapply tree_anc_root.
Qed.

(** A strict dominator of [w] is a proper ancestor of [w]. *)
Lemma sdom_g_ancestor a w :
  w < c → sdom_g E a w → tree_anc par a w ∧ a < w.
Proof.
  intros Hw (Hne & Hw0 & Hdom).
  assert (tree_anc par a w) as Hanc.
  { destruct (tree_anc_dec a w Hw) as [Hanc | Hnanc]; [done |].
    assert (a = 0) as ->; [| by eapply tree_anc_root].
    apply Hdom. destruct (root_path (λ t, t ≠ a) w Hw) as [? | Hpath]; [| done | done].
    intros t _ Ht ->. done. }
  split; [done |]. pose proof (tree_anc_le _ _ _ Hanc). lia.
Qed.

(** The semidominator of [w] is a proper ancestor of [w]. *)
Lemma is_sdom_ancestor w s :
  0 < w < c → is_sdom E w s → tree_anc par s w ∧ s < w.
Proof.
  intros Hw [Hcand Hmin].
  assert (s < w) as Hlt.
  { destruct (Htree w Hw) as (p & Hp & Hedge).
    destruct (Hpre w Hw) as (p' & Hp' & Hlt & _).
    assert (p' = p) as -> by congruence.
    specialize (Hmin p (or_introl Hedge)). lia. }
  split; [| done]. apply ipath_descendant.
  destruct Hcand as [Hedge | (y & Hpath & Hedge)].
  - apply ipath_edge; [done | lia].
  - eapply ipath_step; [| exact Hedge | lia].
    eapply ipath_mono; [| exact Hpath]. intros t Ht. simpl in *. lia.
Qed.

(** The walk that makes [s] a candidate for [w] avoids every vertex
    numbered below [w] other than [s]. *)
Lemma scand_ipath w s (P : N → Prop) :
  scand E w s → P w → (∀ t, w < t → P t) → ipath E P s w.
Proof.
  intros [Hedge | (y & Hpath & Hedge)] Hw HP.
  - by apply ipath_edge.
  - eapply ipath_step; [| exact Hedge | done].
    eapply ipath_mono; [| exact Hpath]. done.
Qed.

(** A strict dominator of [u] is at or above the semidominator of [u]. *)
Lemma sdom_g_le_semi x u s :
  0 < u < c → sdom_g E x u → is_sdom E u s → x ≤ s.
Proof.
  intros Hu Hdom Hsd. destruct (decide (x ≤ s)) as [? | Hgt]; [done | exfalso].
  destruct (sdom_g_ancestor x u ltac:(lia) Hdom) as [Hanc Hxu].
  destruct (is_sdom_ancestor u s Hu Hsd) as [Hsanc Hsu].
  destruct Hdom as (Hne & Hu0 & Hdom).
  assert (x = 0) as ->; [| lia]. apply Hdom.
  eapply ipath_app0.
  - apply (root_path (λ t, t ≠ x) s); [lia |].
    intros t _ Ht. apply tree_anc_le in Ht. lia.
  - apply scand_ipath; [by destruct Hsd | done |]. intros t Ht. lia.
Qed.

(** A strict dominator of [w] that is a proper ancestor of an ancestor [u]
    of [w] strictly dominates [u]. *)
Lemma sdom_g_restrict b u w :
  w < c → sdom_g E b w → tree_anc par u w → b < u → sdom_g E b u.
Proof.
  intros Hw (Hne & Hw0 & Hdom) Huw Hbu. split_and!; [lia | lia |].
  intros Hpath. apply Hdom.
  destruct (decide (u = w)) as [-> | Huw']; [done |].
  eapply ipath_app; [exact Hpath |].
  eapply ipath_mono; [| apply (tree_ipath u w Hw Huw Huw')].
  intros t (? & _). simpl. lia.
Qed.

Section theorems.
(** The semidominators. *)
Variable sd : N → N.
Hypothesis Hsd : ∀ v, 0 < v < c → is_sdom E v (sd v).

(** If no vertex strictly between [sd w] and [w] on the tree path has a
    smaller semidominator, [sd w] is the immediate dominator of [w]. *)
Lemma semi_is_idom w :
  0 < w < c →
  (∀ t, tree_anc par (sd w) t → t ≠ sd w → tree_anc par t w → sd w ≤ sd t) →
  is_idom E w (sd w).
Proof.
  intros Hw Hmin.
  destruct (is_sdom_ancestor w (sd w) Hw (Hsd w Hw)) as [Hanc Hlt].
  split.
  - split_and!; [lia | lia |]. intros Hpath.
    destruct (decide (sd w = 0)) as [? | Hne]; [done | exfalso].
    destruct (avoiding_path (sd w) w ltac:(lia) ltac:(lia) Hanc ltac:(lia) Hpath)
      as (m & x' & Hm & Ham & Hmw & Hx' & Hcand).
    pose proof (tree_anc_le _ _ _ Hmw) as Hmw'.
    destruct (Hsd m ltac:(lia)) as [_ Hminm]. specialize (Hminm x' Hcand).
    specialize (Hmin m Ham ltac:(lia) Hmw). lia.
  - intros b Hb.
    destruct (sdom_g_ancestor b w ltac:(lia) Hb) as [Hbanc Hbw].
    pose proof (sdom_g_le_semi b w (sd w) Hw Hb (Hsd w Hw)) as Hle.
    destruct (decide (b = sd w)) as [-> | Hne]; [by left | right].
    apply (sdom_g_restrict b (sd w) w); [lia | done | done | lia].
Qed.

(** If [u] has the least semidominator among the vertices strictly between
    [sd w] and [w] on the tree path (both included at the lower end), the
    immediate dominator of [u] is the immediate dominator of [w]. *)
Lemma relative_idom w u x :
  0 < w < c →
  tree_anc par (sd w) u → u ≠ sd w → tree_anc par u w →
  (∀ t, tree_anc par (sd w) t → t ≠ sd w → tree_anc par t w → sd u ≤ sd t) →
  is_idom E u x → is_idom E w x.
Proof.
  intros Hw Hsu Hne Huw Hmin [Hxu Hleast].
  destruct (is_sdom_ancestor w (sd w) Hw (Hsd w Hw)) as [Hanc Hlt].
  pose proof (tree_anc_le _ _ _ Hsu) as Hsu'.
  pose proof (tree_anc_le _ _ _ Huw) as Huw'.
  assert (0 < u < c) as Hu by lia.
  destruct (sdom_g_ancestor x u ltac:(lia) Hxu) as [Hxanc Hxlt].
  pose proof (sdom_g_le_semi x u (sd u) Hu Hxu (Hsd u Hu)) as Hxsd.
  split.
  - split_and!; [lia | lia |]. intros Hpath.
    destruct (decide (x = 0)) as [? | Hx0]; [done | exfalso].
    assert (tree_anc par x w) as Hxw by (by eapply tree_anc_trans).
    destruct (avoiding_path x w ltac:(lia) ltac:(lia) Hxw ltac:(lia) Hpath)
      as (m & x' & Hm & Hxm & Hmw & Hx' & Hcand).
    pose proof (tree_anc_le _ _ _ Hmw) as Hmw'.
    assert (0 < m < c) as Hmc by lia.
    destruct (Hsd m Hmc) as [Hcandm Hminm]. specialize (Hminm x' Hcand).
    destruct (decide (m ≤ sd w)) as [Hle | Hgt].
    + assert (tree_anc par m u) as Hmu.
      { eapply tree_anc_trans; [| exact Hsu].
        eapply tree_anc_comparable; [| exact Hmw | exact Hanc | done]. lia. }
      destruct Hxu as (_ & _ & Hdom). apply Hx0, Hdom.
      eapply ipath_app0.
      * apply (root_path (λ t, t ≠ x) (sd m)); [lia |].
        intros t _ Ht. apply tree_anc_le in Ht. lia.
      * eapply ipath_app0; [right |].
        -- apply (scand_ipath m (sd m) (λ t, t ≠ x)); [done | lia |].
           intros t Ht. lia.
        -- eapply ipath_mono; [| apply (tree_ipath m u ltac:(lia) Hmu ltac:(lia))].
           intros t (? & _). simpl. lia.
    + assert (sd u ≤ sd m); [| lia]. apply Hmin; [| lia | done].
      eapply tree_anc_comparable; [| exact Hanc | exact Hmw | lia]. lia.
  - intros b Hb.
    destruct (sdom_g_ancestor b w ltac:(lia) Hb) as [Hbanc Hbw].
    pose proof (sdom_g_le_semi b w (sd w) Hw Hb (Hsd w Hw)) as Hle.
    apply Hleast. apply (sdom_g_restrict b u w); [lia | done | done | lia].
Qed.
End theorems.
End flowgraph.

(** ** Path compression keeps the forest *)

Section forest_inv_proofs.
Context {Vertex : Type} `{Countable Vertex}.
Implicit Types s : LTState Vertex.
Variable par : list N.
Variable c : N.

Lemma semi_at_get s t x : vec_get (semi s) t = Some x → semi_at s t = x.
Proof. unfold semi_at. by intros ->. Qed.
Lemma ancestor_at_get s t x : vec_get (ancestor s) t = Some x → ancestor_at s t = x.
Proof. unfold ancestor_at. by intros ->. Qed.
Lemma label_at_get s t x : vec_get (label s) t = Some x → label_at s t = x.
Proof. unfold label_at. by intros ->. Qed.
Lemma idom_at_get s t x : vec_get (idom s) t = Some x → idom_at s t = x.
Proof. unfold idom_at. by intros ->. Qed.
Lemma bucket_at_get s t x : vec_get (bucket s) t = Some x → bucket_at s t = x.
Proof. unfold bucket_at. by intros ->. Qed.

Lemma default_set_eq {A} (d : A) (l : list A) i x :
  i < vec_size l → default d (vec_get (vec_set l i x) i) = x.
Proof. intros Hi. by rewrite vec_get_set_eq. Qed.

Lemma default_set_ne {A} (d : A) (l : list A) i j x :
  i ≠ j → default d (vec_get (vec_set l i x) j) = default d (vec_get l j).
Proof. intros Hi. by rewrite vec_get_set_ne. Qed.

Lemma linked_ok_ext k s s' v :
  ancestor_at s' v = ancestor_at s v → label_at s' v = label_at s v →
  (∀ t, k ≤ t → semi_at s' t = semi_at s t) →
  linked_ok par k s v → linked_ok par k s' v.
Proof.
  intros Ha Hl Hs [H1 H2 H3 H4 H5 H6].
  split; rewrite ?Ha, ?Hl; try done.
  intros t Ht Hanc. rewrite !Hs; [by apply H6 | by apply H3 | by apply H3].
Qed.

Lemma linked_ok_weaken k k' s v :
  k' ≤ k → linked_ok par k s v → linked_ok par k' s v.
Proof.
  intros Hk [H1 H2 H3 H4 H5 H6]. split; try done.
  intros t Ht Hanc. specialize (H3 t Ht Hanc). lia.
Qed.

(** A change of the entries of one linked index, and of [semi] below [k]. *)
Lemma forest_set k s s' v :
  forest par c k s →
  (∀ t, t ≠ v → ancestor_at s' t = ancestor_at s t ∧ label_at s' t = label_at s t) →
  (∀ t, k ≤ t → semi_at s' t = semi_at s t) →
  (v < c → k ≤ v → v ≠ 0 → linked_ok par k s' v) →
  (v < k ∨ v = 0 → ancestor_at s' v = ancestor_at s v ∧ label_at s' v = label_at s v) →
  forest par c k s'.
Proof.
  intros [Hroot Hlinked] Hsame Hsemi Hv Hv'. split.
  - intros t Ht Hr. destruct (decide (t = v)) as [-> | Hne].
    + destruct (Hv' Hr) as [-> ->]. by apply Hroot.
    + destruct (Hsame t Hne) as [-> ->]. by apply Hroot.
  - intros t Ht Hk Ht0. destruct (decide (t = v)) as [-> | Hne]; [by apply Hv |].
    destruct (Hsame t Hne) as [Ha Hl].
    eapply linked_ok_ext; [done | done | done |]. by apply Hlinked.
Qed.

Hypothesis Hpre : preorder par c.
Hypothesis Hc : c ≤ SIZE_MAX.

Lemma compressPath_forest k fuel v s :
  forest par c k s → v < c → k ≤ v → v ≠ 0 →
  wp any_error (compressPath fuel v)
    (λ _ s', forest par c k s' ∧ forest_frame s s' ∧
             (ancestor_at s' v < k ∨ ancestor_at s' v = 0) ∧
             ∀ t, v < t → ancestor_at s' t = ancestor_at s t ∧
                          label_at s' t = label_at s t) s.
Proof.
  revert v s. induction fuel as [|fuel IH]; intros v s Hfo Hv Hk Hv0; simpl; [done |].
  wp_bind_read a Ha. apply wp_bind, wp_solAssert; [intros _ | done]. cbv beta.
  wp_bind_read u Hu. assert (u = a) as -> by congruence. clear Hu.
  apply ancestor_at_get in Ha.
  pose proof (fo_linked _ _ _ _ Hfo v Hv Hk Hv0) as Hlk.
  pose proof (lk_lt _ _ _ _ Hlk) as Hav. rewrite Ha in Hav.
  pose proof (lk_anc _ _ _ _ Hlk) as Hanc. rewrite Ha in Hanc.
  wp_bind_read au Hau. apply ancestor_at_get in Hau.
  destruct (negb (au =? SIZE_MAX)) eqn:Hb.
  - apply negb_true_iff, N.eqb_neq in Hb.
    assert (k ≤ a ∧ a ≠ 0) as [Hka Ha0].
    { destruct (decide (a < k ∨ a = 0)) as [Hr | Hnr]; [| lia].
      destruct (fo_root _ _ _ _ Hfo a ltac:(lia) Hr) as [Hmax _]. congruence. }
    apply wp_bind. eapply wp_mono; [apply IH; [done | lia | done | done] |].
    intros [] s1 (Hfo1 & Hff1 & Hroot1 & Hsame1). cbv beta.
    destruct (Hsame1 v Hav) as [Hav1 Hlv1].
    pose proof (fo_linked _ _ _ _ Hfo1 a ltac:(lia) Hka Ha0) as Hlka.
    assert (∀ t, semi_at s1 t = semi_at s t) as Hsemi1.
    { intros t. unfold semi_at. by rewrite (ff_semi _ _ Hff1). }
    wp_bind_read lu Hlu. apply label_at_get in Hlu.
    wp_bind_read slu Hslu. apply semi_at_get in Hslu.
    wp_bind_read lv Hlv. apply label_at_get in Hlv.
    wp_bind_read slv Hslv. apply semi_at_get in Hslv.
    set (l' := if slu <? slv then lu else lv).
    apply wp_bind.
    apply wp_mono with
      (Q := λ _ s2, forest_frame s1 s2 ∧ ancestor s2 = ancestor s1 ∧
                    label_at s2 v = l' ∧
                    ∀ t, t ≠ v → label_at s2 t = label_at s1 t).
    { unfold l'. destruct (slu <? slv).
      - wp_bind_read lu' Hlu'. apply label_at_get in Hlu'.
        assert (lu' = lu) as -> by congruence.
        wp_last_write Hsz. split_and!; [by split | done | |].
        + unfold label_at. simpl. by apply default_set_eq.
        + intros t Hne. unfold label_at. simpl. by apply default_set_ne.
      - apply wp_ret. split_and!; [apply forest_frame_refl | done | done | done]. }
    intros [] s2 (Hff2 & Hanc2 & Hl2 & Hlsame2). cbv beta.
    assert (∀ t, ancestor_at s2 t = ancestor_at s1 t) as Ha2.
    { intros t. unfold ancestor_at. by rewrite Hanc2. }
    assert (∀ t, semi_at s2 t = semi_at s t) as Hsemi2.
    { intros t. unfold semi_at. by rewrite (ff_semi _ _ Hff2), (ff_semi _ _ Hff1). }
    wp_bind_read au' Hau'. apply ancestor_at_get in Hau'. rewrite Ha2 in Hau'.
    wp_last_write Hsz.
    set (s3 := set_ancestor (vec_set (ancestor s2) v au') s2).
    assert (ancestor_at s3 v = au') as Ha3.
    { unfold ancestor_at. simpl. by apply default_set_eq. }
    assert (∀ t, t ≠ v → ancestor_at s3 t = ancestor_at s1 t) as Ha3'.
    { intros t Hne. rewrite <- Ha2. unfold ancestor_at. simpl.
      by apply default_set_ne. }
    assert (∀ t, label_at s3 t = label_at s2 t) as Hl3 by done.
    assert (∀ t, semi_at s3 t = semi_at s t) as Hsemi3 by (intros t; apply Hsemi2).
    destruct Hlka as [Ka1 Ka2 Ka3 Ka4 Ka5 Ka6]. rewrite Hau' in *.
    rewrite Hlu in *.
    destruct Hlk as [Kv1 Kv2 Kv3 Kv4 Kv5 Kv6]. rewrite Ha in *.
    rewrite <- Hlv1, Hlv in *.
    assert (∀ t, tree_anc par t v → t ≤ a → tree_anc par t a) as Hcmp.
    { intros t Ht Hle.
      eapply (tree_anc_comparable par c Hpre); [exact Hv | done | done | done]. }
    split_and!.
    + apply (forest_set k s1 s3 v); [done | | | | intros ?; exfalso; lia].
      * intros t Hne. rewrite Ha3', Hl3, Hlsame2 by done. done.
      * intros t _. by rewrite Hsemi3, Hsemi1.
      * intros _ _ _. split; rewrite ?Ha3, ?Hl3, ?Hl2.
        -- lia.
        -- by eapply tree_anc_trans.
        -- intros t Ht Htv. destruct (decide (t ≤ a)) as [Hle | Hgt].
           ++ apply Ka3; [done | by apply Hcmp].
           ++ apply Kv3; [lia | done].
        -- unfold l'. destruct (slu <? slv); lia.
        -- unfold l'. destruct (slu <? slv); [by eapply tree_anc_trans | done].
        -- intros t Ht Htv. rewrite !Hsemi3. rewrite !Hsemi1 in *.
           assert (semi_at s l' ≤ slu ∧ semi_at s l' ≤ slv) as [Hl1 Hl2'].
           { unfold l'. destruct (N.ltb_spec slu slv); rewrite <- ?Hslu, <- ?Hslv; lia. }
           destruct (decide (t ≤ a)) as [Hle | Hgt].
           ++ specialize (Ka6 t Ht (Hcmp t Htv Hle)). rewrite ?Hsemi1 in Ka6. lia.
           ++ specialize (Kv6 t ltac:(lia) Htv). rewrite ?Hsemi1 in Kv6. lia.
    + eapply forest_frame_trans; [exact Hff1 |].
      eapply forest_frame_trans; [exact Hff2 |]. by split.
    + by rewrite Ha3.
    + intros t Ht. rewrite Ha3', Hl3, Hlsame2 by lia. apply Hsame1. lia.
  - apply negb_false_iff, N.eqb_eq in Hb. apply wp_ret.
    split_and!; [done | apply forest_frame_refl | | done].
    rewrite Ha. destruct (decide (a < k ∨ a = 0)) as [Hr | Hnr]; [done |].
    pose proof (fo_linked _ _ _ _ Hfo a ltac:(lia) ltac:(lia) ltac:(lia)) as Hlka.
    pose proof (lk_lt _ _ _ _ Hlka). lia.
Qed.

Lemma eval_forest k v s :
  forest par c k s → v < c →
  wp any_error (eval v)
    (λ u s', forest par c k s' ∧ forest_frame s s' ∧ eval_res par k s v u ∧
             (v < k ∨ v = 0 → s' = s)) s.
Proof.
  intros Hfo Hv. unfold eval. wp_bind_read a Ha. apply ancestor_at_get in Ha.
  destruct (negb (a =? SIZE_MAX)) eqn:Hb.
  - apply negb_true_iff, N.eqb_neq in Hb.
    assert (k ≤ v ∧ v ≠ 0) as [Hk Hv0].
    { destruct (decide (v < k ∨ v = 0)) as [Hr | Hnr]; [| lia].
      destruct (fo_root _ _ _ _ Hfo v Hv Hr) as [Hmax _]. congruence. }
    apply wp_bind, wp_get. apply wp_bind. eapply wp_mono.
    { by apply (compressPath_forest k). }
    intros [] s1 (Hfo1 & Hff1 & Hroot1 & _). cbv beta.
    apply wp_read; [| done]. intros u Hu. apply label_at_get in Hu.
    split_and!; [done | done | | lia].
    destruct (fo_linked _ _ _ _ Hfo1 v Hv Hk Hv0) as [K1 K2 K3 K4 K5 K6].
    rewrite Hu in *. split; [lia |]. intros _ _.
    split_and!; [by apply K3 | lia | done |].
    intros t Ht Ht0 Htv.
    assert (∀ t, semi_at s1 t = semi_at s t) as Hsemi1.
    { intros t'. unfold semi_at. by rewrite (ff_semi _ _ Hff1). }
    rewrite <- !Hsemi1. apply K6; [lia | done].
  - apply negb_false_iff, N.eqb_eq in Hb. apply wp_ret.
    split_and!; [done | apply forest_frame_refl | | done].
    split; [done |]. intros Hk Hv0.
    pose proof (fo_linked _ _ _ _ Hfo v Hv Hk Hv0) as Hlk.
    pose proof (lk_lt _ _ _ _ Hlk). lia.
Qed.
End forest_inv_proofs.

(** ** One iteration of the reverse pass *)

Section solving_proofs.
Context {Vertex : Type} `{Countable Vertex}.
Implicit Types s : LTState Vertex.
Variable par : list N.
Variable c : N.
Variable preds : list (list N).

Lemma forest_same k s s' :
  ancestor s' = ancestor s → label s' = label s → semi s' = semi s →
  forest par c k s → forest par c k s'.
Proof.
  intros Ha Hl Hs Hfo.
  apply (forest_set par c k s s' 0); [done | | | |].
  - intros t _. unfold ancestor_at, label_at. by rewrite Ha, Hl.
  - intros t _. unfold semi_at. by rewrite Hs.
  - intros _ ? ?. lia.
  - intros _. unfold ancestor_at, label_at. by rewrite Ha, Hl.
Qed.

Lemma decided_ext s s' v x :
  semi_at s' v = semi_at s v →
  (∀ t, semi_at s v < t → semi_at s' t = semi_at s t) →
  decided par s v x → decided par s' v x.
Proof.
  intros Hv Hs [[-> Hmin] | (Hx & Hanc & Hlt & Hmin)]; [left | right].
  - split; [done |]. rewrite Hv. intros t Ht Htv. rewrite Hs by done. by apply Hmin.
  - rewrite Hv, (Hs x Hx). split_and!; [done | done | done |].
    intros t Ht Htv. rewrite Hs by done. by apply Hmin.
Qed.

Hypothesis Hpre : preorder par c.
Hypothesis Hc : c ≤ SIZE_MAX.
Hypothesis Hpar0 : vec_get par 0 = Some SIZE_MAX.
Hypothesis Harc : ∀ p i, arc preds p i → p < c ∧ i < c ∧ (p < i → tree_anc par p i).
Hypothesis Htree : ∀ i, 0 < i < c → ∃ p, vec_get par i = Some p ∧ arc preds p i.

Lemma bucket_step_forest k w v s :
  forest par c k s → v < c →
  wp any_error (bucket_step w v)
    (λ _ s', forest par c k s' ∧ semi s' = semi s ∧ bucket s' = bucket s ∧
             parent s' = parent s ∧ predecessors s' = predecessors s ∧
             (∀ t, t ≠ v → idom_at s' t = idom_at s t) ∧
             (k ≤ v → v ≠ 0 → semi_at s v = w → k = w + 1 →
              decided par s' v (idom_at s' v))) s.
Proof.
  intros Hfo Hv. unfold bucket_step.
  apply wp_bind. eapply wp_mono; [by apply (eval_forest par c Hpre Hc k) |].
  intros u s1 (Hfo1 & Hff1 & [_ Hres] & _). cbv beta.
  assert (∀ t, semi_at s1 t = semi_at s t) as Hsemi1.
  { intros t. unfold semi_at. by rewrite (ff_semi _ _ Hff1). }
  wp_bind_read su Hsu. apply semi_at_get in Hsu.
  wp_bind_read sv Hsv. apply semi_at_get in Hsv.
  wp_last_write Hsz.
  set (x := if su <? sv then u else w).
  set (s2 := set_idom (vec_set (idom s1) v x) s1).
  assert (idom_at s2 v = x) as Hx.
  { unfold idom_at. simpl. by apply default_set_eq. }
  split_and!.
  - by apply (forest_same k s1).
  - apply (ff_semi _ _ Hff1).
  - apply (ff_bucket _ _ Hff1).
  - apply (ff_parent _ _ Hff1).
  - apply (ff_predecessors _ _ Hff1).
  - intros t Hne. unfold idom_at. simpl. rewrite default_set_ne by done.
    by rewrite (ff_idom _ _ Hff1).
  - intros Hk Hv0 Hw Hkw. rewrite Hx.
    destruct (Hres Hk Hv0) as (Hku & Hu0 & Huv & Hmin).
    assert (∀ t, semi_at s2 t = semi_at s t) as Hsemi2 by done.
    rewrite Hsemi1 in Hsu, Hsv.
    unfold decided. rewrite !Hsemi2. unfold x.
    destruct (N.ltb_spec su sv) as [Hlt | Hge]; [right | left].
    + rewrite ?Hsemi2. split_and!; [lia | done | lia |].
      intros t Ht Htv. rewrite ?Hsemi2. apply Hmin; [lia | lia | done].
    + split; [done |]. intros t Ht Htv. rewrite ?Hsemi2.
      specialize (Hmin t ltac:(lia) ltac:(lia) Htv). lia.
Qed.

Lemma semi_step_forest k w v s :
  forest par c k s → v < c → w < k →
  wp any_error (semi_step w v)
    (λ _ s', forest par c k s' ∧ bucket s' = bucket s ∧ idom s' = idom s ∧
             parent s' = parent s ∧ predecessors s' = predecessors s ∧
             (∀ t, t ≠ w → semi_at s' t = semi_at s t) ∧
             ∃ u, eval_res par k s v u ∧
                  semi_at s' w = N.min (semi_at s u) (semi_at s w)) s.
Proof.
  intros Hfo Hv Hw. unfold semi_step.
  apply wp_bind. eapply wp_mono; [by apply (eval_forest par c Hpre Hc k) |].
  intros u s1 (Hfo1 & Hff1 & Hres & _). cbv beta.
  assert (∀ t, semi_at s1 t = semi_at s t) as Hsemi1.
  { intros t. unfold semi_at. by rewrite (ff_semi _ _ Hff1). }
  wp_bind_read su Hsu. apply semi_at_get in Hsu.
  wp_bind_read sw Hsw. apply semi_at_get in Hsw.
  rewrite Hsemi1 in Hsu, Hsw.
  destruct (N.ltb_spec su sw) as [Hlt | Hge].
  - wp_bind_read su' Hsu'. apply semi_at_get in Hsu'. rewrite Hsemi1 in Hsu'.
    assert (su' = su) as -> by congruence.
    wp_last_write Hsz.
    set (s2 := set_semi (vec_set (semi s1) w su) s1).
    assert (semi_at s2 w = su) as Hw2.
    { unfold semi_at. simpl. by apply default_set_eq. }
    assert (∀ t, t ≠ w → semi_at s2 t = semi_at s t) as Hsemi2.
    { intros t Hne. rewrite <- Hsemi1. unfold semi_at. simpl.
      by apply default_set_ne. }
    split_and!.
    + apply (forest_set par c k s1 s2 0); [done | done | | |].
      * intros t Ht. rewrite Hsemi2, Hsemi1 by lia. done.
      * intros _ ? ?. lia.
      * done.
    + apply (ff_bucket _ _ Hff1).
    + apply (ff_idom _ _ Hff1).
    + apply (ff_parent _ _ Hff1).
    + apply (ff_predecessors _ _ Hff1).
    + done.
    + exists u. split; [done |]. rewrite Hw2. lia.
  - apply wp_ret. split_and!.
    + done.
    + apply (ff_bucket _ _ Hff1).
    + apply (ff_idom _ _ Hff1).
    + apply (ff_parent _ _ Hff1).
    + apply (ff_predecessors _ _ Hff1).
    + intros t _. apply Hsemi1.
    + exists u. split; [done |]. rewrite Hsemi1. lia.
Qed.

(** The candidates step 2 takes into account for the edge [v -> w]. *)
Lemma via_bound k w v u s y :
  k = w + 1 → arc preds v w →
  semi_at s w ≤ w →
  (∀ t, t < w → semi_at s t = t) →
  (∀ t, t < c → k ≤ t → t ≠ 0 → is_sdom (arc preds) t (semi_at s t)) →
  eval_res par k s v u → via preds v w y →
  N.min (semi_at s u) (semi_at s w) ≤ y.
Proof.
  intros -> Hvw Hsw Hroot Hsd [Hres1 Hres2] Hvia.
  destruct (Harc _ _ Hvw) as (Hv & Hwc & _).
  destruct (decide (v < w + 1 ∨ v = 0)) as [Hr | Hnr].
  - rewrite (Hres1 Hr). destruct Hvia as [-> | Hpath].
    + destruct (decide (v = w)) as [-> | Hne]; [lia |].
      rewrite (Hroot v) by lia. lia.
    + apply (ipath_end par c (arc preds) Harc) in Hpath. lia.
  - destruct (Hres2 ltac:(lia) ltac:(lia)) as (Hku & Hu0 & Huv & Hmin).
    destruct Hvia as [-> | Hpath].
    + specialize (Hmin v ltac:(lia) ltac:(lia) (tree_anc_refl _ _)).
      destruct (is_sdom_ancestor par c (arc preds) Hpre Harc Htree v (semi_at s v))
        as [_ Hlt]; [lia | apply Hsd; lia |]. lia.
    + destruct (ipath_min par c (arc preds) Hpre Harc w y v Hpath)
        as (m & Hm & Hmv & _ & Hcand).
      pose proof (tree_anc_le _ _ _ Hmv) as Hmle.
      specialize (Hmin m ltac:(lia) ltac:(lia) Hmv).
      destruct (Hsd m ltac:(lia) ltac:(lia) ltac:(lia)) as [_ Hleast].
      specialize (Hleast y Hcand). lia.
Qed.

Lemma scand_new k w v u s :
  k = w + 1 → arc preds v w →
  (∀ t, t < w → semi_at s t = t) →
  (∀ t, t < c → k ≤ t → t ≠ 0 → is_sdom (arc preds) t (semi_at s t)) →
  eval_res par k s v u → semi_at s u < semi_at s w →
  scand (arc preds) w (semi_at s u).
Proof.
  intros -> Hvw Hroot Hsd [Hres1 Hres2] Hlt.
  destruct (Harc _ _ Hvw) as (Hv & Hwc & _).
  destruct (decide (v < w + 1 ∨ v = 0)) as [Hr | Hnr].
  - rewrite (Hres1 Hr) in *.
    destruct (decide (v = w)) as [-> | Hne]; [lia |].
    rewrite (Hroot v) by lia. by left.
  - destruct (Hres2 ltac:(lia) ltac:(lia)) as (Hku & Hu0 & Huv & Hmin).
    pose proof (tree_anc_le _ _ _ Huv) as Hule.
    destruct (Hsd u ltac:(lia) ltac:(lia) ltac:(lia)) as [Hcand _].
    right. exists v. split; [| done].
    assert (ipath (arc preds) (λ t, w < t) (semi_at s u) u) as Hpath.
    { apply (scand_ipath (arc preds) u (semi_at s u) (λ t, w < t)); [done | lia |].
      intros t Ht. lia. }
    destruct (decide (u = v)) as [-> | Hne]; [done |].
    eapply (ipath_app (arc preds)); [exact Hpath |].
    eapply (ipath_mono (arc preds));
      [| apply (tree_ipath par c (arc preds) Htree u v Hv Huv Hne)].
    intros t (? & _). simpl. lia.
Qed.

Lemma tree_anc_inv a i :
  tree_anc par a i → a = i ∨ ∃ p, vec_get par i = Some p ∧ tree_anc par a p.
Proof. destruct 1 as [| i p Hp _ Hanc]; [by left | right; eauto]. Qed.

(** [link(parent[w], w)] when the indices above [w] have been linked. *)
Lemma forest_link k w s pw :
  forest par c k s → k = w + 1 → w < c → vec_get par w = Some pw →
  w < vec_size (ancestor s) →
  forest par c w (set_ancestor (vec_set (ancestor s) w pw) s).
Proof.
  intros Hfo -> Hw Hpw Hsz.
  set (s' := set_ancestor (vec_set (ancestor s) w pw) s).
  assert (ancestor_at s' w = pw) as Haw.
  { unfold ancestor_at. simpl. by apply default_set_eq. }
  assert (∀ t, t ≠ w → ancestor_at s' t = ancestor_at s t) as Ha.
  { intros t Hne. unfold ancestor_at. simpl. by apply default_set_ne. }
  assert (∀ t, label_at s' t = label_at s t) as Hl by done.
  assert (∀ t, semi_at s' t = semi_at s t) as Hs by done.
  destruct (fo_root _ _ _ _ Hfo w Hw) as [_ Hlw]; [lia |].
  split.
  - intros v Hv Hr. destruct (decide (v = w)) as [-> | Hne].
    + assert (w = 0) as -> by lia.
      rewrite Haw, Hl, Hlw. split; [congruence | done].
    + rewrite Ha, Hl by done. apply (fo_root _ _ _ _ Hfo); [done | lia].
  - intros v Hv Hk Hv0. destruct (decide (v = w)) as [-> | Hne].
    + destruct (Hpre w) as (p & Hp & Hlt & _); [lia |].
      assert (p = pw) as -> by congruence.
      assert (∀ t, pw < t → tree_anc par t w → t = w) as Hself.
      { intros t Ht [-> | (p' & Hp' & Hanc)]%tree_anc_inv; [done |].
        assert (p' = pw) as -> by congruence.
        apply tree_anc_le in Hanc. lia. }
      split; rewrite ?Haw, ?Hl, ?Hlw.
      * done.
      * eapply tree_anc_step; [done | done | constructor].
      * intros t Ht Htw. rewrite (Hself t Ht Htw). lia.
      * done.
      * constructor.
      * intros t Ht Htw. rewrite (Hself t Ht Htw), Hs. lia.
    + apply (linked_ok_weaken par (w + 1)); [lia |].
      eapply linked_ok_ext; [by apply Ha | apply Hl | intros; apply Hs |].
      apply (fo_linked _ _ _ _ Hfo); [done | lia | done].
Qed.

(** One iteration of the reverse pass, for the index below the processed ones. *)
Lemma process_solving k s :
  0 < k → k ≤ c → solving par c preds k s →
  wp any_error (process (k - 1)) (λ _ s', solving par c preds (k - 1) s') s.
Proof.
  intros Hk Hkc Hso. set (w := k - 1). assert (k = w + 1) as Hkw by lia.
  destruct Hso as [Hpar Hpreds Hfo Hsroot Hsd Hbucket Hpending Hdecided].
  unfold process. wp_bind_read b Hb. apply bucket_at_get in Hb.
  apply wp_bind. eapply wp_mono.
  { apply wp_for_each_acc with
      (I := λ done s1,
         forest par c k s1 ∧ semi s1 = semi s ∧ bucket s1 = bucket s ∧
         parent s1 = parent s ∧ predecessors s1 = predecessors s ∧
         (∀ t, t ∉ done → idom_at s1 t = idom_at s t) ∧
         (∀ v, v ∈ done → k ≤ v → v ≠ 0 → semi_at s v = w →
               decided par s1 v (idom_at s1 v))).
    - split_and!; try done. intros v Hv. by apply elem_of_nil in Hv.
    - intros done x s1 Hx (Hfo1 & Hs1 & Hb1 & Hp1 & Hpr1 & Hi1 & Hd1).
      assert (x < c) as Hxc.
      { destruct (Hbucket w x) as [[-> _] | (_ & _ & ? & _)];
          [by rewrite Hb | lia | done]. }
      eapply wp_mono; [by apply (bucket_step_forest k w x) |].
      intros [] s2 (Hfo2 & Hs2 & Hb2 & Hp2 & Hpr2 & Hi2 & Hd2).
      split_and!; [done | congruence | congruence | congruence | congruence | |].
      + intros t Ht. apply not_elem_of_app in Ht as [Ht Htx].
        rewrite Hi2; [by apply Hi1 |]. intros ->. apply Htx.
        by apply list_elem_of_singleton.
      + intros v Hv Hkv Hv0 Hsv. destruct (decide (v = x)) as [-> | Hne].
        * apply Hd2; try done. unfold semi_at. by rewrite Hs1.
        * rewrite Hi2 by done.
          apply elem_of_app in Hv as [Hv | Hv%list_elem_of_singleton]; [| done].
          eapply decided_ext; [| | by apply Hd1].
          -- unfold semi_at. by rewrite Hs2.
          -- intros t _. unfold semi_at. by rewrite Hs2. }
  intros [] s1 (Hfo1 & Hs1 & Hb1 & Hp1 & Hpr1 & Hi1 & Hd1). cbv beta.
  wp_bind_read p Hp. rewrite Hpr1, Hpreds in Hp.
  assert (∀ t, semi_at s1 t = semi_at s t) as Hsemi1.
  { intros t. unfold semi_at. by rewrite Hs1. }
  apply wp_bind. eapply wp_mono.
  { apply wp_for_each_acc with
      (I := λ done s2,
         forest par c k s2 ∧ bucket s2 = bucket s1 ∧ idom s2 = idom s1 ∧
         parent s2 = parent s1 ∧ predecessors s2 = predecessors s1 ∧
         (∀ t, t ≠ w → semi_at s2 t = semi_at s t) ∧
         semi_at s2 w ≤ w ∧
         (semi_at s2 w = w ∨ scand (arc preds) w (semi_at s2 w)) ∧
         (∀ v y, v ∈ done → via preds v w y → semi_at s2 w ≤ y)).
    - split_and!; try done.
      + rewrite Hsemi1, Hsroot; lia.
      + left. rewrite Hsemi1. apply Hsroot; lia.
      + intros v y Hv. by apply elem_of_nil in Hv.
    - intros done x s2 Hx (Hfo2 & Hb2 & Hi2 & Hp2 & Hpr2 & Hs2 & Hle2 & Hval2 & Hbd2).
      assert (arc preds x w) as Hxw by (by exists p).
      destruct (Harc _ _ Hxw) as (Hxc & Hwc & _).
      eapply wp_mono; [apply (semi_step_forest k w x); [done | done | lia] |].
      intros [] s3 (Hfo3 & Hb3 & Hi3 & Hp3 & Hpr3 & Hs3 & u & Hres & Hmin).
      assert (∀ t, t < w → semi_at s2 t = t) as Hroot2.
      { intros t Ht. rewrite Hs2 by lia. apply Hsroot; lia. }
      assert (∀ t, t < c → k ≤ t → t ≠ 0 →
                   is_sdom (arc preds) t (semi_at s2 t)) as Hsd2.
      { intros t ? ? ?. rewrite Hs2 by lia. by apply Hsd. }
      split_and!; [done | congruence | congruence | congruence | congruence | | | |].
      + intros t Ht. rewrite Hs3 by done. by apply Hs2.
      + lia.
      + rewrite Hmin.
        destruct (N.min_spec (semi_at s2 u) (semi_at s2 w)) as [[Hlt ->] | [Hge ->]].
        * right. by eapply (scand_new k w x u s2).
        * done.
      + intros v y Hv Hvia.
        apply elem_of_app in Hv as [Hv | ->%list_elem_of_singleton].
        * specialize (Hbd2 v y Hv Hvia). lia.
        * rewrite Hmin. by eapply (via_bound k w x u s2 y). }
  intros [] s2 (Hfo2 & Hb2 & Hi2 & Hp2 & Hpr2 & Hs2 & Hle2 & Hval2 & Hbd2). cbv beta.
  apply wp_bind. unfold bucket_push.
  wp_bind_read sw Hsw. apply semi_at_get in Hsw.
  wp_bind_read bb Hbb. apply bucket_at_get in Hbb.
  wp_last_write Hszb.
  wp_bind_read pw Hpw. unfold link. wp_last_write Hsza.
  simpl in Hpw, Hsza. rewrite Hp2, Hp1, Hpar in Hpw.
  set (s3 := set_bucket (vec_set (bucket s2) sw (bb ++ [w])) s2).
  set (s4 := set_ancestor (vec_set (ancestor s3) w pw) s3).
  assert (w < c) as Hwc by lia.
  assert (∀ t, semi_at s4 t = semi_at s2 t) as Hs4 by done.
  assert (∀ t, idom_at s4 t = idom_at s1 t) as Hi4.
  { intros t. unfold idom_at. simpl. by rewrite Hi2. }
  assert (∀ j, bucket_at s2 j = bucket_at s j) as Hbs2.
  { intros j. unfold bucket_at. by rewrite Hb2, Hb1. }
  assert (bucket_at s4 sw = bucket_at s sw ++ [w]) as Hb4.
  { rewrite <- Hbs2, Hbb. unfold bucket_at. simpl. by apply default_set_eq. }
  assert (∀ j, j ≠ sw → bucket_at s4 j = bucket_at s j) as Hb4'.
  { intros j Hne. rewrite <- Hbs2. unfold bucket_at. simpl. by apply default_set_ne. }
  assert (∀ j v, v ∈ bucket_at s j → v ∈ bucket_at s4 j) as Hb4sub.
  { intros j v Hv. destruct (decide (j = sw)) as [-> | Hne].
    - rewrite Hb4. apply elem_of_app. by left.
    - by rewrite Hb4'. }
  assert (w ≠ 0 → sw < w ∧ is_sdom (arc preds) w sw) as Hwsd.
  { intros Hw0. destruct (Htree w) as (p0 & Hp0 & Hp0w); [lia |].
    destruct (Hpre w) as (p0' & Hp0' & Hlt & _); [lia |].
    assert (p0' = p0) as -> by congruence.
    assert (p0 ∈ p) as Hin.
    { destruct Hp0w as (l & Hl & Hin). by assert (l = p) as -> by congruence. }
    pose proof (Hbd2 p0 p0 Hin (or_introl eq_refl)) as Hle.
    rewrite Hsw in *. split; [lia |]. split.
    - destruct Hval2 as [? | ?]; [lia | done].
    - intros y [Hyw | (z & Hpath & Hzw)].
      + destruct Hyw as (l & Hl & Hy). assert (l = p) as -> by congruence.
        by apply (Hbd2 y y Hy); left.
      + destruct Hzw as (l & Hl & Hz). assert (l = p) as -> by congruence.
        by apply (Hbd2 z y Hz); right. }
  replace (k - 1) with w by done.
  split.
  - simpl. congruence.
  - simpl. congruence.
  - apply (forest_link k w s3 pw); [| done | done | done | done].
    by apply (forest_same k s2).
  - intros v Hv Hr. rewrite Hs4. destruct (decide (v = w)) as [-> | Hne].
    + lia.
    + rewrite Hs2 by done. apply Hsroot; [done | lia].
  - intros v Hv Hkv Hv0. rewrite Hs4. destruct (decide (v = w)) as [-> | Hne].
    + rewrite Hsw. by apply Hwsd.
    + rewrite Hs2 by done. apply Hsd; [done | lia | done].
  - intros j v Hv. destruct (decide (j = sw)) as [-> | Hne].
    + rewrite Hb4 in Hv. apply elem_of_app in Hv as [Hv | ->%list_elem_of_singleton].
      * destruct (Hbucket sw v Hv) as [? | (? & ? & ? & Hsv)]; [by left | right].
        rewrite Hs4, Hs2 by lia. split_and!; [lia | done | done | done].
      * destruct (decide (w = 0)) as [Hw0 | Hw0]; [left; lia | right].
        rewrite Hs4, Hsw. split_and!; [lia | done | done | done].
    + rewrite Hb4' in Hv by done.
      destruct (Hbucket j v Hv) as [? | (? & ? & ? & Hsv)]; [by left | right].
      rewrite Hs4, Hs2 by lia. split_and!; [lia | done | done | done].
  - intros v Hv Hkv Hv0. rewrite Hs4. destruct (decide (v = w)) as [-> | Hne].
    + rewrite Hsw, Hb4. apply elem_of_app. right.
      by apply list_elem_of_singleton.
    + rewrite Hs2 by done. apply Hb4sub. apply Hpending; [done | lia | done].
  - intros v Hv Hkv Hv0. rewrite Hs4, Hi4. destruct (decide (v = w)) as [-> | Hne].
    + intros Hge. rewrite Hsw in Hge. destruct (Hwsd Hv0). lia.
    + rewrite Hs2 by done. intros Hge.
      assert (decided par s1 v (idom_at s1 v)) as Hdec.
      { destruct (decide (semi_at s v = w)) as [Hvw | Hvw].
        - apply Hd1; [| lia | done | done].
          rewrite <- Hb, <- Hvw. apply Hpending; [done | lia | done].
        - rewrite Hi1.
          + eapply decided_ext; [apply Hsemi1 | intros; apply Hsemi1 |].
            apply Hdecided; [done | lia | done | lia].
          + intros Hin. rewrite <- Hb in Hin.
            destruct (Hbucket w v Hin) as [[? _] | (_ & _ & _ & ?)]; done. }
      eapply decided_ext; [| | exact Hdec].
      * rewrite Hs4, Hs2, Hsemi1 by done. done.
      * intros t Ht. rewrite Hsemi1 in Ht. rewrite Hs4, Hs2, Hsemi1 by lia. done.
Qed.
End solving_proofs.

(** ** The reverse pass and step 4 *)

Section pass_solving.
Context {Vertex : Type} `{Countable Vertex}.
Implicit Types s : LTState Vertex.
Variable par : list N.
Variable c : N.
Variable preds : list (list N).

Lemma locals_same_refl s : locals_same s s.
Proof. by split. Qed.

Lemma locals_same_at s s' :
  locals_same s s' →
  (∀ t, semi_at s' t = semi_at s t) ∧ (∀ t, idom_at s' t = idom_at s t) ∧
  (∀ t, bucket_at s' t = bucket_at s t).
Proof.
  intros [H1 H2 H3 H4 H5 H6 H7]. unfold semi_at, idom_at, bucket_at.
  rewrite H1, H6, H7. done.
Qed.

Lemma toIdx_value (vtx : Vertex) s :
  wp any_error (toIdx vtx)
    (λ w s', w = default 0 (m_vertexIndices (this s) !! vtx) ∧ locals_same s s' ∧
             m_vertices (this s') = m_vertices (this s) ∧
             (is_Some (m_vertexIndices (this s) !! vtx) → s' = s) ∧
             (m_vertexIndices (this s') = m_vertexIndices (this s) ∨
              (m_vertexIndices (this s) !! vtx = None ∧
               m_vertexIndices (this s') = <[vtx := 0]> (m_vertexIndices (this s))))) s.
Proof.
  unfold wp, toIdx, lt_index_of, index_of.
  destruct (m_vertexIndices (this s) !! vtx) as [i |] eqn:Hi; simpl.
  - split_and!; auto. by split.
  - split_and!; auto; [by split | by intros [? ?]].
Qed.

Lemma indices_ok_keep s s' :
  m_vertices (this s') = m_vertices (this s) →
  (m_vertexIndices (this s') = m_vertexIndices (this s) ∨
   ∃ vtx, m_vertexIndices (this s) !! vtx = None ∧
          m_vertexIndices (this s') = <[vtx := 0]> (m_vertexIndices (this s))) →
  indices_ok c s → indices_ok c s'.
Proof.
  intros Hvs [Hidx | (vtx & Hnone & Hidx)] [Hnum Hstale]; split; rewrite Hvs, Hidx; try done.
  - intros i Hi. destruct (Hnum i Hi) as (v & Hv & Hvi). exists v. split; [done |].
    rewrite lookup_insert_ne; [done |]. congruence.
  - intros i v Hi Hv. destruct (decide (v = vtx)) as [-> | Hne].
    + by rewrite lookup_insert_eq.
    + rewrite lookup_insert_ne by done. by eapply Hstale.
Qed.

Lemma indices_ok_this s s' : this s' = this s → indices_ok c s → indices_ok c s'.
Proof. intros Ht. apply indices_ok_keep; rewrite Ht; auto. Qed.

Hypothesis Hpre : preorder par c.
Hypothesis Hc : c ≤ SIZE_MAX.
Hypothesis Hpar0 : vec_get par 0 = Some SIZE_MAX.
Hypothesis Harc : ∀ p i, arc preds p i → p < c ∧ i < c ∧ (p < i → tree_anc par p i).
Hypothesis Htree : ∀ i, 0 < i < c → ∃ p, vec_get par i = Some p ∧ arc preds p i.

Lemma solving_locals k s s' :
  locals_same s s' → solving par c preds k s → solving par c preds k s'.
Proof.
  intros Hls [Hp Hpr Hfo H1 H2 H3 H4 H5].
  destruct (locals_same_at _ _ Hls) as (Hs & Hi & Hb).
  destruct Hls as [L1 L2 L3 L4 L5 L6 L7].
  split.
  - congruence.
  - congruence.
  - by apply (forest_same par c k s).
  - intros v. rewrite Hs. apply H1.
  - intros v. rewrite Hs. apply H2.
  - intros j v. rewrite Hb, Hs. apply H3.
  - intros v. rewrite Hs, Hb. apply H4.
  - intros v Hv Hk Hv0. rewrite Hs, Hi. intros Hge.
    eapply decided_ext; [apply Hs | intros; apply Hs |]. by apply H5.
Qed.

Lemma finishing_locals j s s' :
  locals_same s s' → finishing par c preds j s → finishing par c preds j s'.
Proof.
  intros Hls [H1 H2 H3 H4 H5].
  destruct (locals_same_at _ _ Hls) as (Hs & Hi & Hb).
  split.
  - by rewrite Hs.
  - intros v. rewrite Hs. apply H2.
  - by rewrite Hi.
  - intros v. rewrite Hi. apply H4.
  - intros v Hv Hk Hv0. rewrite Hi.
    eapply decided_ext; [apply Hs | intros; apply Hs |]. by apply H5.
Qed.

(** An iteration of the reverse pass for a slot the search has not
    filled: index 0 is processed and nothing is linked yet. *)
Lemma process_stale s :
  0 < c → solving par c preds c s →
  wp any_error (process 0) (λ _ s', solving par c preds c s') s.
Proof.
  intros Hc0 [Hpar Hpreds Hfo Hsroot Hsd Hbucket Hpending Hdecided].
  unfold process. wp_bind_read b Hb. apply bucket_at_get in Hb.
  apply wp_bind. eapply wp_mono.
  { apply wp_for_each with
      (I := λ s1, forest par c c s1 ∧ semi s1 = semi s ∧ bucket s1 = bucket s ∧
                  parent s1 = parent s ∧ predecessors s1 = predecessors s).
    - done.
    - intros x s1 Hx (Hfo1 & Hs1 & Hb1 & Hp1 & Hpr1).
      assert (x = 0) as ->.
      { destruct (Hbucket 0 x) as [[-> _] | (? & _ & ? & _)]; [by rewrite Hb | done | lia]. }
      eapply wp_mono; [by apply (bucket_step_forest par c Hpre Hc c 0 0) |].
      intros [] s2 (Hfo2 & Hs2 & Hb2 & Hp2 & Hpr2 & _).
      split_and!; [done | congruence | congruence | congruence | congruence]. }
  intros [] s1 (Hfo1 & Hs1 & Hb1 & Hp1 & Hpr1). cbv beta.
  wp_bind_read p Hp. rewrite Hpr1, Hpreds in Hp.
  assert (∀ t, semi_at s1 t = semi_at s t) as Hsemi1.
  { intros t. unfold semi_at. by rewrite Hs1. }
  apply wp_bind. eapply wp_mono.
  { apply wp_for_each with
      (I := λ s2, forest par c c s2 ∧ (∀ t, semi_at s2 t = semi_at s t) ∧
                  bucket s2 = bucket s1 ∧
                  parent s2 = parent s1 ∧ predecessors s2 = predecessors s1).
    - done.
    - intros x s2 Hx (Hfo2 & Hs2 & Hb2 & Hp2 & Hpr2).
      assert (arc preds x 0) as Hx0 by (by exists p).
      destruct (Harc _ _ Hx0) as (Hxc & _ & _).
      eapply wp_mono; [by apply (semi_step_forest par c Hpre Hc c 0 x) |].
      intros [] s3 (Hfo3 & Hb3 & Hi3 & Hp3 & Hpr3 & Hs3 & u & Hres & Hmin).
      split_and!; [done | | congruence | congruence | congruence].
      intros t. destruct (decide (t = 0)) as [-> | Hne].
      + rewrite Hmin, !Hs2, (Hsroot 0) by auto. lia.
      + rewrite Hs3 by done. apply Hs2. }
  intros [] s2 (Hfo2 & Hs2 & Hb2 & Hp2 & Hpr2). cbv beta.
  apply wp_bind. unfold bucket_push.
  wp_bind_read sw Hsw. apply semi_at_get in Hsw.
  rewrite Hs2, Hsroot in Hsw by auto. subst sw.
  wp_bind_read bb Hbb. apply bucket_at_get in Hbb.
  wp_last_write Hszb.
  wp_bind_read pw Hpw. unfold link. wp_last_write Hsza.
  simpl in Hpw, Hsza. rewrite Hp2, Hp1, Hpar, Hpar0 in Hpw. injection Hpw as <-.
  set (s3 := set_bucket (vec_set (bucket s2) 0 (bb ++ [0])) s2).
  set (s4 := set_ancestor (vec_set (ancestor s3) 0 SIZE_MAX) s3).
  assert (∀ t, semi_at s4 t = semi_at s t) as Hs4 by done.
  assert (∀ j, bucket_at s2 j = bucket_at s j) as Hbs2.
  { intros j. unfold bucket_at. by rewrite Hb2, Hb1. }
  assert (bucket_at s4 0 = bucket_at s 0 ++ [0]) as Hb4.
  { rewrite <- Hbs2, Hbb. unfold bucket_at. simpl. by apply default_set_eq. }
  assert (∀ j, j ≠ 0 → bucket_at s4 j = bucket_at s j) as Hb4'.
  { intros j Hne. rewrite <- Hbs2. unfold bucket_at. simpl. by apply default_set_ne. }
  split.
  - simpl. congruence.
  - simpl. congruence.
  - apply (forest_set par c c s2 s4 0); [done | | | |].
    + intros t Hne. split; [| done]. unfold ancestor_at. simpl.
      by apply default_set_ne.
    + intros t _. by rewrite Hs4, Hs2.
    + intros _ ? _. lia.
    + intros _. split; [| done].
      destruct (fo_root _ _ _ _ Hfo2 0 Hc0) as [-> _]; [by right |].
      unfold ancestor_at. simpl. by apply default_set_eq.
  - intros v. rewrite Hs4. apply Hsroot.
  - intros v ? ?. lia.
  - intros j v Hv. left. destruct (decide (j = 0)) as [-> | Hne].
    + rewrite Hb4 in Hv. apply elem_of_app in Hv as [Hv | ->%list_elem_of_singleton]; [| done].
      destruct (Hbucket 0 v Hv) as [? | (? & _ & ? & _)]; [done | lia].
    + rewrite Hb4' in Hv by done.
      destruct (Hbucket j v Hv) as [? | (? & _ & ? & _)]; [done | lia].
  - intros v ? ?. lia.
  - intros v ? ?. lia.
Qed.

Lemma process_this w s :
  wp any_error (process w) (λ _ s', this s' = this s) s.
Proof.
  eapply wp_mono; [apply process_frame |]. by intros [] s' [(? & _) _].
Qed.

(** The iterations of the reverse pass for the numbered vertices. *)
Lemma reverse_sweep_solving (k : nat) s :
  N.of_nat k ≤ c → indices_ok c s → solving par c preds (N.of_nat k) s →
  wp any_error (for_each (rev (take k (m_vertices (this s)))) reverse_pass_body)
    (λ _ s', indices_ok c s' ∧ solving par c preds 0 s') s.
Proof.
  revert s. induction k as [|k IH]; intros s Hk Hio Hso.
  - rewrite take_0. simpl. by apply wp_ret.
  - destruct (io_numbered _ _ Hio (N.of_nat k)) as (vtx & Hvtx & Hidx); [lia |].
    unfold vec_get in Hvtx. rewrite Nat2N.id in Hvtx.
    rewrite (take_S_r _ _ _ Hvtx), rev_unit. simpl.
    apply wp_bind. unfold reverse_pass_body at 1.
    apply wp_bind. eapply wp_mono; [apply toIdx_value |].
    intros w s1 (-> & _ & _ & Hsame & _). cbv beta.
    rewrite (Hsame ltac:(eauto)), Hidx. simpl. clear Hsame.
    eapply wp_mono.
    { apply (wp_conj2 any_error); [apply process_this |].
      replace (N.of_nat k) with (N.of_nat (S k) - 1) by lia.
      apply (process_solving par c preds Hpre Hc Hpar0 Harc Htree); [lia | done | done]. }
    intros [] s2 (Hthis & Hso2). cbv beta.
    rewrite <- Hthis. apply IH; [lia | by apply (indices_ok_this s) |].
    by replace (N.of_nat k) with (N.of_nat (S k) - 1) by lia.
Qed.

Lemma reverse_pass_solving s :
  0 < c → indices_ok c s → solving par c preds c s →
  wp any_error reverse_pass
    (λ _ s', indices_ok c s' ∧ solving par c preds 0 s') s.
Proof.
  intros Hc0 Hio Hso. unfold reverse_pass. apply wp_bind, wp_get.
  rewrite <- (take_drop (N.to_nat c) (m_vertices (this s))).
  rewrite rev_app_distr. apply wp_for_each_app.
  eapply wp_mono.
  - apply wp_for_each with
      (I := λ s1, m_vertices (this s1) = m_vertices (this s) ∧
                  indices_ok c s1 ∧ solving par c preds c s1).
    + done.
    + intros vtx s1 Hvtx (Hvs1 & Hio1 & Hso1).
      assert (default 0 (m_vertexIndices (this s1) !! vtx) = 0) as Hzero.
      { apply list_elem_of_In, in_rev, list_elem_of_In in Hvtx.
        apply list_elem_of_lookup in Hvtx as [i Hi]. rewrite lookup_drop in Hi.
        apply (io_stale _ _ Hio1 (c + N.of_nat i)); [lia |].
        rewrite Hvs1. unfold vec_get.
        by replace (N.to_nat (c + N.of_nat i)) with (N.to_nat c + i)%nat by lia. }
      unfold reverse_pass_body. apply wp_bind.
      eapply wp_mono; [apply toIdx_value |].
      intros w s2 (-> & Hls2 & Hvs2 & _ & Hidx2). cbv beta. rewrite Hzero.
      eapply wp_mono.
      { apply (wp_conj2 any_error); [apply process_this |].
        apply process_stale; [done |]. by apply (solving_locals c s1). }
      intros [] s3 (Hthis & Hso3). split_and!; [congruence | | done].
      apply (indices_ok_this s2); [done |].
      apply (indices_ok_keep s1); [done | | done].
      destruct Hidx2 as [? | [? ?]]; eauto.
  - intros [] s1 (Hvs1 & Hio1 & Hso1). cbv beta.
    rewrite <- Hvs1. apply reverse_sweep_solving; [lia | done |].
    by rewrite N2Nat.id.
Qed.
End pass_solving.

Section finalize_solving.
Context {Vertex : Type} `{Countable Vertex}.
Implicit Types s : LTState Vertex.
Variable par : list N.
Variable c : N.
Variable preds : list (list N).
Hypothesis Hpre : preorder par c.
Hypothesis Harc : ∀ p i, arc preds p i → p < c ∧ i < c ∧ (p < i → tree_anc par p i).
Hypothesis Htree : ∀ i, 0 < i < c → ∃ p, vec_get par i = Some p ∧ arc preds p i.

(** Step 4 for the numbered vertex of index [j], the indices below [j]
    having their final value. *)
Lemma finalize_step_finishing j (vtx : Vertex) s :
  m_vertexIndices (this s) !! vtx = Some j → j ≠ 0 → j < c →
  finishing par c preds j s →
  wp any_error (finalize_step vtx)
    (λ _ s', this s' = this s ∧ finishing par c preds (j + 1) s') s.
Proof.
  intros Hidx Hj0 Hjc [Hs0 Hsd Hi0 Hdone Htodo]. unfold finalize_step.
  apply wp_bind. eapply wp_mono; [apply toIdx_value |].
  intros w s1 (-> & _ & _ & Hsame & _). cbv beta.
  rewrite (Hsame ltac:(eauto)), Hidx. simpl. clear Hsame.
  wp_bind_read iw Hiw. apply idom_at_get in Hiw.
  wp_bind_read sw Hsw. apply semi_at_get in Hsw.
  pose proof (Htodo j ltac:(lia) Hjc Hj0) as Hdec. rewrite Hiw in Hdec.
  set (sd := semi_at s).
  assert (∀ v, 0 < v < c → is_sdom (arc preds) v (sd v)) as Hsd'.
  { intros v Hv. apply Hsd; lia. }
  destruct (is_sdom_ancestor par c (arc preds) Hpre Harc Htree j (sd j))
    as [Hsanc Hslt]; [lia | apply Hsd'; lia |].
  destruct (negb (iw =? sw)) eqn:Hb.
  - apply negb_true_iff, N.eqb_neq in Hb.
    destruct Hdec as [[-> _] | (Hlt & Hanc & Hsemi & Hmin)]; [congruence |].
    wp_bind_read iw' Hiw'. apply idom_at_get in Hiw'.
    assert (iw' = iw) as -> by congruence. clear Hiw'.
    wp_bind_read iiw Hiiw. apply idom_at_get in Hiiw.
    wp_last_write Hsz.
    set (s2 := set_idom (vec_set (idom s) j iiw) s).
    assert (idom_at s2 j = iiw) as Hj2.
    { unfold idom_at. simpl. by apply default_set_eq. }
    assert (∀ t, t ≠ j → idom_at s2 t = idom_at s t) as Hi2.
    { intros t Hne. unfold idom_at. simpl. by apply default_set_ne. }
    assert (∀ t, semi_at s2 t = semi_at s t) as Hs2 by done.
    pose proof (tree_anc_le _ _ _ Hanc) as Hle.
    assert (iw ≠ j) as Hne by (intros ->; lia).
    split; [done |]. split.
    + done.
    + intros v. rewrite Hs2. apply Hsd.
    + by rewrite Hi2.
    + intros v Hv0 Hv Hvc. destruct (decide (v = j)) as [-> | Hvj].
      * rewrite Hj2, <- Hiiw.
        apply (relative_idom par c (arc preds) Hpre Harc Htree sd Hsd' j iw).
        -- lia.
        -- eapply (tree_anc_comparable par c Hpre); [| exact Hsanc | exact Hanc |];
             unfold sd; lia.
        -- unfold sd. lia.
        -- done.
        -- intros t Ht Hne' Htj. apply Hmin; [| done].
           apply tree_anc_le in Ht. unfold sd in *. lia.
        -- apply Hdone; [lia | lia | lia].
      * rewrite Hi2 by done. apply Hdone; [done | lia | done].
    + intros v Hv Hvc Hv0. rewrite Hi2 by lia.
      eapply decided_ext; [apply Hs2 | intros; apply Hs2 |]. apply Htodo; [lia | done | done].
  - apply negb_false_iff, N.eqb_eq in Hb. apply wp_ret.
    destruct Hdec as [[_ Hmin] | (Hlt & _)]; [| lia].
    split; [done |]. split; try done.
    + intros v Hv0 Hv Hvc. destruct (decide (v = j)) as [-> | Hvj].
      * rewrite Hiw, Hb, <- Hsw.
        apply (semi_is_idom par c (arc preds) Hpre Harc Htree sd Hsd' j); [lia |].
        intros t Ht Hne' Htj. apply Hmin; [| done].
        apply tree_anc_le in Ht. unfold sd in *. lia.
      * apply Hdone; [done | lia | done].
    + intros v Hv Hvc Hv0. apply Htodo; [lia | done | done].
Qed.

(** Step 4 for a slot the search has not filled. *)
Lemma finalize_step_stale j (vtx : Vertex) s :
  default 0 (m_vertexIndices (this s) !! vtx) = 0 →
  indices_ok c s → finishing par c preds j s →
  wp any_error (finalize_step vtx)
    (λ _ s', m_vertices (this s') = m_vertices (this s) ∧
             indices_ok c s' ∧ finishing par c preds j s') s.
Proof.
  intros Hzero Hio Hfi. unfold finalize_step.
  apply wp_bind. eapply wp_mono; [apply toIdx_value |].
  intros w s1 (-> & Hls & Hvs & _ & Hidx). cbv beta. rewrite Hzero.
  pose proof (finishing_locals par c preds j s s1 Hls Hfi) as Hfi1.
  assert (indices_ok c s1) as Hio1.
  { apply (indices_ok_keep c s); [done | | done]. destruct Hidx as [? | [? ?]]; eauto. }
  wp_bind_read iw Hiw. apply idom_at_get in Hiw.
  wp_bind_read sw Hsw. apply semi_at_get in Hsw.
  rewrite (fi_idom0 _ _ _ _ _ Hfi1) in Hiw. rewrite (fi_semi0 _ _ _ _ _ Hfi1) in Hsw.
  subst iw sw. simpl. by apply wp_ret.
Qed.

Lemma finalize_sweep (m : nat) (j : N) s :
  j ≠ 0 → j + N.of_nat m = c → indices_ok c s → finishing par c preds j s →
  wp any_error
    (for_each (take m (drop (N.to_nat j) (m_vertices (this s)))) finalize_step)
    (λ _ s', this s' = this s ∧ finishing par c preds c s') s.
Proof.
  revert j s. induction m as [|m IH]; intros j s Hj0 Hjm Hio Hfi.
  - rewrite take_0. simpl. apply wp_ret. split; [done |].
    by assert (j = c) as -> by lia.
  - destruct (io_numbered _ _ Hio j) as (vtx & Hvtx & Hidx); [lia |].
    unfold vec_get in Hvtx.
    rewrite (drop_S _ _ _ Hvtx). simpl.
    apply wp_bind. eapply wp_mono.
    { apply (finalize_step_finishing j); [done | done | lia | done]. }
    intros [] s1 (Hthis & Hfi1). cbv beta.
    rewrite <- Hthis.
    replace (S (N.to_nat j)) with (N.to_nat (j + 1)) by lia.
    eapply wp_mono.
    { apply IH; [lia | lia | by apply (indices_ok_this c s) | done]. }
    intros [] s2 (Hthis2 & Hfi2). split; [congruence | done].
Qed.

Lemma finalize_locals s :
  wp any_error finalize (λ _ s', semi s' = semi s ∧ bucket s' = bucket s) s.
Proof.
  unfold finalize. wp_bind_write Hsz. apply wp_bind, wp_get.
  apply wp_for_each with
    (I := λ s1 : LTState Vertex, semi s1 = semi s ∧ bucket s1 = bucket s); [done |].
  intros vtx s1 _ [Hs1 Hb1]. unfold finalize_step.
  apply wp_bind. eapply wp_mono; [apply toIdx_value |].
  intros w s2 (_ & Hls & _). cbv beta.
  destruct Hls as [L1 _ _ _ _ L6 _].
  wp_any; simpl; split; congruence.
Qed.

Lemma finalize_finishing s :
  0 < c → indices_ok c s → solving par c preds 0 s →
  wp any_error finalize
    (λ _ s', indices_ok c s' ∧ finishing par c preds c s') s.
Proof.
  intros Hc0 Hio [Hpar Hpreds Hfo Hsroot Hsd Hbucket Hpending Hdecided].
  unfold finalize. wp_bind_write Hsz.
  set (s1 := set_idom (vec_set (idom s) 0 0) s).
  assert (idom_at s1 0 = 0) as H01.
  { unfold idom_at. simpl. by apply default_set_eq. }
  assert (∀ t, t ≠ 0 → idom_at s1 t = idom_at s t) as Hi1.
  { intros t Hne. unfold idom_at. simpl. by apply default_set_ne. }
  assert (∀ t, semi_at s1 t = semi_at s t) as Hs1 by done.
  assert (finishing par c preds 1 s1) as Hfi1.
  { split.
    - rewrite Hs1. apply Hsroot; [done | by right].
    - intros v Hv Hv0. rewrite Hs1. apply Hsd; [done | lia | done].
    - done.
    - intros v ? ?. lia.
    - intros v Hv Hvc Hv0. rewrite Hi1 by done.
      eapply decided_ext; [apply Hs1 | intros; apply Hs1 |].
      apply Hdecided; [done | lia | done | lia]. }
  assert (indices_ok c s1) as Hio1 by (by apply (indices_ok_this c s)).
  apply wp_bind, wp_get.
  rewrite <- (take_drop (N.to_nat c - 1) (drop 1 (m_vertices (this s1)))).
  apply wp_for_each_app. eapply wp_mono.
  { apply (finalize_sweep (N.to_nat c - 1) 1 s1); [done | lia | done | done]. }
  intros [] s2 (Hthis2 & Hfi2). cbv beta.
  eapply wp_mono.
  - apply wp_for_each with
      (I := λ s3, m_vertices (this s3) = m_vertices (this s1) ∧
                  indices_ok c s3 ∧ finishing par c preds c s3).
    + split_and!; [by rewrite Hthis2 | by apply (indices_ok_this c s1) | done].
    + intros vtx s3 Hvtx (Hvs3 & Hio3 & Hfi3).
      assert (default 0 (m_vertexIndices (this s3) !! vtx) = 0) as Hzero.
      { apply list_elem_of_lookup in Hvtx as [i Hi].
        rewrite drop_drop, lookup_drop in Hi.
        apply (io_stale _ _ Hio3 (c + N.of_nat i)); [lia |].
        rewrite Hvs3. unfold vec_get.
        by replace (N.to_nat (c + N.of_nat i))
          with (1 + (N.to_nat c - 1) + i)%nat by lia. }
      eapply wp_mono; [by apply (finalize_step_stale c) |].
      intros [] s4 (Hvs4 & Hio4 & Hfi4). split_and!; [congruence | done | done].
  - intros [] s3 (_ & Hio3 & Hfi3). done.
Qed.
End finalize_solving.

Lemma wp_any_error {St A} (E : error → Prop) (m : M St A) (Q : A → St → Prop) (st : St) :
  wp E m Q st → wp any_error m Q st.
Proof. unfold wp. by destruct (m st). Qed.

(** ** The computed immediate dominators *)

Section lt_idoms.
Context {Vertex : Type} `{Countable Vertex}.
Variable ForEachSuccessor : Vertex → list Vertex.
Variable dflt _entry : Vertex.
Variable n : N.
Implicit Types s : LTState Vertex.
Hypothesis Hmax : n ≤ SIZE_MAX.

Lemma graph_of_lt_inv s :
  lt_inv n s →
  preorder (parent s) (dfIdx s) ∧ dfIdx s ≤ SIZE_MAX ∧
  vec_get (parent s) 0 = Some SIZE_MAX ∧
  (∀ p i, arc (predecessors s) p i →
     p < dfIdx s ∧ i < dfIdx s ∧ (p < i → tree_anc (parent s) p i)) ∧
  (∀ i, 0 < i < dfIdx s →
     ∃ p, vec_get (parent s) i = Some p ∧ arc (predecessors s) p i).
Proof.
  intros Hinv. pose proof (li_dfIdx _ _ Hinv). split_and!.
  - apply (li_parent _ _ Hinv).
  - lia.
  - apply (li_parent0 _ _ Hinv).
  - intros p i (l & Hl & Hp).
    destruct (li_preds _ _ Hinv i l p Hl Hp) as (? & ? & ?). done.
  - intros i Hi. destruct (li_pred_parent _ _ Hinv i Hi) as (p & l & Hp & Hl & Hin).
    exists p. split; [done |]. by exists l.
Qed.

Lemma solving_after_dfs s :
  dfs_inv n s →
  solving (parent s) (dfIdx s) (predecessors s) (dfIdx s) s.
Proof.
  intros Hinv. pose proof (di_dfIdx _ _ Hinv) as Hc. split.
  - done.
  - done.
  - split.
    + intros v Hv _. unfold ancestor_at, label_at.
      rewrite (di_ancestor _ _ Hinv), vec_get_new by lia.
      by rewrite (di_label _ _ Hinv).
    + intros v ? ?. lia.
  - intros v Hv _. unfold semi_at. rewrite (di_semi _ _ Hinv) by lia.
    by destruct (N.ltb_spec v (dfIdx s)); [| lia].
  - intros v ? ?. lia.
  - intros j v. unfold bucket_at. rewrite (di_bucket _ _ Hinv).
    destruct (vec_get (vec_new n []) j) as [l |] eqn:Hl; simpl;
      [apply vec_get_new_inv in Hl as [-> _] |];
      intros Hv; by apply elem_of_nil in Hv.
  - intros v ? ?. lia.
  - intros v ? ?. lia.
Qed.

Lemma indices_after_dfs s :
  dfs_inv n s → stale_ok dflt s →
  (∀ i, m_vertexIndices (this s) !! dflt = Some i → i = 0) →
  indices_ok (dfIdx s) s.
Proof.
  intros Hinv Hstale Hdflt. split.
  - intros i Hi.
    destruct (vec_get_is_Some (m_vertices (this s)) i) as [v Hv].
    { rewrite (di_size_vertices _ _ Hinv). pose proof (di_dfIdx _ _ Hinv). lia. }
    exists v. split; [done |]. by apply (di_index _ _ Hinv).
  - intros i vtx Hi Hvtx. rewrite (Hstale i vtx Hi Hvtx).
    destruct (m_vertexIndices (this s) !! dflt) as [j |] eqn:Hj; [| done].
    simpl. by apply Hdflt.
Qed.

Hypothesis Hdflt : reachable ForEachSuccessor _entry dflt → dflt = _entry.

(** The state after steps 1 to 3. *)
Lemma sweep_result :
  0 < n →
  wp any_error (dfs_phase ForEachSuccessor _entry n;; reverse_pass)
    (λ _ s, lt_inv n s ∧ sweep 0 s ∧ indices_ok (dfIdx s) s ∧
            solving (parent s) (dfIdx s) (predecessors s) 0 s)
    (lt_locals (Dominator_init dflt n) n).
Proof.
  intros Hn. apply wp_bind.
  eapply wp_mono.
  { eapply wp_any_error. by apply (dfs_phase_result ForEachSuccessor dflt _entry n). }
  intros [] s1 (Hinv1 & Hdinv1 & Hentry1 & Hstale1 & _ & Hmore1 & _ & _).
  cbv beta.
  destruct (graph_of_lt_inv s1 Hinv1) as (Hpre & Hc & Hpar0 & Harc & Htree).
  pose proof (li_dfIdx _ _ Hinv1) as Hc0.
  assert (indices_ok (dfIdx s1) s1) as Hio1.
  { apply indices_after_dfs; [done | done |]. intros i Hi.
    assert (dflt = _entry) as Heq.
    { apply Hdflt, (dm_reach _ _ _ Hmore1), (di_visited _ _ Hdinv1). eauto. }
    rewrite Heq in Hi.
    assert (m_vertexIndices (this s1) !! _entry = Some 0) as H0.
    { apply (di_index _ _ Hdinv1). split; [lia | done]. }
    congruence. }
  eapply wp_mono.
  { apply (wp_conj2 any_error); [by apply (reverse_pass_safe n any_error) |].
    apply (reverse_pass_solving (parent s1) (dfIdx s1) (predecessors s1));
      try done; [lia | by apply solving_after_dfs]. }
  intros [] s2 ((Hinv2 & Hsf2 & Hsweep2) & Hio2 & Hso2).
  rewrite (sf_parent _ _ Hsf2), (sf_dfIdx _ _ Hsf2), (sf_predecessors _ _ Hsf2).
  done.
Qed.

Lemma lt_body_idoms :
  0 < n →
  wp any_error (lt_body ForEachSuccessor _entry n)
    (λ _ s, finishing (parent s) (dfIdx s) (predecessors s) (dfIdx s) s)
    (lt_locals (Dominator_init dflt n) n).
Proof.
  intros Hn. unfold lt_body.
  pose proof (sweep_result Hn) as Hsweep. unfold wp in Hsweep |- *.
  unfold bind in Hsweep |- *.
  destruct (dfs_phase ForEachSuccessor _entry n _) as [[] s1 | e]; [| done].
  destruct (reverse_pass s1) as [[] s2 | e]; [| done].
  destruct Hsweep as (Hinv2 & Hsweep2 & Hio2 & Hso2).
  destruct (graph_of_lt_inv s2 Hinv2) as (Hpre & Hc & Hpar0 & Harc & Htree).
  pose proof (li_dfIdx _ _ Hinv2) as Hc0.
  change (wp any_error finalize
    (λ _ s, finishing (parent s) (dfIdx s) (predecessors s) (dfIdx s) s) s2).
  eapply wp_mono.
  { apply (wp_conj2 any_error); [by apply (finalize_safe n any_error) |].
    apply (finalize_finishing (parent s2) (dfIdx s2) (predecessors s2));
      try done; lia. }
  intros [] s3 ((Hinv3 & Hsf3 & _) & Hio3 & Hfi3).
  rewrite (sf_parent _ _ Hsf3), (sf_dfIdx _ _ Hsf3), (sf_predecessors _ _ Hsf3).
  done.
Qed.
(** The buckets when [lengauerTarjanDominator] returns. *)
Lemma lt_body_buckets :
  0 < n →
  wp any_error (lt_body ForEachSuccessor _entry n)
    (λ _ s, ∀ j v, v ≠ 0 →
       v ∈ bucket_at s j ↔ v < dfIdx s ∧ semi_at s v = j)
    (lt_locals (Dominator_init dflt n) n).
Proof.
  intros Hn. unfold lt_body.
  pose proof (sweep_result Hn) as Hsweep. unfold wp in Hsweep |- *.
  unfold bind in Hsweep |- *.
  destruct (dfs_phase ForEachSuccessor _entry n _) as [[] s1 | e]; [| done].
  destruct (reverse_pass s1) as [[] s2 | e]; [| done].
  destruct Hsweep as (Hinv2 & Hsweep2 & Hio2 & Hso2).
  change (wp any_error finalize
    (λ _ s, ∀ j v, v ≠ 0 →
       v ∈ bucket_at s j ↔ v < dfIdx s ∧ semi_at s v = j) s2).
  eapply wp_mono.
  { apply (wp_conj2 any_error); [by apply (finalize_safe n any_error) |].
    apply finalize_locals. }
  intros [] s3 ((_ & Hsf3 & _) & Hs3 & Hb3) j v Hv0.
  unfold bucket_at, semi_at. rewrite Hs3, Hb3, (sf_dfIdx _ _ Hsf3).
  split.
  - intros Hv. destruct (so_bucket _ _ _ _ _ Hso2 j v Hv) as [[? _] | (_ & _ & ? & ?)]; done.
  - intros [Hv <-]. apply (so_pending _ _ _ _ _ Hso2); [done | lia | done].
Qed.
End lt_idoms.

(** ** The reverse pass stopped between two iterations *)

Section pass_from.
Context {Vertex : Type} `{Countable Vertex}.
Implicit Types s : LTState Vertex.
Variable par : list N.
Variable c : N.
Variable preds : list (list N).
Hypothesis Hpre : preorder par c.
Hypothesis Hc : c ≤ SIZE_MAX.
Hypothesis Hpar0 : vec_get par 0 = Some SIZE_MAX.
Hypothesis Harc : ∀ p i, arc preds p i → p < c ∧ i < c ∧ (p < i → tree_anc par p i).
Hypothesis Htree : ∀ i, 0 < i < c → ∃ p, vec_get par i = Some p ∧ arc preds p i.

(** The iterations for the slots the search has not filled. *)
Lemma stale_sweep_solving s :
  0 < c → indices_ok c s → solving par c preds c s →
  wp any_error
    (for_each (rev (drop (N.to_nat c) (m_vertices (this s)))) reverse_pass_body)
    (λ _ s1, m_vertices (this s1) = m_vertices (this s) ∧
             indices_ok c s1 ∧ solving par c preds c s1) s.
Proof.
  intros Hc0 Hio Hso.
  apply wp_for_each with
    (I := λ s1, m_vertices (this s1) = m_vertices (this s) ∧
                indices_ok c s1 ∧ solving par c preds c s1); [done |].
  intros vtx s1 Hvtx (Hvs1 & Hio1 & Hso1).
  assert (default 0 (m_vertexIndices (this s1) !! vtx) = 0) as Hzero.
  { apply list_elem_of_In, in_rev, list_elem_of_In in Hvtx.
    apply list_elem_of_lookup in Hvtx as [i Hi]. rewrite lookup_drop in Hi.
    apply (io_stale _ _ Hio1 (c + N.of_nat i)); [lia |].
    rewrite Hvs1. unfold vec_get.
    by replace (N.to_nat (c + N.of_nat i)) with (N.to_nat c + i)%nat by lia. }
  unfold reverse_pass_body. apply wp_bind.
  eapply wp_mono; [apply toIdx_value |].
  intros w s2 (-> & Hls2 & Hvs2 & _ & Hidx2). cbv beta. rewrite Hzero.
  eapply wp_mono.
  { apply (wp_conj2 any_error); [apply process_this |].
    apply (process_stale par c preds Hpre Hc Hpar0 Harc); [done |].
    by apply (solving_locals par c preds c s1). }
  intros [] s3 (Hthis & Hso3). split_and!; [congruence | | done].
  apply (indices_ok_this c s2); [done |].
  apply (indices_ok_keep c s1); [done | | done].
  destruct Hidx2 as [? | [? ?]]; eauto.
Qed.

(** The iterations for the numbered vertices from [j] up. *)
Lemma reverse_sweep_from (j k : nat) s :
  N.of_nat (j + k) ≤ c → indices_ok c s →
  solving par c preds (N.of_nat (j + k)) s →
  wp any_error
    (for_each (rev (take k (drop j (m_vertices (this s))))) reverse_pass_body)
    (λ _ s', indices_ok c s' ∧ solving par c preds (N.of_nat j) s') s.
Proof.
  revert s. induction k as [|k IH]; intros s Hk Hio Hso.
  - rewrite take_0. simpl. apply wp_ret. split; [done |].
    by replace (j + 0)%nat with j in Hso by lia.
  - destruct (io_numbered _ _ Hio (N.of_nat (j + k))) as (vtx & Hvtx & Hidx); [lia |].
    unfold vec_get in Hvtx. rewrite Nat2N.id in Hvtx.
    assert (drop j (m_vertices (this s)) !! k = Some vtx) as Hvtx'.
    { by rewrite lookup_drop. }
    rewrite (take_S_r _ _ _ Hvtx'), rev_unit. simpl.
    apply wp_bind. unfold reverse_pass_body at 1.
    apply wp_bind. eapply wp_mono; [apply toIdx_value |].
    intros w s1 (-> & _ & _ & Hsame & _). cbv beta.
    rewrite (Hsame ltac:(eauto)), Hidx. simpl. clear Hsame.
    eapply wp_mono.
    { apply (wp_conj2 any_error); [apply process_this |].
      replace (N.of_nat (j + k)) with (N.of_nat (j + S k) - 1) by lia.
      apply (process_solving par c preds Hpre Hc Hpar0 Harc Htree); [lia | done | done]. }
    intros [] s2 (Hthis & Hso2). cbv beta.
    rewrite <- Hthis. apply IH; [lia | by apply (indices_ok_this c s) |].
    by replace (N.of_nat (j + k)) with (N.of_nat (j + S k) - 1) by lia.
Qed.

Lemma reverse_pass_from_solving (k : nat) s :
  0 < c → N.of_nat k ≤ c → indices_ok c s → solving par c preds c s →
  wp any_error (reverse_pass_from k)
    (λ _ s', indices_ok c s' ∧ solving par c preds (N.of_nat k) s') s.
Proof.
  intros Hc0 Hk Hio Hso. unfold reverse_pass_from. apply wp_bind, wp_get.
  rewrite <- (take_drop (N.to_nat c - k) (drop k (m_vertices (this s)))).
  rewrite drop_drop, rev_app_distr.
  replace (k + (N.to_nat c - k))%nat with (N.to_nat c) by lia.
  apply wp_for_each_app.
  eapply wp_mono; [by apply stale_sweep_solving |].
  intros [] s1 (Hvs1 & Hio1 & Hso1). cbv beta.
  rewrite <- Hvs1. apply reverse_sweep_from; [lia | done |].
  by replace (N.of_nat (k + (N.to_nat c - k))) with c by lia.
Qed.
End pass_from.

Section pass_from_safe.
Context {Vertex : Type} `{Countable Vertex}.
Variable n : N.
Implicit Types s : LTState Vertex.

Lemma reverse_pass_from_safe E (k : nat) s :
  lt_inv n s →
  wp E (reverse_pass_from k) (λ _ s', lt_inv n s' ∧ solver_frame s s') s.
Proof.
  intros Hinv. unfold reverse_pass_from. apply wp_bind, wp_get.
  apply wp_for_each with (I := λ s1, lt_inv n s1 ∧ solver_frame s s1).
  - split; [done | apply solver_frame_refl].
  - intros vtx s1 _ [Hinv1 Hsf1]. eapply wp_mono.
    + by apply reverse_pass_body_safe.
    + intros [] s2 [Hinv2 Hsf2]. split; [done |].
      by eapply solver_frame_trans.
Qed.
End pass_from_safe.

Section pass_from_result.
Context {Vertex : Type} `{Countable Vertex}.
Variable ForEachSuccessor : Vertex → list Vertex.
Variable dflt _entry : Vertex.
Variable n : N.
Implicit Types s : LTState Vertex.

(** The forest when the reverse pass has handled the slots from [k] up. *)
Lemma reverse_pass_from_forest (k : nat) s0 s :
  lt_run_dfs ForEachSuccessor (Dominator_init dflt n) _entry n = Ok tt s0 →
  n ≤ SIZE_MAX →
  (∀ i, m_vertexIndices (this s0) !! dflt = Some i → i = 0) →
  N.of_nat k ≤ dfIdx s0 →
  reverse_pass_from k s0 = Ok tt s →
  lt_inv n s ∧ forest (parent s) (dfIdx s) (N.of_nat k) s.
Proof.
  intros Hdfs Hmax Hdflt Hk Hrun.
  assert (lt_inv n s0 ∧ dfs_inv n s0 ∧ stale_ok dflt s0) as (Hinv0 & Hdfs0 & Hstale0).
  { unfold lt_run_dfs, bind, solAssert in Hdfs.
    destruct (N.ltb_spec 0 n) as [Hn | _]; [| done]. simpl in Hdfs.
    destruct (Dominator_init_spec dflt n) as [Hsz Hidx].
    pose proof (wp_ok _ _ _ _ _ _
      (dfs_phase_spec ForEachSuccessor n _entry _ Hn Hsz Hidx) Hdfs)
      as (? & ? & _).
    pose proof (wp_ok _ _ _ _ _ _
      (dfs_stale ForEachSuccessor dflt _ _entry _ (lt_locals_stale dflt n)) Hdfs).
    done. }
  destruct (graph_of_lt_inv n Hmax _ Hinv0) as (Hpre & Hc & Hpar0 & Harc & Htree).
  pose proof (indices_after_dfs dflt n Hmax s0 Hdfs0 Hstale0 Hdflt) as Hio.
  pose proof (li_dfIdx _ _ Hinv0) as Hc0.
  pose proof (wp_ok _ _ _ _ _ _
    (reverse_pass_from_safe n (λ _, False) k _ Hinv0) Hrun) as (Hinv1 & Hsf1).
  pose proof (wp_ok _ _ _ _ _ _
    (reverse_pass_from_solving (parent s0) (dfIdx s0) (predecessors s0)
       Hpre Hc Hpar0 Harc Htree k s0 ltac:(lia) Hk Hio (solving_after_dfs n Hmax _ Hdfs0)) Hrun) as (_ & Hso).
  split; [done |].
  rewrite (sf_parent _ _ Hsf1), (sf_dfIdx _ _ Hsf1).
  apply (so_forest _ _ _ _ _ Hso).
Qed.
End pass_from_result.

(** ** From the indices to the graph *)

Section chain_dominators.
Variable par : list N.
Variable c : N.
Variable E : N → N → Prop.
Hypothesis Hpre : preorder par c.
Hypothesis HE : ∀ p i, E p i → p < c ∧ i < c ∧ (p < i → tree_anc par p i).
Hypothesis Htree : ∀ i, 0 < i < c → ∃ p, vec_get par i = Some p ∧ E p i.

(** A walk from index 0 goes through [x] or avoids it. *)
Lemma ipath_through (P : N → Prop) w x :
  ipath E P 0 w → ipath E (λ t, P t ∧ t ≠ x) 0 w ∨ ipath E P 0 x.
Proof.
  induction 1 as [z Hxz Hz | y z Hxy IH Hyz Hz].
  - destruct (decide (z = x)) as [-> | Hne].
    + right. by apply ipath_edge.
    + left. by apply ipath_edge.
  - destruct IH as [IH | IH]; [| by right].
    destruct (decide (z = x)) as [-> | Hne].
    + right. eapply ipath_step; eauto.
    + left. eapply ipath_step; eauto.
Qed.

Lemma sdom_g_trans a x w :
  w < c → sdom_g E a x → sdom_g E x w → sdom_g E a w.
Proof.
  intros Hw Hax Hxw.
  destruct (sdom_g_ancestor par c E Hpre Htree x w Hw Hxw) as [_ Hlt].
  destruct (sdom_g_ancestor par c E Hpre Htree a x ltac:(lia) Hax) as [_ Hlt'].
  destruct Hax as (_ & Hx0 & Hax). destruct Hxw as (_ & Hw0 & Hxw).
  split_and!; [lia | done |]. intros Hpath.
  destruct (ipath_through (λ t, t ≠ a) w x Hpath) as [Hp | Hp].
  - destruct Hx0. apply Hxw. eapply ipath_mono; [| exact Hp]. by intros t [_ ?].
  - by apply Hax.
Qed.
End chain_dominators.

Section chain_dom_le.
Context {Vertex : Type} `{Countable Vertex}.
Variable _entry : Vertex.
Variable par : list N.
Variable c : N.
Variable E : N → N → Prop.
Variable d : Dominator Vertex.
Hypothesis Hpre : preorder par c.
Hypothesis HE : ∀ p i, E p i → p < c ∧ i < c ∧ (p < i → tree_anc par p i).
Hypothesis Htree : ∀ i, 0 < i < c → ∃ p, vec_get par i = Some p ∧ E p i.
Hypothesis Hinv : dom_inv _entry c d.
Hypothesis Hidom : ∀ v, 0 < v < c →
  ∃ j, vec_get (m_immediateDominators d) v = Some j ∧ is_idom E v j.

(** The chain of immediate dominators of [y] holds the strict dominators
    of [y] other than index 0. *)
Lemma dominators_idx_sdom_g y x :
  y < c → x ≠ 0 → x ∈ dominators_idx d y ↔ sdom_g E x y.
Proof.
  revert x. induction y as [y IH] using (well_founded_induction N.lt_wf_0).
  intros x Hy Hx0.
  destruct (decide (y = 0)) as [-> | Hy0].
  { rewrite (dominators_idx_0 _entry c) by done. split.
    - by intros ?%elem_of_nil.
    - by intros (_ & ? & _). }
  destruct (Hidom y) as (j & Hj & [Hjy Hleast]); [lia |].
  destruct (sdom_g_ancestor par c E Hpre Htree j y Hy Hjy) as [_ Hlt].
  rewrite (dominators_idx_unfold _entry c) by done. rewrite Hj.
  destruct (N.eqb_spec j 0) as [-> | Hj0].
  - split; [by intros ?%elem_of_nil |]. intros Hxy.
    destruct (Hleast x Hxy) as [? | (_ & ? & _)]; done.
  - rewrite elem_of_cons, (IH j Hlt x ltac:(lia) Hx0). split.
    + intros [-> | Hxj]; [done |]. by eapply (sdom_g_trans par c E).
    + intros Hxy. destruct (Hleast x Hxy) as [? | ?]; auto.
Qed.

Lemma dom_le_dom_g x y : y < c → dom_le d x y ↔ dom_g E x y.
Proof.
  intros Hy. unfold dom_le, dom_g. split.
  - intros [-> | [-> | Hx]]; [by left | |].
    + destruct (decide (0 = y)) as [? | Hne]; [by left | right].
      split_and!; [done | done | done].
    + right. apply dominators_idx_sdom_g; [done | | done].
      pose proof (dominators_idx_bound _entry c d y x Hinv Hy Hx). lia.
  - intros [-> | Hxy]; [by left | right].
    destruct (decide (x = 0)) as [? | Hne]; [by left | right].
    by apply dominators_idx_sdom_g.
Qed.
End chain_dom_le.

Section walk_proofs.
Context {Vertex : Type} `{Countable Vertex}.
Variable ForEachSuccessor : Vertex → list Vertex.
Variable _entry : Vertex.

Lemma walk_snoc x l z :
  walk ForEachSuccessor x (l ++ [z]) ↔
  walk ForEachSuccessor x l ∧
  ∃ y, last (x :: l) = Some y ∧ edge ForEachSuccessor y z.
Proof.
  revert x. induction l as [|y l IH]; intros x; simpl.
  - split.
    + intros [Hxz _]. split; [done |]. by exists x.
    + intros [_ (y & [= <-] & Hyz)]. done.
  - rewrite IH. split.
    + intros (Hxy & Hw & y' & Hy' & Hyz). split; [done |]. by exists y'.
    + intros ((Hxy & Hw) & y' & Hy' & Hyz). split; [done |]. split; [done |].
      by exists y'.
Qed.

Lemma walk_reachable x l y :
  reachable ForEachSuccessor _entry x → walk ForEachSuccessor x l → y ∈ l →
  reachable ForEachSuccessor _entry y.
Proof.
  revert x. induction l as [|z l IH]; intros x Hx Hw Hy; simpl in *.
  - by apply elem_of_nil in Hy.
  - destruct Hw as [Hxz Hw].
    assert (reachable ForEachSuccessor _entry z) as Hz by (by eapply rtc_r).
    apply elem_of_cons in Hy as [-> | Hy]; [done |]. by eapply IH.
Qed.

Lemma reachable_walk v :
  reachable ForEachSuccessor _entry v →
  ∃ l, walk ForEachSuccessor _entry l ∧ last (_entry :: l) = Some v.
Proof.
  intros Hv.
  eapply (rtc_ind_r (λ v, ∃ l, walk ForEachSuccessor _entry l ∧
                               last (_entry :: l) = Some v)); [| | exact Hv].
  - by exists [].
  - intros y z _ Hyz (l & Hw & Hlast). exists (l ++ [z]). split.
    + apply walk_snoc. split; [done |]. by exists y.
    + by rewrite app_comm_cons, last_snoc.
Qed.

Lemma last_elem_of (l : list Vertex) x : last l = Some x → x ∈ l.
Proof.
  induction l as [|y l IH]; [done |].
  destruct l as [|z l]; simpl in *.
  - intros [= ->]. left.
  - intros Hx. right. by apply IH.
Qed.

Lemma dominates_in_graph_refl v : dominates_in_graph ForEachSuccessor _entry v v.
Proof. intros l _ Hlast. by apply last_elem_of. Qed.

Lemma dominates_in_graph_reachable a v :
  reachable ForEachSuccessor _entry v →
  dominates_in_graph ForEachSuccessor _entry a v →
  reachable ForEachSuccessor _entry a.
Proof.
  intros Hv Hdom. destruct (reachable_walk v Hv) as (l & Hw & Hlast).
  specialize (Hdom l Hw Hlast). apply elem_of_cons in Hdom as [-> | Ha].
  - apply rtc_refl.
  - eapply walk_reachable; [apply rtc_refl | done | done].
Qed.
End walk_proofs.

Section graph_transfer.
Context {Vertex : Type} `{Countable Vertex}.
Variable ForEachSuccessor : Vertex → list Vertex.
Variable dflt _entry : Vertex.
Variable n : N.
Variable s : LTState Vertex.
Hypothesis Hres : lt_result ForEachSuccessor dflt _entry n s.

Lemma numbered_reachable i v :
  i < dfIdx s → vec_get (m_vertices (this s)) i = Some v →
  reachable ForEachSuccessor _entry v.
Proof.
  intros Hi Hv. apply (lr_reach _ _ _ _ _ Hres), (lr_visited _ _ _ _ _ Hres). eauto.
Qed.

Lemma reachable_numbered v :
  reachable ForEachSuccessor _entry v →
  ∃ i, i < dfIdx s ∧ vec_get (m_vertices (this s)) i = Some v.
Proof.
  intros Hv. by apply (lr_visited _ _ _ _ _ Hres), (lr_reach _ _ _ _ _ Hres).
Qed.

Lemma numbered_index i v :
  i < dfIdx s → vec_get (m_vertices (this s)) i = Some v →
  m_vertexIndices (this s) !! v = Some i.
Proof.
  intros Hi Hv.
  destruct (li_index _ _ (lr_inv _ _ _ _ _ Hres) i Hi) as (v' & Hv' & Hidx).
  by assert (v' = v) as -> by congruence.
Qed.

Lemma numbered_inj i j v :
  i < dfIdx s → j < dfIdx s →
  vec_get (m_vertices (this s)) i = Some v →
  vec_get (m_vertices (this s)) j = Some v → i = j.
Proof.
  intros Hi Hj Hvi Hvj.
  pose proof (numbered_index i v Hi Hvi). pose proof (numbered_index j v Hj Hvj).
  congruence.
Qed.

Lemma numbered_vertex i :
  i < dfIdx s → ∃ v, vec_get (m_vertices (this s)) i = Some v.
Proof.
  intros Hi.
  destruct (li_index _ _ (lr_inv _ _ _ _ _ Hres) i Hi) as (v & Hv & _). eauto.
Qed.

Lemma arc_bound p i : arc (predecessors s) p i → p < dfIdx s ∧ i < dfIdx s.
Proof.
  intros (l & Hl & Hp).
  destruct (li_preds _ _ (lr_inv _ _ _ _ _ Hres) i l p Hl Hp) as (? & ? & _). done.
Qed.

Lemma arc_edge p i u w :
  p < dfIdx s → i < dfIdx s →
  vec_get (m_vertices (this s)) p = Some u →
  vec_get (m_vertices (this s)) i = Some w →
  arc (predecessors s) p i ↔ edge ForEachSuccessor u w.
Proof.
  intros Hp Hi Hu Hw. symmetry. by apply (lr_edges _ _ _ _ _ Hres).
Qed.

(** A walk in the graph from a numbered vertex, seen on the indices. *)
Lemma walk_ipath (P : N → Prop) l x ix :
  ix < dfIdx s → vec_get (m_vertices (this s)) ix = Some x →
  walk ForEachSuccessor x l → l ≠ [] →
  (∀ y iy, y ∈ l → iy < dfIdx s →
           vec_get (m_vertices (this s)) iy = Some y → P iy) →
  ∃ z iz, last l = Some z ∧ iz < dfIdx s ∧
          vec_get (m_vertices (this s)) iz = Some z ∧
          ipath (arc (predecessors s)) P ix iz.
Proof.
  revert x ix. induction l as [|y l IH]; intros x ix Hix Hx Hw Hne HP; [done |].
  destruct Hw as [Hxy Hw].
  assert (reachable ForEachSuccessor _entry y) as Hy.
  { eapply rtc_r; [by eapply numbered_reachable | done]. }
  destruct (reachable_numbered y Hy) as (iy & Hiy & Hvy).
  assert (arc (predecessors s) ix iy) as Harc by (by apply (arc_edge ix iy x y)).
  assert (P iy) as HPy by (apply (HP y); [left | done | done]).
  destruct l as [|y' l].
  - exists y, iy. split_and!; [done | done | done |]. by apply ipath_edge.
  - destruct (IH y iy Hiy Hvy Hw ltac:(done)) as (z & iz & Hlast & Hiz & Hvz & Hpath).
    { intros y0 iy0 Hy0. apply HP. by right. }
    exists z, iz. split_and!; [done | done | done |].
    eapply ipath_app; [by apply ipath_edge | done].
Qed.

(** A walk on the indices, seen in the graph. *)
Lemma ipath_walk (P : N → Prop) ix iz x :
  ix < dfIdx s → vec_get (m_vertices (this s)) ix = Some x →
  ipath (arc (predecessors s)) P ix iz →
  ∃ l z, walk ForEachSuccessor x l ∧ last (x :: l) = Some z ∧
         iz < dfIdx s ∧ vec_get (m_vertices (this s)) iz = Some z ∧
         ∀ y, y ∈ l → ∃ iy, iy < dfIdx s ∧
                            vec_get (m_vertices (this s)) iy = Some y ∧ P iy.
Proof.
  intros Hix Hx. induction 1 as [iz Harc Hz | iy iz Hpath IH Harc Hz].
  - destruct (arc_bound _ _ Harc) as [_ Hiz].
    destruct (numbered_vertex iz Hiz) as [z Hvz].
    exists [z], z. split_and!; [| done | done | done |].
    + split; [| done]. by apply (arc_edge ix iz x z).
    + intros y ->%list_elem_of_singleton. eauto.
  - destruct IH as (l & y & Hw & Hlast & Hiy & Hvy & HP).
    destruct (arc_bound _ _ Harc) as [_ Hiz].
    destruct (numbered_vertex iz Hiz) as [z Hvz].
    exists (l ++ [z]), z. split_and!; [| | done | done |].
    + apply walk_snoc. split; [done |]. exists y. split; [done |].
      by apply (arc_edge iy iz y z).
    + by rewrite app_comm_cons, last_snoc.
    + intros y0 [Hy0 | ->%list_elem_of_singleton]%elem_of_app; eauto.
Qed.

Lemma entry_numbered : vec_get (m_vertices (this s)) 0 = Some _entry.
Proof. apply (lr_entry _ _ _ _ _ Hres). Qed.

Lemma count_pos : 0 < dfIdx s.
Proof. apply (li_dfIdx _ _ (lr_inv _ _ _ _ _ Hres)). Qed.

(** Strict dominance on the indices is strict dominance in the graph. *)
Lemma sdom_g_strictly_dominates a w va vw :
  a < dfIdx s → w < dfIdx s →
  vec_get (m_vertices (this s)) a = Some va →
  vec_get (m_vertices (this s)) w = Some vw →
  sdom_g (arc (predecessors s)) a w ↔
  strictly_dominates ForEachSuccessor _entry va vw.
Proof.
  intros Ha Hw Hva Hvw. pose proof entry_numbered as He. pose proof count_pos as Hc.
  split.
  - intros (Hne & Hw0 & Hdom). split.
    + intros ->. apply Hne. by eapply numbered_inj.
    + intros l Hwalk Hlast.
      destruct (decide (va ∈ _entry :: l)) as [? | Hnin]; [done | exfalso].
      destruct l as [|y l].
      { simpl in Hlast. injection Hlast as <-. apply Hw0.
        by eapply (numbered_inj w 0 _entry). }
      destruct (walk_ipath (λ t, t ≠ a) (y :: l) _entry 0 Hc He Hwalk ltac:(done))
        as (z & iz & Hz & Hiz & Hvz & Hpath).
      { intros y0 iy0 Hy0 Hiy0 Hvy0 ->. apply Hnin. right.
        by assert (va = y0) as -> by congruence. }
      assert (z = vw) as -> by (simpl in Hlast; congruence).
      assert (iz = w) as -> by (by eapply numbered_inj).
      specialize (Hdom Hpath). subst a. apply Hnin, elem_of_cons. left. congruence.
  - intros [Hne Hdom]. split_and!.
    + intros ->. apply Hne. congruence.
    + intros ->. apply Hne.
      assert (vw = _entry) as -> by congruence.
      specialize (Hdom [] I eq_refl). by apply list_elem_of_singleton in Hdom.
    + intros Hpath.
      destruct (ipath_walk (λ t, t ≠ a) 0 w _entry Hc He Hpath)
        as (l & z & Hwalk & Hlast & _ & Hvz & HP).
      assert (z = vw) as -> by congruence.
      specialize (Hdom l Hwalk Hlast). apply elem_of_cons in Hdom as [-> | Hin].
      * by eapply (numbered_inj a 0 _entry).
      * destruct (HP va Hin) as (ia & Hia & Hvia & Hnea).
        destruct Hnea. by eapply numbered_inj.
Qed.

Lemma dom_g_dominates a w va vw :
  a < dfIdx s → w < dfIdx s →
  vec_get (m_vertices (this s)) a = Some va →
  vec_get (m_vertices (this s)) w = Some vw →
  dom_g (arc (predecessors s)) a w ↔
  dominates_in_graph ForEachSuccessor _entry va vw.
Proof.
  intros Ha Hw Hva Hvw. unfold dom_g.
  rewrite (sdom_g_strictly_dominates a w va vw) by done. split.
  - intros [-> | [_ Hdom]]; [| done].
    assert (va = vw) as -> by congruence. apply dominates_in_graph_refl.
  - intros Hdom. destruct (decide (va = vw)) as [-> | Hne].
    + left. by eapply numbered_inj.
    + right. by split.
Qed.

Lemma is_idom_immediate_dominator w x vw vx :
  w < dfIdx s → x < dfIdx s →
  vec_get (m_vertices (this s)) w = Some vw →
  vec_get (m_vertices (this s)) x = Some vx →
  is_idom (arc (predecessors s)) w x →
  immediate_dominator ForEachSuccessor _entry vx vw.
Proof.
  intros Hw Hx Hvw Hvx [Hsd Hleast]. split.
  - by apply (sdom_g_strictly_dominates x w).
  - intros va Hva.
    assert (reachable ForEachSuccessor _entry va) as Hra.
    { apply (dominates_in_graph_reachable ForEachSuccessor _entry va vw);
        [by apply (numbered_reachable w) | apply Hva]. }
    destruct (reachable_numbered va Hra) as (a & Ha & Hvia).
    apply (dom_g_dominates a x); [done | done | done | done |].
    apply Hleast. by apply (sdom_g_strictly_dominates a w va vw).
Qed.
End graph_transfer.

(** ** The results *)

Section dominance_results.
Context {Vertex : Type} `{Countable Vertex}.
Variable ForEachSuccessor : Vertex → list Vertex.
Variable Vertex_default : Vertex.
Implicit Types d : Dominator Vertex.

Lemma idom_at_some (s : LTState Vertex) v :
  v < vec_size (idom s) → vec_get (idom s) v = Some (idom_at s v).
Proof.
  intros Hv. destruct (vec_get_is_Some _ _ Hv) as [x Hx].
  unfold idom_at. by rewrite Hx.
Qed.

Lemma semi_at_some (s : LTState Vertex) v :
  v < vec_size (semi s) → vec_get (semi s) v = Some (semi_at s v).
Proof.
  intros Hv. destruct (vec_get_is_Some _ _ Hv) as [x Hx].
  unfold semi_at. by rewrite Hx.
Qed.

(** The state in which [lengauerTarjanDominator] returns, when the
    value-initialised vertex is the entry or cannot be reached. *)
Lemma lt_run_finishing (_entry : Vertex) (n : N) s :
  lt_run ForEachSuccessor (Dominator_init Vertex_default n) _entry n = Ok tt s →
  n ≤ SIZE_MAX →
  (reachable ForEachSuccessor _entry Vertex_default → Vertex_default = _entry) →
  lt_result ForEachSuccessor Vertex_default _entry n s ∧
  finishing (parent s) (dfIdx s) (predecessors s) (dfIdx s) s.
Proof.
  intros Hrun Hmax Hdflt.
  pose proof (lt_run_result ForEachSuccessor Vertex_default _entry n) as Hres.
  rewrite Hrun in Hres. destruct Hres as [Hn Hres]. split; [done |].
  unfold lt_run, bind, solAssert in Hrun.
  destruct (N.ltb_spec 0 n) as [_ | ?]; [| lia]. simpl in Hrun.
  by apply (wp_ok _ _ _ _ _ _
    (lt_body_idoms ForEachSuccessor Vertex_default _entry n Hmax Hdflt Hn) Hrun).
Qed.

Lemma ctor_state (_entry : Vertex) (n : N) d :
  Dominator_ctor ForEachSuccessor Vertex_default _entry n = Ok tt d →
  n ≤ SIZE_MAX →
  (reachable ForEachSuccessor _entry Vertex_default → Vertex_default = _entry) →
  ∃ s, lt_result ForEachSuccessor Vertex_default _entry n s ∧
       finishing (parent s) (dfIdx s) (predecessors s) (dfIdx s) s ∧
       m_vertices d = m_vertices (this s) ∧
       m_vertexIndices d = m_vertexIndices (this s) ∧
       m_immediateDominators d = idom s ∧
       dom_inv _entry (dfIdx s) d.
Proof.
  intros Hctor Hmax Hdflt.
  destruct (Dominator_ctor_inv _ _ _ _ _ Hctor) as (s & Hrun & Hi & Hinv).
  pose proof (Dominator_ctor_spec ForEachSuccessor Vertex_default _entry n) as Hspec.
  rewrite Hctor in Hspec. destruct Hspec as (s' & Hrun' & Hvs & Hidx & _).
  assert (s' = s) as -> by congruence.
  destruct (lt_run_finishing _entry n s Hrun Hmax Hdflt) as [Hres Hfi].
  exists s. done.
Qed.

Lemma finishing_idoms (_entry : Vertex) (n : N) s d :
  lt_result ForEachSuccessor Vertex_default _entry n s →
  finishing (parent s) (dfIdx s) (predecessors s) (dfIdx s) s →
  m_immediateDominators d = idom s →
  ∀ v, 0 < v < dfIdx s →
    ∃ j, vec_get (m_immediateDominators d) v = Some j ∧
         is_idom (arc (predecessors s)) v j.
Proof.
  intros Hres Hfi Hi v Hv. exists (idom_at s v). split.
  - rewrite Hi. apply idom_at_some.
    rewrite (li_size_idom _ _ (lr_inv _ _ _ _ _ Hres)).
    pose proof (li_dfIdx _ _ (lr_inv _ _ _ _ _ Hres)). lia.
  - apply (fi_done _ _ _ _ _ Hfi); lia.
Qed.

Lemma idom_immediate (_entry : Vertex) (n : N) s d (v : Vertex) :
  lt_result ForEachSuccessor Vertex_default _entry n s →
  finishing (parent s) (dfIdx s) (predecessors s) (dfIdx s) s →
  m_vertices d = m_vertices (this s) →
  m_vertexIndices d = m_vertexIndices (this s) →
  m_immediateDominators d = idom s →
  n ≤ SIZE_MAX →
  reachable ForEachSuccessor _entry v → v ≠ _entry →
  ∃ i x u, 0 < i < dfIdx s ∧ x < i ∧
           m_vertexIndices d !! v = Some i ∧
           vec_get (m_immediateDominators d) i = Some x ∧
           vec_get (m_vertices d) x = Some u ∧
           immediate_dominator ForEachSuccessor _entry u v ∧
           ∀ u', immediate_dominator ForEachSuccessor _entry u' v → u' = u.
Proof.
  intros Hres Hfi Hvs Hidx Hi Hmax Hv Hne.
  pose proof (lr_inv _ _ _ _ _ Hres) as Hlt.
  destruct (graph_of_lt_inv n Hmax s Hlt) as (Hpre & Hc & Hpar0 & Harc & Htree).
  destruct (reachable_numbered _ _ _ _ s Hres v Hv) as (i & Hic & Hvi).
  assert (i ≠ 0) as Hi0.
  { intros ->. rewrite (lr_entry _ _ _ _ _ Hres) in Hvi. congruence. }
  destruct (finishing_idoms _entry n s d Hres Hfi Hi i ltac:(lia)) as (x & Hx & Hidom).
  destruct (sdom_g_ancestor _ _ _ Hpre Htree x i Hic (proj1 Hidom)) as [_ Hxi].
  destruct (numbered_vertex _ _ _ _ s Hres x ltac:(lia)) as [u Hu].
  pose proof (is_idom_immediate_dominator _ _ _ _ s Hres i x v u Hic ltac:(lia)
                Hvi Hu Hidom) as Himm.
  exists i, x, u. rewrite Hidx, Hvs. split_and!; try done; try lia.
  - by apply (numbered_index _ _ _ _ s Hres).
  - intros u' [Hsd' Hleast'].
    assert (reachable ForEachSuccessor _entry u') as Hru'.
    { apply (dominates_in_graph_reachable ForEachSuccessor _entry u' v Hv), Hsd'. }
    destruct (reachable_numbered _ _ _ _ s Hres u' Hru') as (x' & Hx'c & Hu').
    destruct Himm as [Hsd Hleast].
    pose proof (Hleast u' Hsd') as H1. pose proof (Hleast' u Hsd) as H2.
    apply (dom_g_dominates _ _ _ _ s Hres x' x u' u) in H1; [| done | lia | done | done].
    apply (dom_g_dominates _ _ _ _ s Hres x x' u u') in H2; [| lia | done | done | done].
    assert (x' = x) as ->; [| congruence].
    destruct H1 as [? | H1]; [done |]. destruct H2 as [? | H2]; [done |].
    apply (sdom_g_ancestor _ _ _ Hpre Htree) in H1 as [_ ?]; [| lia].
    apply (sdom_g_ancestor _ _ _ Hpre Htree) in H2 as [_ ?]; [| lia]. lia.
Qed.

(** X16: The entry of [immediateDominators()] for a reachable vertex [v]
    other than the entry is the index of the immediate dominator of [v]:
    the one vertex that strictly dominates [v] and is dominated by every
    strict dominator of [v]. *)
Theorem idom_is_immediate_dominator (_entry : Vertex) (n : N) d (v : Vertex) :
  Dominator_ctor ForEachSuccessor Vertex_default _entry n = Ok tt d →
  n ≤ SIZE_MAX →
  (reachable ForEachSuccessor _entry Vertex_default → Vertex_default = _entry) →
  reachable ForEachSuccessor _entry v → v ≠ _entry →
  ∃ i x u, m_vertexIndices d !! v = Some i ∧
           vec_get (m_immediateDominators d) i = Some x ∧
           vec_get (m_vertices d) x = Some u ∧
           immediate_dominator ForEachSuccessor _entry u v ∧
           ∀ u', immediate_dominator ForEachSuccessor _entry u' v → u' = u.
Proof.
  intros Hctor Hmax Hdflt Hv Hne.
  destruct (ctor_state _entry n d Hctor Hmax Hdflt)
    as (s & Hres & Hfi & Hvs & Hidx & Hi & Hinv).
  destruct (idom_immediate _entry n s d v Hres Hfi Hvs Hidx Hi Hmax Hv Hne)
    as (i & x & u & _ & _ & ? & ? & ? & ? & ?).
  by exists i, x, u.
Qed.

(** X20: The index of a reachable vertex [u] is a key of the dominator tree
    exactly when [u] is the immediate dominator of a reachable vertex. *)
Theorem dominatorTree_keys (_entry : Vertex) (n : N) d (u : Vertex) (k : N) :
  Dominator_ctor ForEachSuccessor Vertex_default _entry n = Ok tt d →
  n ≤ SIZE_MAX →
  (reachable ForEachSuccessor _entry Vertex_default → Vertex_default = _entry) →
  reachable ForEachSuccessor _entry u → m_vertexIndices d !! u = Some k →
  is_Some (m_dominatorTree d !! k) ↔
  ∃ v, reachable ForEachSuccessor _entry v ∧
       immediate_dominator ForEachSuccessor _entry u v.
Proof.
  intros Hctor Hmax Hdflt Hu Hk.
  destruct (ctor_state _entry n d Hctor Hmax Hdflt)
    as (s & Hres & Hfi & Hvs & Hidx & Hi & Hinv).
  pose proof (Dominator_ctor_result ForEachSuccessor Vertex_default _entry n) as Hb.
  rewrite Hctor in Hb. destruct Hb as [c' Hb].
  rewrite (bt_tree _ _ _ _ _ _ Hb k).
  pose proof (lr_inv _ _ _ _ _ Hres) as Hlt.
  pose proof (li_dfIdx _ _ Hlt) as Hc.
  destruct (reachable_numbered _ _ _ _ s Hres u Hu) as (k' & Hk'c & Huk).
  pose proof (numbered_index _ _ _ _ s Hres k' u Hk'c Huk) as Hk'.
  assert (k' = k) as -> by congruence. clear Hk'.
  split.
  - destruct (decide (k ∈ drop 1 (m_immediateDominators d))) as [Hin | Hnin];
      [intros _ | by intros [? ?]].
    apply list_elem_of_lookup in Hin as [j Hj]. rewrite lookup_drop in Hj.
    set (i := N.of_nat (1 + j)).
    assert (vec_get (m_immediateDominators d) i = Some k) as Hik.
    { unfold vec_get, i. by rewrite Nat2N.id. }
    assert (i < dfIdx s) as Hic.
    { destruct (decide (i < dfIdx s)) as [? | Hge]; [done | exfalso].
      pose proof (vec_get_lt _ _ _ Hik) as Hin.
      rewrite Hi, (li_size_idom _ _ Hlt) in Hin.
      rewrite Hi, (lr_idom_tail _ _ _ _ _ Hres i) in Hik by lia.
      injection Hik as <-. lia. }
    destruct (finishing_idoms _entry n s d Hres Hfi Hi i ltac:(lia)) as (x & Hx & Hidom).
    assert (x = k) as -> by congruence.
    destruct (numbered_vertex _ _ _ _ s Hres i Hic) as [v Hv].
    exists v. split; [by apply (numbered_reachable _ _ _ _ s Hres i) |].
    by apply (is_idom_immediate_dominator _ _ _ _ s Hres i k v u).
  - intros (v & Hv & Himm).
    assert (v ≠ _entry) as Hne.
    { intros ->. destruct Himm as [[Hne Hdom] _].
      specialize (Hdom [] I eq_refl). by apply list_elem_of_singleton in Hdom. }
    destruct (idom_immediate _entry n s d v Hres Hfi Hvs Hidx Hi Hmax Hv Hne)
      as (i & x & u0 & Hic & Hxi & Hvi & Hx & Hu0 & _ & Huniq).
    rewrite (Huniq u Himm) in *. rewrite Hvs in Hu0.
    pose proof (numbered_index _ _ _ _ s Hres x u0 ltac:(lia) Hu0) as Hx'.
    rewrite <- Hidx in Hx'. assert (x = k) as -> by congruence.
    rewrite decide_True; [done |].
    apply list_elem_of_lookup. exists (N.to_nat i - 1)%nat.
    rewrite lookup_drop. unfold vec_get in Hx.
    by replace (1 + (N.to_nat i - 1))%nat with (N.to_nat i) by lia.
Qed.

(** X17: For reachable [a] and [b], [dominates(a, b)] returns true exactly
    when [a] is on every walk from the entry to [b]. *)
Theorem dominates_iff_on_every_walk (_entry : Vertex) (n : N) d (a b : Vertex) :
  Dominator_ctor ForEachSuccessor Vertex_default _entry n = Ok tt d →
  n ≤ SIZE_MAX →
  (reachable ForEachSuccessor _entry Vertex_default → Vertex_default = _entry) →
  reachable ForEachSuccessor _entry a → reachable ForEachSuccessor _entry b →
  ∃ r, dominates a b d = Ok r d ∧
       (r = true ↔ dominates_in_graph ForEachSuccessor _entry a b).
Proof.
  intros Hctor Hmax Hdflt Ha Hb.
  destruct (ctor_state _entry n d Hctor Hmax Hdflt)
    as (s & Hres & Hfi & Hvs & Hidx & Hi & Hinv).
  pose proof (lr_inv _ _ _ _ _ Hres) as Hlt.
  destruct (graph_of_lt_inv n Hmax s Hlt) as (Hpre & Hc & Hpar0 & Harc & Htree).
  destruct (reachable_numbered _ _ _ _ s Hres a Ha) as (ia & Hiac & Hva).
  destruct (reachable_numbered _ _ _ _ s Hres b Hb) as (ib & Hibc & Hvb).
  pose proof (numbered_index _ _ _ _ s Hres ia a Hiac Hva) as Hia.
  pose proof (numbered_index _ _ _ _ s Hres ib b Hibc Hvb) as Hib.
  rewrite <- Hidx in Hia, Hib. rewrite <- Hvs in Hva, Hvb.
  exists (dominates_spec d a b). split.
  - apply (dominates_correct _entry (dfIdx s)); [done | |]; unfold indexed.
    + by rewrite Hia.
    + by rewrite Hib.
  - rewrite (dominates_spec_dom_le _entry (dfIdx s) d a b ia ib) by done.
    rewrite (dom_le_dom_g _entry (parent s) (dfIdx s) (arc (predecessors s)) d
               Hpre Htree Hinv (finishing_idoms _entry n s d Hres Hfi Hi)) by done.
    rewrite Hvs in Hva, Hvb.
    by apply (dom_g_dominates _ _ _ _ s Hres).
Qed.

(** X18: [dominatorsOf(v)], for a reachable vertex [v] other than the entry,
    lists exactly the strict dominators of [v]. *)
Theorem dominatorsOf_lists_strict_dominators (_entry : Vertex) (n : N) d
    (v u : Vertex) :
  Dominator_ctor ForEachSuccessor Vertex_default _entry n = Ok tt d →
  n ≤ SIZE_MAX →
  (reachable ForEachSuccessor _entry Vertex_default → Vertex_default = _entry) →
  reachable ForEachSuccessor _entry v → v ≠ _entry →
  ∃ l, dominatorsOf v d = Ok l d ∧
       (u ∈ l ↔ strictly_dominates ForEachSuccessor _entry u v).
Proof.
  intros Hctor Hmax Hdflt Hv Hne.
  destruct (ctor_state _entry n d Hctor Hmax Hdflt)
    as (s & Hres & Hfi & Hvs & Hidx & Hi & Hinv).
  pose proof (lr_inv _ _ _ _ _ Hres) as Hlt.
  destruct (graph_of_lt_inv n Hmax s Hlt) as (Hpre & Hc & Hpar0 & Harc & Htree).
  pose proof (lr_entry _ _ _ _ _ Hres) as Hentry.
  pose proof (li_dfIdx _ _ Hlt) as Hc0.
  destruct (reachable_numbered _ _ _ _ s Hres v Hv) as (i & Hic & Hvi).
  assert (i ≠ 0) as Hi0 by (intros ->; congruence).
  pose proof (numbered_index _ _ _ _ s Hres i v Hic Hvi) as Hiv.
  rewrite <- Hidx in Hiv.
  destruct (dominatorsOf_correct _entry (dfIdx s) d v i Hinv Hiv) as (l & Hl & Hall).
  exists (_entry :: l). split; [done |].
  pose proof (dominators_idx_sdom_g _entry (parent s) (dfIdx s) (arc (predecessors s)) d
                Hpre Htree Hinv (finishing_idoms _entry n s d Hres Hfi Hi) i) as Hchain.
  rewrite elem_of_cons. split.
  - intros [-> | Hu].
    + apply (sdom_g_strictly_dominates _ _ _ _ s Hres 0 i); [lia | done | done | done |].
      split_and!; [done | done | done].
    + apply list_elem_of_lookup in Hu as [k Hk].
      destruct (Forall2_lookup_l _ _ _ _ _ Hall Hk) as (j & Hj & Huj).
      apply list_elem_of_lookup_2 in Hj.
      pose proof (dominators_idx_bound _entry _ d i j Hinv Hic Hj) as Hjb.
      rewrite Hvs in Huj.
      apply (sdom_g_strictly_dominates _ _ _ _ s Hres j i); [lia | done | done | done |].
      apply Hchain; [done | lia | done].
  - intros Hsd.
    assert (reachable ForEachSuccessor _entry u) as Hru.
    { apply (dominates_in_graph_reachable ForEachSuccessor _entry u v Hv), Hsd. }
    destruct (reachable_numbered _ _ _ _ s Hres u Hru) as (a & Hac & Hua).
    apply (sdom_g_strictly_dominates _ _ _ _ s Hres a i u v) in Hsd; [| done | done | done | done].
    destruct (decide (a = 0)) as [-> | Ha0]; [left; congruence | right].
    apply Hchain in Hsd; [| done | done].
    apply list_elem_of_lookup in Hsd as [k Hk].
    destruct (Forall2_lookup_r _ _ _ _ _ Hall Hk) as (u' & Hu' & Hu'a).
    rewrite Hvs in Hu'a. assert (u' = u) as -> by congruence.
    by eapply list_elem_of_lookup_2.
Qed.

(** X19: When [lengauerTarjanDominator] returns, [semi] holds the
    semidominators: [semi[w]] is the least index from which a walk along
    recorded edges reaches [w] through indices above [w] only. *)
Theorem semi_is_semidominator (_entry : Vertex) (n : N) s (w : N) :
  lt_run ForEachSuccessor (Dominator_init Vertex_default n) _entry n = Ok tt s →
  n ≤ SIZE_MAX →
  (reachable ForEachSuccessor _entry Vertex_default → Vertex_default = _entry) →
  0 < w < dfIdx s →
  ∃ x, vec_get (semi s) w = Some x ∧ is_sdom (arc (predecessors s)) w x.
Proof.
  intros Hrun Hmax Hdflt Hw.
  destruct (lt_run_finishing _entry n s Hrun Hmax Hdflt) as [Hres Hfi].
  exists (semi_at s w). split.
  - apply semi_at_some. rewrite (li_size_semi _ _ (lr_inv _ _ _ _ _ Hres)).
    pose proof (li_dfIdx _ _ (lr_inv _ _ _ _ _ Hres)). lia.
  - apply (fi_semi _ _ _ _ _ Hfi); lia.
Qed.
(** X24: When [lengauerTarjanDominator] returns, [bucket[j]] holds, index 0
    apart, exactly the numbered indices whose semidominator is [j]. *)
Theorem bucket_holds_the_semidominated (_entry : Vertex) (n : N) s (j v : N) :
  lt_run ForEachSuccessor (Dominator_init Vertex_default n) _entry n = Ok tt s →
  n ≤ SIZE_MAX →
  (reachable ForEachSuccessor _entry Vertex_default → Vertex_default = _entry) →
  v ≠ 0 →
  (∃ l, vec_get (bucket s) j = Some l ∧ v ∈ l) ↔
  v < dfIdx s ∧ vec_get (semi s) v = Some j.
Proof.
  intros Hrun Hmax Hdflt Hv0.
  pose proof (lt_run_result ForEachSuccessor Vertex_default _entry n) as Hres.
  rewrite Hrun in Hres. destruct Hres as [Hn Hres].
  pose proof (lr_inv _ _ _ _ _ Hres) as Hinv.
  unfold lt_run, bind, solAssert in Hrun.
  destruct (N.ltb_spec 0 n) as [_ | ?]; [| lia]. simpl in Hrun.
  pose proof (wp_ok _ _ _ _ _ _
    (lt_body_buckets ForEachSuccessor Vertex_default _entry n Hmax Hdflt Hn) Hrun j v Hv0)
    as Hb.
  split.
  - intros (l & Hl & Hv). rewrite <- (bucket_at_get _ _ _ Hl) in Hv.
    apply Hb in Hv as [Hvc Hsv]. split; [done |]. rewrite <- Hsv.
    apply semi_at_some. rewrite (li_size_semi _ _ Hinv).
    pose proof (li_dfIdx _ _ Hinv). lia.
  - intros [Hvc Hsv]. apply semi_at_get in Hsv.
    assert (v ∈ bucket_at s j) as Hv by (by apply Hb).
    unfold bucket_at in Hv. destruct (vec_get (bucket s) j) as [l |]; simpl in Hv.
    + by exists l.
    + by apply elem_of_nil in Hv.
Qed.
End dominance_results.

Section forest_results.
Context {Vertex : Type} `{Countable Vertex}.
Variable n : N.
Implicit Types s : LTState Vertex.

(** X21: [compressPath(v)] on a linked index [v]: it returns, [semi] is
    untouched, the invariant of the forest is kept, and afterwards
    [ancestor[v]] is the root of the tree of [v] and [label[v]] has the least
    [semi] on the tree path from that root (excluded) to [v]. *)
Theorem compressPath_compresses (k v : N) (fuel : nat) s :
  lt_inv n s → n ≤ SIZE_MAX → forest (parent s) (dfIdx s) k s →
  v < dfIdx s → k ≤ v → v ≠ 0 → (N.to_nat v < fuel)%nat →
  ∃ s' r l, compressPath fuel v s = Ok tt s' ∧
    semi s' = semi s ∧ forest (parent s) (dfIdx s) k s' ∧
    vec_get (ancestor s') v = Some r ∧ (r < k ∨ r = 0) ∧
    tree_anc (parent s) r v ∧
    vec_get (label s') v = Some l ∧ r < l ∧ tree_anc (parent s) l v ∧
    ∀ t, r < t → tree_anc (parent s) t v → semi_at s l ≤ semi_at s t.
Proof.
  intros Hinv Hmax Hfo Hv Hk Hv0 Hfuel.
  destruct (graph_of_lt_inv n Hmax s Hinv) as (Hpre & Hc & _).
  pose proof (fo_linked _ _ _ _ Hfo v Hv Hk Hv0) as Hlk.
  pose proof (lk_lt _ _ _ _ Hlk) as Hlt.
  assert (∀ a, vec_get (ancestor s) v = Some a → a ≠ SIZE_MAX) as Hlinked.
  { intros a Ha. apply ancestor_at_get in Ha. lia. }
  pose proof (compressPath_safe n (λ _, False) fuel v s Hinv Hv Hlinked Hfuel) as H1.
  pose proof (compressPath_forest (parent s) (dfIdx s) Hpre Hc k fuel v s Hfo Hv Hk Hv0)
    as H2.
  unfold wp in H1, H2. destruct (compressPath fuel v s) as [[] s' | e]; [| done].
  destruct H1 as [Hinv' Hff]. destruct H2 as (Hfo' & _ & Hroot & _).
  destruct (fo_linked _ _ _ _ Hfo' v Hv Hk Hv0) as [K1 K2 K3 K4 K5 K6].
  assert (∀ t, semi_at s' t = semi_at s t) as Hsemi.
  { intros t. unfold semi_at. by rewrite (ff_semi _ _ Hff). }
  exists s', (ancestor_at s' v), (label_at s' v).
  split_and!; try done.
  - apply (ff_semi _ _ Hff).
  - destruct (vec_get_is_Some (ancestor s') v) as [x Hx].
    { rewrite (li_size_ancestor _ _ Hinv'). pose proof (li_dfIdx _ _ Hinv). lia. }
    by rewrite Hx, (ancestor_at_get _ _ _ Hx).
  - destruct (vec_get_is_Some (label s') v) as [x Hx].
    { rewrite (li_size_label _ _ Hinv'). pose proof (li_dfIdx _ _ Hinv). lia. }
    by rewrite Hx, (label_at_get _ _ _ Hx).
  - intros t Ht Htv. rewrite <- !Hsemi. by apply K6.
Qed.

(** X22: [eval(v)]: it returns, [semi] is untouched and the invariant of
    the forest is kept; for a root [v] the result is [v] and nothing
    changes; for a linked [v] the result is a linked ancestor of [v] whose
    [semi] is least among the linked ancestors of [v]. *)
Theorem eval_finds_least_semi (k v : N) s :
  lt_inv n s → n ≤ SIZE_MAX → forest (parent s) (dfIdx s) k s → v < dfIdx s →
  ∃ u s', eval v s = Ok u s' ∧
    semi s' = semi s ∧ forest (parent s) (dfIdx s) k s' ∧
    (v < k ∨ v = 0 → u = v ∧ s' = s) ∧
    (k ≤ v → v ≠ 0 →
     k ≤ u ∧ u ≠ 0 ∧ tree_anc (parent s) u v ∧
     ∀ t, k ≤ t → t ≠ 0 → tree_anc (parent s) t v → semi_at s u ≤ semi_at s t).
Proof.
  intros Hinv Hmax Hfo Hv.
  destruct (graph_of_lt_inv n Hmax s Hinv) as (Hpre & Hc & _).
  pose proof (eval_safe n (λ _, False) v s Hinv Hv) as H1.
  pose proof (eval_forest (parent s) (dfIdx s) Hpre Hc k v s Hfo Hv) as H2.
  unfold wp in H1, H2. destruct (eval v s) as [u s' | e]; [| done].
  destruct H1 as (_ & Hff & _). destruct H2 as (Hfo' & _ & [Hres1 Hres2] & Hsame).
  exists u, s'. split_and!; try done.
  - apply (ff_semi _ _ Hff).
  - intros Hr. split; [by apply Hres1 | by apply Hsame].
Qed.
End forest_results.

(** ** The results on the diamond *)

Lemma diamond_state_run :
  lt_run diamond (Dominator_init "" 5) "entry" 5 = Ok tt diamond_state.
Proof. vm_compute. reflexivity. Qed.

Lemma diamond_default_harmless : reachable diamond "entry" "" → "" = "entry".
Proof. intros Hr. destruct (diamond_default_unreachable Hr). Qed.

Lemma diamond_D_reachable : reachable diamond "entry" "D".
Proof.
  apply diamond_vertices_reachable. apply (bool_decide_unpack _). vm_compute. reflexivity.
Qed.

Lemma diamond_B_reachable : reachable diamond "entry" "B".
Proof.
  apply diamond_vertices_reachable. apply (bool_decide_unpack _). vm_compute. reflexivity.
Qed.

Lemma idom_is_immediate_dominator_witness :
  ∃ i x u, m_vertexIndices diamond_dominator !! "D" = Some i ∧
           vec_get (m_immediateDominators diamond_dominator) i = Some x ∧
           vec_get (m_vertices diamond_dominator) x = Some u ∧
           immediate_dominator diamond "entry" u "D" ∧
           ∀ u', immediate_dominator diamond "entry" u' "D" → u' = u.
Proof.
  apply (idom_is_immediate_dominator diamond "" "entry" 5).
  - apply diamond_dominator_built.
  - vm_compute. discriminate.
  - apply diamond_default_harmless.
  - apply diamond_D_reachable.
  - discriminate.
Defined.

Lemma dominates_iff_on_every_walk_witness :
  ∃ r, dominates "B" "D" diamond_dominator = Ok r diamond_dominator ∧
       (r = true ↔ dominates_in_graph diamond "entry" "B" "D").
Proof.
  apply (dominates_iff_on_every_walk diamond "" "entry" 5).
  - apply diamond_dominator_built.
  - vm_compute. discriminate.
  - apply diamond_default_harmless.
  - apply diamond_B_reachable.
  - apply diamond_D_reachable.
Defined.

Lemma dominatorsOf_lists_strict_dominators_witness :
  ∃ l, dominatorsOf "D" diamond_dominator = Ok l diamond_dominator ∧
       ("entry" ∈ l ↔ strictly_dominates diamond "entry" "entry" "D").
Proof.
  apply (dominatorsOf_lists_strict_dominators diamond "" "entry" 5).
  - apply diamond_dominator_built.
  - vm_compute. discriminate.
  - apply diamond_default_harmless.
  - apply diamond_D_reachable.
  - discriminate.
Defined.

Lemma semi_is_semidominator_witness :
  ∃ x, vec_get (semi diamond_state) 2 = Some x ∧
       is_sdom (arc (predecessors diamond_state)) 2 x.
Proof.
  apply (semi_is_semidominator diamond "" "entry" 5).
  - apply diamond_state_run.
  - vm_compute. discriminate.
  - apply diamond_default_harmless.
  - vm_compute. split; reflexivity.
Defined.

Lemma dominatorTree_keys_witness :
  is_Some (m_dominatorTree diamond_dominator !! 0) ↔
  ∃ v, reachable diamond "entry" v ∧ immediate_dominator diamond "entry" "entry" v.
Proof.
  apply (dominatorTree_keys diamond "" "entry" 5).
  - apply diamond_dominator_built.
  - vm_compute. discriminate.
  - apply diamond_default_harmless.
  - apply rtc_refl.
  - vm_compute. reflexivity.
Defined.

Lemma bucket_holds_the_semidominated_witness :
  (∃ l, vec_get (bucket diamond_state) 0 = Some l ∧ 2 ∈ l) ↔
  2 < dfIdx diamond_state ∧ vec_get (semi diamond_state) 2 = Some 0.
Proof.
  apply (bucket_holds_the_semidominated diamond "" "entry" 5).
  - apply diamond_state_run.
  - vm_compute. discriminate.
  - apply diamond_default_harmless.
  - discriminate.
Defined.

(** ** Path compression on the chain *)

Lemma chain4_linked_forest :
  lt_inv 5 chain4_linked ∧
  forest (parent chain4_linked) (dfIdx chain4_linked) 1 chain4_linked.
Proof.
  apply (reverse_pass_from_forest chain4 "" "entry" 5 1 chain4_searched).
  - vm_compute. reflexivity.
  - vm_compute. discriminate.
  - intros i Hi. vm_compute in Hi. discriminate.
  - vm_compute. discriminate.
  - vm_compute. reflexivity.
Qed.

Lemma compressPath_compresses_witness :
  (vec_get (ancestor chain4_linked) 3 = Some 2 ∧
   vec_get (ancestor chain4_linked) 2 = Some 1 ∧
   vec_get (ancestor chain4_linked) 1 = Some 0 ∧
   vec_get (label chain4_linked) 3 = Some 3) ∧
  (∃ s' r l, compressPath 5 3 chain4_linked = Ok tt s' ∧
    semi s' = semi chain4_linked ∧
    forest (parent chain4_linked) (dfIdx chain4_linked) 1 s' ∧
    vec_get (ancestor s') 3 = Some r ∧ (r < 1 ∨ r = 0) ∧
    tree_anc (parent chain4_linked) r 3 ∧
    vec_get (label s') 3 = Some l ∧ r < l ∧ tree_anc (parent chain4_linked) l 3 ∧
    ∀ t, r < t → tree_anc (parent chain4_linked) t 3 →
         semi_at chain4_linked l ≤ semi_at chain4_linked t) ∧
  (∃ s', compressPath 5 3 chain4_linked = Ok tt s' ∧
    vec_get (ancestor s') 3 = Some 0 ∧ vec_get (ancestor s') 2 = Some 0 ∧
    vec_get (label s') 3 = Some 1).
Proof.
  split_and!.
  - vm_compute. reflexivity.
  - vm_compute. reflexivity.
  - vm_compute. reflexivity.
  - vm_compute. reflexivity.
  - apply (compressPath_compresses 5 1 3 5 chain4_linked).
    + apply chain4_linked_forest.
    + vm_compute. discriminate.
    + apply chain4_linked_forest.
    + vm_compute. reflexivity.
    + vm_compute. discriminate.
    + discriminate.
    + vm_compute. lia.
  - eexists. split_and!; vm_compute; reflexivity.
Defined.

Lemma eval_finds_least_semi_witness :
  (vec_get (ancestor chain4_linked) 3 = Some 2 ∧
   vec_get (ancestor chain4_linked) 2 = Some 1 ∧
   vec_get (ancestor chain4_linked) 1 = Some 0 ∧
   vec_get (label chain4_linked) 3 = Some 3) ∧
  (∃ u s', eval 3 chain4_linked = Ok u s' ∧
    semi s' = semi chain4_linked ∧
    forest (parent chain4_linked) (dfIdx chain4_linked) 1 s' ∧
    (3 < 1 ∨ 3 = 0 → u = 3 ∧ s' = chain4_linked) ∧
    (1 ≤ 3 → 3 ≠ 0 →
     1 ≤ u ∧ u ≠ 0 ∧ tree_anc (parent chain4_linked) u 3 ∧
     ∀ t, 1 ≤ t → t ≠ 0 → tree_anc (parent chain4_linked) t 3 →
          semi_at chain4_linked u ≤ semi_at chain4_linked t)) ∧
  (∃ s', eval 3 chain4_linked = Ok 1 s' ∧
    vec_get (ancestor s') 3 = Some 0 ∧ vec_get (label s') 3 = Some 1 ∧
    s' ≠ chain4_linked).
Proof.
  split_and!.
  - vm_compute. reflexivity.
  - vm_compute. reflexivity.
  - vm_compute. reflexivity.
  - vm_compute. reflexivity.
  - apply (eval_finds_least_semi 5 1 3 chain4_linked).
    + apply chain4_linked_forest.
    + vm_compute. discriminate.
    + apply chain4_linked_forest.
    + vm_compute. reflexivity.
  - eexists. split_and!; [vm_compute; reflexivity ..|].
    intros Heq. apply (f_equal (λ s, vec_get (ancestor s) 3)) in Heq.
    vm_compute in Heq. discriminate.
Defined.

(** ** A reachable value-initialised vertex *)

(** X23: The assumption on the value-initialised vertex is needed: on the
    chain entry -> x -> C whose middle vertex x is the value-initialised
    one, built with one spare slot, the constructor returns, x is on every
    walk from the entry to C, and yet [immediateDominators()] gives the
    entry for C and [dominates(x, C)] returns false. *)
Theorem reachable_default_vertex_breaks_dominates :
  Dominator_ctor chain3_default "" "entry" 4 = Ok tt chain3_default_dominator ∧
  reachable chain3_default "entry" "" ∧
  reachable chain3_default "entry" "C" ∧
  dominates_in_graph chain3_default "entry" "" "C" ∧
  m_vertexIndices chain3_default_dominator !! "C" = Some 2 ∧
  vec_get (m_immediateDominators chain3_default_dominator) 2 = Some 0 ∧
  dominates "" "C" chain3_default_dominator = Ok false chain3_default_dominator.
Proof.
  assert (edge chain3_default "entry" "") as H1 by (vm_compute; left).
  assert (edge chain3_default "" "C") as H2 by (vm_compute; left).
  split_and!.
  - vm_compute. reflexivity.
  - by apply rtc_once.
  - eapply rtc_l; [exact H1 |]. by apply rtc_once.
  - intros l Hw Hlast. destruct l as [|y l]; [discriminate |].
    destruct Hw as [Hy _]. vm_compute in Hy.
    apply list_elem_of_singleton in Hy as ->. right. left.
  - vm_compute. reflexivity.
  - vm_compute. reflexivity.
  - vm_compute. reflexivity.
Qed.
